(** * LevelDB core: a shallow embedding and its verified properties

    The development follows the layout of the sources:
    - [crc32c]      util/crc32c.h      (CRC masking)
    - [Bloom]       util/bloom.cc      (the built-in Bloom filter policy)
    - [Arena]       util/arena.{h,cc}  (bump allocator)
    - [Merger]      table/merger.cc    (k-way merging iterator)
    - [LogReader]   db/log_reader.cc   (write-ahead-log reader)
    - [LRU]         util/cache.cc      (one shard of the LRU cache)
    - [TableCache]  db/table_cache.cc  (cache of open tables)
    - [Coding]      util/coding.h      (fixed-width integers)
    - [DBFormat]    db/dbformat.h      (internal keys)
    - [Random]      util/random.h      (pseudo-random numbers)
    - [HandleTable] util/cache.cc      (the hash table of a shard)
    - [TwoLevel]    table/two_level_iterator.cc
    - [FilterBlock] table/filter_block.cc
    - [SkipList]    db/skiplist.h

    The modules [crc32cProofs], [LRUFacts], [ArenaAligned], [ArenaProofs],
    [TableCacheMore], [TableCacheFacts], [BloomFacts], [MergerFacts] and
    [LogReaderFacts] carry further properties of the modules above.

    Fixed-width unsigned integers are integers of [Z] whose wrap-around is
    written out with [wrap32] / [wrap64]. *)

From Stdlib Require Import ZArith Lia List Bool Reals Lra Floats Sorted String.
From Stdlib Require Import Sorting Permutation Znumtheory.
From stdpp Require Import base numbers list list_tactics gmap pretty.

#[local] Open Scope Z_scope.

(** ** Machine integers *)

Definition wrap32 (x : Z) : Z := x mod 2 ^ 32.
Definition wrap64 (x : Z) : Z := x mod 2 ^ 64.

Lemma wrap32_range x : 0 <= wrap32 x < 2 ^ 32.
Proof. unfold wrap32. apply Z.mod_pos_bound. lia. Qed.

Lemma wrap64_range x : 0 <= wrap64 x < 2 ^ 64.
Proof. unfold wrap64. apply Z.mod_pos_bound. lia. Qed.

Lemma wrap32_small x : 0 <= x < 2 ^ 32 -> wrap32 x = x.
Proof. intros. unfold wrap32. apply Z.mod_small. lia. Qed.

Lemma wrap64_small x : 0 <= x < 2 ^ 64 -> wrap64 x = x.
Proof. intros. unfold wrap64. apply Z.mod_small. lia. Qed.

Lemma testbit_above32 x i : 0 <= x < 2 ^ 32 -> 32 <= i -> Z.testbit x i = false.
Proof.
  intros Hx Hi. rewrite <- (Z.mod_small x (2 ^ 32)) by lia.
  apply Z.mod_pow2_bits_high. lia.
Qed.

(** Bit [i] of a 32-bit truncation. *)
Lemma wrap32_testbit x i :
  0 <= i -> Z.testbit (wrap32 x) i = (i <? 32) && Z.testbit x i.
Proof.
  intros Hi. unfold wrap32. destruct (Z.ltb_spec i 32).
  - rewrite Z.mod_pow2_bits_low by lia. reflexivity.
  - rewrite Z.mod_pow2_bits_high by lia. reflexivity.
Qed.

(* ===================================================================== *)
(** ** util/crc32c.h : masking of stored CRCs *)
(* ===================================================================== *)

Module crc32c.

Definition kMaskDelta : Z := 0xa282ead8.

(** [return ((crc >> 15) | (crc << 17)) + kMaskDelta;] on [uint32_t]. *)
Definition Mask (crc : Z) : Z :=
  wrap32 (Z.lor (Z.shiftr crc 15) (wrap32 (Z.shiftl crc 17)) + kMaskDelta).

(** [uint32_t rot = masked_crc - kMaskDelta;
     return ((rot >> 17) | (rot << 15));] *)
Definition Unmask (masked_crc : Z) : Z :=
  let rot := wrap32 (masked_crc - kMaskDelta) in
  Z.lor (Z.shiftr rot 17) (wrap32 (Z.shiftl rot 15)).

(** The rotation the specification speaks of, written arithmetically:
    the low [n] bits of a 32-bit word move to the top. *)
Definition rot_right (c n : Z) : Z :=
  c / 2 ^ n + (c mod 2 ^ n) * 2 ^ (32 - n).

(** The two shift-or expressions of the source, as functions. *)
Definition ror15 (c : Z) : Z := Z.lor (Z.shiftr c 15) (wrap32 (Z.shiftl c 17)).
Definition rol15 (r : Z) : Z := Z.lor (Z.shiftr r 17) (wrap32 (Z.shiftl r 15)).

Lemma ror15_testbit c i :
  0 <= c < 2 ^ 32 -> 0 <= i ->
  Z.testbit (ror15 c) i =
  if i <? 17 then Z.testbit c (i + 15)
  else if i <? 32 then Z.testbit c (i - 17) else false.
Proof.
  intros Hc Hi. unfold ror15.
  rewrite Z.lor_spec, Z.shiftr_spec, wrap32_testbit by lia.
  destruct (Z.ltb_spec i 17); destruct (Z.ltb_spec i 32); try lia; simpl.
  - rewrite Z.shiftl_spec_low by lia. apply orb_false_r.
  - rewrite Z.shiftl_spec by lia. rewrite (testbit_above32 c (i + 15)) by lia.
    reflexivity.
  - rewrite (testbit_above32 c (i + 15)) by lia. reflexivity.
Qed.

Lemma ror15_range c : 0 <= c < 2 ^ 32 -> 0 <= ror15 c < 2 ^ 32.
Proof.
  intros Hc.
  assert (Hnn : 0 <= ror15 c).
  { unfold ror15. apply Z.lor_nonneg. split.
    - apply Z.shiftr_nonneg. lia.
    - apply wrap32_range. }
  split; [exact Hnn|].
  destruct (Z.eq_dec (ror15 c) 0) as [->|Hne]; [lia|].
  apply Z.log2_lt_pow2; [lia|].
  destruct (Z.lt_ge_cases (Z.log2 (ror15 c)) 32) as [?|Hge]; [assumption|].
  exfalso.
  pose proof (Z.bit_log2 (ror15 c) ltac:(lia)) as Hb.
  rewrite ror15_testbit in Hb by lia.
  destruct (Z.ltb_spec (Z.log2 (ror15 c)) 17); [lia|].
  destruct (Z.ltb_spec (Z.log2 (ror15 c)) 32); [lia|discriminate].
Qed.

Lemma rol15_ror15 c : 0 <= c < 2 ^ 32 -> rol15 (ror15 c) = c.
Proof.
  intros Hc. pose proof (ror15_range c Hc) as Hr.
  apply Z.bits_inj'. intros i Hi. unfold rol15.
  rewrite Z.lor_spec, Z.shiftr_spec, wrap32_testbit by lia.
  destruct (Z.ltb_spec i 32); simpl.
  - destruct (Z.lt_ge_cases i 15).
    + rewrite Z.shiftl_spec_low by lia. rewrite orb_false_r.
      rewrite ror15_testbit by lia.
      destruct (Z.ltb_spec (i + 17) 17); [lia|].
      destruct (Z.ltb_spec (i + 17) 32); [|lia].
      f_equal. lia.
    + rewrite Z.shiftl_spec by lia.
      rewrite (testbit_above32 (ror15 c) (i + 17)) by lia. simpl.
      rewrite ror15_testbit by lia.
      destruct (Z.ltb_spec (i - 15) 17); [|lia].
      f_equal. lia.
  - rewrite (testbit_above32 (ror15 c) (i + 17)) by lia.
    rewrite (testbit_above32 c i) by lia. reflexivity.
Qed.

(** The shift-or expression is the arithmetic rotation. *)
Lemma ror15_rot_right c : 0 <= c < 2 ^ 32 -> ror15 c = rot_right c 15.
Proof.
  intros Hc. unfold ror15, rot_right.
  rewrite Z.shiftr_div_pow2, Z.shiftl_mul_pow2 by lia.
  assert (Hhi : wrap32 (c * 2 ^ 17) = (c mod 2 ^ 15) * 2 ^ 17).
  { unfold wrap32.
    replace (2 ^ 32) with (2 ^ 15 * 2 ^ 17) by reflexivity.
    rewrite Z.mul_mod_distr_r by lia. reflexivity. }
  rewrite Hhi. change (32 - 15) with 17.
  assert (Hdisj : Z.land (c / 2 ^ 15) (c mod 2 ^ 15 * 2 ^ 17) = 0).
  { apply Z.bits_inj'. intros i Hi.
    rewrite Z.land_spec, Z.bits_0.
    rewrite <- Z.shiftl_mul_pow2, <- Z.shiftr_div_pow2 by lia.
    destruct (Z.lt_ge_cases i 17).
    - rewrite (Z.shiftl_spec_low _ 17 i) by lia. apply andb_false_r.
    - rewrite Z.shiftr_spec by lia.
      rewrite (testbit_above32 c (i + 15)) by lia. reflexivity. }
  rewrite <- Z.lxor_lor by exact Hdisj.
  symmetry. apply Z.add_nocarry_lxor. exact Hdisj.
Qed.

(** C2. For every 32-bit [c], [Mask c] is the right rotation by 15 plus
    [0xa282ead8] modulo 2^32, and [Unmask (Mask c) = c]. *)
Theorem Unmask_Mask (c : Z) :
  0 <= c < 2 ^ 32 ->
  Mask c = wrap32 (rot_right c 15 + 0xa282ead8) /\ Unmask (Mask c) = c.
Proof.
  intros Hc. pose proof (ror15_range c Hc) as Hr. split.
  - unfold Mask. fold (ror15 c). rewrite ror15_rot_right by assumption.
    reflexivity.
  - unfold Unmask, Mask. fold (ror15 c).
    assert (Hrot : wrap32 (wrap32 (ror15 c + kMaskDelta) - kMaskDelta) = ror15 c).
    { unfold wrap32. rewrite Zminus_mod_idemp_l.
      replace (ror15 c + kMaskDelta - kMaskDelta) with (ror15 c) by lia.
      apply Z.mod_small. lia. }
    rewrite Hrot. cbv zeta. fold (rol15 (ror15 c)). apply rol15_ror15. assumption.
Qed.

Lemma Unmask_Mask_witness :
  Mask 0x12345678 = wrap32 (rot_right 0x12345678 15 + 0xa282ead8)
  /\ Unmask (Mask 0x12345678) = 0x12345678.
Proof. apply (Unmask_Mask 0x12345678). vm_compute. split; [discriminate | reflexivity]. Defined.

End crc32c.

(* ===================================================================== *)
(** ** Rational bounds on [ln 2], used to compare the code's constant 0.69
       with the logarithm the specification names *)
(* ===================================================================== *)

Module Ln2.
#[local] Open Scope R_scope.

Lemma Rle_div_intro (a b c : R) : 0 < c -> a * c <= b -> a <= b / c.
Proof.
  intros Hc H. apply (Rmult_le_reg_r c); [assumption|].
  unfold Rdiv. rewrite Rmult_assoc, Rinv_l by lra. lra.
Qed.

Lemma exp_INR_mul (n : nat) (x : R) : exp (INR n * x) = exp x ^ n.
Proof.
  induction n as [|n IH].
  - simpl. rewrite Rmult_0_l. apply exp_0.
  - rewrite S_INR, Rmult_plus_distr_r, Rmult_1_l, exp_plus, IH. simpl. ring.
Qed.

(** [p / q <= ln 2] from an integer inequality: with [x = p / (q N)],
    [exp (- x) >= 1 - x], hence [exp (- p / q) >= (1 - x) ^ N >= 1 / 2]. *)
Lemma ln2_lower (p q : Z) (N : nat) :
  (0 < p)%Z -> (0 < q)%Z -> (p < q * Z.of_nat N)%Z ->
  ((q * Z.of_nat N) ^ Z.of_nat N <= 2 * (q * Z.of_nat N - p) ^ Z.of_nat N)%Z ->
  IZR p / IZR q <= ln 2.
Proof.
  intros Hp Hq HpN Hpow.
  set (d := IZR (q * Z.of_nat N)).
  assert (Hd : 0 < d) by (apply IZR_lt; lia).
  assert (HN : 0 < INR N) by (apply lt_0_INR; lia).
  assert (HdN : d = IZR q * INR N).
  { unfold d. rewrite mult_IZR, <- INR_IZR_INZ. reflexivity. }
  assert (Hq' : 0 < IZR q) by (apply IZR_lt; lia).
  assert (Hp' : 0 < IZR p) by (apply IZR_lt; lia).
  set (x := IZR p / d).
  assert (Hx : 0 < x) by (unfold x; apply Rdiv_lt_0_compat; assumption).
  assert (H1 : 1 - x < exp (- x)).
  { pose proof (exp_ineq1 (- x) ltac:(lra)). lra. }
  assert (Hfrac : 1 - x = IZR (q * Z.of_nat N - p) / d).
  { unfold x. rewrite minus_IZR. fold d. field. lra. }
  assert (H1x : 0 <= 1 - x).
  { rewrite Hfrac. apply Rlt_le, Rdiv_lt_0_compat; [apply IZR_lt; lia | assumption]. }
  assert (Hexp : exp (- (IZR p / IZR q)) = exp (- x) ^ N).
  { rewrite <- exp_INR_mul. f_equal. unfold x. rewrite HdN. field. lra. }
  assert (Hhalf : / 2 <= (1 - x) ^ N).
  { rewrite Hfrac. unfold d, Rdiv. rewrite Rpow_mult_distr, pow_inv.
    rewrite !pow_IZR.
    fold (IZR ((q * Z.of_nat N - p) ^ Z.of_nat N) / IZR ((q * Z.of_nat N) ^ Z.of_nat N)).
    assert (0 < IZR ((q * Z.of_nat N) ^ Z.of_nat N)).
    { apply IZR_lt. apply Z.pow_pos_nonneg; lia. }
    assert (Hz : IZR ((q * Z.of_nat N) ^ Z.of_nat N)
                 <= 2 * IZR ((q * Z.of_nat N - p) ^ Z.of_nat N)).
    { rewrite <- mult_IZR. apply IZR_le. exact Hpow. }
    apply Rle_div_intro; [assumption|].
    generalize dependent (IZR ((q * Z.of_nat N) ^ Z.of_nat N)).
    generalize (IZR ((q * Z.of_nat N - p) ^ Z.of_nat N)).
    intros; lra. }
  assert (Hge : / 2 <= exp (- (IZR p / IZR q))).
  { rewrite Hexp. eapply Rle_trans; [exact Hhalf|].
    apply pow_incr. lra. }
  rewrite exp_Ropp in Hge.
  assert (He : exp (IZR p / IZR q) <= 2).
  { pose proof (exp_pos (IZR p / IZR q)) as Hpos.
    apply Rinv_le_contravar in Hge; [|lra].
    rewrite Rinv_inv in Hge. rewrite Rinv_inv in Hge. exact Hge. }
  rewrite <- (ln_exp (IZR p / IZR q)).
  destruct He as [He|He].
  - apply Rlt_le, ln_increasing; [apply exp_pos | exact He].
  - rewrite He. lra.
Qed.

(** [ln 2 <= p / q], from [exp x >= 1 + x] at [x = p / (q N)]. *)
Lemma ln2_upper (p q : Z) (N : nat) :
  (0 < p)%Z -> (0 < q)%Z -> (0 < N)%nat ->
  (2 * (q * Z.of_nat N) ^ Z.of_nat N <= (q * Z.of_nat N + p) ^ Z.of_nat N)%Z ->
  ln 2 <= IZR p / IZR q.
Proof.
  intros Hp Hq HN0 Hpow.
  set (d := IZR (q * Z.of_nat N)).
  assert (Hd : 0 < d) by (apply IZR_lt; lia).
  assert (HN : 0 < INR N) by (apply lt_0_INR; lia).
  assert (HdN : d = IZR q * INR N).
  { unfold d. rewrite mult_IZR, <- INR_IZR_INZ. reflexivity. }
  assert (Hq' : 0 < IZR q) by (apply IZR_lt; lia).
  assert (Hp' : 0 < IZR p) by (apply IZR_lt; lia).
  set (x := IZR p / d).
  assert (Hx : 0 < x) by (unfold x; apply Rdiv_lt_0_compat; assumption).
  assert (H1 : 1 + x < exp x).
  { apply exp_ineq1. lra. }
  assert (Hfrac : 1 + x = IZR (q * Z.of_nat N + p) / d).
  { unfold x. rewrite plus_IZR. fold d. field. lra. }
  assert (Hexp : exp (IZR p / IZR q) = exp x ^ N).
  { rewrite <- exp_INR_mul. f_equal. unfold x. rewrite HdN. field. lra. }
  assert (Htwo : 2 <= (1 + x) ^ N).
  { rewrite Hfrac. unfold d, Rdiv. rewrite Rpow_mult_distr, pow_inv.
    rewrite !pow_IZR.
    assert (0 < IZR ((q * Z.of_nat N) ^ Z.of_nat N)).
    { apply IZR_lt. apply Z.pow_pos_nonneg; lia. }
    assert (Hz : 2 * IZR ((q * Z.of_nat N) ^ Z.of_nat N)
                 <= IZR ((q * Z.of_nat N + p) ^ Z.of_nat N)).
    { rewrite <- mult_IZR. apply IZR_le. exact Hpow. }
    fold (IZR ((q * Z.of_nat N + p) ^ Z.of_nat N) / IZR ((q * Z.of_nat N) ^ Z.of_nat N)).
    apply Rle_div_intro; [assumption|]. exact Hz. }
  assert (Hge : 2 <= exp (IZR p / IZR q)).
  { rewrite Hexp. eapply Rle_trans; [exact Htwo|].
    apply pow_incr. lra. }
  rewrite <- (ln_exp (IZR p / IZR q)).
  destruct Hge as [He|He].
  - apply Rlt_le, ln_increasing; [lra | exact He].
  - rewrite <- He. lra.
Qed.

Lemma ln2_ge_9_13 : 9 / 13 <= ln 2.
Proof. apply (ln2_lower 9 13 512); [lia | lia | lia | vm_compute; discriminate]. Qed.

Lemma ln2_le_713 : ln 2 <= 713 / 1000.
Proof. apply (ln2_upper 713 1000 16); [lia | lia | lia | vm_compute; discriminate]. Qed.
End Ln2.

(* ===================================================================== *)
(** ** util/bloom.cc : the built-in Bloom filter policy *)
(* ===================================================================== *)

Module Bloom.

(** A [Slice] and a [std::string] are sequences of [char]; a [char] is kept
    as its unsigned value in [0, 256). *)
Abbreviation Slice := (list Z).

Record BloomFilterPolicy := {
  bits_per_key_ : Z;   (* size_t *)
  k_ : Z               (* size_t *)
}.

(** [static_cast<size_t>(bits_per_key * 0.69)].  The product is taken with
    the decimal constant 69/100 and truncated toward zero; converting a
    value below zero to [size_t] is undefined, which is [None] here.
    ([probes_binary64] below is the same computation on binary64 doubles.) *)
Definition probes_raw (bits_per_key : Z) : option Z :=
  let t := Z.quot (bits_per_key * 69) 100 in
  if t <? 0 then None else Some t.

(** [if (k_ < 1) k_ = 1;  if (k_ > 30) k_ = 30;] *)
Definition clamp_probes (k : Z) : Z :=
  let k := if k <? 1 then 1 else k in
  if 30 <? k then 30 else k.

(** The same product on IEEE binary64, as the compiled code computes it:
    [int] to [double], one rounded multiplication by the double nearest to
    0.69, truncation toward zero. *)
Definition double_of_int (z : Z) : float :=
  if z <? 0 then PrimFloat.opp (PrimFloat.of_uint63 (Uint63.of_Z (- z)))
  else PrimFloat.of_uint63 (Uint63.of_Z z).

Definition size_t_of_double (f : float) : option Z :=
  match Prim2SF f with
  | S754_zero _ => Some 0
  | S754_finite false m e =>
      Some (if 0 <=? e then Z.pos m * 2 ^ e else Z.pos m / 2 ^ (- e))
  | S754_finite true m e =>
      if 0 <=? e then None
      else if Z.pos m / 2 ^ (- e) =? 0 then Some 0 else None
  | _ => None
  end.

Definition probes_binary64 (bits_per_key : Z) : option Z :=
  size_t_of_double
    (PrimFloat.mul (double_of_int bits_per_key) 0x1.6147ae147ae14p-1%float).

(** The constructor [BloomFilterPolicy(int bits_per_key)]. *)
Definition NewBloomFilterPolicy (bits_per_key : Z) : option BloomFilterPolicy :=
  match probes_raw bits_per_key with
  | None => None
  | Some k =>
      Some {| bits_per_key_ := wrap64 bits_per_key; k_ := clamp_probes k |}
  end.

(** [array[i] |= m] on a [char] array; an index outside the array is left
    alone here (the source never produces one, see [set_probe_in_range]). *)
Definition or_byte (m : Z) (i : nat) (s : list Z) : list Z :=
  alter (fun b => Z.lor b m mod 256) i s.

(** [const size_t k = array[len - 1];] with [char] signed. *)
Definition size_t_of_char (c : Z) : Z :=
  if c <? 128 then c else wrap64 (c - 256).

Section WithHash.

(** [Hash(data, n, seed)] of util/hash.h, which returns a [uint32_t]. *)
Variable Hash : Slice -> Z -> Z.

Definition BloomHash (key : Slice) : Z := wrap32 (Hash key 0xbc9f1d34).

(** [(h >> 17) | (h << 15)] on [uint32_t]. *)
Definition rotate17 (h : Z) : Z :=
  Z.lor (Z.shiftr h 17) (wrap32 (Z.shiftl h 15)).

(** The body of [for (size_t j = 0; j < k_; j++)] in [CreateFilter],
    run [j] more times; [base] is [init_size], the offset of [array]
    in [dst]. *)
Fixpoint set_probes (j : nat) (bits h delta : Z) (base : nat) (dst : list Z)
  : list Z :=
  match j with
  | O => dst
  | S j' =>
      let bitpos := wrap32 (h mod bits) in
      let dst := or_byte (Z.shiftl 1 (bitpos mod 8))
                         (base + Z.to_nat (bitpos / 8)) dst in
      set_probes j' bits (wrap32 (h + delta)) delta base dst
  end.

(** The loop [for (int i = 0; i < n; i++)] over the keys. *)
Fixpoint add_keys (keys : list Slice) (k bits : Z) (base : nat) (dst : list Z)
  : list Z :=
  match keys with
  | [] => dst
  | key :: rest =>
      let h := BloomHash key in
      let delta := rotate17 h in
      add_keys rest k bits base (set_probes (Z.to_nat k) bits h delta base dst)
  end.

(** The size in bytes of the filter body for [n] keys. *)
Definition filter_bytes (p : BloomFilterPolicy) (n : Z) : Z :=
  let bits := wrap64 (n * bits_per_key_ p) in
  let bits := if bits <? 64 then 64 else bits in
  wrap64 (bits + 7) / 8.

Definition CreateFilter (p : BloomFilterPolicy) (keys : list Slice)
           (dst : list Z) : list Z :=
  let n := Z.of_nat (length keys) in
  let bytes := filter_bytes p n in
  let bits := wrap64 (bytes * 8) in
  let init_size := length dst in
  let dst := dst ++ repeat 0 (Z.to_nat bytes) in        (* resize *)
  let dst := dst ++ [k_ p mod 256] in                   (* push_back *)
  add_keys keys (k_ p) bits init_size dst.

(** The probe loop of [KeyMayMatch]. *)
Fixpoint check_probes (j : nat) (bits h delta : Z) (array : list Z) : bool :=
  match j with
  | O => true
  | S j' =>
      let bitpos := wrap32 (h mod bits) in
      if Z.land (nth (Z.to_nat (bitpos / 8)) array 0)
                (Z.shiftl 1 (bitpos mod 8)) =? 0
      then false
      else check_probes j' bits (wrap32 (h + delta)) delta array
  end.

Definition KeyMayMatch (p : BloomFilterPolicy) (key : Slice)
           (bloom_filter : list Z) : bool :=
  let len := Z.of_nat (length bloom_filter) in
  if len <? 2 then false
  else
    let bits := wrap64 ((len - 1) * 8) in
    let k := size_t_of_char (nth (Z.to_nat (len - 1)) bloom_filter 0) in
    if 30 <? k then true
    else
      let h := BloomHash key in
      let delta := rotate17 h in
      check_probes (Z.to_nat k) bits h delta bloom_filter.

End WithHash.

End Bloom.

(** *** Properties of the Bloom filter policy *)

Module BloomProofs.
Import Bloom.

(** The specification's formula for the number of probes:
    [round_down(bits_per_key * ln 2)], clamped to [1, 30]. *)
Definition probes_spec (bits_per_key : Z) : Z :=
  clamp_probes (Zfloor (IZR bits_per_key * ln 2)).

(** The same with the decimal constant of the source in place of [ln 2]. *)
Definition probes_decimal (bits_per_key : Z) : Z :=
  clamp_probes (Zfloor (IZR bits_per_key * (69 / 100))).

(** Agreement of the binary64 computation with the decimal one, after the
    clamp, on a run of [n] consecutive arguments from [lo]. *)
Definition binary64_agrees (b : Z) : bool :=
  match probes_binary64 b, probes_raw b with
  | Some x, Some y => clamp_probes x =? clamp_probes y
  | None, None => true
  | _, _ => false
  end.

Fixpoint binary64_agrees_from (lo : Z) (n : nat) : bool :=
  match n with
  | O => true
  | S n' => binary64_agrees lo && binary64_agrees_from (lo + 1) n'
  end.

Lemma binary64_agrees_from_spec lo n b :
  binary64_agrees_from lo n = true ->
  lo <= b < lo + Z.of_nat n -> binary64_agrees b = true.
Proof.
  revert lo. induction n as [|n IH]; intros lo Hall Hb; [lia|].
  simpl in Hall. apply andb_true_iff in Hall as [H0 Hrest].
  destruct (Z.eq_dec b lo) as [->|Hne]; [exact H0|].
  apply (IH (lo + 1)); [exact Hrest | lia].
Qed.

(** On every argument from -1024 up to 16383 the double-precision product
    truncates (and clamps) to the same number of probes as the decimal
    product; both are undefined on the same arguments. *)
Lemma probes_binary64_decimal b :
  -1024 <= b < 16384 -> binary64_agrees b = true.
Proof.
  intros Hb.
  apply (binary64_agrees_from_spec (-1024) (Z.to_nat 17408)); [|lia].
  vm_compute. reflexivity.
Qed.

Lemma clamp_probes_range k : 1 <= clamp_probes k <= 30.
Proof.
  unfold clamp_probes.
  destruct (Z.ltb_spec k 1); destruct (Z.ltb_spec 30 1);
    try destruct (Z.ltb_spec 30 k); lia.
Qed.

Lemma clamp_probes_mono a b : a <= b -> clamp_probes a <= clamp_probes b.
Proof.
  intros Hab. unfold clamp_probes.
  destruct (Z.ltb_spec a 1); destruct (Z.ltb_spec b 1);
    repeat match goal with |- context [?x <? ?y] => destruct (Z.ltb_spec x y) end;
    lia.
Qed.

Lemma clamp_probes_succ a : clamp_probes (a + 1) <= clamp_probes a + 1.
Proof.
  unfold clamp_probes.
  destruct (Z.ltb_spec a 1); destruct (Z.ltb_spec (a + 1) 1);
    repeat match goal with |- context [?x <? ?y] => destruct (Z.ltb_spec x y) end;
    lia.
Qed.

Lemma clamp_probes_high a : 30 <= a -> clamp_probes a = 30.
Proof.
  intros Ha. unfold clamp_probes.
  destruct (Z.ltb_spec a 1); [lia|]. destruct (Z.ltb_spec 30 a); lia.
Qed.

Lemma probes_raw_defined b :
  -1 <= b -> probes_raw b = Some (Z.quot (b * 69) 100) /\ 0 <= Z.quot (b * 69) 100.
Proof.
  intros Hb. unfold probes_raw.
  assert (H0 : 0 <= Z.quot (b * 69) 100).
  { destruct (Z.eq_dec b (-1)) as [->|Hne]; [vm_compute; discriminate|].
    apply Z.quot_pos; lia. }
  destruct (Z.ltb_spec (Z.quot (b * 69) 100) 0); [lia|]. split; [reflexivity|lia].
Qed.

(** Truncation of the decimal product is its floor after the clamp. *)
Lemma probes_raw_floor b :
  -1 <= b ->
  clamp_probes (Z.quot (b * 69) 100) = probes_decimal b.
Proof.
  intros Hb. unfold probes_decimal.
  destruct (Z.eq_dec b (-1)) as [->|Hne].
  - assert (Hf : Zfloor (IZR (-1) * (69 / 100)) = -1).
    { apply Zfloor_eq. lra. }
    rewrite Hf. reflexivity.
  - f_equal. symmetry. apply Zfloor_eq.
    rewrite Z.quot_div_nonneg by lia.
    pose proof (Z.mul_div_le (b * 69) 100 ltac:(lia)) as Hlo.
    pose proof (Z.mul_succ_div_gt (b * 69) 100 ltac:(lia)) as Hhi.
    apply IZR_le in Hlo. apply IZR_lt in Hhi.
    rewrite !mult_IZR in Hlo, Hhi. rewrite succ_IZR in Hhi.
    generalize dependent (IZR (b * 69 / 100)). intros q Hlo Hhi.
    split; lra.
Qed.

Lemma NewBloomFilterPolicy_defined b :
  -1 <= b ->
  exists p, NewBloomFilterPolicy b = Some p
    /\ k_ p = clamp_probes (Z.quot (b * 69) 100)
    /\ 1 <= k_ p <= 30.
Proof.
  intros Hb. unfold NewBloomFilterPolicy.
  destruct (probes_raw_defined b Hb) as [-> Hq].
  eexists. split; [reflexivity|]. cbn [k_].
  split; [reflexivity | apply clamp_probes_range].
Qed.

(** C7 (amended). For every [bits_per_key >= -1] the constructor is defined
    and the number of probes is [round_down(bits_per_key * 0.69)] clamped to
    [1, 30]; it is the specification's [round_down(bits_per_key * ln 2)]
    clamped, or one less. *)
Theorem probes_decimal_clamped (bits_per_key : Z) :
  -1 <= bits_per_key ->
  exists p, NewBloomFilterPolicy bits_per_key = Some p
    /\ k_ p = probes_decimal bits_per_key
    /\ 1 <= k_ p <= 30
    /\ probes_spec bits_per_key - 1 <= k_ p <= probes_spec bits_per_key.
Proof.
  intros Hb.
  destruct (NewBloomFilterPolicy_defined bits_per_key Hb) as (p & Hp & Hk & Hr).
  exists p. split; [exact Hp|]. rewrite Hk.
  rewrite probes_raw_floor by assumption.
  split; [reflexivity|]. split; [apply clamp_probes_range|].
  unfold probes_decimal, probes_spec.
  set (b := IZR bits_per_key).
  assert (Hb' : (-1 <= b)%R) by (apply IZR_le in Hb; exact Hb).
  pose proof Ln2.ln2_ge_9_13 as Hlo. pose proof Ln2.ln2_le_713 as Hhi.
  pose proof (Zfloor_bound (b * (69 / 100))) as [Hd1 Hd2].
  pose proof (Zfloor_bound (b * ln 2)) as [Hs1 Hs2].
  destruct (Z.le_gt_cases 0 bits_per_key) as [Hnn|Hneg].
  - assert (Hbnn : (0 <= b)%R) by (apply IZR_le in Hnn; exact Hnn).
    assert (Hle : Zfloor (b * (69 / 100)) <= Zfloor (b * ln 2)).
    { apply Zfloor_le. apply Rmult_le_compat_l; lra. }
    split; [|apply clamp_probes_mono; exact Hle].
    destruct (Z.le_gt_cases 44 bits_per_key) as [Hbig|Hsmall].
    + assert (H30 : 30 <= Zfloor (b * (69 / 100))).
      { apply Zfloor_lub. apply IZR_le in Hbig. fold b in Hbig. lra. }
      rewrite !clamp_probes_high by lia. lia.
    + assert (Hb43 : (b <= 43)%R).
      { assert (bits_per_key <= 43) as H43 by lia. apply IZR_le in H43. exact H43. }
      assert (Hup : Zfloor (b * ln 2) <= Zfloor (b * (69 / 100)) + 1).
      { apply Z.lt_succ_r. apply lt_IZR. rewrite succ_IZR, plus_IZR.
        assert (b * ln 2 <= b * (713 / 1000))%R by (apply Rmult_le_compat_l; lra).
        lra. }
      pose proof (clamp_probes_mono _ _ Hup).
      pose proof (clamp_probes_succ (Zfloor (b * (69 / 100)))). lia.
  - assert (bits_per_key = -1) as Hm1 by lia.
    assert (Hbm : b = (-1)%R) by (unfold b; rewrite Hm1; reflexivity).
    assert (Hf1 : Zfloor (b * (69 / 100)) = -1) by (apply Zfloor_eq; rewrite Hbm; lra).
    assert (Hf2 : Zfloor (b * ln 2) = -1) by (apply Zfloor_eq; rewrite Hbm; lra).
    rewrite Hf1, Hf2. vm_compute. split; discriminate.
Qed.

Lemma probes_decimal_clamped_witness :
  exists p, NewBloomFilterPolicy 10 = Some p
    /\ k_ p = probes_decimal 10
    /\ 1 <= k_ p <= 30
    /\ probes_spec 10 - 1 <= k_ p <= probes_spec 10.
Proof. apply (probes_decimal_clamped 10). lia. Defined.

(** C7 (as stated) fails: at [bits_per_key = 13] the code uses 8 probes,
    while [round_down(13 * ln 2)] is 9. *)
Lemma probes_at_13 :
  (k_ <$> NewBloomFilterPolicy 13) = Some 8 /\ probes_spec 13 = 9.
Proof.
  split; [reflexivity|].
  unfold probes_spec.
  assert (Hf : Zfloor (IZR 13 * ln 2) = 9).
  { apply Zfloor_eq.
    pose proof Ln2.ln2_ge_9_13. pose proof Ln2.ln2_le_713. split; lra. }
  rewrite Hf. reflexivity.
Qed.

(** *** No false negatives *)

Lemma land_shiftl_1 x r :
  0 <= r -> (Z.land x (Z.shiftl 1 r) =? 0) = negb (Z.testbit x r).
Proof.
  intros Hr. rewrite Z.shiftl_1_l.
  destruct (Z.testbit x r) eqn:E; simpl.
  - apply Z.eqb_neq. intros H0.
    assert (Hb : Z.testbit (Z.land x (2 ^ r)) r = true).
    { rewrite Z.land_spec, E, Z.pow2_bits_true by lia. reflexivity. }
    rewrite H0, Z.bits_0 in Hb. discriminate.
  - apply Z.eqb_eq. apply Z.bits_inj'. intros n Hn.
    rewrite Z.land_spec, Z.bits_0, Z.pow2_bits_eqb by lia.
    destruct (Z.eqb_spec r n) as [->|]; [rewrite E; reflexivity|].
    apply andb_false_r.
Qed.

Lemma mod8_range pos : 0 <= pos mod 8 < 8.
Proof. apply Z.mod_pos_bound. lia. Qed.

(** Bit [pos] of the array that starts at offset [base] of [s]. *)
Definition bit_at (s : list Z) (base : nat) (pos : Z) : bool :=
  Z.testbit (nth (base + Z.to_nat (pos / 8)) s 0) (pos mod 8).

Lemma bit_at_or_byte_keep s base p r i :
  0 <= r ->
  bit_at s base p = true ->
  bit_at (or_byte (Z.shiftl 1 r) i s) base p = true.
Proof.
  intros Hr. unfold bit_at, or_byte. rewrite !nth_lookup.
  pose proof (mod8_range p) as Hp.
  rewrite list_lookup_alter. case_decide as Hi; [|auto].
  subst i. destruct (s !! (base + Z.to_nat (p / 8))%nat) as [b|]; simpl; [|auto].
  intros Hb. change 256 with (2 ^ 8).
  rewrite Z.mod_pow2_bits_low, Z.lor_spec, Hb by lia. reflexivity.
Qed.

Lemma bit_at_or_byte_set s base q :
  (base + Z.to_nat (q / 8) < length s)%nat ->
  bit_at (or_byte (Z.shiftl 1 (q mod 8)) (base + Z.to_nat (q / 8)) s) base q = true.
Proof.
  intros Hlen. unfold bit_at, or_byte. rewrite nth_lookup.
  pose proof (mod8_range q) as Hq.
  rewrite list_lookup_alter_eq.
  destruct (lookup_lt_is_Some_2 s _ Hlen) as [b ->]. simpl.
  change 256 with (2 ^ 8).
  rewrite Z.mod_pow2_bits_low, Z.lor_spec, Z.shiftl_1_l, Z.pow2_bits_true by lia.
  apply orb_true_r.
Qed.

(** The bit positions a key with hash [h] probes. *)
Fixpoint probe_positions (j : nat) (bits h delta : Z) : list Z :=
  match j with
  | O => []
  | S j' => wrap32 (h mod bits) :: probe_positions j' bits (wrap32 (h + delta)) delta
  end.

Lemma probe_positions_range j bits h delta pos :
  0 < bits -> pos ∈ probe_positions j bits h delta -> 0 <= pos < bits.
Proof.
  intros Hbits. revert h. induction j as [|j IH]; intros h Hin; simpl in Hin.
  - inversion Hin.
  - apply elem_of_cons in Hin as [->|Hin]; [|eauto].
    pose proof (Z.mod_pos_bound h bits Hbits) as Hm.
    pose proof (wrap32_range (h mod bits)) as Hw.
    split; [lia|]. unfold wrap32 in *.
    pose proof (Z.mod_le (h mod bits) (2 ^ 32) ltac:(lia) ltac:(lia)). lia.
Qed.

Lemma set_probes_length j bits h delta base dst :
  length (set_probes j bits h delta base dst) = length dst.
Proof.
  revert h dst. induction j as [|j IH]; intros h dst; simpl; [reflexivity|].
  rewrite IH. unfold or_byte. apply length_alter.
Qed.

Lemma set_probes_keep j bits h delta base dst p :
  bit_at dst base p = true ->
  bit_at (set_probes j bits h delta base dst) base p = true.
Proof.
  revert h dst. induction j as [|j IH]; intros h dst Hp; simpl; [exact Hp|].
  apply IH. apply bit_at_or_byte_keep; [apply mod8_range | exact Hp].
Qed.

Lemma set_probes_sets j bits h delta base dst pos :
  (forall q, q ∈ probe_positions j bits h delta ->
             (base + Z.to_nat (q / 8) < length dst)%nat) ->
  pos ∈ probe_positions j bits h delta ->
  bit_at (set_probes j bits h delta base dst) base pos = true.
Proof.
  revert h dst. induction j as [|j IH]; intros h dst Hrange Hin; simpl in *.
  - inversion Hin.
  - apply elem_of_cons in Hin as [->|Hin].
    + apply set_probes_keep. apply bit_at_or_byte_set.
      apply Hrange. apply list_elem_of_here.
    + apply IH; [|exact Hin].
      intros q Hq. unfold or_byte. rewrite length_alter.
      apply Hrange. apply list_elem_of_further. exact Hq.
Qed.

Lemma set_probes_take j bits h delta base dst :
  take base (set_probes j bits h delta base dst) = take base dst.
Proof.
  revert h dst. induction j as [|j IH]; intros h dst; simpl; [reflexivity|].
  rewrite IH. unfold or_byte. apply take_alter_ge. lia.
Qed.

Lemma set_probes_lookup_out j bits h delta base dst i :
  0 < bits -> (base + Z.to_nat ((bits - 1) / 8) < i)%nat ->
  set_probes j bits h delta base dst !! i = dst !! i.
Proof.
  intros Hbits Hi. revert h dst.
  induction j as [|j IH]; intros h dst; simpl; [reflexivity|].
  rewrite IH. unfold or_byte. apply list_lookup_alter_ne.
  assert (Hq : 0 <= wrap32 (h mod bits) < bits).
  { apply (probe_positions_range 1 bits h delta); [exact Hbits|].
    simpl. apply list_elem_of_here. }
  assert (wrap32 (h mod bits) / 8 <= (bits - 1) / 8) by (apply Z.div_le_mono; lia).
  assert (0 <= wrap32 (h mod bits) / 8) by (apply Z.div_pos; lia).
  lia.
Qed.

Lemma check_probes_true j bits h delta array :
  (forall pos, pos ∈ probe_positions j bits h delta -> bit_at array 0 pos = true) ->
  check_probes j bits h delta array = true.
Proof.
  revert h. induction j as [|j IH]; intros h Hall; simpl; [reflexivity|].
  rewrite land_shiftl_1 by apply mod8_range.
  assert (Hb : bit_at array 0 (wrap32 (h mod bits)) = true).
  { apply Hall. simpl. apply list_elem_of_here. }
  unfold bit_at in Hb. simpl in Hb. rewrite Hb. simpl.
  apply IH. intros pos Hpos. apply Hall. simpl.
  apply list_elem_of_further. exact Hpos.
Qed.

Section WithHash.

Variable Hash : Slice -> Z -> Z.

Lemma add_keys_length keys k bits base dst :
  length (add_keys Hash keys k bits base dst) = length dst.
Proof.
  revert dst. induction keys as [|key keys IH]; intros dst; simpl; [reflexivity|].
  rewrite IH. apply set_probes_length.
Qed.

Lemma add_keys_keep keys k bits base dst p :
  bit_at dst base p = true ->
  bit_at (add_keys Hash keys k bits base dst) base p = true.
Proof.
  revert dst. induction keys as [|key keys IH]; intros dst Hp; simpl; [exact Hp|].
  apply IH. apply set_probes_keep. exact Hp.
Qed.

Lemma add_keys_take keys k bits base dst :
  take base (add_keys Hash keys k bits base dst) = take base dst.
Proof.
  revert dst. induction keys as [|key keys IH]; intros dst; simpl; [reflexivity|].
  rewrite IH. apply set_probes_take.
Qed.

Lemma add_keys_lookup_out keys k bits base dst i :
  0 < bits -> (base + Z.to_nat ((bits - 1) / 8) < i)%nat ->
  add_keys Hash keys k bits base dst !! i = dst !! i.
Proof.
  intros Hbits Hi. revert dst.
  induction keys as [|key keys IH]; intros dst; simpl; [reflexivity|].
  rewrite IH. apply set_probes_lookup_out; assumption.
Qed.

(** After the loop over the keys every probed bit of every key is set,
    provided the array of [bits] bits lies inside [dst]. *)
Lemma add_keys_sets keys k bits base dst key pos :
  0 < bits ->
  (base + Z.to_nat ((bits - 1) / 8) < length dst)%nat ->
  key ∈ keys ->
  pos ∈ probe_positions (Z.to_nat k) bits (BloomHash Hash key)
                        (rotate17 (BloomHash Hash key)) ->
  bit_at (add_keys Hash keys k bits base dst) base pos = true.
Proof.
  intros Hbits. revert dst.
  induction keys as [|key0 keys IH]; intros dst Hlen Hkey Hpos; simpl.
  - inversion Hkey.
  - apply elem_of_cons in Hkey as [->|Hkey].
    + apply add_keys_keep. apply set_probes_sets; [|exact Hpos].
      intros q Hq. apply probe_positions_range in Hq; [|exact Hbits].
      assert (q / 8 <= (bits - 1) / 8) by (apply Z.div_le_mono; lia).
      assert (0 <= q / 8) by (apply Z.div_pos; lia).
      lia.
    + apply IH; [|exact Hkey|exact Hpos].
      rewrite set_probes_length. exact Hlen.
Qed.

(** The body of the filter [CreateFilter] appends has [filter_bytes]
    bytes, at least 8 and a multiple of which gives the bit count. *)
Lemma filter_bytes_range p n :
  0 <= n < 2 ^ 31 -> 0 <= bits_per_key_ p < 2 ^ 31 ->
  8 <= filter_bytes p n < 2 ^ 60.
Proof.
  intros Hn Hb. unfold filter_bytes.
  assert (Hprod : 0 <= n * bits_per_key_ p < 2 ^ 62) by nia.
  rewrite (wrap64_small (n * bits_per_key_ p)) by lia.
  destruct (Z.ltb_spec (n * bits_per_key_ p) 64).
  - vm_compute. split; [discriminate|reflexivity].
  - rewrite wrap64_small by lia.
    split.
    + apply Z.div_le_lower_bound; lia.
    + apply Z.div_lt_upper_bound; lia.
Qed.

(** C1. For every [bits_per_key >= 1] (an [int]), every array of keys
    (of [int] length) and every key of the array, [CreateFilter] appends
    a filter to [dst] on which [KeyMayMatch] answers true for that key. *)
Theorem bloom_no_false_negative
        (bits_per_key : Z) (keys : list Slice) (dst : list Z) (key : Slice) :
  1 <= bits_per_key < 2 ^ 31 ->
  Z.of_nat (length keys) < 2 ^ 31 ->
  key ∈ keys ->
  exists p filter,
    NewBloomFilterPolicy bits_per_key = Some p
    /\ CreateFilter Hash p keys dst = dst ++ filter
    /\ KeyMayMatch Hash p key filter = true.
Proof.
  intros Hb Hn Hkey.
  destruct (NewBloomFilterPolicy_defined bits_per_key ltac:(lia)) as (p & Hp & _ & Hk).
  assert (Hbpk : bits_per_key_ p = bits_per_key).
  { unfold NewBloomFilterPolicy in Hp.
    destruct (probes_raw bits_per_key); [|discriminate].
    injection Hp as <-. simpl. apply wrap64_small. lia. }
  set (n := Z.of_nat (length keys)).
  pose proof (filter_bytes_range p n ltac:(lia) ltac:(lia)) as Hbytes.
  set (bytes := filter_bytes p n) in *.
  set (base := length dst).
  set (out := CreateFilter Hash p keys dst).
  assert (Hout : out = add_keys Hash keys (k_ p) (wrap64 (bytes * 8)) base
                               ((dst ++ repeat 0 (Z.to_nat bytes)) ++ [k_ p mod 256]))
    by reflexivity.
  assert (Hbits : wrap64 (bytes * 8) = bytes * 8) by (apply wrap64_small; lia).
  rewrite Hbits in Hout.
  assert (Hlen : length out = (base + Z.to_nat bytes + 1)%nat).
  { rewrite Hout, add_keys_length, !length_app, repeat_length. simpl. lia. }
  assert (Htake : take base out = dst).
  { rewrite Hout, add_keys_take, <- app_assoc.
    unfold base. apply take_app_length. }
  exists p, (drop base out). split; [exact Hp|]. split.
  { change (out = dst ++ drop base out).
    rewrite <- (take_drop base out) at 1. rewrite Htake. reflexivity. }
  assert (Hdiv : (bytes * 8 - 1) / 8 = bytes - 1).
  { symmetry. apply Z.div_unique with (r := 7); lia. }
  (* the last byte of the filter is k_ *)
  assert (Hlast : out !! (base + Z.to_nat bytes)%nat = Some (k_ p mod 256)).
  { rewrite Hout, add_keys_lookup_out by (rewrite ?Hdiv; lia).
    rewrite lookup_app_r by (rewrite length_app, repeat_length; unfold base; lia).
    rewrite length_app, repeat_length.
    replace (base + Z.to_nat bytes - (length dst + Z.to_nat bytes))%nat with 0%nat
      by (unfold base; lia).
    reflexivity. }
  assert (Hksmall : k_ p mod 256 = k_ p) by (apply Z.mod_small; lia).
  unfold KeyMayMatch.
  assert (Hflen : Z.of_nat (length (drop base out)) = bytes + 1).
  { rewrite length_drop, Hlen. lia. }
  rewrite Hflen.
  destruct (Z.ltb_spec (bytes + 1) 2); [lia|].
  replace (bytes + 1 - 1) with bytes by lia. rewrite Hbits.
  rewrite nth_lookup, lookup_drop, Hlast. simpl. rewrite Hksmall.
  unfold size_t_of_char.
  destruct (Z.ltb_spec (k_ p) 128); [|lia].
  destruct (Z.ltb_spec 30 (k_ p)); [lia|].
  apply check_probes_true. intros pos Hpos.
  assert (Hbit : bit_at out base pos = true).
  { rewrite Hout.
    apply (add_keys_sets keys (k_ p) (bytes * 8) base _ key pos);
      [lia| |exact Hkey|exact Hpos].
    rewrite Hdiv, !length_app, repeat_length. simpl. unfold base. lia. }
  unfold bit_at in *. rewrite nth_lookup in *. rewrite lookup_drop.
  simpl. exact Hbit.
Qed.

End WithHash.

(** A stand-in for [Hash], to run the filter on concrete keys. *)
Definition sample_hash (data : Slice) (seed : Z) : Z :=
  fold_left (fun h c => h * 31 + c) data seed.

Lemma bloom_no_false_negative_witness :
  exists p filter,
    NewBloomFilterPolicy 10 = Some p
    /\ CreateFilter sample_hash p [[104; 105]; [1; 2; 3]] [7] = [7] ++ filter
    /\ KeyMayMatch sample_hash p [104; 105] filter = true.
Proof.
  apply (bloom_no_false_negative sample_hash 10 [[104; 105]; [1; 2; 3]] [7] [104; 105]);
    [lia | simpl; lia | apply list_elem_of_here].
Defined.

(** The filter of two keys at 10 bits per key: 8 bytes, then [k_ = 6]. *)
Example bloom_filter_sample :
  (p ← NewBloomFilterPolicy 10;
   Some (CreateFilter sample_hash p [[104; 105]; [1; 2; 3]] []))
  = Some [2; 96; 16; 12; 128; 0; 170; 32; 6].
Proof. vm_compute. reflexivity. Qed.

End BloomProofs.


(* ===================================================================== *)
(** ** util/arena.h, util/arena.cc : the bump allocator *)
(* ===================================================================== *)

Module Arena.

(** A [char*] into the arena: null, or an offset into the block that
    [blocks_] holds at a given index. *)
Inductive ptr : Type :=
| nullptr
| Ptr (block : nat) (offset : Z).

(** [p += n] on a [char*]. *)
Definition ptr_add (p : ptr) (n : Z) : ptr :=
  match p with
  | nullptr => nullptr
  | Ptr b o => Ptr b (o + n)
  end.

Definition kBlockSize : Z := 4096.

(** The size of a [char] pointer on the 64-bit targets the library is
    built for. *)
Definition sizeof_ptr : Z := 8.

(** The members of [class Arena]; a block of [blocks_] is kept as its size
    in bytes. *)
Record Arena := {
  alloc_ptr_ : ptr;
  alloc_bytes_remaining_ : Z;   (* size_t *)
  blocks_ : list Z;             (* std::vector<char*> *)
  memory_usage_ : Z             (* std::atomic<size_t> *)
}.

(** [Arena::Arena()] *)
Definition new_Arena : Arena :=
  {| alloc_ptr_ := nullptr; alloc_bytes_remaining_ := 0;
     blocks_ := []; memory_usage_ := 0 |}.

(** [char* Arena::AllocateNewBlock(size_t block_bytes)].  The block is the
    one [new char[block_bytes]] returns; where it throws [std::bad_alloc]
    instead the call does not return, and what is proved of the arena is
    proved of the calls that return. *)
Definition AllocateNewBlock (block_bytes : Z) (a : Arena) : ptr * Arena :=
  let result := Ptr (length (blocks_ a)) 0 in                  (* new char[] *)
  (result,
   {| alloc_ptr_ := alloc_ptr_ a;
      alloc_bytes_remaining_ := alloc_bytes_remaining_ a;
      blocks_ := blocks_ a ++ [block_bytes];                   (* push_back *)
      memory_usage_ := wrap64 (memory_usage_ a + wrap64 (block_bytes + sizeof_ptr)) |}).

(** [char* Arena::AllocateFallback(size_t bytes)] *)
Definition AllocateFallback (bytes : Z) (a : Arena) : ptr * Arena :=
  if kBlockSize / 4 <? bytes then
    (* Object is more than a quarter of our block size.  Allocate it
       separately to avoid wasting too much space in leftover bytes. *)
    AllocateNewBlock bytes a
  else
    (* We waste the remaining space in the current block. *)
    let '(p, a) := AllocateNewBlock kBlockSize a in
    let result := p in
    (result,
     {| alloc_ptr_ := ptr_add p bytes;
        alloc_bytes_remaining_ := kBlockSize - bytes;
        blocks_ := blocks_ a;
        memory_usage_ := memory_usage_ a |}).

(** [inline char* Arena::Allocate(size_t bytes)]; [None] is the failure of
    [assert(bytes > 0)]. *)
Definition Allocate (bytes : Z) (a : Arena) : option (ptr * Arena) :=
  if bytes <=? 0 then None
  else if bytes <=? alloc_bytes_remaining_ a then
    let result := alloc_ptr_ a in
    Some (result,
          {| alloc_ptr_ := ptr_add (alloc_ptr_ a) bytes;
             alloc_bytes_remaining_ := alloc_bytes_remaining_ a - bytes;
             blocks_ := blocks_ a;
             memory_usage_ := memory_usage_ a |})
  else Some (AllocateFallback bytes a).

(** The bump-pointer state: the allocation pointer and the bytes left. *)
Definition bump_state (a : Arena) : ptr * Z :=
  (alloc_ptr_ a, alloc_bytes_remaining_ a).

(** C8 (amended). A request of more than 1024 bytes that does not fit in
    what is left of the current block is served from the start of a fresh
    block of exactly the requested size, and leaves the bump-pointer state
    as it was. *)
Theorem Allocate_large_own_block (bytes : Z) (a : Arena) :
  1024 < bytes ->
  alloc_bytes_remaining_ a < bytes ->
  exists a',
    Allocate bytes a = Some (Ptr (length (blocks_ a)) 0, a')
    /\ blocks_ a' = blocks_ a ++ [bytes]
    /\ bump_state a' = bump_state a.
Proof.
  intros Hbig Hrem. unfold Allocate.
  destruct (Z.leb_spec bytes 0); [lia|].
  destruct (Z.leb_spec bytes (alloc_bytes_remaining_ a)); [lia|].
  unfold AllocateFallback.
  destruct (Z.ltb_spec (kBlockSize / 4) bytes) as [_|Hsmall].
  - unfold AllocateNewBlock. eexists. split; [reflexivity|].
    split; reflexivity.
  - change (kBlockSize / 4) with 1024 in Hsmall. lia.
Qed.

Lemma Allocate_large_own_block_witness :
  exists a',
    Allocate 2000 new_Arena = Some (Ptr (length (blocks_ new_Arena)) 0, a')
    /\ blocks_ a' = blocks_ new_Arena ++ [2000]
    /\ bump_state a' = bump_state new_Arena.
Proof. apply (Allocate_large_own_block 2000 new_Arena); simpl; lia. Defined.

(** The arena after [Allocate(8)] on a new arena: one 4096-byte block with
    4088 bytes left. *)
Definition arena_after_8 : Arena :=
  {| alloc_ptr_ := Ptr 0 8; alloc_bytes_remaining_ := 4088;
     blocks_ := [4096]; memory_usage_ := 4104 |}.

(** C8 (as stated) fails: after [Allocate(8)], a request of 2000 bytes
    (more than 1024) is carved out of the current block: no block is
    allocated, and the bump pointer moves from offset 8 to offset 2008. *)
Lemma Allocate_large_from_current_block :
  Allocate 8 new_Arena = Some (Ptr 0 0, arena_after_8)
  /\ Allocate 2000 arena_after_8 =
       Some (Ptr 0 8,
             {| alloc_ptr_ := Ptr 0 2008; alloc_bytes_remaining_ := 2088;
                blocks_ := [4096]; memory_usage_ := 4104 |}).
Proof. split; reflexivity. Qed.

End Arena.


(* ===================================================================== *)
(** ** table/merger.cc : the merging iterator *)
(* ===================================================================== *)

Module Merger.

Abbreviation Slice := (list Z).

(** A child iterator that ranges over a finite sequence of entries, with
    the operations of the [Iterator] interface.  It is valid while [pos]
    is an index of [entries]. *)
Record VecIter := {
  entries : list (Slice * Slice);
  pos : nat
}.

Definition child_Valid (c : VecIter) : bool := (pos c <? length (entries c))%nat.

Definition child_key (c : VecIter) : Slice := fst (nth (pos c) (entries c) ([], [])).

Definition child_value (c : VecIter) : Slice := snd (nth (pos c) (entries c) ([], [])).

Definition child_SeekToFirst (c : VecIter) : VecIter :=
  {| entries := entries c; pos := 0 |}.

Definition child_SeekToLast (c : VecIter) : VecIter :=
  {| entries := entries c; pos := Nat.pred (length (entries c)) |}.

Definition child_Next (c : VecIter) : VecIter :=
  {| entries := entries c; pos := S (pos c) |}.

Definition child_Prev (c : VecIter) : VecIter :=
  {| entries := entries c;
     pos := match pos c with O => length (entries c) | S p => p end |}.

Inductive Direction := kForward | kReverse.

Definition Direction_eqb (a b : Direction) : bool :=
  match a, b with
  | kForward, kForward | kReverse, kReverse => true
  | _, _ => false
  end.

(** [class MergingIterator]: [children_] with [n_] its length, [current_]
    as the index of the child it points to. *)
Record MergingIterator := {
  children_ : list VecIter;
  current_ : option nat;
  direction_ : Direction
}.

Section WithComparator.

(** [comparator_->Compare(a, b)] *)
Variable Compare : Slice -> Slice -> Z.

(** The position of the first entry at or after [target]. *)
Fixpoint seek_pos (target : Slice) (es : list (Slice * Slice)) : nat :=
  match es with
  | [] => O
  | e :: rest => if 0 <=? Compare (fst e) target then O else S (seek_pos target rest)
  end.

Definition child_Seek (target : Slice) (c : VecIter) : VecIter :=
  {| entries := entries c; pos := seek_pos target (entries c) |}.

(** The constructor: [current_(nullptr), direction_(kForward)]. *)
Definition new_MergingIterator (children : list VecIter) : MergingIterator :=
  {| children_ := children; current_ := None; direction_ := kForward |}.

Definition Valid (m : MergingIterator) : bool :=
  match current_ m with Some _ => true | None => false end.

(** The child [current_] points to. *)
Definition current_child (m : MergingIterator) : option VecIter :=
  match current_ m with
  | Some i => children_ m !! i
  | None => None
  end.

(** [key()] and [value()]: [None] is the failure of [assert(Valid())]. *)
Definition key (m : MergingIterator) : option Slice :=
  child_key <$> current_child m.

Definition value (m : MergingIterator) : option Slice :=
  child_value <$> current_child m.

(** The loop of [FindSmallest] from child [i] on; [smallest] is the index
    of the child found so far, with that child. *)
Fixpoint find_smallest (cs : list VecIter) (i : nat) (smallest : option (nat * VecIter))
  : option (nat * VecIter) :=
  match cs with
  | [] => smallest
  | child :: rest =>
      let smallest :=
        if child_Valid child then
          match smallest with
          | None => Some (i, child)
          | Some (_, s) =>
              if Compare (child_key child) (child_key s) <? 0
              then Some (i, child) else smallest
          end
        else smallest in
      find_smallest rest (S i) smallest
  end.

Definition FindSmallest (m : MergingIterator) : MergingIterator :=
  {| children_ := children_ m;
     current_ := fst <$> find_smallest (children_ m) 0 None;
     direction_ := direction_ m |}.

(** The loop of [FindLargest], from child [n_ - 1] down to child 0; [cs] is
    the reversed array and [i] the number of children still to visit. *)
Fixpoint find_largest (cs : list VecIter) (i : nat) (largest : option (nat * VecIter))
  : option (nat * VecIter) :=
  match cs, i with
  | child :: rest, S i' =>
      let largest :=
        if child_Valid child then
          match largest with
          | None => Some (i', child)
          | Some (_, l) =>
              if 0 <? Compare (child_key child) (child_key l)
              then Some (i', child) else largest
          end
        else largest in
      find_largest rest i' largest
  | _, _ => largest
  end.

Definition FindLargest (m : MergingIterator) : MergingIterator :=
  {| children_ := children_ m;
     current_ := fst <$> find_largest (rev (children_ m)) (length (children_ m)) None;
     direction_ := direction_ m |}.

Definition with_direction (d : Direction) (m : MergingIterator) : MergingIterator :=
  {| children_ := children_ m; current_ := current_ m; direction_ := d |}.

Definition SeekToFirst (m : MergingIterator) : MergingIterator :=
  with_direction kForward
    (FindSmallest {| children_ := child_SeekToFirst <$> children_ m;
                     current_ := current_ m; direction_ := direction_ m |}).

Definition SeekToLast (m : MergingIterator) : MergingIterator :=
  with_direction kReverse
    (FindLargest {| children_ := child_SeekToLast <$> children_ m;
                    current_ := current_ m; direction_ := direction_ m |}).

Definition Seek (target : Slice) (m : MergingIterator) : MergingIterator :=
  with_direction kForward
    (FindSmallest {| children_ := child_Seek target <$> children_ m;
                     current_ := current_ m; direction_ := direction_ m |}).

(** [Next()]; [None] is the failure of [assert(Valid())]. *)
Definition Next (m : MergingIterator) : option MergingIterator :=
  match current_ m, key m with
  | Some cur, Some k =>
      let children :=
        if Direction_eqb (direction_ m) kForward then children_ m
        else
          (* position every other child after key() *)
          imap (fun i child =>
                  if Nat.eqb i cur then child
                  else
                    let child := child_Seek k child in
                    if child_Valid child && (Compare k (child_key child) =? 0)
                    then child_Next child else child)
               (children_ m) in
      Some (FindSmallest {| children_ := alter child_Next cur children;
                            current_ := Some cur;
                            direction_ := kForward |})
  | _, _ => None
  end.

(** [Prev()]; [None] is the failure of [assert(Valid())]. *)
Definition Prev (m : MergingIterator) : option MergingIterator :=
  match current_ m, key m with
  | Some cur, Some k =>
      let children :=
        if Direction_eqb (direction_ m) kReverse then children_ m
        else
          imap (fun i child =>
                  if Nat.eqb i cur then child
                  else
                    let child := child_Seek k child in
                    if child_Valid child then child_Prev child
                    else child_SeekToLast child)
               (children_ m) in
      Some (FindLargest {| children_ := alter child_Prev cur children;
                           current_ := Some cur;
                           direction_ := kReverse |})
  | _, _ => None
  end.

(** [SeekToFirst; [Next]*]: the entries visited until the iterator becomes
    invalid, with the iterator left at the end.  [None]: the fuel ran out
    (or an assertion failed). *)
Fixpoint drain (fuel : nat) (m : MergingIterator)
  : option (list (Slice * Slice) * MergingIterator) :=
  if Valid m then
    match fuel with
    | O => None
    | S fuel' =>
        match key m, value m, Next m with
        | Some k, Some v, Some m' =>
            match drain fuel' m' with
            | Some (out, fin) => Some ((k, v) :: out, fin)
            | None => None
            end
        | _, _, _ => None
        end
    end
  else Some ([], m).

End WithComparator.

(** The iterators [NewMergingIterator] can return. *)
Inductive Iterator :=
| EmptyIterator
| ChildIterator (c : VecIter)
| MergingIter (m : MergingIterator).

(** Modelled from the spec: [NewEmptyIterator] of table/iterator.cc, which is
    not among the sources, returns the empty iterator: one that is never
    valid.  Positioning it changes nothing; [Next] and [Prev] require a
    valid iterator. *)
Definition NewEmptyIterator : Iterator := EmptyIterator.

(** [NewMergingIterator(comparator, children, n)], [n] being the length of
    [children]. *)
Definition NewMergingIterator (children : list VecIter) : Iterator :=
  match children with
  | [] => NewEmptyIterator
  | [c] => ChildIterator c
  | _ => MergingIter (new_MergingIterator children)
  end.

(** The operations of the [Iterator] interface on what was returned. *)
Inductive IterOp :=
| OpSeekToFirst
| OpSeekToLast
| OpSeek (target : Slice)
| OpNext
| OpPrev.

Definition Iterator_Valid (it : Iterator) : bool :=
  match it with
  | EmptyIterator => false
  | ChildIterator c => child_Valid c
  | MergingIter m => Valid m
  end.

Definition Iterator_apply (Compare : Slice -> Slice -> Z) (op : IterOp)
           (it : Iterator) : option Iterator :=
  match it with
  | EmptyIterator =>
      match op with
      | OpNext | OpPrev => None
      | _ => Some EmptyIterator
      end
  | ChildIterator c =>
      match op with
      | OpSeekToFirst => Some (ChildIterator (child_SeekToFirst c))
      | OpSeekToLast => Some (ChildIterator (child_SeekToLast c))
      | OpSeek t => Some (ChildIterator (child_Seek Compare t c))
      | OpNext => if child_Valid c then Some (ChildIterator (child_Next c)) else None
      | OpPrev => if child_Valid c then Some (ChildIterator (child_Prev c)) else None
      end
  | MergingIter m =>
      match op with
      | OpSeekToFirst => Some (MergingIter (SeekToFirst Compare m))
      | OpSeekToLast => Some (MergingIter (SeekToLast Compare m))
      | OpSeek t => Some (MergingIter (Seek Compare t m))
      | OpNext => MergingIter <$> Next Compare m
      | OpPrev => MergingIter <$> Prev Compare m
      end
  end.

Fixpoint Iterator_run (Compare : Slice -> Slice -> Z) (ops : list IterOp)
         (it : Iterator) : option Iterator :=
  match ops with
  | [] => Some it
  | op :: rest =>
      match Iterator_apply Compare op it with
      | Some it' => Iterator_run Compare rest it'
      | None => None
      end
  end.

End Merger.

(** *** Properties of the merging iterator *)

Module MergerProofs.
Import Merger.

(** The entries a child has not yet moved past. *)
Definition rem (c : VecIter) : list (Slice * Slice) := drop (pos c) (entries c).

Definition remaining (cs : list VecIter) : list (Slice * Slice) :=
  concat (rem <$> cs).

Lemma rem_invalid c : child_Valid c = false -> rem c = [].
Proof.
  unfold child_Valid, rem. intros H. apply Nat.ltb_ge in H.
  apply drop_ge. exact H.
Qed.

Lemma rem_valid c :
  child_Valid c = true ->
  rem c = (child_key c, child_value c) :: rem (child_Next c).
Proof.
  unfold child_Valid, rem, child_key, child_value. intros H.
  apply Nat.ltb_lt in H.
  destruct (lookup_lt_is_Some_2 (entries c) (pos c) H) as [e He].
  rewrite !nth_lookup, He. simpl. destruct e as [k v]. simpl.
  apply drop_S. exact He.
Qed.

Lemma StronglySorted_drop {A} (R : A -> A -> Prop) (l : list A) n :
  StronglySorted R l -> StronglySorted R (drop n l).
Proof.
  revert n. induction l as [|x l IH]; intros n Hs; destruct n; simpl; auto.
  apply IH. inversion Hs; assumption.
Qed.

Section WithComparator.

Variable Compare : Slice -> Slice -> Z.

(** The comparator orders the keys: it is transitive and total. *)
Hypothesis Compare_trans :
  forall a b c, Compare a b <= 0 -> Compare b c <= 0 -> Compare a c <= 0.
Hypothesis Compare_total :
  forall a b, 0 <= Compare a b -> Compare b a <= 0.

Definition le_entry (a b : Slice * Slice) : Prop := Compare (fst a) (fst b) <= 0.

(** A child's sequence is sorted: each entry is at or before the next. *)
Definition child_sorted (c : VecIter) : Prop := Sorted le_entry (entries c).

Lemma Compare_refl a : Compare a a <= 0.
Proof. destruct (Z.le_gt_cases 0 (Compare a a)); [auto | lia]. Qed.

Lemma le_entry_trans : Relations_1.Transitive le_entry.
Proof. intros a b c. unfold le_entry. apply Compare_trans. Qed.

Lemma child_sorted_rem c :
  child_sorted c -> StronglySorted le_entry (rem c).
Proof.
  intros Hs. apply StronglySorted_drop.
  apply Sorted_StronglySorted; [exact le_entry_trans | exact Hs].
Qed.

(** A valid sorted child's key is at or before everything it has left. *)
Lemma child_key_le_rem c :
  child_sorted c -> child_Valid c = true ->
  Forall (fun e => Compare (child_key c) (fst e) <= 0) (rem c).
Proof.
  intros Hs Hv. pose proof (child_sorted_rem c Hs) as Hss.
  rewrite (rem_valid c Hv) in *. inversion Hss as [|? ? _ Hall]; subst.
  constructor; [apply Compare_refl | exact Hall].
Qed.

(** What [find_smallest] has found after a prefix of the children. *)
Definition is_min (cs : list VecIter) (r : option (nat * VecIter)) : Prop :=
  match r with
  | None => Forall (fun c => child_Valid c = false) cs
  | Some (i, s) =>
      cs !! i = Some s /\ child_Valid s = true
      /\ Forall (fun c => child_Valid c = true ->
                          Compare (child_key s) (child_key c) <= 0) cs
  end.

Lemma find_smallest_is_min cs pre acc :
  is_min pre acc ->
  is_min (pre ++ cs) (find_smallest Compare cs (length pre) acc).
Proof.
  revert pre acc. induction cs as [|c cs IH]; intros pre acc Hacc; simpl.
  - rewrite app_nil_r. exact Hacc.
  - replace (pre ++ c :: cs) with ((pre ++ [c]) ++ cs) by (rewrite <- app_assoc; reflexivity).
    replace (S (length pre)) with (length (pre ++ [c])) by (rewrite length_app; simpl; lia).
    apply IH.
    destruct (child_Valid c) eqn:Hv.
    + destruct acc as [[j s]|]; simpl in *.
      * destruct Hacc as (Hj & Hs & Hall).
        destruct (Z.ltb_spec (Compare (child_key c) (child_key s)) 0) as [Hlt|Hge]; simpl.
        -- split; [|split; [exact Hv|]].
           ++ rewrite lookup_app_r by lia. rewrite Nat.sub_diag. reflexivity.
           ++ apply Forall_app. split.
              ** eapply Forall_impl; [exact Hall|]. simpl. intros x Hx Hxv.
                 apply (Compare_trans _ (child_key s)); [lia | auto].
              ** constructor; [|constructor]. intros _. apply Compare_refl.
        -- split; [|split; [exact Hs|]].
           ++ apply lookup_app_l_Some. exact Hj.
           ++ apply Forall_app. split; [exact Hall|].
              constructor; [|constructor]. intros _. apply Compare_total. lia.
      * split; [|split; [exact Hv|]].
        -- rewrite lookup_app_r by lia. rewrite Nat.sub_diag. reflexivity.
        -- apply Forall_app. split.
           ++ eapply Forall_impl; [exact Hacc|]. simpl. intros x Hx Hxv. congruence.
           ++ constructor; [|constructor]. intros _. apply Compare_refl.
    + destruct acc as [[j s]|]; simpl in *.
      * destruct Hacc as (Hj & Hs & Hall). split; [|split; [exact Hs|]].
        -- apply lookup_app_l_Some. exact Hj.
        -- apply Forall_app. split; [exact Hall|].
           constructor; [|constructor]. intros Hc. congruence.
      * apply Forall_app. split; [exact Hacc|]. constructor; [exact Hv|constructor].
Qed.

Lemma FindSmallest_is_min cs : is_min cs (find_smallest Compare cs 0 None).
Proof. apply (find_smallest_is_min cs [] None). constructor. Qed.

(** The state between two calls: moving forward, with [current_] at the
    smallest valid child, over sorted children. *)
Definition positioned (m : MergingIterator) : Prop :=
  direction_ m = kForward
  /\ current_ m = fst <$> find_smallest Compare (children_ m) 0 None
  /\ Forall child_sorted (children_ m).

Lemma remaining_app cs1 cs2 : remaining (cs1 ++ cs2) = remaining cs1 ++ remaining cs2.
Proof. unfold remaining. rewrite fmap_app. apply concat_app. Qed.

Lemma remaining_cons c cs : remaining (c :: cs) = rem c ++ remaining cs.
Proof. reflexivity. Qed.

Lemma remaining_all_invalid cs :
  Forall (fun c => child_Valid c = false) cs -> remaining cs = [].
Proof.
  induction 1 as [|c cs Hc _ IH]; [reflexivity|].
  rewrite remaining_cons, IH, (rem_invalid c Hc). reflexivity.
Qed.

(** One step of [Next] from a positioned, valid iterator. *)
Lemma Next_positioned m i s :
  positioned m ->
  find_smallest Compare (children_ m) 0 None = Some (i, s) ->
  exists m',
    Next Compare m = Some m'
    /\ key m = Some (child_key s) /\ value m = Some (child_value s)
    /\ positioned m'
    /\ remaining (children_ m) ≡ₚ (child_key s, child_value s) :: remaining (children_ m')
    /\ Forall (fun e => Compare (child_key s) (fst e) <= 0) (remaining (children_ m')).
Proof.
  intros (Hdir & Hcur & Hsorted) Hfs.
  pose proof (FindSmallest_is_min (children_ m)) as Hmin.
  rewrite Hfs in Hmin. simpl in Hmin. destruct Hmin as (Hi & Hv & Hall).
  rewrite Hfs in Hcur. simpl in Hcur.
  assert (Hkey : key m = Some (child_key s)).
  { unfold key, current_child. rewrite Hcur, Hi. reflexivity. }
  assert (Hval : value m = Some (child_value s)).
  { unfold value, current_child. rewrite Hcur, Hi. reflexivity. }
  unfold Next. rewrite Hcur, Hkey, Hdir. simpl.
  eexists. split; [reflexivity|]. split; [reflexivity|]. split; [exact Hval|].
  pose proof (take_drop_middle _ _ _ Hi) as Hsplit.
  assert (Hilen : length (take i (children_ m)) = i).
  { apply length_take_le. apply lookup_lt_Some in Hi. lia. }
  assert (Halter : alter child_Next i (children_ m)
                   = take i (children_ m) ++ child_Next s :: drop (S i) (children_ m)).
  { rewrite <- Hsplit at 1.
    rewrite alter_app_r_alt by (rewrite Hilen; lia).
    rewrite Hilen, Nat.sub_diag. reflexivity. }
  simpl. split; [|split].
  - split; [reflexivity|]. split; [reflexivity|]. simpl.
    apply Forall_alter; [exact Hsorted|]. intros x _ Hx. exact Hx.
  - rewrite Halter. rewrite <- Hsplit at 1.
    rewrite !remaining_app, !remaining_cons, (rem_valid s Hv).
    rewrite <- app_comm_cons. symmetry. apply Permutation_middle.
  - rewrite Halter. unfold remaining. apply Forall_concat.
    rewrite fmap_app, fmap_cons. rewrite <- Hsplit in Hall, Hsorted.
    apply Forall_app in Hall as [Hall1 Hall2].
    apply Forall_app in Hsorted as [Hs1 Hs2].
    apply Forall_cons in Hall2 as [_ Hall2]. apply Forall_cons in Hs2 as [Hss Hs2].
    assert (Hother : forall cs,
               Forall (fun c => child_Valid c = true ->
                                Compare (child_key s) (child_key c) <= 0) cs ->
               Forall child_sorted cs ->
               Forall (Forall (fun e => Compare (child_key s) (fst e) <= 0)) (rem <$> cs)).
    { intros cs Hle Hso. apply Forall_fmap. apply Forall_forall. intros c Hc. simpl.
      rewrite Forall_forall in Hle, Hso.
      destruct (child_Valid c) eqn:Hcv.
      - pose proof (child_key_le_rem c (Hso c Hc) Hcv) as Hrem.
        eapply Forall_impl; [exact Hrem|]. simpl. intros e He.
        apply (Compare_trans _ (child_key c)); [apply Hle; auto | exact He].
      - rewrite (rem_invalid c Hcv). constructor. }
    apply Forall_app. split; [apply Hother; assumption|].
    constructor; [|apply Hother; assumption].
    pose proof (child_key_le_rem s Hss Hv) as Hrem.
    rewrite (rem_valid s Hv) in Hrem. apply Forall_cons in Hrem as [_ Hrem]. exact Hrem.
Qed.

Lemma drain_positioned fuel m :
  positioned m ->
  (length (remaining (children_ m)) <= fuel)%nat ->
  exists out fin,
    drain Compare fuel m = Some (out, fin)
    /\ out ≡ₚ remaining (children_ m)
    /\ StronglySorted le_entry out
    /\ Valid fin = false.
Proof.
  revert m. induction fuel as [|fuel IH]; intros m Hpos Hlen.
  - (* nothing is left: the iterator is not valid *)
    pose proof (FindSmallest_is_min (children_ m)) as Hmin.
    destruct Hpos as (Hdir & Hcur & Hsorted).
    destruct (find_smallest Compare (children_ m) 0 None) as [[i s]|] eqn:Hfs.
    + simpl in Hmin. destruct Hmin as (Hi & Hv & _).
      apply take_drop_middle in Hi. rewrite <- Hi in Hlen.
      rewrite remaining_app, remaining_cons, (rem_valid s Hv) in Hlen.
      rewrite length_app in Hlen. simpl in Hlen. lia.
    + simpl in Hmin, Hcur. exists [], m. simpl. unfold Valid. rewrite Hcur.
      split; [reflexivity|]. rewrite remaining_all_invalid by exact Hmin.
      split; [reflexivity|]. split; [constructor|reflexivity].
  - pose proof (FindSmallest_is_min (children_ m)) as Hmin.
    destruct (find_smallest Compare (children_ m) 0 None) as [[i s]|] eqn:Hfs.
    + destruct (Next_positioned m i s Hpos Hfs)
        as (m' & HN & Hk & Hvl & Hpos' & Hperm & Hle).
      assert (Hlen' : (length (remaining (children_ m')) <= fuel)%nat).
      { apply Permutation_length in Hperm. simpl in Hperm. lia. }
      destruct (IH m' Hpos' Hlen') as (out & fin & Hd & Hp & Hs & Hf).
      exists ((child_key s, child_value s) :: out), fin.
      simpl. unfold Valid. destruct Hpos as (_ & Hcur & _).
      rewrite Hcur, Hfs. simpl. rewrite Hk, Hvl, HN, Hd.
      split; [reflexivity|]. split; [|split; [|exact Hf]].
      * rewrite Hperm. constructor. exact Hp.
      * constructor; [exact Hs|].
        rewrite Hp. exact Hle.
    + destruct Hpos as (Hdir & Hcur & Hsorted). rewrite Hfs in Hcur.
      simpl in Hmin, Hcur. exists [], m. simpl. unfold Valid. rewrite Hcur.
      split; [reflexivity|]. rewrite remaining_all_invalid by exact Hmin.
      split; [reflexivity|]. split; [constructor|reflexivity].
Qed.

Lemma remaining_SeekToFirst cs :
  remaining (child_SeekToFirst <$> cs) = concat (entries <$> cs).
Proof.
  unfold remaining. rewrite <- list_fmap_compose. reflexivity.
Qed.

(** C3. For every comparator that orders the keys and every array of
    children, each over a sequence sorted under it, [SeekToFirst] followed by
    [Next] until the iterator is no longer valid visits a permutation of all
    the children's entries (their multiset union), in non-decreasing order,
    and after the last entry the iterator is invalid. *)
Theorem merging_iterator_sorted_merge (children : list VecIter) :
  Forall child_sorted children ->
  exists out fin,
    drain Compare (length (concat (entries <$> children)))
          (SeekToFirst Compare (new_MergingIterator children)) = Some (out, fin)
    /\ out ≡ₚ concat (entries <$> children)
    /\ Sorted le_entry out
    /\ Valid fin = false.
Proof.
  intros Hsorted.
  set (m := SeekToFirst Compare (new_MergingIterator children)).
  assert (Hpos : positioned m).
  { split; [reflexivity|]. split; [reflexivity|]. simpl.
    apply Forall_fmap. eapply Forall_impl; [exact Hsorted|]. intros c Hc. exact Hc. }
  assert (Hrem : remaining (children_ m) = concat (entries <$> children)).
  { apply remaining_SeekToFirst. }
  destruct (drain_positioned (length (concat (entries <$> children))) m Hpos)
    as (out & fin & Hd & Hp & Hs & Hf).
  { rewrite Hrem. lia. }
  exists out, fin. split; [exact Hd|]. split; [rewrite <- Hrem; exact Hp|].
  split; [apply StronglySorted_Sorted; exact Hs | exact Hf].
Qed.

End WithComparator.

(** The default comparator: bytewise (lexicographic) order on keys. *)
Fixpoint bytewise_compare (a b : Slice) : Z :=
  match a, b with
  | [], [] => 0
  | [], _ :: _ => -1
  | _ :: _, [] => 1
  | x :: a', y :: b' =>
      if x <? y then -1 else if y <? x then 1 else bytewise_compare a' b'
  end.

Lemma bytewise_compare_total a b :
  0 <= bytewise_compare a b -> bytewise_compare b a <= 0.
Proof.
  revert b. induction a as [|x a IH]; intros [|y b]; simpl; try lia.
  destruct (Z.ltb_spec x y); destruct (Z.ltb_spec y x); try lia. apply IH.
Qed.

Lemma bytewise_compare_trans a b c :
  bytewise_compare a b <= 0 -> bytewise_compare b c <= 0 ->
  bytewise_compare a c <= 0.
Proof.
  revert b c. induction a as [|x a IH]; intros [|y b] [|z c]; simpl; try lia.
  destruct (Z.ltb_spec x y); destruct (Z.ltb_spec y x);
    destruct (Z.ltb_spec y z); destruct (Z.ltb_spec z y);
    destruct (Z.ltb_spec x z); destruct (Z.ltb_spec z x); try lia.
  apply IH.
Qed.

(** Two children, [1, 3] and [2]. *)
Definition sample_children : list VecIter :=
  [ {| entries := [([1], [10]); ([3], [30])]; pos := 0 |};
    {| entries := [([2], [20])]; pos := 0 |} ].

Lemma sample_children_sorted :
  Forall (child_sorted bytewise_compare) sample_children.
Proof.
  repeat constructor; unfold le_entry; simpl; lia.
Qed.

Lemma merging_iterator_sorted_merge_witness :
  exists out fin,
    drain bytewise_compare (length (concat (entries <$> sample_children)))
          (SeekToFirst bytewise_compare (new_MergingIterator sample_children))
      = Some (out, fin)
    /\ out ≡ₚ concat (entries <$> sample_children)
    /\ Sorted (le_entry bytewise_compare) out
    /\ Valid fin = false.
Proof.
  apply (merging_iterator_sorted_merge bytewise_compare
           bytewise_compare_trans bytewise_compare_total sample_children).
  exact sample_children_sorted.
Defined.

Example merging_iterator_sample :
  fst <$> drain bytewise_compare 3
            (SeekToFirst bytewise_compare (new_MergingIterator sample_children))
  = Some [([1], [10]); ([2], [20]); ([3], [30])].
Proof. reflexivity. Qed.

Lemma EmptyIterator_stays_empty Compare ops it :
  Iterator_run Compare ops EmptyIterator = Some it -> it = EmptyIterator.
Proof.
  induction ops as [|op ops IH]; simpl.
  - intros [= <-]. reflexivity.
  - destruct op; simpl; auto; discriminate.
Qed.

(** C9. [NewMergingIterator] on no child returns the empty iterator, which
    no sequence of operations makes valid; on one child it returns that
    child itself; a [MergingIterator] is built only for two or more. *)
Theorem NewMergingIterator_cases :
  (NewMergingIterator [] = NewEmptyIterator
   /\ forall Compare ops it,
        Iterator_run Compare ops (NewMergingIterator []) = Some it ->
        Iterator_Valid it = false)
  /\ (forall c, NewMergingIterator [c] = ChildIterator c)
  /\ (forall children,
        (2 <= length children)%nat ->
        NewMergingIterator children = MergingIter (new_MergingIterator children))
  /\ (forall children m,
        NewMergingIterator children = MergingIter m -> (2 <= length children)%nat).
Proof.
  split; [split; [reflexivity|]|split; [|split]].
  - intros Compare ops it Hrun. simpl in Hrun.
    apply EmptyIterator_stays_empty in Hrun. subst it. reflexivity.
  - intros c. reflexivity.
  - intros [|c1 [|c2 rest]] Hlen; simpl in Hlen; try lia. reflexivity.
  - intros [|c1 [|c2 rest]] m H; simpl in *; try discriminate. lia.
Qed.

End MergerProofs.


(* ===================================================================== *)
(** ** db/log_reader.cc : the write-ahead-log reader *)
(* ===================================================================== *)

Module LogReader.

Abbreviation Slice := (list Z).

(** Modelled from the spec: [Status] of include/leveldb/status.h, which is
    not among the sources; a tag ([Ok], [NotFound], [Corruption],
    [NotSupported], [InvalidArgument], [IOError]) with a message. *)
Inductive Status :=
| OK
| NotFound (msg : string)
| Corruption (msg : string)
| NotSupported (msg : string)
| InvalidArgument (msg : string)
| IOError (msg : string).

Definition Status_ok (s : Status) : bool :=
  match s with OK => true | _ => false end.

(** Modelled from the spec: the constants of db/log_format.h, which is not
    among the sources: record types [Zero = 0], [Full = 1], [First = 2],
    [Middle = 3], [Last = 4], 32 KiB blocks and 7-byte record headers
    (checksum 4, length 2, type 1). *)
Definition kZeroType : Z := 0.
Definition kFullType : Z := 1.
Definition kFirstType : Z := 2.
Definition kMiddleType : Z := 3.
Definition kLastType : Z := 4.
Definition kMaxRecordType : Z := kLastType.
Definition kBlockSize : Z := 32768.
Definition kHeaderSize : Z := 4 + 2 + 1.

(** The special values of db/log_reader.h. *)
Definition kEof : Z := kMaxRecordType + 1.
Definition kBadRecord : Z := kMaxRecordType + 2.

(** [inline uint32_t DecodeFixed32(const char* ptr)] of util/coding.h, as
    the reader calls it: on a buffer that holds at least a header, so that
    the four reads are within it.  [buffer[i]] is the [char] read through a
    [uint8_t*]; the module [Coding] has the function on any buffer, and
    [LogReaderFacts.DecodeFixed32_agrees] relates the two. *)
Definition DecodeFixed32 (ptr : Slice) : Z :=
  let buffer (i : nat) := nth i ptr 0 mod 2 ^ 8 in
  Z.lor (Z.lor (Z.lor (buffer 0%nat)
                      (wrap32 (Z.shiftl (buffer 1%nat) 8)))
               (wrap32 (Z.shiftl (buffer 2%nat) 16)))
        (wrap32 (Z.shiftl (buffer 3%nat) 24)).

(** [const unsigned int type = header[6];] with [char] signed. *)
Definition uint_of_char (c : Z) : Z :=
  if c <? 128 then c else wrap32 (c - 256).

(** What the reporter was told, in order: the arguments of each call of
    [Reporter::Corruption(bytes, status)]. *)
Abbreviation Reporter := (list (Z * Status)).

Section WithFile.

(** The [SequentialFile] the reader reads from: [Read(n, &result, scratch)]
    and [Skip(n)], each returning a status and the file advanced. *)
Variable File : Type.
Variable file_Read : Z -> File -> Status * Slice * File.
Variable file_Skip : Z -> File -> Status * File.

(** [crc32c::Extend(init_crc, data, n)], declared in util/crc32c.h. *)
Variable crc32c_Extend : Z -> Slice -> Z.

(** [inline uint32_t Value(const char* data, size_t n)] *)
Definition crc32c_Value (data : Slice) : Z := crc32c_Extend 0 data.

(** The members of [class Reader]; [backing_store_] is the storage behind
    [buffer_]. *)
Record Reader := {
  file_ : File;
  reporter_ : option Reporter;
  checksum_ : bool;
  buffer_ : Slice;
  eof_ : bool;
  last_record_offset_ : Z;       (* uint64_t *)
  end_of_buffer_offset_ : Z;     (* uint64_t *)
  initial_offset_ : Z;           (* uint64_t *)
  resyncing_ : bool
}.

(** [Reader::Reader(file, reporter, checksum, initial_offset)] *)
Definition new_Reader (file : File) (reporter : option Reporter) (checksum : bool)
           (initial_offset : Z) : Reader :=
  {| file_ := file; reporter_ := reporter; checksum_ := checksum;
     buffer_ := []; eof_ := false; last_record_offset_ := 0;
     end_of_buffer_offset_ := 0; initial_offset_ := initial_offset;
     resyncing_ := 0 <? initial_offset |}.

Definition set_file (f : File) (r : Reader) : Reader :=
  {| file_ := f; reporter_ := reporter_ r; checksum_ := checksum_ r;
     buffer_ := buffer_ r; eof_ := eof_ r;
     last_record_offset_ := last_record_offset_ r;
     end_of_buffer_offset_ := end_of_buffer_offset_ r;
     initial_offset_ := initial_offset_ r; resyncing_ := resyncing_ r |}.

Definition set_reporter (rep : option Reporter) (r : Reader) : Reader :=
  {| file_ := file_ r; reporter_ := rep; checksum_ := checksum_ r;
     buffer_ := buffer_ r; eof_ := eof_ r;
     last_record_offset_ := last_record_offset_ r;
     end_of_buffer_offset_ := end_of_buffer_offset_ r;
     initial_offset_ := initial_offset_ r; resyncing_ := resyncing_ r |}.

Definition set_buffer (b : Slice) (r : Reader) : Reader :=
  {| file_ := file_ r; reporter_ := reporter_ r; checksum_ := checksum_ r;
     buffer_ := b; eof_ := eof_ r;
     last_record_offset_ := last_record_offset_ r;
     end_of_buffer_offset_ := end_of_buffer_offset_ r;
     initial_offset_ := initial_offset_ r; resyncing_ := resyncing_ r |}.

Definition set_eof (e : bool) (r : Reader) : Reader :=
  {| file_ := file_ r; reporter_ := reporter_ r; checksum_ := checksum_ r;
     buffer_ := buffer_ r; eof_ := e;
     last_record_offset_ := last_record_offset_ r;
     end_of_buffer_offset_ := end_of_buffer_offset_ r;
     initial_offset_ := initial_offset_ r; resyncing_ := resyncing_ r |}.

Definition set_last_record_offset (o : Z) (r : Reader) : Reader :=
  {| file_ := file_ r; reporter_ := reporter_ r; checksum_ := checksum_ r;
     buffer_ := buffer_ r; eof_ := eof_ r;
     last_record_offset_ := o;
     end_of_buffer_offset_ := end_of_buffer_offset_ r;
     initial_offset_ := initial_offset_ r; resyncing_ := resyncing_ r |}.

Definition set_end_of_buffer_offset (o : Z) (r : Reader) : Reader :=
  {| file_ := file_ r; reporter_ := reporter_ r; checksum_ := checksum_ r;
     buffer_ := buffer_ r; eof_ := eof_ r;
     last_record_offset_ := last_record_offset_ r;
     end_of_buffer_offset_ := o;
     initial_offset_ := initial_offset_ r; resyncing_ := resyncing_ r |}.

Definition set_resyncing (b : bool) (r : Reader) : Reader :=
  {| file_ := file_ r; reporter_ := reporter_ r; checksum_ := checksum_ r;
     buffer_ := buffer_ r; eof_ := eof_ r;
     last_record_offset_ := last_record_offset_ r;
     end_of_buffer_offset_ := end_of_buffer_offset_ r;
     initial_offset_ := initial_offset_ r; resyncing_ := b |}.

(** [buffer_.size()], [fragment.size()], ... *)
Definition size (s : Slice) : Z := Z.of_nat (length s).

(** [void Reader::ReportDrop(uint64_t bytes, const Status& reason)] *)
Definition ReportDrop (bytes : Z) (reason : Status) (r : Reader) : Reader :=
  match reporter_ r with
  | Some calls =>
      if initial_offset_ r
         <=? wrap64 (wrap64 (end_of_buffer_offset_ r - size (buffer_ r)) - bytes)
      then set_reporter (Some (calls ++ [(bytes, reason)])) r
      else r
  | None => r
  end.

(** [void Reader::ReportCorruption(uint64_t bytes, const char* reason)] *)
Definition ReportCorruption (bytes : Z) (reason : string) (r : Reader) : Reader :=
  ReportDrop bytes (Corruption reason) r.

(** [bool Reader::SkipToInitialBlock()] *)
Definition SkipToInitialBlock (r : Reader) : bool * Reader :=
  let offset_in_block := initial_offset_ r mod kBlockSize in
  let block_start_location := wrap64 (initial_offset_ r - offset_in_block) in
  (* Don't search a block if we'd be in the trailer *)
  let block_start_location :=
    if kBlockSize - 6 <? offset_in_block
    then wrap64 (block_start_location + kBlockSize)
    else block_start_location in
  let r := set_end_of_buffer_offset block_start_location r in
  (* Skip to start of first block that can contain the initial record *)
  if 0 <? block_start_location then
    let '(skip_status, f) := file_Skip block_start_location (file_ r) in
    let r := set_file f r in
    if negb (Status_ok skip_status)
    then (false, ReportDrop block_start_location skip_status r)
    else (true, r)
  else (true, r).

(** The length field of the header at the start of the buffer:
    [a | (b << 8)] with [a = header[4] & 0xff], [b = header[5] & 0xff]. *)
Definition header_length (header : Slice) : Z :=
  let a := Z.land (nth 4 header 0) 0xff in
  let b := Z.land (nth 5 header 0) 0xff in
  Z.lor a (Z.shiftl b 8).

Definition header_type (header : Slice) : Z := uint_of_char (nth 6 header 0).

(** The part of [ReadPhysicalRecord] from [// Parse the header] on, reached
    when the buffer holds at least a header.  It returns the record type or
    a special value, [*result] and the reader. *)
Definition parse_physical_record (result : Slice) (r : Reader) : Z * Slice * Reader :=
  let header := buffer_ r in
  let type := header_type header in
  let length := header_length header in
  if size (buffer_ r) <? kHeaderSize + length then
    let drop_size := size (buffer_ r) in
    let r := set_buffer [] r in
    if negb (eof_ r) then
      (kBadRecord, result, ReportCorruption drop_size "bad record length" r)
    else
      (* If the end of the file has been reached without reading |length|
         bytes of payload, assume the writer died in the middle of writing
         the record.  Don't report a corruption. *)
      (kEof, result, r)
  else if (type =? kZeroType) && (length =? 0) then
    (* Skip zero length record without reporting any drops *)
    (kBadRecord, result, set_buffer [] r)
  else if checksum_ r
          && negb (crc32c_Value (take (Z.to_nat (1 + length)) (drop 6 header))
                   =? crc32c.Unmask (DecodeFixed32 header)) then
    let drop_size := size (buffer_ r) in
    let r := set_buffer [] r in
    (kBadRecord, result, ReportCorruption drop_size "checksum mismatch" r)
  else
    let r := set_buffer (drop (Z.to_nat (kHeaderSize + length)) (buffer_ r)) r in
    (* Skip physical record that started before initial_offset_ *)
    if wrap64 (wrap64 (wrap64 (end_of_buffer_offset_ r - size (buffer_ r))
                       - kHeaderSize) - length)
       <? initial_offset_ r
    then (kBadRecord, [], r)
    else (type,
          take (Z.to_nat length) (drop (Z.to_nat kHeaderSize) header),
          r).

(** [unsigned int Reader::ReadPhysicalRecord(Slice* result)]: the loop, run
    for at most [fuel] iterations ([None] when they do not suffice). *)
Fixpoint ReadPhysicalRecord_loop (fuel : nat) (result : Slice) (r : Reader)
  : option (Z * Slice * Reader) :=
  match fuel with
  | O => None
  | S fuel' =>
      if size (buffer_ r) <? kHeaderSize then
        if negb (eof_ r) then
          (* Last read was a full read, so this is a trailer to skip *)
          let '(status, data, f) := file_Read kBlockSize (file_ r) in
          let r := set_buffer data (set_file f r) in
          let r := set_end_of_buffer_offset
                     (wrap64 (end_of_buffer_offset_ r + size (buffer_ r))) r in
          if negb (Status_ok status) then
            let r := set_buffer [] r in
            let r := ReportDrop kBlockSize status r in
            Some (kEof, result, set_eof true r)
          else
            let r := if size (buffer_ r) <? kBlockSize then set_eof true r else r in
            ReadPhysicalRecord_loop fuel' result r
        else
          (* a truncated header at the end of the file: just report EOF *)
          Some (kEof, result, set_buffer [] r)
      else Some (parse_physical_record result r)
  end.

(** Two iterations always suffice, see [ReadPhysicalRecord_total]. *)
Definition ReadPhysicalRecord (result : Slice) (r : Reader)
  : option (Z * Slice * Reader) :=
  ReadPhysicalRecord_loop 2 result r.

(** The local variables of [ReadRecord], with its two out-parameters. *)
Record ReadState := {
  scratch : Slice;
  record : Slice;
  in_fragmented_record : bool;
  prospective_record_offset : Z;
  fragment : Slice
}.

Definition ReadState_init : ReadState :=
  {| scratch := []; record := []; in_fragmented_record := false;
     prospective_record_offset := 0; fragment := [] |}.

(** How an iteration of the loop of [ReadRecord] ends. *)
Inductive Step :=
| Continue (st : ReadState) (r : Reader)
| Return (result : bool) (st : ReadState) (r : Reader).

(** The [switch (record_type)] of [ReadRecord]. *)
Definition ReadRecord_switch (record_type : Z) (physical_record_offset : Z)
           (st : ReadState) (r : Reader) : Step :=
  let frag := fragment st in
  if record_type =? kFullType then
    let r := if in_fragmented_record st && negb (size (scratch st) =? 0)
             then ReportCorruption (size (scratch st)) "partial record without end(1)" r
             else r in
    Return true
           {| scratch := []; record := frag;
              in_fragmented_record := in_fragmented_record st;
              prospective_record_offset := physical_record_offset;
              fragment := frag |}
           (set_last_record_offset physical_record_offset r)
  else if record_type =? kFirstType then
    let r := if in_fragmented_record st && negb (size (scratch st) =? 0)
             then ReportCorruption (size (scratch st)) "partial record without end(2)" r
             else r in
    Continue {| scratch := frag; record := record st;
                in_fragmented_record := true;
                prospective_record_offset := physical_record_offset;
                fragment := frag |} r
  else if record_type =? kMiddleType then
    if negb (in_fragmented_record st) then
      Continue st (ReportCorruption (size frag) "missing start of fragmented record(1)" r)
    else
      Continue {| scratch := scratch st ++ frag; record := record st;
                  in_fragmented_record := in_fragmented_record st;
                  prospective_record_offset := prospective_record_offset st;
                  fragment := frag |} r
  else if record_type =? kLastType then
    if negb (in_fragmented_record st) then
      Continue st (ReportCorruption (size frag) "missing start of fragmented record(2)" r)
    else
      Return true
             {| scratch := scratch st ++ frag; record := scratch st ++ frag;
                in_fragmented_record := in_fragmented_record st;
                prospective_record_offset := prospective_record_offset st;
                fragment := frag |}
             (set_last_record_offset (prospective_record_offset st) r)
  else if record_type =? kEof then
    Return false
           {| scratch := if in_fragmented_record st then [] else scratch st;
              record := record st;
              in_fragmented_record := in_fragmented_record st;
              prospective_record_offset := prospective_record_offset st;
              fragment := frag |} r
  else if record_type =? kBadRecord then
    if in_fragmented_record st then
      Continue {| scratch := []; record := record st;
                  in_fragmented_record := false;
                  prospective_record_offset := prospective_record_offset st;
                  fragment := frag |}
               (ReportCorruption (size (scratch st)) "error in middle of record" r)
    else Continue st r
  else
    (* unknown record type *)
    Continue {| scratch := []; record := record st;
                in_fragmented_record := false;
                prospective_record_offset := prospective_record_offset st;
                fragment := frag |}
             (ReportCorruption
                (wrap64 (size frag
                         + (if in_fragmented_record st then size (scratch st) else 0)))
                ("unknown record type " +:+ pretty record_type) r).

(** One iteration of the loop of [ReadRecord], after [ReadPhysicalRecord]
    has returned [record_type] and stored the fragment in [st]. *)
Definition ReadRecord_dispatch (record_type : Z) (st : ReadState) (r : Reader) : Step :=
  let physical_record_offset :=
    wrap64 (wrap64 (wrap64 (end_of_buffer_offset_ r - size (buffer_ r))
                    - kHeaderSize) - size (fragment st)) in
  if resyncing_ r then
    if record_type =? kMiddleType then Continue st r
    else if record_type =? kLastType then Continue st (set_resyncing false r)
    else ReadRecord_switch record_type physical_record_offset st (set_resyncing false r)
  else ReadRecord_switch record_type physical_record_offset st r.

Definition set_fragment (f : Slice) (st : ReadState) : ReadState :=
  {| scratch := scratch st; record := record st;
     in_fragmented_record := in_fragmented_record st;
     prospective_record_offset := prospective_record_offset st;
     fragment := f |}.

(** The loop [while (true)] of [ReadRecord]. *)
Fixpoint ReadRecord_loop (fuel : nat) (st : ReadState) (r : Reader)
  : option (bool * ReadState * Reader) :=
  match fuel with
  | O => None
  | S fuel' =>
      match ReadPhysicalRecord (fragment st) r with
      | None => None
      | Some (record_type, frag, r) =>
          match ReadRecord_dispatch record_type (set_fragment frag st) r with
          | Return b st r => Some (b, st, r)
          | Continue st r => ReadRecord_loop fuel' st r
          end
      end
  end.

(** [bool Reader::ReadRecord(Slice* record, std::string* scratch)]; the
    result carries the two out-parameters in its [ReadState]. *)
Definition ReadRecord (fuel : nat) (record0 scratch0 : Slice) (r : Reader)
  : option (bool * ReadState * Reader) :=
  let '(skipped, r) :=
    if last_record_offset_ r <? initial_offset_ r
    then SkipToInitialBlock r else (true, r) in
  if negb skipped then
    Some (false,
          {| scratch := scratch0; record := record0; in_fragmented_record := false;
             prospective_record_offset := 0; fragment := [] |}, r)
  else ReadRecord_loop fuel ReadState_init r.

End WithFile.

End LogReader.

(** *** Properties of the log reader *)

Module LogReaderProofs.
Import LogReader.

(** An in-memory [SequentialFile]: the bytes not yet read.  [Read] returns
    up to [n] of them, [Skip] passes over [n]. *)
Definition mem_Read (n : Z) (f : list Z) : Status * Slice * list Z :=
  (OK, take (Z.to_nat n) f, drop (Z.to_nat n) f).

Definition mem_Skip (n : Z) (f : list Z) : Status * list Z :=
  (OK, drop (Z.to_nat n) f).

(** A stand-in for [crc32c::Extend] where checksums are not verified. *)
Definition no_crc (init_crc : Z) (data : Slice) : Z := 0.

(** A physical record with a zero checksum field. *)
Definition physical_record (type : Z) (payload : Slice) : Slice :=
  [0; 0; 0; 0; size payload mod 256; size payload / 256; type] ++ payload.

Section WithFile.

Variable File : Type.
Variable file_Read : Z -> File -> Status * Slice * File.
Variable file_Skip : Z -> File -> Status * File.
Variable crc32c_Extend : Z -> Slice -> Z.

Abbreviation Reader := (Reader File).
Abbreviation ReadPhysicalRecord := (ReadPhysicalRecord File file_Read crc32c_Extend).
Abbreviation parse_physical_record := (parse_physical_record File crc32c_Extend).

(** [ReadPhysicalRecord] returns: its loop runs at most twice. *)
Lemma ReadPhysicalRecord_total (result : Slice) (r : Reader) :
  exists out, ReadPhysicalRecord result r = Some out.
Proof.
  unfold LogReader.ReadPhysicalRecord. simpl.
  destruct (Z.ltb_spec (size (buffer_ File r)) kHeaderSize) as [Hsmall|Hbig];
    [|eexists; reflexivity].
  destruct (eof_ File r); simpl; [eexists; reflexivity|].
  destruct (file_Read kBlockSize (file_ File r)) as [[status data] f]. simpl.
  destruct (Status_ok status); simpl; [|eexists; reflexivity].
  destruct (Z.ltb_spec (size data) kBlockSize) as [Hshort|Hfull]; simpl.
  - destruct (Z.ltb_spec (size data) kHeaderSize); eexists; reflexivity.
  - destruct (Z.ltb_spec (size data) kHeaderSize) as [H7|H7]; [|eexists; reflexivity].
    unfold kBlockSize, kHeaderSize in *. lia.
Qed.

(** With a header in the buffer, [ReadPhysicalRecord] parses it at once. *)
Lemma ReadPhysicalRecord_parses (result : Slice) (r : Reader) :
  kHeaderSize <= size (buffer_ File r) ->
  ReadPhysicalRecord result r = Some (parse_physical_record result r).
Proof.
  intros Hbig. unfold LogReader.ReadPhysicalRecord. simpl.
  destruct (Z.ltb_spec (size (buffer_ File r)) kHeaderSize); [lia|reflexivity].
Qed.

(** What the reporter has been told after [ReportCorruption bytes reason]
    on a reader whose buffer has just been cleared. *)
Definition reported_after_drop (bytes : Z) (reason : string) (r : Reader)
  : option Reporter :=
  match reporter_ File r with
  | Some calls =>
      if initial_offset_ File r <=? wrap64 (wrap64 (end_of_buffer_offset_ File r) - bytes)
      then Some (calls ++ [(bytes, Corruption reason)])
      else Some calls
  | None => None
  end.

(** C4 (amended). When the header being parsed declares a length that,
    with the 7-byte header, exceeds the bytes in the buffer: before
    end-of-file the buffer is dropped, [ReportCorruption] is called with the
    dropped size -- the reporter is told exactly when one is installed and
    the dropped bytes start at or after [initial_offset_] -- and the result
    is [kBadRecord]; at end-of-file the result is [kEof], the buffer is
    dropped and the reporter is told nothing. *)
Theorem length_beyond_buffer (result : Slice) (r : Reader) :
  size (buffer_ File r) < kHeaderSize + header_length (buffer_ File r) ->
  exists r',
    parse_physical_record result r
      = (if eof_ File r then kEof else kBadRecord, result, r')
    /\ buffer_ File r' = []
    /\ eof_ File r' = eof_ File r
    /\ reporter_ File r'
       = (if eof_ File r then reporter_ File r
          else reported_after_drop (size (buffer_ File r)) "bad record length" r)
    /\ (kHeaderSize <= size (buffer_ File r) ->
        ReadPhysicalRecord result r
          = Some (if eof_ File r then kEof else kBadRecord, result, r')).
Proof.
  intros Hlen.
  assert (Hparse : exists r',
    parse_physical_record result r
      = (if eof_ File r then kEof else kBadRecord, result, r')
    /\ buffer_ File r' = []
    /\ eof_ File r' = eof_ File r
    /\ reporter_ File r'
       = (if eof_ File r then reporter_ File r
          else reported_after_drop (size (buffer_ File r)) "bad record length" r)).
  { unfold LogReader.parse_physical_record.
    destruct (Z.ltb_spec (size (buffer_ File r))
                         (kHeaderSize + header_length (buffer_ File r))); [|lia].
    cbn [eof_ set_buffer].
    destruct (eof_ File r) eqn:Heof; cbn [negb].
    - eexists. split; [reflexivity|]. cbn. repeat split; auto.
    - eexists. split; [reflexivity|].
      unfold ReportCorruption, ReportDrop, reported_after_drop. cbn.
      change (size []) with 0. rewrite Z.sub_0_r.
      destruct (reporter_ File r) as [calls|] eqn:Hrep; cbn;
        [|repeat split; auto].
      destruct (initial_offset_ File r
                <=? wrap64 (wrap64 (end_of_buffer_offset_ File r)
                            - size (buffer_ File r))); cbn; repeat split; auto. }
  destruct Hparse as (r' & Hp & Hb & He & Hr).
  exists r'. repeat split; try assumption.
  intros Hbig. rewrite ReadPhysicalRecord_parses by assumption.
  rewrite Hp. reflexivity.
Qed.

Abbreviation ReadRecord_dispatch := (ReadRecord_dispatch File).
Abbreviation ReadRecord_switch := (ReadRecord_switch File).

(** The offset [ReadRecord] computes for the physical record just read. *)
Definition physical_record_offset (st : ReadState) (r : Reader) : Z :=
  wrap64 (wrap64 (wrap64 (end_of_buffer_offset_ File r - size (buffer_ File r))
                  - kHeaderSize) - size (fragment st)).

End WithFile.

(** A reader whose buffer holds a header declaring ten bytes of payload,
    of which none has arrived. *)
Definition torn_reader (eof : bool) : Reader (list Z) :=
  {| file_ := []; reporter_ := Some []; checksum_ := false;
     buffer_ := [0; 0; 0; 0; 10; 0; 1]; eof_ := eof;
     last_record_offset_ := 0; end_of_buffer_offset_ := 7;
     initial_offset_ := 0; resyncing_ := false |}.

Lemma length_beyond_buffer_witness :
  exists r',
    parse_physical_record (list Z) no_crc [] (torn_reader true)
      = (if eof_ _ (torn_reader true) then kEof else kBadRecord, [], r')
    /\ buffer_ _ r' = []
    /\ eof_ _ r' = eof_ _ (torn_reader true)
    /\ reporter_ _ r'
       = (if eof_ _ (torn_reader true) then reporter_ _ (torn_reader true)
          else reported_after_drop (list Z)
                 (size (buffer_ _ (torn_reader true))) "bad record length"
                 (torn_reader true))
    /\ (kHeaderSize <= size (buffer_ _ (torn_reader true)) ->
        ReadPhysicalRecord (list Z) mem_Read no_crc [] (torn_reader true)
          = Some (if eof_ _ (torn_reader true) then kEof else kBadRecord, [], r')).
Proof.
  apply (length_beyond_buffer (list Z) mem_Read no_crc [] (torn_reader true)).
  vm_compute. reflexivity.
Defined.

(** Before end-of-file the same header is reported as a corruption of the
    seven bytes dropped; at end-of-file nothing is reported. *)
Example torn_reader_runs :
  (let '(t, _, r) := parse_physical_record (list Z) no_crc [] (torn_reader false) in
   (t, reporter_ _ r))
  = (kBadRecord, Some [(7, Corruption "bad record length")])
  /\ (let '(t, _, r) := parse_physical_record (list Z) no_crc [] (torn_reader true) in
      (t, reporter_ _ r))
     = (kEof, Some []).
Proof. split; reflexivity. Qed.

(** One full block whose first header declares 65535 bytes of payload. *)
Definition bad_length_block : list Z :=
  [0; 0; 0; 0; 255; 255; 1] ++ repeat 0 (Z.to_nat 32761).

(** What a call of [ReadPhysicalRecord] returned and left behind: the
    type, [*result], the size of the buffer, [eof_], and what the reporter
    has been told. *)
Definition physical_outcome (o : option (Z * Slice * Reader (list Z)))
  : option (Z * Slice * Z * bool * option Reporter) :=
  match o with
  | Some (t, res, r) => Some (t, res, size (buffer_ _ r), eof_ _ r, reporter_ _ r)
  | None => None
  end.

(** C4 (as stated) fails.  A reader is started at offset 100 on a file of
    one full block whose first header declares 65535 bytes.  The first call
    of [ReadPhysicalRecord] reads the block (32768 bytes, so end-of-file is
    not reached), finds the declared length beyond the buffer, drops the
    buffer and returns [kBadRecord]; the installed reporter is told
    nothing, because the dropped bytes start before [initial_offset]. *)
Lemma bad_length_before_initial_offset :
  size bad_length_block = kBlockSize
  /\ kHeaderSize + header_length bad_length_block = 65542
  /\ header_type bad_length_block = kFullType
  /\ fst (SkipToInitialBlock (list Z) mem_Skip
            (new_Reader (list Z) bad_length_block (Some []) false 100)) = true
  /\ physical_outcome
       (ReadPhysicalRecord (list Z) mem_Read no_crc []
          (snd (SkipToInitialBlock (list Z) mem_Skip
                  (new_Reader (list Z) bad_length_block (Some []) false 100))))
     = Some (kBadRecord, [], 0, false, Some []).
Proof. repeat split; vm_compute; reflexivity. Qed.


(** A log as the writer lays it out: a record of three fragments filling
    blocks 0 and 1 and the start of block 2, then a Full record. *)
Definition log_three_blocks : list Z :=
  physical_record kFirstType (repeat 1 (Z.to_nat 32761))
  ++ physical_record kMiddleType (repeat 2 (Z.to_nat 32761))
  ++ physical_record kLastType (repeat 3 10)
  ++ physical_record kFullType [102].

(** What a call of [ReadRecord] returned and left behind: the result,
    [*record], what the reporter has been told, and [resyncing_]. *)
Definition record_outcome (o : option (bool * ReadState * Reader (list Z)))
  : option (bool * Slice * option Reporter * bool) :=
  match o with
  | Some (b, st, r) => Some (b, record st, reporter_ _ r, resyncing_ _ r)
  | None => None
  end.


(** Reading the writer's log from the start of block 1 skips the Middle and
    the Last fragment of the record begun in block 0 and delivers the Full
    record, with nothing reported. *)
Example resync_skip_into_multi_record :
  record_outcome
    (ReadRecord (list Z) mem_Read mem_Skip no_crc 3 [] []
       (new_Reader (list Z) log_three_blocks (Some []) false 32768))
  = Some (true, [102], Some [], false).
Proof. vm_compute. reflexivity. Qed.

End LogReaderProofs.


(* ===================================================================== *)
(** ** util/cache.cc : one shard of the LRU cache *)
(* ===================================================================== *)

Module LRU.

Abbreviation Slice := (list Z).

(** The address of a heap-allocated [LRUHandle]. *)
Abbreviation handle := positive.

(** [struct LRUHandle], without the link fields [next_hash], [next] and
    [prev]: the lists and the table they thread are kept in [LRUCache].
    [value] is the [void*] stored, [deleter] names the callback. *)
Record LRUHandle := {
  value : Z;
  deleter : Z;
  charge : Z;        (* size_t *)
  key : Slice;       (* key_data, key_length *)
  in_cache : bool;
  refs : Z;          (* uint32_t *)
  hash : Z           (* uint32_t *)
}.

Definition with_refs (n : Z) (h : LRUHandle) : LRUHandle :=
  {| value := value h; deleter := deleter h; charge := charge h; key := key h;
     in_cache := in_cache h; refs := n; hash := hash h |}.

Definition with_in_cache (b : bool) (h : LRUHandle) : LRUHandle :=
  {| value := value h; deleter := deleter h; charge := charge h; key := key h;
     in_cache := b; refs := refs h; hash := hash h |}.

(** [class LRUCache], with the memory its handles live in.
    - [lru_] and [in_use_] are the two circular lists, from [next] of the
      dummy head (the oldest entry) to its [prev] (the newest);
    - [table_] is the [HandleTable], kept as the finite map it implements:
      [FindPointer(key, hash)] walks the bucket of [hash] for the entry with
      that hash and key;
    - [heap] holds the handles obtained from [malloc] and not yet freed;
    - [deleted] lists the calls of deleters: [(deleter, key, value)]. *)
Record LRUCache := {
  capacity_ : Z;     (* size_t *)
  usage_ : Z;        (* size_t *)
  lru_ : list handle;
  in_use_ : list handle;
  table_ : gmap (Z * Slice) handle;
  heap : gmap handle LRUHandle;
  deleted : list (Z * Slice * Z)
}.

(** [LRUCache::LRUCache()] followed by [SetCapacity(capacity)]. *)
Definition new_LRUCache (capacity : Z) : LRUCache :=
  {| capacity_ := capacity; usage_ := 0; lru_ := []; in_use_ := [];
     table_ := ∅; heap := ∅; deleted := [] |}.

Definition set_usage (u : Z) (c : LRUCache) : LRUCache :=
  {| capacity_ := capacity_ c; usage_ := u; lru_ := lru_ c; in_use_ := in_use_ c;
     table_ := table_ c; heap := heap c; deleted := deleted c |}.

Definition set_lists (l u : list handle) (c : LRUCache) : LRUCache :=
  {| capacity_ := capacity_ c; usage_ := usage_ c; lru_ := l; in_use_ := u;
     table_ := table_ c; heap := heap c; deleted := deleted c |}.

Definition set_table (t : gmap (Z * Slice) handle) (c : LRUCache) : LRUCache :=
  {| capacity_ := capacity_ c; usage_ := usage_ c; lru_ := lru_ c;
     in_use_ := in_use_ c; table_ := t; heap := heap c; deleted := deleted c |}.

Definition set_heap (m : gmap handle LRUHandle) (c : LRUCache) : LRUCache :=
  {| capacity_ := capacity_ c; usage_ := usage_ c; lru_ := lru_ c;
     in_use_ := in_use_ c; table_ := table_ c; heap := m; deleted := deleted c |}.

Definition set_deleted (d : list (Z * Slice * Z)) (c : LRUCache) : LRUCache :=
  {| capacity_ := capacity_ c; usage_ := usage_ c; lru_ := lru_ c;
     in_use_ := in_use_ c; table_ := table_ c; heap := heap c; deleted := d |}.

(** The list a handle is appended to: [&lru_] or [&in_use_]. *)
Inductive which_list := to_lru | to_in_use.

Definition remove_handle (e : handle) (l : list handle) : list handle :=
  filter (fun x => x ≠ e) l.

(** [LRU_Remove(e)]: [e] is unlinked from the list it is on. *)
Definition LRU_Remove (e : handle) (c : LRUCache) : LRUCache :=
  set_lists (remove_handle e (lru_ c)) (remove_handle e (in_use_ c)) c.

(** [LRU_Append(list, e)]: make [e] the newest entry, before [*list]. *)
Definition LRU_Append (list : which_list) (e : handle) (c : LRUCache) : LRUCache :=
  match list with
  | to_lru => set_lists (lru_ c ++ [e]) (in_use_ c) c
  | to_in_use => set_lists (lru_ c) (in_use_ c ++ [e]) c
  end.

(** [LRUCache::Ref(e)]; [None]: [e] is not a live handle. *)
Definition Ref (e : handle) (c : LRUCache) : option LRUCache :=
  h ← heap c !! e;
  let c := if (refs h =? 1) && in_cache h   (* If on lru_ list, move to in_use_ list. *)
           then LRU_Append to_in_use e (LRU_Remove e c) else c in
  Some (set_heap (<[e := with_refs (wrap32 (refs h + 1)) h]> (heap c)) c).

(** [LRUCache::Unref(e)]; [None]: an assertion fails, or [e] is not a live
    handle. *)
Definition Unref (e : handle) (c : LRUCache) : option LRUCache :=
  h ← heap c !! e;
  if refs h <=? 0 then None                         (* assert(e->refs > 0) *)
  else
    let h := with_refs (refs h - 1) h in
    if refs h =? 0 then                              (* Deallocate. *)
      if in_cache h then None                        (* assert(!e->in_cache) *)
      else Some (set_heap (delete e (heap c))        (* free(e) *)
                   (set_deleted (deleted c ++ [(deleter h, key h, value h)]) c))
    else
      let c := set_heap (<[e := h]> (heap c)) c in
      if in_cache h && (refs h =? 1) then
        (* No longer in use; move to lru_ list. *)
        Some (LRU_Append to_lru e (LRU_Remove e c))
      else Some c.

(** [HandleTable::Lookup], [Insert] and [Remove]. *)
Definition table_Lookup (k : Slice) (hash : Z) (c : LRUCache) : option handle :=
  table_ c !! (hash, k).

Definition table_Insert (e : handle) (c : LRUCache) : option (option handle * LRUCache) :=
  h ← heap c !! e;
  let old := table_ c !! (hash h, key h) in
  Some (old, set_table (<[(hash h, key h) := e]> (table_ c)) c).

Definition table_Remove (k : Slice) (hash : Z) (c : LRUCache) : option handle * LRUCache :=
  (table_ c !! (hash, k), set_table (delete (hash, k) (table_ c)) c).

(** [bool LRUCache::FinishErase(LRUHandle* e)]: [e] has already been
    removed from the hash table. *)
Definition FinishErase (e : option handle) (c : LRUCache) : option (bool * LRUCache) :=
  match e with
  | Some e =>
      h ← heap c !! e;
      if negb (in_cache h) then None                 (* assert(e->in_cache) *)
      else
        let c := LRU_Remove e c in
        let c := set_heap (<[e := with_in_cache false h]> (heap c)) c in
        let c := set_usage (wrap64 (usage_ c - charge h)) c in
        c ← Unref e c;
        Some (true, c)
  | None => Some (false, c)
  end.

(** The loop [while (usage_ > capacity_ && lru_.next != &lru_)] of
    [Insert]; [None]: an assertion fails or the fuel runs out. *)
Fixpoint evict (fuel : nat) (c : LRUCache) : option LRUCache :=
  if capacity_ c <? usage_ c then
    match lru_ c with
    | [] => Some c
    | old :: _ =>
        match fuel with
        | O => None
        | S fuel' =>
            h ← heap c !! old;
            if negb (refs h =? 1) then None          (* assert(old->refs == 1) *)
            else
              let '(removed, c) := table_Remove (key h) (hash h) c in
              match FinishErase removed c with
              | Some (erased, c) =>
                  if erased then evict fuel' c else None   (* assert(erased) *)
              | None => None
              end
        end
    end
  else Some c.

(** [Cache::Handle* LRUCache::Insert(key, hash, value, charge, deleter)] *)
Definition Insert (k : Slice) (hash_ : Z) (value_ : Z) (charge_ : Z) (deleter_ : Z)
           (c : LRUCache) : option (handle * LRUCache) :=
  let e := fresh (dom (heap c)) in                   (* malloc *)
  let h := {| value := value_; deleter := deleter_; charge := charge_; key := k;
              in_cache := false; refs := 1; hash := hash_ |} in
  c ← (if 0 <? capacity_ c then
         let h := with_in_cache true (with_refs (wrap32 (refs h + 1)) h) in
         let c := set_heap (<[e := h]> (heap c)) c in
         let c := LRU_Append to_in_use e c in
         let c := set_usage (wrap64 (usage_ c + charge_)) c in
         match table_Insert e c with
         | Some (old, c) => snd <$> FinishErase old c
         | None => None
         end
       else
         (* don't cache. (capacity_==0 is supported and turns off caching.) *)
         Some (set_heap (<[e := h]> (heap c)) c));
  c ← evict (length (lru_ c)) c;
  Some (e, c).

(** [Cache::Handle* LRUCache::Lookup(key, hash)] *)
Definition Lookup (k : Slice) (hash_ : Z) (c : LRUCache) : option (option handle * LRUCache) :=
  match table_Lookup k hash_ c with
  | Some e => c ← Ref e c; Some (Some e, c)
  | None => Some (None, c)
  end.

(** [void LRUCache::Release(Cache::Handle* handle)] *)
Definition Release (e : handle) (c : LRUCache) : option LRUCache := Unref e c.

(** [void LRUCache::Erase(key, hash)] *)
Definition Erase (k : Slice) (hash_ : Z) (c : LRUCache) : option LRUCache :=
  let '(removed, c) := table_Remove k hash_ c in
  snd <$> FinishErase removed c.

(** The loop of [LRUCache::Prune()]. *)
Fixpoint prune (fuel : nat) (c : LRUCache) : option LRUCache :=
  match lru_ c with
  | [] => Some c
  | e :: _ =>
      match fuel with
      | O => None
      | S fuel' =>
          h ← heap c !! e;
          if negb (refs h =? 1) then None            (* assert(e->refs == 1) *)
          else
            let '(removed, c) := table_Remove (key h) (hash h) c in
            match FinishErase removed c with
            | Some (erased, c) =>
                if erased then prune fuel' c else None     (* assert(erased) *)
            | None => None
            end
      end
  end.

Definition Prune (c : LRUCache) : option LRUCache := prune (length (lru_ c)) c.

(** The operations a client applies to a shard. *)
Inductive Op :=
| OpInsert (k : Slice) (hash_ value_ charge_ deleter_ : Z)
| OpLookup (k : Slice) (hash_ : Z)
| OpRelease (e : handle)
| OpErase (k : Slice) (hash_ : Z)
| OpPrune.

Definition step (op : Op) (c : LRUCache) : option LRUCache :=
  match op with
  | OpInsert k hash_ value_ charge_ deleter_ =>
      snd <$> Insert k hash_ value_ charge_ deleter_ c
  | OpLookup k hash_ => snd <$> Lookup k hash_ c
  | OpRelease e => Release e c
  | OpErase k hash_ => Erase k hash_ c
  | OpPrune => Prune c
  end.

(** The states after each operation of a sequence; [None]: an operation
    failed. *)
Fixpoint run (ops : list Op) (c : LRUCache) : option (list LRUCache) :=
  match ops with
  | [] => Some []
  | op :: rest =>
      c' ← step op c;
      states ← run rest c';
      Some (c' :: states)
  end.

End LRU.

Module LRUProofs.
Import LRU.

Definition key_of (h : LRUHandle) : Z * Slice := (hash h, key h).

(** [e] is a live handle of an entry the cache holds a reference to. *)
Definition cached (c : LRUCache) (e : handle) (h : LRUHandle) : Prop :=
  heap c !! e = Some h /\ in_cache h = true.

(** The representation invariant of a shard.  [p] is an entry that has
    been taken out of the hash table and not yet out of the lists (the
    argument of a pending [FinishErase]), if there is one. *)
Record consistent (p : option handle) (c : LRUCache) : Prop := {
  cons_nodup : NoDup (lru_ c ++ in_use_ c);
  cons_lists : forall e, e ∈ lru_ c ++ in_use_ c <-> exists h, cached c e h;
  cons_table : forall k e,
      table_ c !! k = Some e <-> (exists h, cached c e h /\ key_of h = k) /\ p ≠ Some e;
  cons_lru : forall e h, e ∈ lru_ c -> heap c !! e = Some h -> refs h = 1;
  cons_in_use : forall e h, e ∈ in_use_ c -> heap c !! e = Some h -> 2 <= refs h
}.

(** The reference count of a live handle. *)
Definition refs_of (c : LRUCache) (e : handle) : option Z := refs <$> heap c !! e.

(** [e] is present in the hash table. *)
Definition in_table (c : LRUCache) (e : handle) : Prop :=
  exists k, table_ c !! k = Some e.

(** The invariant of the two lists and the hash table:
    - an entry in the table is on exactly one of the two lists;
    - an entry on [lru_] has exactly one reference;
    - an entry on [in_use_] has at least two;
    - an entry on neither list is not in the table;
    and, besides, every entry on a list is in the table, and no entry
    occupies two positions. *)
Definition cache_invariant (c : LRUCache) : Prop :=
  (forall e, in_table c e ->
             (e ∈ lru_ c /\ (e ∉ in_use_ c)) \/ ((e ∉ lru_ c) /\ e ∈ in_use_ c))
  /\ (forall e, e ∈ lru_ c -> refs_of c e = Some 1)
  /\ (forall e, e ∈ in_use_ c -> exists n, refs_of c e = Some n /\ 2 <= n)
  /\ (forall e, (e ∉ lru_ c) -> (e ∉ in_use_ c) -> ~ in_table c e)
  /\ (forall e, e ∈ lru_ c ++ in_use_ c -> in_table c e)
  /\ NoDup (lru_ c ++ in_use_ c).

Lemma elem_of_remove_handle e l x : x ∈ remove_handle e l <-> x ∈ l /\ x ≠ e.
Proof. unfold remove_handle. rewrite list_elem_of_filter. tauto. Qed.

Lemma NoDup_remove_handle e l u :
  NoDup (l ++ u) -> NoDup (e :: remove_handle e l ++ remove_handle e u).
Proof.
  intros Hnd. apply NoDup_cons. split.
  - rewrite elem_of_app, !elem_of_remove_handle. tauto.
  - unfold remove_handle. rewrite <- filter_app. apply NoDup_filter. exact Hnd.
Qed.

Lemma NoDup_move_to_lru e l u :
  NoDup (l ++ u) -> NoDup ((remove_handle e l ++ [e]) ++ remove_handle e u).
Proof.
  intros Hnd. apply NoDup_remove_handle with (e := e) in Hnd.
  assert (Hp : (remove_handle e l ++ [e]) ++ remove_handle e u
               ≡ₚ e :: remove_handle e l ++ remove_handle e u).
  { rewrite <- app_assoc. simpl. symmetry. apply Permutation_middle. }
  rewrite Hp. exact Hnd.
Qed.

Lemma NoDup_move_to_in_use e l u :
  NoDup (l ++ u) -> NoDup (remove_handle e l ++ remove_handle e u ++ [e]).
Proof.
  intros Hnd. apply NoDup_remove_handle with (e := e) in Hnd.
  assert (Hp : remove_handle e l ++ remove_handle e u ++ [e]
               ≡ₚ e :: remove_handle e l ++ remove_handle e u).
  { rewrite app_assoc. symmetry. apply Permutation_cons_append. }
  rewrite Hp. exact Hnd.
Qed.

(** Where a cached entry is, by its reference count. *)
Lemma cached_on_list p c e h :
  consistent p c -> cached c e h ->
  (e ∈ lru_ c /\ (e ∉ in_use_ c) /\ refs h = 1)
  \/ ((e ∉ lru_ c) /\ e ∈ in_use_ c /\ 2 <= refs h).
Proof.
  intros Hc Hch. pose proof Hch as [Hh Hin].
  assert (He : e ∈ lru_ c ++ in_use_ c) by (apply (cons_lists p c Hc); eauto).
  pose proof (cons_nodup p c Hc) as Hnd. apply NoDup_app in Hnd as (_ & Hdisj & _).
  apply elem_of_app in He as [He|He].
  - left. split; [exact He|]. split; [apply Hdisj; exact He|].
    apply (cons_lru p c Hc e h He Hh).
  - right. split; [intros Hl; exact (Hdisj e Hl He)|]. split; [exact He|].
    apply (cons_in_use p c Hc e h He Hh).
Qed.

Lemma not_cached_off_lists p c e :
  consistent p c -> (forall h, ~ cached c e h) -> (e ∉ lru_ c) /\ (e ∉ in_use_ c).
Proof.
  intros Hc Hn.
  assert (He : e ∉ lru_ c ++ in_use_ c).
  { intros He. apply (cons_lists p c Hc) in He as [h Hh]. exact (Hn h Hh). }
  rewrite elem_of_app in He. tauto.
Qed.

(** Membership in the two lists after [e] has been moved to the end of one
    of them, or taken out. *)
Lemma elem_of_moved_to_in_use e l u x :
  x ∈ remove_handle e l ++ remove_handle e u ++ [e] <-> x = e \/ x ∈ l ++ u.
Proof.
  rewrite !elem_of_app, !elem_of_remove_handle, list_elem_of_singleton.
  destruct (decide (x = e)); tauto.
Qed.

Lemma elem_of_moved_to_lru e l u x :
  x ∈ (remove_handle e l ++ [e]) ++ remove_handle e u <-> x = e \/ x ∈ l ++ u.
Proof.
  rewrite !elem_of_app, !elem_of_remove_handle, list_elem_of_singleton.
  destruct (decide (x = e)); tauto.
Qed.

Lemma elem_of_removed e l u x :
  x ∈ remove_handle e l ++ remove_handle e u <-> x ≠ e /\ x ∈ l ++ u.
Proof. rewrite !elem_of_app, !elem_of_remove_handle. tauto. Qed.

(** Replacing the handle at [e] by one with the same key and the same
    [in_cache] keeps the entries that are cached. *)
Lemma cached_insert_same c e h h' x :
  heap c !! e = Some h -> in_cache h' = in_cache h ->
  (exists hx, (<[e := h']> (heap c)) !! x = Some hx /\ in_cache hx = true)
  <-> (exists hx, cached c x hx).
Proof.
  intros Hh Hin. unfold cached. destruct (decide (x = e)) as [->|Hne].
  - rewrite lookup_insert_eq, Hh.
    split; intros (hx & [= <-] & Hx); eexists; (split; [reflexivity|congruence]).
  - rewrite lookup_insert_ne by congruence. reflexivity.
Qed.

Lemma cached_key_insert_same c e h h' x k :
  heap c !! e = Some h -> in_cache h' = in_cache h -> key_of h' = key_of h ->
  (exists hx, ((<[e := h']> (heap c)) !! x = Some hx /\ in_cache hx = true)
              /\ key_of hx = k)
  <-> (exists hx, cached c x hx /\ key_of hx = k).
Proof.
  intros Hh Hin Hk. unfold cached. destruct (decide (x = e)) as [->|Hne].
  - rewrite lookup_insert_eq, Hh. split; intros (hx & ([= <-] & Hx) & Hkx).
    + eexists. split; [split; [reflexivity|congruence]|congruence].
    + eexists. split; [split; [reflexivity|congruence]|congruence].
  - rewrite lookup_insert_ne by congruence. reflexivity.
Qed.

(** [Ref] on a cached entry whose count is not saturated. *)
Lemma Ref_consistent c e h c' :
  consistent None c -> cached c e h -> refs h < 2 ^ 32 - 1 ->
  Ref e c = Some c' -> consistent None c'.
Proof.
  intros Hc Hch Hsat HR. pose proof Hch as [Hh Hin].
  unfold Ref in HR. rewrite Hh in HR. simpl in HR. rewrite Hin, andb_true_r in HR.
  destruct (cached_on_list None c e h Hc Hch) as [(Hl & Hu & Hr)|(Hl & Hu & Hr)].
  - (* on lru_, with the cache's reference only: moved to in_use_ *)
    rewrite Hr in HR. simpl in HR. injection HR as <-.
    constructor; unfold cached; cbn.
    + apply NoDup_move_to_in_use. apply (cons_nodup _ _ Hc).
    + intros x. rewrite elem_of_moved_to_in_use.
      rewrite (cached_insert_same c e h _ x Hh) by reflexivity.
      rewrite <- (cons_lists _ _ Hc). split; [intros [->|Hx]|tauto]; [|exact Hx].
      apply elem_of_app. left. exact Hl.
    + intros k x.
      rewrite (cached_key_insert_same c e h _ x k Hh) by reflexivity.
      apply (cons_table _ _ Hc).
    + intros x hx Hx. apply elem_of_remove_handle in Hx as [Hx Hne].
      rewrite lookup_insert_ne by congruence. apply (cons_lru _ _ Hc). exact Hx.
    + intros x hx Hx. rewrite elem_of_app, elem_of_remove_handle,
        list_elem_of_singleton in Hx.
      destruct (decide (x = e)) as [->|Hne].
      * rewrite lookup_insert_eq. intros [= <-]. simpl. vm_compute. discriminate.
      * rewrite lookup_insert_ne by congruence.
        apply (cons_in_use _ _ Hc). tauto.
  - (* on in_use_ already *)
    destruct (Z.eqb_spec (refs h) 1) as [H1|_]; [lia|]. simpl in HR.
    injection HR as <-.
    assert (Hw : wrap32 (refs h + 1) = refs h + 1) by (apply wrap32_small; lia).
    constructor; unfold cached; cbn.
    + apply (cons_nodup _ _ Hc).
    + intros x. rewrite (cached_insert_same c e h _ x Hh) by reflexivity.
      apply (cons_lists _ _ Hc).
    + intros k x.
      rewrite (cached_key_insert_same c e h _ x k Hh) by reflexivity.
      apply (cons_table _ _ Hc).
    + intros x hx Hx. destruct (decide (x = e)) as [->|Hne]; [contradiction|].
      rewrite lookup_insert_ne by congruence. apply (cons_lru _ _ Hc). exact Hx.
    + intros x hx Hx. destruct (decide (x = e)) as [->|Hne].
      * rewrite lookup_insert_eq. intros [= <-]. simpl. lia.
      * rewrite lookup_insert_ne by congruence. apply (cons_in_use _ _ Hc). exact Hx.
Qed.

(** [Unref] keeps the invariant whenever its assertions hold. *)
Lemma Unref_consistent c e c' :
  consistent None c -> Unref e c = Some c' -> consistent None c'.
Proof.
  intros Hc HU. unfold Unref in HU.
  destruct (heap c !! e) as [h|] eqn:Hh; [|discriminate]. simpl in HU.
  destruct (Z.leb_spec (refs h) 0) as [|Hpos]; [discriminate|].
  destruct (Z.eqb_spec (refs h - 1) 0) as [H0|Hn0].
  - (* the last reference: the entry is deleted *)
    destruct (in_cache h) eqn:Hin; [discriminate|]. injection HU as <-.
    assert (Hnc : forall hx, ~ cached c e hx).
    { intros hx [Hx Hxi]. congruence. }
    constructor; unfold cached; cbn.
    + apply (cons_nodup _ _ Hc).
    + intros x. rewrite (cons_lists _ _ Hc). unfold cached.
      destruct (decide (x = e)) as [->|Hne].
      * rewrite lookup_delete_eq, Hh. split; intros (hx & Hx & Hxi); congruence.
      * rewrite lookup_delete_ne by congruence. reflexivity.
    + intros k x. rewrite (cons_table _ _ Hc). unfold cached.
      destruct (decide (x = e)) as [->|Hne].
      * rewrite lookup_delete_eq, Hh.
        split; intros [(hx & (Hx & Hxi) & Hk) _]; congruence.
      * rewrite lookup_delete_ne by congruence. reflexivity.
    + intros x hx Hx. destruct (decide (x = e)) as [->|Hne].
      * rewrite lookup_delete_eq. discriminate.
      * rewrite lookup_delete_ne by congruence. apply (cons_lru _ _ Hc). exact Hx.
    + intros x hx Hx. destruct (decide (x = e)) as [->|Hne].
      * rewrite lookup_delete_eq. discriminate.
      * rewrite lookup_delete_ne by congruence. apply (cons_in_use _ _ Hc). exact Hx.
  - cbn [in_cache with_refs refs] in HU.
    destruct (in_cache h) eqn:Hin; cbn [andb] in HU.
    + (* a cached entry: it was on in_use_ *)
      assert (Hch : cached c e h) by (split; assumption).
      destruct (cached_on_list None c e h Hc Hch) as [(Hl & Hu & Hr)|(Hl & Hu & Hr)];
        [lia|].
      destruct (Z.eqb_spec (refs h - 1) 1) as [H1|Hn1]; injection HU as <-.
      * (* the last client reference: moved to lru_ *)
        constructor; unfold cached; cbn.
        -- apply NoDup_move_to_lru. apply (cons_nodup _ _ Hc).
        -- intros x. rewrite elem_of_moved_to_lru.
           rewrite (cached_insert_same c e h _ x Hh) by reflexivity.
           rewrite <- (cons_lists _ _ Hc). split; [intros [->|Hx]|tauto]; [|exact Hx].
           apply elem_of_app. right. exact Hu.
        -- intros k x.
           rewrite (cached_key_insert_same c e h _ x k Hh) by reflexivity.
           apply (cons_table _ _ Hc).
        -- intros x hx Hx. rewrite elem_of_app, elem_of_remove_handle,
             list_elem_of_singleton in Hx.
           destruct (decide (x = e)) as [->|Hne].
           ++ rewrite lookup_insert_eq. intros [= <-]. simpl. lia.
           ++ rewrite lookup_insert_ne by congruence.
              apply (cons_lru _ _ Hc). tauto.
        -- intros x hx Hx. apply elem_of_remove_handle in Hx as [Hx Hne].
           rewrite lookup_insert_ne by congruence. apply (cons_in_use _ _ Hc). exact Hx.
      * constructor; unfold cached; cbn.
        -- apply (cons_nodup _ _ Hc).
        -- intros x. rewrite (cached_insert_same c e h _ x Hh) by reflexivity.
           apply (cons_lists _ _ Hc).
        -- intros k x.
           rewrite (cached_key_insert_same c e h _ x k Hh) by reflexivity.
           apply (cons_table _ _ Hc).
        -- intros x hx Hx. destruct (decide (x = e)) as [->|Hne]; [contradiction|].
           rewrite lookup_insert_ne by congruence. apply (cons_lru _ _ Hc). exact Hx.
        -- intros x hx Hx. destruct (decide (x = e)) as [->|Hne].
           ++ rewrite lookup_insert_eq. intros [= <-]. simpl. lia.
           ++ rewrite lookup_insert_ne by congruence.
              apply (cons_in_use _ _ Hc). exact Hx.
    + (* an entry the cache no longer holds *)
      injection HU as <-.
      assert (Hnc : forall hx, ~ cached c e hx).
      { intros hx [Hx Hxi]. congruence. }
      destruct (not_cached_off_lists None c e Hc Hnc) as [Hl Hu].
      constructor; unfold cached; cbn.
      * apply (cons_nodup _ _ Hc).
      * intros x. rewrite (cached_insert_same c e h _ x Hh) by reflexivity.
        apply (cons_lists _ _ Hc).
      * intros k x.
        rewrite (cached_key_insert_same c e h _ x k Hh) by reflexivity.
        apply (cons_table _ _ Hc).
      * intros x hx Hx. destruct (decide (x = e)) as [->|Hne]; [contradiction|].
        rewrite lookup_insert_ne by congruence. apply (cons_lru _ _ Hc). exact Hx.
      * intros x hx Hx. destruct (decide (x = e)) as [->|Hne]; [contradiction|].
        rewrite lookup_insert_ne by congruence. apply (cons_in_use _ _ Hc). exact Hx.
Qed.

(** [FinishErase] on the entry just taken out of the table. *)
Lemma FinishErase_consistent c e b c' :
  consistent (Some e) c -> FinishErase (Some e) c = Some (b, c') ->
  consistent None c'.
Proof.
  intros Hc HF. unfold FinishErase in HF.
  destruct (heap c !! e) as [h|] eqn:Hh; [|discriminate]. simpl in HF.
  destruct (in_cache h) eqn:Hin; [|discriminate]. simpl in HF.
  set (c2 := set_usage _ _) in HF.
  destruct (Unref e c2) as [c3|] eqn:HU; [|discriminate]. injection HF as _ <-.
  apply (Unref_consistent c2 e c3); [|exact HU].
  constructor; unfold cached; cbn.
  - unfold remove_handle. rewrite <- filter_app. apply NoDup_filter.
    apply (cons_nodup _ _ Hc).
  - intros x. rewrite elem_of_removed, (cons_lists _ _ Hc). unfold cached.
    destruct (decide (x = e)) as [->|Hne].
    + rewrite lookup_insert_eq. split; [tauto|]. intros (hx & [= <-] & Hx).
      discriminate.
    + rewrite lookup_insert_ne by congruence. tauto.
  - intros k x. rewrite (cons_table _ _ Hc). unfold cached.
    destruct (decide (x = e)) as [->|Hne].
    + rewrite lookup_insert_eq. split; [intros [_ Hp]; congruence|].
      intros [(hx & ([= <-] & Hx) & _) _]. discriminate.
    + rewrite lookup_insert_ne by congruence.
      split; intros [Hx _]; (split; [exact Hx|congruence]).
  - intros x hx Hx. apply elem_of_remove_handle in Hx as [Hx Hne].
    rewrite lookup_insert_ne by congruence. apply (cons_lru _ _ Hc). exact Hx.
  - intros x hx Hx. apply elem_of_remove_handle in Hx as [Hx Hne].
    rewrite lookup_insert_ne by congruence. apply (cons_in_use _ _ Hc). exact Hx.
Qed.

(** Taking the entry of a key out of the table leaves it pending. *)
Lemma table_Remove_consistent c k hash_ :
  consistent None c ->
  consistent (fst (table_Remove k hash_ c)) (snd (table_Remove k hash_ c)).
Proof.
  intros Hc. unfold table_Remove. cbn [fst snd].
  destruct (table_ c !! (hash_, k)) as [e|] eqn:Ht.
  - constructor; unfold cached; cbn.
    + apply (cons_nodup _ _ Hc).
    + apply (cons_lists _ _ Hc).
    + intros k' x. destruct (decide ((hash_, k) = k')) as [<-|Hne].
      * rewrite lookup_delete_eq. split; [discriminate|].
        intros [Hx Hp]. exfalso. apply Hp. f_equal.
        assert (Hx' : table_ c !! (hash_, k) = Some x).
        { apply (cons_table _ _ Hc). split; [exact Hx|discriminate]. }
        congruence.
      * rewrite lookup_delete_ne by exact Hne. rewrite (cons_table _ _ Hc).
        split; intros [Hx _]; (split; [exact Hx|]); [|discriminate].
        intros [= <-]. destruct Hx as (hx & Hcx & Hkx).
        apply (cons_table _ _ Hc) in Ht as [(he & Hce & Hke) _].
        destruct Hcx as [Hx1 _], Hce as [He1 _]. congruence.
    + apply (cons_lru _ _ Hc).
    + apply (cons_in_use _ _ Hc).
  - rewrite delete_id by exact Ht. destruct Hc. constructor; assumption.
Qed.

Lemma erase_consistent c k hash_ b c' :
  consistent None c ->
  FinishErase (fst (table_Remove k hash_ c)) (snd (table_Remove k hash_ c))
    = Some (b, c') ->
  consistent None c'.
Proof.
  intros Hc HF. pose proof (table_Remove_consistent c k hash_ Hc) as Hp.
  destruct (fst (table_Remove k hash_ c)) as [e|].
  - exact (FinishErase_consistent _ e b c' Hp HF).
  - simpl in HF. injection HF as _ <-. exact Hp.
Qed.

(** The oldest entry of [lru_] is in the table under its own key. *)
Lemma lru_head_in_table c old rest h :
  consistent None c -> lru_ c = old :: rest -> heap c !! old = Some h ->
  table_ c !! (hash h, key h) = Some old.
Proof.
  intros Hc Hl Hh.
  assert (Hin : old ∈ lru_ c ++ in_use_ c).
  { rewrite Hl. apply elem_of_app. left. apply list_elem_of_here. }
  apply (cons_lists _ _ Hc) in Hin as (h' & Hh' & Hc').
  assert (h' = h) by congruence. subst h'.
  apply (cons_table _ _ Hc). split; [|discriminate].
  exists h. split; [split; assumption|reflexivity].
Qed.

(** Every live handle has at least one reference and at most [k]. *)
Definition refs_range (k : Z) (c : LRUCache) : Prop :=
  forall e h, heap c !! e = Some h -> 1 <= refs h <= k.

Lemma refs_range_mono k k' c : k <= k' -> refs_range k c -> refs_range k' c.
Proof. intros Hk Hr e h Hh. specialize (Hr e h Hh). lia. Qed.

Lemma refs_range_insert k c e h (c' : LRUCache) :
  refs_range k c -> 1 <= refs h <= k -> heap c' = <[e := h]> (heap c) ->
  refs_range k c'.
Proof.
  intros Hr Hh Heq x hx. rewrite Heq. destruct (decide (x = e)) as [->|Hne].
  - rewrite lookup_insert_eq. intros [= <-]. exact Hh.
  - rewrite lookup_insert_ne by congruence. apply Hr.
Qed.

Lemma refs_range_delete k c e (c' : LRUCache) :
  refs_range k c -> heap c' = delete e (heap c) -> refs_range k c'.
Proof.
  intros Hr Heq x hx. rewrite Heq. intros Hx.
  apply lookup_delete_Some in Hx as [_ Hx]. exact (Hr x hx Hx).
Qed.

Lemma Ref_range k c e c' :
  refs_range k c -> k < 2 ^ 32 - 1 -> Ref e c = Some c' -> refs_range (k + 1) c'.
Proof.
  intros Hr Hk HR. unfold Ref in HR.
  destruct (heap c !! e) as [h|] eqn:Hh; [|discriminate]. simpl in HR.
  injection HR as <-. pose proof (Hr e h Hh) as Hb.
  apply (refs_range_insert (k + 1) c e (with_refs (wrap32 (refs h + 1)) h)).
  - apply (refs_range_mono k); [lia|exact Hr].
  - cbn. rewrite wrap32_small by lia. lia.
  - destruct ((refs h =? 1) && in_cache h); reflexivity.
Qed.

Lemma Unref_range k c e c' :
  refs_range k c -> Unref e c = Some c' -> refs_range k c'.
Proof.
  intros Hr HU. unfold Unref in HU.
  destruct (heap c !! e) as [h|] eqn:Hh; [|discriminate]. simpl in HU.
  pose proof (Hr e h Hh) as Hb.
  destruct (Z.leb_spec (refs h) 0) as [|Hpos]; [discriminate|].
  destruct (Z.eqb_spec (refs h - 1) 0) as [H0|Hn0].
  - destruct (in_cache h); [discriminate|]. injection HU as <-.
    apply (refs_range_delete k c e); [exact Hr|reflexivity].
  - cbn [in_cache with_refs refs] in HU.
    apply (refs_range_insert k c e (with_refs (refs h - 1) h)); [exact Hr|cbn; lia|].
    destruct (in_cache h && (refs h - 1 =? 1)); injection HU as <-; reflexivity.
Qed.

Lemma FinishErase_range k c e b c' :
  refs_range k c -> FinishErase e c = Some (b, c') -> refs_range k c'.
Proof.
  intros Hr HF. destruct e as [e|]; [|injection HF as _ <-; exact Hr].
  unfold FinishErase in HF.
  destruct (heap c !! e) as [h|] eqn:Hh; [|discriminate]. simpl in HF.
  destruct (in_cache h) eqn:Hin; [|discriminate]. simpl in HF.
  set (c2 := set_usage _ _) in HF.
  destruct (Unref e c2) as [c3|] eqn:HU; [|discriminate]. injection HF as _ <-.
  apply (Unref_range k c2 e c3); [|exact HU].
  apply (refs_range_insert k c e (with_in_cache false h));
    [exact Hr|exact (Hr e h Hh)|reflexivity].
Qed.

(** [Unref] succeeds on a handle that a client holds. *)
Lemma Unref_progress c e h :
  heap c !! e = Some h -> 1 <= refs h -> (in_cache h = true -> 2 <= refs h) ->
  exists c', Unref e c = Some c' /\ (in_cache h = false -> lru_ c' = lru_ c).
Proof.
  intros Hh H1 H2. unfold Unref. rewrite Hh. simpl.
  destruct (Z.leb_spec (refs h) 0) as [|_]; [lia|].
  destruct (Z.eqb_spec (refs h - 1) 0) as [H0|Hn0].
  - destruct (in_cache h); [specialize (H2 eq_refl); lia|].
    eexists. split; reflexivity.
  - cbn [in_cache with_refs refs].
    destruct (in_cache h); cbn [andb].
    + destruct (refs h - 1 =? 1); eexists; (split; [reflexivity|discriminate]).
    + eexists. split; reflexivity.
Qed.

(** [FinishErase] succeeds on a cached entry and takes it off its list. *)
Lemma FinishErase_progress c e h :
  heap c !! e = Some h -> in_cache h = true -> 1 <= refs h ->
  exists c', FinishErase (Some e) c = Some (true, c')
             /\ lru_ c' = remove_handle e (lru_ c).
Proof.
  intros Hh Hin H1. unfold FinishErase. rewrite Hh. simpl. rewrite Hin. simpl.
  set (c2 := set_usage _ _).
  destruct (Unref_progress c2 e (with_in_cache false h)) as (c' & HU & Hl).
  - unfold c2. cbn. apply lookup_insert_eq.
  - exact H1.
  - discriminate.
  - rewrite HU. simpl. eexists. split; [reflexivity|].
    rewrite Hl by reflexivity. reflexivity.
Qed.

Lemma length_remove_head old rest :
  (length (remove_handle old (old :: rest)) <= length rest)%nat.
Proof.
  unfold remove_handle. rewrite filter_cons.
  destruct (decide (old ≠ old)) as [Hne|_]; [contradiction|].
  apply length_filter.
Qed.

(** Erasing the oldest entry of [lru_], as [Insert] and [Prune] do. *)
Lemma erase_oldest k c old rest :
  consistent None c -> refs_range k c -> lru_ c = old :: rest ->
  exists h c',
    heap c !! old = Some h /\ refs h = 1
    /\ FinishErase (table_ c !! (hash h, key h))
         (set_table (delete (hash h, key h) (table_ c)) c) = Some (true, c')
    /\ consistent None c' /\ refs_range k c'
    /\ (length (lru_ c') <= length rest)%nat.
Proof.
  intros Hc Hr Hl.
  assert (Hin : old ∈ lru_ c) by (rewrite Hl; apply list_elem_of_here).
  assert (Hin' : old ∈ lru_ c ++ in_use_ c) by (apply elem_of_app; tauto).
  apply (cons_lists _ _ Hc) in Hin' as (h & Hh & Hic).
  pose proof (cons_lru _ _ Hc old h Hin Hh) as Hr1.
  pose proof (lru_head_in_table c old rest h Hc Hl Hh) as Ht.
  destruct (FinishErase_progress
              (set_table (delete (hash h, key h) (table_ c)) c) old h)
    as (c' & HF & Hlru); [exact Hh|exact Hic|lia|].
  exists h, c'. split; [exact Hh|]. split; [exact Hr1|].
  rewrite Ht. split; [exact HF|]. split; [|split].
  - apply (erase_consistent c (key h) (hash h) true c' Hc).
    unfold table_Remove. cbn [fst snd]. rewrite Ht. exact HF.
  - eapply FinishErase_range; [|exact HF]. exact Hr.
  - rewrite Hlru. cbn [lru_ set_table]. rewrite Hl. apply length_remove_head.
Qed.

(** The eviction loop of [Insert] terminates within [length lru_]
    iterations, with no assertion failing. *)
Lemma evict_total k fuel c :
  consistent None c -> refs_range k c -> (length (lru_ c) <= fuel)%nat ->
  exists c', evict fuel c = Some c' /\ consistent None c' /\ refs_range k c'.
Proof.
  revert c. induction fuel as [|fuel IH]; intros c Hc Hr Hlen; simpl.
  - destruct (capacity_ c <? usage_ c); [|eauto].
    destruct (lru_ c); [eauto|simpl in Hlen; lia].
  - destruct (capacity_ c <? usage_ c); [|eauto].
    destruct (lru_ c) as [|old rest] eqn:Hl; [eauto|].
    destruct (erase_oldest k c old rest Hc Hr Hl)
      as (h & c2 & Hh & Hr1 & HF & Hc2 & Hr2 & Hlen2).
    rewrite Hh. simpl. rewrite Hr1. simpl.
    unfold table_Remove. rewrite HF.
    apply (IH c2 Hc2 Hr2). simpl in Hlen. lia.
Qed.

Lemma prune_total k fuel c :
  consistent None c -> refs_range k c -> (length (lru_ c) <= fuel)%nat ->
  exists c', prune fuel c = Some c' /\ consistent None c' /\ refs_range k c'.
Proof.
  revert c. induction fuel as [|fuel IH]; intros c Hc Hr Hlen; simpl.
  - destruct (lru_ c); [eauto|simpl in Hlen; lia].
  - destruct (lru_ c) as [|old rest] eqn:Hl; [eauto|].
    destruct (erase_oldest k c old rest Hc Hr Hl)
      as (h & c2 & Hh & Hr1 & HF & Hc2 & Hr2 & Hlen2).
    rewrite Hh. simpl. rewrite Hr1. simpl.
    unfold table_Remove. rewrite HF.
    apply (IH c2 Hc2 Hr2). simpl in Hlen. lia.
Qed.

Lemma fresh_handle_free p c :
  consistent p c ->
  heap c !! fresh (dom (heap c)) = None
  /\ (fresh (dom (heap c)) ∉ lru_ c ++ in_use_ c)
  /\ (forall k, table_ c !! k ≠ Some (fresh (dom (heap c)))).
Proof.
  intros Hc.
  assert (Hf : heap c !! fresh (dom (heap c)) = None).
  { apply not_elem_of_dom. apply is_fresh. }
  split; [exact Hf|]. split.
  - intros Hin. apply (cons_lists _ _ Hc) in Hin as (h & Hh & _). congruence.
  - intros k Hk. apply (cons_table _ _ Hc) in Hk as [(h & (Hh & _) & _) _]. congruence.
Qed.

(** The handle [Insert] fills in, and the state in which [Insert] has
    linked it into [in_use_] and the table, before the entry it replaces
    is erased. *)
Definition Insert_handle (k : Slice) (hash_ value_ charge_ deleter_ : Z) : LRUHandle :=
  {| value := value_; deleter := deleter_; charge := charge_; key := k;
     in_cache := false; refs := 1; hash := hash_ |}.

Definition Insert_linked (k : Slice) (hash_ value_ charge_ deleter_ : Z)
           (c : LRUCache) : LRUCache :=
  let e := fresh (dom (heap c)) in
  let h := with_in_cache true
             (with_refs (wrap32 (1 + 1)) (Insert_handle k hash_ value_ charge_ deleter_)) in
  set_table (<[(hash_, k) := e]> (table_ c))
    (set_usage (wrap64 (usage_ c + charge_))
       (LRU_Append to_in_use e (set_heap (<[e := h]> (heap c)) c))).

Lemma Insert_eq k hash_ value_ charge_ deleter_ c :
  Insert k hash_ value_ charge_ deleter_ c =
  c3 ← (if 0 <? capacity_ c then
          snd <$> FinishErase (table_ c !! (hash_, k))
                    (Insert_linked k hash_ value_ charge_ deleter_ c)
        else
          Some (set_heap (<[fresh (dom (heap c)) :=
                              Insert_handle k hash_ value_ charge_ deleter_]> (heap c)) c));
  c4 ← evict (length (lru_ c3)) c3;
  Some (fresh (dom (heap c)), c4).
Proof.
  unfold Insert, table_Insert. destruct (0 <? capacity_ c); [|reflexivity].
  cbn [heap set_usage LRU_Append set_lists set_heap].
  rewrite lookup_insert_eq. reflexivity.
Qed.

Lemma Insert_linked_consistent k hash_ value_ charge_ deleter_ c :
  consistent None c ->
  consistent (table_ c !! (hash_, k)) (Insert_linked k hash_ value_ charge_ deleter_ c).
Proof.
  intros Hc. destruct (fresh_handle_free None c Hc) as (Hfree & Hnl & Hnt).
  unfold Insert_linked. set (f := fresh (dom (heap c))) in *.
  set (old := table_ c !! (hash_, k)).
  constructor; unfold cached; cbn.
  - rewrite app_assoc. apply NoDup_app. split; [apply (cons_nodup _ _ Hc)|].
    split; [|apply NoDup_singleton].
    intros x Hx Hx'. apply list_elem_of_singleton in Hx'. subst x. contradiction.
  - intros x. rewrite app_assoc, elem_of_app, list_elem_of_singleton.
    rewrite (cons_lists _ _ Hc). unfold cached.
    destruct (decide (x = f)) as [->|Hne].
    + rewrite lookup_insert_eq. split; [|tauto]. intros _.
      eexists. split; reflexivity.
    + rewrite lookup_insert_ne by congruence. tauto.
  - intros k' x. destruct (decide ((hash_, k) = k')) as [<-|Hnk].
    + rewrite lookup_insert_eq. split.
      * intros [= <-]. split.
        -- eexists. rewrite lookup_insert_eq. split; [split|]; reflexivity.
        -- unfold old. apply Hnt.
      * intros [(hx & (Hx & Hxi) & Hkx) Hold].
        destruct (decide (x = f)) as [->|Hne]; [reflexivity|].
        rewrite lookup_insert_ne in Hx by congruence.
        exfalso. apply Hold. unfold old. apply (cons_table _ _ Hc).
        split; [|discriminate]. exists hx. split; [split|]; assumption.
    + rewrite lookup_insert_ne by exact Hnk. rewrite (cons_table _ _ Hc).
      unfold cached. split.
      * intros [(hx & (Hx & Hxi) & Hkx) _].
        assert (Hxf : x ≠ f) by congruence.
        split.
        -- exists hx. rewrite lookup_insert_ne by congruence. tauto.
        -- unfold old. intros Ho. apply (cons_table _ _ Hc) in Ho
             as [(ho & (Ho1 & _) & Hko) _]. congruence.
      * intros [(hx & (Hx & Hxi) & Hkx) _]. split; [|discriminate].
        destruct (decide (x = f)) as [->|Hne].
        -- rewrite lookup_insert_eq in Hx. injection Hx as <-.
           exfalso. apply Hnk. exact Hkx.
        -- rewrite lookup_insert_ne in Hx by congruence.
           exists hx. tauto.
  - intros x hx Hx. destruct (decide (x = f)) as [->|Hne].
    + exfalso. apply Hnl. apply elem_of_app. left. exact Hx.
    + rewrite lookup_insert_ne by congruence. apply (cons_lru _ _ Hc). exact Hx.
  - intros x hx Hx. rewrite elem_of_app, list_elem_of_singleton in Hx.
    destruct (decide (x = f)) as [->|Hne].
    + rewrite lookup_insert_eq. intros [= <-]. simpl. vm_compute. discriminate.
    + rewrite lookup_insert_ne by congruence.
      apply (cons_in_use _ _ Hc). tauto.
Qed.

Lemma Insert_uncached_consistent h c :
  consistent None c -> in_cache h = false ->
  consistent None (set_heap (<[fresh (dom (heap c)) := h]> (heap c)) c).
Proof.
  intros Hc Hh. destruct (fresh_handle_free None c Hc) as (Hfree & Hnl & Hnt).
  set (f := fresh (dom (heap c))) in *.
  constructor; unfold cached; cbn.
  - apply (cons_nodup _ _ Hc).
  - intros x. rewrite (cons_lists _ _ Hc). unfold cached.
    destruct (decide (x = f)) as [->|Hne].
    + rewrite lookup_insert_eq, Hfree.
      split; intros (hx & Hx & Hxi); [discriminate|].
      injection Hx as <-. congruence.
    + rewrite lookup_insert_ne by congruence. reflexivity.
  - intros k' x. rewrite (cons_table _ _ Hc). unfold cached.
    destruct (decide (x = f)) as [->|Hne].
    + rewrite lookup_insert_eq, Hfree.
      split; intros [(hx & (Hx & Hxi) & _) _]; [discriminate|].
      injection Hx as <-. congruence.
    + rewrite lookup_insert_ne by congruence. reflexivity.
  - intros x hx Hx. destruct (decide (x = f)) as [->|Hne].
    + exfalso. apply Hnl. apply elem_of_app. left. exact Hx.
    + rewrite lookup_insert_ne by congruence. apply (cons_lru _ _ Hc). exact Hx.
  - intros x hx Hx. destruct (decide (x = f)) as [->|Hne].
    + exfalso. apply Hnl. apply elem_of_app. right. exact Hx.
    + rewrite lookup_insert_ne by congruence. apply (cons_in_use _ _ Hc). exact Hx.
Qed.

(** [Insert] completes, and keeps the invariant. *)
Lemma Insert_total n k hash_ value_ charge_ deleter_ c :
  consistent None c -> refs_range n c -> 1 <= n ->
  exists e c', Insert k hash_ value_ charge_ deleter_ c = Some (e, c')
               /\ consistent None c' /\ refs_range (n + 1) c'.
Proof.
  intros Hc Hr Hn. rewrite Insert_eq.
  assert (Hentry : exists c3,
    (if 0 <? capacity_ c then
       snd <$> FinishErase (table_ c !! (hash_, k))
                 (Insert_linked k hash_ value_ charge_ deleter_ c)
     else
       Some (set_heap (<[fresh (dom (heap c)) :=
                           Insert_handle k hash_ value_ charge_ deleter_]> (heap c)) c))
    = Some c3 /\ consistent None c3 /\ refs_range (n + 1) c3).
  { destruct (0 <? capacity_ c).
    - pose proof (Insert_linked_consistent k hash_ value_ charge_ deleter_ c Hc) as Hc2.
      assert (Hr2 : refs_range (n + 1)
                      (Insert_linked k hash_ value_ charge_ deleter_ c)).
      { eapply (refs_range_insert (n + 1) c);
          [apply (refs_range_mono n); [lia|exact Hr]| |reflexivity].
        cbn. change (wrap32 (1 + 1)) with 2. lia. }
      destruct (table_ c !! (hash_, k)) as [o|] eqn:Ht.
      + apply (cons_table _ _ Hc) in Ht as [(ho & (Ho & Hoi) & _) _].
        destruct (fresh_handle_free None c Hc) as (Hfree & _ & _).
        assert (Hof : o ≠ fresh (dom (heap c))) by congruence.
        destruct (FinishErase_progress
                    (Insert_linked k hash_ value_ charge_ deleter_ c) o ho)
          as (c3 & HF & _).
        * unfold Insert_linked. cbn. rewrite lookup_insert_ne by congruence. exact Ho.
        * exact Hoi.
        * exact (proj1 (Hr o ho Ho)).
        * rewrite HF. exists c3. split; [reflexivity|]. split.
          -- exact (FinishErase_consistent _ o true c3 Hc2 HF).
          -- exact (FinishErase_range _ _ _ _ _ Hr2 HF).
      + eexists. split; [reflexivity|]. split; [exact Hc2|exact Hr2].
    - eexists. split; [reflexivity|]. split.
      + apply Insert_uncached_consistent; [exact Hc|reflexivity].
      + eapply (refs_range_insert (n + 1) c);
          [apply (refs_range_mono n); [lia|exact Hr]| |reflexivity].
        cbn. lia. }
  destruct Hentry as (c3 & -> & Hc3 & Hr3). cbn [mbind option_bind].
  destruct (evict_total (n + 1) (length (lru_ c3)) c3 Hc3 Hr3 (le_n _))
    as (c4 & -> & Hc4 & Hr4).
  cbn [mbind option_bind]. eauto.
Qed.

(** [Lookup] completes, and keeps the invariant while the count of the
    entry found is not saturated. *)
Lemma Lookup_total n k hash_ c :
  consistent None c -> refs_range n c -> n < 2 ^ 32 - 1 ->
  exists r c', Lookup k hash_ c = Some (r, c')
               /\ consistent None c' /\ refs_range (n + 1) c'.
Proof.
  intros Hc Hr Hn. unfold Lookup, table_Lookup.
  destruct (table_ c !! (hash_, k)) as [e|] eqn:Ht.
  - apply (cons_table _ _ Hc) in Ht as [(h & Hch & _) _].
    destruct (Ref e c) as [c1|] eqn:HR.
    + simpl. exists (Some e), c1. split; [reflexivity|]. split.
      * apply (Ref_consistent c e h c1 Hc Hch); [|exact HR].
        destruct Hch as [Hh _]. specialize (Hr e h Hh). lia.
      * exact (Ref_range n c e c1 Hr Hn HR).
    + unfold Ref in HR. destruct Hch as [Hh _]. rewrite Hh in HR. discriminate.
  - exists None, c. split; [reflexivity|]. split; [exact Hc|].
    apply (refs_range_mono n); [lia|exact Hr].
Qed.

Lemma Erase_total n k hash_ c :
  consistent None c -> refs_range n c ->
  exists c', Erase k hash_ c = Some c' /\ consistent None c' /\ refs_range n c'.
Proof.
  intros Hc Hr. unfold Erase.
  pose proof (erase_consistent c k hash_) as Her.
  unfold table_Remove in *. cbn [fst snd] in Her.
  destruct (table_ c !! (hash_, k)) as [e|] eqn:Ht.
  - pose proof Ht as Ht'.
    apply (cons_table _ _ Hc) in Ht' as [(h & (Hh & Hin) & _) _].
    destruct (FinishErase_progress
                (set_table (delete (hash_, k) (table_ c)) c) e h)
      as (c' & HF & _); [exact Hh|exact Hin|exact (proj1 (Hr e h Hh))|].
    rewrite HF. exists c'. split; [reflexivity|]. split.
    + exact (Her true c' Hc HF).
    + eapply FinishErase_range; [|exact HF]. exact Hr.
  - eexists. split; [reflexivity|]. split.
    + exact (Her false _ Hc eq_refl).
    + exact Hr.
Qed.

(** A handle that a client holds: its entry is on [in_use_], or is out of
    the cache and not yet freed. *)
Definition held (c : LRUCache) (e : handle) : bool :=
  match heap c !! e with
  | Some h => negb (in_cache h) || bool_decide (e ∈ in_use_ c)
  | None => false
  end.

Lemma Release_total n e c :
  consistent None c -> refs_range n c -> held c e = true ->
  exists c', Release e c = Some c' /\ consistent None c' /\ refs_range n c'.
Proof.
  intros Hc Hr Hheld. unfold held in Hheld.
  destruct (heap c !! e) as [h|] eqn:Hh; [|discriminate].
  destruct (Unref_progress c e h Hh (proj1 (Hr e h Hh))) as (c' & HU & _).
  - intros Hin. rewrite Hin in Hheld. simpl in Hheld.
    apply bool_decide_eq_true in Hheld.
    exact (cons_in_use _ _ Hc e h Hheld Hh).
  - exists c'. split; [exact HU|]. split.
    + exact (Unref_consistent c e c' Hc HU).
    + exact (Unref_range n c e c' Hr HU).
Qed.

(** What the interface asks of a client: [Release] is passed a handle
    that is held. *)
Definition allowed (op : Op) (c : LRUCache) : bool :=
  match op with
  | OpRelease e => held c e
  | _ => true
  end.

Fixpoint well_used (ops : list Op) (c : LRUCache) : bool :=
  match ops with
  | [] => true
  | op :: rest =>
      allowed op c
      && match step op c with
         | Some c' => well_used rest c'
         | None => true
         end
  end.

Lemma step_total n op c :
  consistent None c -> refs_range n c -> 1 <= n < 2 ^ 32 - 1 ->
  allowed op c = true ->
  exists c', step op c = Some c' /\ consistent None c' /\ refs_range (n + 1) c'.
Proof.
  intros Hc Hr Hn Hop. destruct op as [k hs v ch d|k hs|e|k hs|]; simpl.
  - destruct (Insert_total n k hs v ch d c Hc Hr) as (e & c' & -> & H); [lia|].
    simpl. eauto.
  - destruct (Lookup_total n k hs c Hc Hr) as (r & c' & -> & H); [lia|].
    simpl. eauto.
  - destruct (Release_total n e c Hc Hr Hop) as (c' & -> & Hc' & Hr').
    exists c'. split; [reflexivity|]. split; [exact Hc'|].
    apply (refs_range_mono n); [lia|exact Hr'].
  - destruct (Erase_total n k hs c Hc Hr) as (c' & -> & Hc' & Hr').
    exists c'. split; [reflexivity|]. split; [exact Hc'|].
    apply (refs_range_mono n); [lia|exact Hr'].
  - destruct (prune_total n (length (lru_ c)) c Hc Hr (le_n _))
      as (c' & HP & Hc' & Hr').
    exists c'. split; [exact HP|]. split; [exact Hc'|].
    apply (refs_range_mono n); [lia|exact Hr'].
Qed.

Lemma new_LRUCache_consistent capacity : consistent None (new_LRUCache capacity).
Proof.
  constructor; unfold cached; cbn.
  - constructor.
  - intros e. split; [intros He; inversion He|].
    intros (h & Hh & _). rewrite lookup_empty in Hh. discriminate.
  - intros k e. rewrite lookup_empty. split; [discriminate|].
    intros [(h & (Hh & _) & _) _]. rewrite lookup_empty in Hh. discriminate.
  - intros e h He. inversion He.
  - intros e h He. inversion He.
Qed.

Lemma run_total ops : forall n c,
  consistent None c -> refs_range n c -> 1 <= n ->
  n + Z.of_nat (length ops) <= 2 ^ 32 - 1 ->
  well_used ops c = true ->
  exists states, run ops c = Some states /\ Forall (consistent None) states.
Proof.
  induction ops as [|op ops IH]; intros n c Hc Hr Hn Hlen Hwu.
  - exists []. split; [reflexivity|constructor].
  - cbn [well_used] in Hwu. apply andb_true_iff in Hwu as [Hop Hwu].
    cbn [length] in Hlen.
    destruct (step_total n op c Hc Hr ltac:(lia) Hop) as (c1 & Hs & Hc1 & Hr1).
    rewrite Hs in Hwu.
    destruct (IH (n + 1) c1 Hc1 Hr1 ltac:(lia) ltac:(lia) Hwu)
      as (states & Hrun & Hall).
    exists (c1 :: states). split.
    + cbn [run]. rewrite Hs. cbn [mbind option_bind]. rewrite Hrun. reflexivity.
    + constructor; assumption.
Qed.

Lemma consistent_cache_invariant c : consistent None c -> cache_invariant c.
Proof.
  intros Hc. unfold cache_invariant, in_table, refs_of.
  assert (Hon : forall e, (exists k, table_ c !! k = Some e) ->
                          exists h, cached c e h).
  { intros e [k Hk]. apply (cons_table _ _ Hc) in Hk as [(h & Hch & _) _]. eauto. }
  split; [|split; [|split; [|split; [|split]]]].
  - intros e He. destruct (Hon e He) as [h Hch].
    destruct (cached_on_list None c e h Hc Hch) as [(? & ? & _)|(? & ? & _)]; tauto.
  - intros e He.
    assert (Hin : e ∈ lru_ c ++ in_use_ c) by (apply elem_of_app; tauto).
    apply (cons_lists _ _ Hc) in Hin as (h & Hh & _).
    rewrite Hh. simpl. f_equal. exact (cons_lru _ _ Hc e h He Hh).
  - intros e He.
    assert (Hin : e ∈ lru_ c ++ in_use_ c) by (apply elem_of_app; tauto).
    apply (cons_lists _ _ Hc) in Hin as (h & Hh & _).
    exists (refs h). rewrite Hh. split; [reflexivity|].
    exact (cons_in_use _ _ Hc e h He Hh).
  - intros e Hl Hu He. destruct (Hon e He) as [h Hch].
    assert (Hin : e ∈ lru_ c ++ in_use_ c) by (apply (cons_lists _ _ Hc); eauto).
    apply elem_of_app in Hin. tauto.
  - intros e He. apply (cons_lists _ _ Hc) in He as (h & Hch).
    exists (key_of h). apply (cons_table _ _ Hc). split; [eauto|discriminate].
  - apply (cons_nodup _ _ Hc).
Qed.

(** Short of an overflow of a reference count the invariant holds: on a
    new shard, in every sequence of fewer than 2^32 - 1 operations
    [Insert], [Lookup], [Release], [Erase] and [Prune] in which each
    [Release] is passed a handle that is held, every operation completes
    with no assertion failing, and after each of them the invariant of the
    lists and the table holds. *)
Theorem lru_lists_invariant (capacity : Z) (ops : list Op) :
  Z.of_nat (length ops) < 2 ^ 32 - 1 ->
  well_used ops (new_LRUCache capacity) = true ->
  exists states,
    run ops (new_LRUCache capacity) = Some states
    /\ Forall cache_invariant states.
Proof.
  intros Hlen Hwu.
  destruct (run_total ops 1 (new_LRUCache capacity)) as (states & Hrun & Hall).
  - apply new_LRUCache_consistent.
  - intros e h Hh. simpl in Hh. rewrite lookup_empty in Hh. discriminate.
  - lia.
  - lia.
  - exact Hwu.
  - exists states. split; [exact Hrun|].
    eapply Forall_impl; [exact Hall|]. intros c. apply consistent_cache_invariant.
Qed.

(** Three entries in a shard of capacity 3 are released, the first is
    looked up again, and a fourth is inserted. *)
Definition sample_ops : list Op :=
  [ OpInsert [65] 1 100 1 0; OpInsert [66] 2 200 1 0; OpInsert [67] 3 300 1 0;
    OpRelease 1%positive; OpRelease 2%positive; OpRelease 3%positive;
    OpLookup [65] 1; OpInsert [68] 4 400 1 0 ].

Lemma lru_lists_invariant_witness :
  exists states,
    run sample_ops (new_LRUCache 3) = Some states
    /\ Forall cache_invariant states.
Proof.
  apply (lru_lists_invariant 3 sample_ops); vm_compute; reflexivity.
Defined.

(** The fourth entry has pushed the second one out: the deleter has run on
    it, the third is the only idle entry, the first and the fourth are in
    use. *)
Example sample_ops_evicts :
  (fun c => (deleted c, lru_ c, in_use_ c, usage_ c))
    <$> (run sample_ops (new_LRUCache 3) ≫= last)
  = Some ([(0, [66], 200)], [3%positive], [1%positive; 4%positive], 3).
Proof. vm_compute. reflexivity. Qed.

(** Releasing a handle that nobody holds trips an assertion of [Unref]. *)
Example release_not_held :
  run [OpInsert [65] 1 100 1 0; OpRelease 1%positive; OpRelease 1%positive]
      (new_LRUCache 3) = None.
Proof. vm_compute. reflexivity. Qed.

(** A shard of capacity 1 holding one entry, with [r] references. *)
Definition one_entry (r : Z) : LRUCache :=
  {| capacity_ := 1; usage_ := 1; lru_ := []; in_use_ := [1%positive];
     table_ := {[ (1, [65]) := 1%positive ]};
     heap := {[ 1%positive := {| value := 100; deleter := 0; charge := 1;
                                 key := [65]; in_cache := true; refs := r;
                                 hash := 1 |} ]};
     deleted := [] |}.

Lemma Insert_one_entry :
  step (OpInsert [65] 1 100 1 0) (new_LRUCache 1) = Some (one_entry 2).
Proof. vm_compute. reflexivity. Qed.

Lemma Lookup_one_entry r :
  step (OpLookup [65] 1) (one_entry r) = Some (one_entry (wrap32 (r + 1))).
Proof.
  unfold step, Lookup, table_Lookup, one_entry. cbn [table_].
  rewrite lookup_singleton_eq. unfold Ref. cbn [heap].
  rewrite lookup_singleton_eq. cbn [mbind option_bind in_cache refs].
  rewrite andb_true_r.
  destruct (r =? 1); cbn [fmap option_fmap option_map mbind option_bind snd];
    unfold set_heap, LRU_Append, LRU_Remove, set_lists; cbn;
    rewrite insert_singleton_eq; reflexivity.
Qed.

(** After [n] more lookups the entry has [r + n] references modulo 2^32. *)
Lemma run_lookups_one_entry n r :
  0 <= r < 2 ^ 32 ->
  exists states,
    run (repeat (OpLookup [65] 1) n) (one_entry r) = Some states
    /\ last (one_entry r :: states) = Some (one_entry (wrap32 (r + Z.of_nat n))).
Proof.
  revert r. induction n as [|n IH]; intros r Hr.
  - exists []. split; [reflexivity|].
    rewrite Z.add_0_r, wrap32_small by exact Hr. reflexivity.
  - destruct (IH (wrap32 (r + 1)) (wrap32_range _)) as (states & Hrun & Hlast).
    exists (one_entry (wrap32 (r + 1)) :: states). split.
    + change (repeat (OpLookup [65] 1) (S n))
        with (OpLookup [65] 1 :: repeat (OpLookup [65] 1) n).
      cbn [run]. rewrite Lookup_one_entry. cbn [mbind option_bind].
      rewrite Hrun. reflexivity.
    + change (last (one_entry r :: one_entry (wrap32 (r + 1)) :: states))
        with (last (one_entry (wrap32 (r + 1)) :: states)).
      rewrite Hlast. do 2 f_equal. unfold wrap32.
      rewrite Zplus_mod_idemp_l. f_equal. lia.
Qed.

Lemma run_insert_lookups_one_entry n :
  exists states,
    run (OpInsert [65] 1 100 1 0 :: repeat (OpLookup [65] 1) n)
        (new_LRUCache 1) = Some states
    /\ last states = Some (one_entry (wrap32 (2 + Z.of_nat n))).
Proof.
  destruct (run_lookups_one_entry n 2 ltac:(lia)) as (states & Hrun & Hlast).
  exists (one_entry 2 :: states). split; [|exact Hlast].
  cbn [run]. rewrite Insert_one_entry. cbn [mbind option_bind].
  rewrite Hrun. reflexivity.
Qed.

Lemma one_entry_zero_refs_breaks : ~ cache_invariant (one_entry 0).
Proof.
  intros (_ & _ & Hin & _).
  destruct (Hin 1%positive) as (n & Hn & Hge); [apply list_elem_of_here|].
  unfold refs_of, one_entry in Hn. cbn [heap] in Hn.
  rewrite lookup_singleton_eq in Hn. simpl in Hn. injection Hn as <-. lia.
Qed.

(** C6.  The invariant is lost where a reference count overflows: [refs]
    is a [uint32_t] that [Ref] increments unchecked.  After [Insert] and
    2^32 - 2 calls of [Lookup] for the same key, none released, the
    reference count of the entry has wrapped to 0 while the entry is on
    [in_use_], whose entries have, by the comment on [in_use_], at least
    two references. *)
Lemma refs_wrap_on_in_use :
  exists states c,
    run (OpInsert [65] 1 100 1 0
         :: repeat (OpLookup [65] 1) (Z.to_nat (2 ^ 32 - 2)))
        (new_LRUCache 1) = Some states
    /\ last states = Some c
    /\ in_use_ c = [1%positive]
    /\ refs_of c 1%positive = Some 0
    /\ ~ cache_invariant c.
Proof.
  destruct (run_insert_lookups_one_entry (Z.to_nat (2 ^ 32 - 2)))
    as (states & Hrun & Hlast).
  rewrite Z2Nat.id in Hlast by lia.
  change (wrap32 (2 + (2 ^ 32 - 2))) with 0 in Hlast.
  exists states, (one_entry 0).
  split; [exact Hrun|]. split; [exact Hlast|].
  split; [reflexivity|]. split; [reflexivity|].
  exact one_entry_zero_refs_breaks.
Qed.

(** In that state the release of any of the handles held trips the
    assertion [e->refs > 0] of [Unref]. *)
Example release_after_wrap :
  held (one_entry 0) 1%positive = true
  /\ step (OpRelease 1%positive) (one_entry 0) = None.
Proof. split; vm_compute; reflexivity. Qed.

End LRUProofs.


(* ===================================================================== *)
(** ** util/cache.cc : the sharded cache *)
(* ===================================================================== *)

Module ShardedLRU.
Import LRU.

Definition kNumShardBits : Z := 4.
Definition kNumShards : Z := Z.shiftl 1 kNumShardBits.

(** [Cache::Handle*]: the shard in whose memory the [LRUHandle] lives,
    and its address there. *)
Abbreviation Handle := (nat * handle)%type.

(** [class ShardedLRUCache]; [shard_] has [kNumShards] elements. *)
Record ShardedLRUCache := {
  shard_ : list LRUCache;
  last_id_ : Z       (* uint64_t *)
}.

Definition set_shard (i : nat) (s : LRUCache) (c : ShardedLRUCache) : ShardedLRUCache :=
  {| shard_ := <[i := s]> (shard_ c); last_id_ := last_id_ c |}.

Section WithHash.

(** [uint32_t Hash(const char* data, size_t n, uint32_t seed)] of
    util/hash.h, which is not among the sources. *)
Variable Hash : Slice -> Z -> Z.

Definition HashSlice (s : Slice) : Z := wrap32 (Hash s 0).

Definition Shard (hash_ : Z) : nat := Z.to_nat (Z.shiftr hash_ (32 - kNumShardBits)).

(** [explicit ShardedLRUCache(size_t capacity)] *)
Definition new_ShardedLRUCache (capacity : Z) : ShardedLRUCache :=
  let per_shard := wrap64 (capacity + (kNumShards - 1)) / kNumShards in
  {| shard_ := replicate (Z.to_nat kNumShards) (new_LRUCache per_shard);
     last_id_ := 0 |}.

(** [Cache* NewLRUCache(size_t capacity)] *)
Definition NewLRUCache (capacity : Z) : ShardedLRUCache := new_ShardedLRUCache capacity.

(** The methods return [None] where the method of the shard does. *)
Definition Insert (k : Slice) (value_ charge_ deleter_ : Z) (c : ShardedLRUCache)
  : option (Handle * ShardedLRUCache) :=
  let hash_ := HashSlice k in
  s ← shard_ c !! Shard hash_;
  match LRU.Insert k hash_ value_ charge_ deleter_ s with
  | Some (e, s) => Some ((Shard hash_, e), set_shard (Shard hash_) s c)
  | None => None
  end.

Definition Lookup (k : Slice) (c : ShardedLRUCache)
  : option (option Handle * ShardedLRUCache) :=
  let hash_ := HashSlice k in
  s ← shard_ c !! Shard hash_;
  match LRU.Lookup k hash_ s with
  | Some (Some e, s) => Some (Some (Shard hash_, e), set_shard (Shard hash_) s c)
  | Some (None, s) => Some (None, set_shard (Shard hash_) s c)
  | None => None
  end.

(** [reinterpret_cast<LRUHandle*>(handle)]: the handle read from memory. *)
Definition deref (h : Handle) (c : ShardedLRUCache) : option LRUHandle :=
  s ← shard_ c !! h.1; heap s !! h.2.

Definition Release (h : Handle) (c : ShardedLRUCache) : option ShardedLRUCache :=
  e ← deref h c;
  s ← shard_ c !! Shard (hash e);
  s ← LRU.Release h.2 s;
  Some (set_shard (Shard (hash e)) s c).

Definition Erase (k : Slice) (c : ShardedLRUCache) : option ShardedLRUCache :=
  let hash_ := HashSlice k in
  s ← shard_ c !! Shard hash_;
  s ← LRU.Erase k hash_ s;
  Some (set_shard (Shard hash_) s c).

Definition Value (h : Handle) (c : ShardedLRUCache) : option Z :=
  value <$> deref h c.

End WithHash.

End ShardedLRU.


(* ===================================================================== *)
(** ** db/filename.cc and db/table_cache.cc *)
(* ===================================================================== *)

Module TableCache.
Import LRU ShardedLRU.

Abbreviation Status := LogReader.Status.
Abbreviation Status_ok := LogReader.Status_ok.

(** [%06llu]: the decimal digits of [number], with zeros in front up to
    six characters. *)
Fixpoint zeros (n : nat) : string :=
  match n with
  | O => EmptyString
  | S n => "0" +:+ zeros n
  end.

Definition pad6 (number : Z) : string :=
  let digits := pretty number in
  zeros (6 - String.length digits) +:+ digits.

(** [static std::string MakeFileName(dbname, number, suffix)]; the name
    always fits the 100 bytes of [buf]. *)
Definition MakeFileName (dbname : string) (number : Z) (suffix : string) : string :=
  dbname +:+ "/" +:+ pad6 number +:+ "." +:+ suffix.

(** [None]: [assert(number > 0)] fails. *)
Definition TableFileName (dbname : string) (number : Z) : option string :=
  if 0 <? number then Some (MakeFileName dbname number "ldb") else None.

Definition SSTTableFileName (dbname : string) (number : Z) : option string :=
  if 0 <? number then Some (MakeFileName dbname number "sst") else None.

(** The address of [static void DeleteEntry(const Slice& key, void* value)]. *)
Definition addr_DeleteEntry : Z := 1.

Section WithEnv.

Variable Hash : Slice -> Z -> Z.

(** [void EncodeFixed64(char* dst, uint64_t value)] of util/coding.h,
    which is not among the sources: the 8 bytes written. *)
Variable EncodeFixed64 : Z -> Slice.

(** What is outside the process ([World]), and the interfaces [FindTable]
    reaches it through: [Env::NewRandomAccessFile(fname, &file)] returns
    the status and the pointer it has stored in [file];
    [Table::Open(options, file, size, &table)] likewise;
    [delete file] runs the destructor of the file. *)
Context {World RandomAccessFile Table Options : Type}.
Variable NewRandomAccessFile :
  string -> World -> Status * option RandomAccessFile * World.
Variable Table_Open :
  Options -> option RandomAccessFile -> Z -> World -> Status * option Table * World.
Variable delete_RandomAccessFile : RandomAccessFile -> World -> World.

(** [struct TableAndFile]; both fields are pointers. *)
Record TableAndFile := {
  file : option RandomAccessFile;
  table : option Table
}.

(** [class TableCache].  [objects] holds the [TableAndFile] structures
    allocated by [new]; the value a cache entry stores is the address of
    one of them.  The calls of [DeleteEntry] that the cache makes are
    those recorded in [deleted] of its shards. *)
Record TableCache := {
  env_ : World;
  dbname_ : string;
  options_ : Options;
  cache_ : ShardedLRUCache;
  objects : gmap positive TableAndFile
}.

(** [TableCache::TableCache(dbname, options, entries)], in the world
    [options.env] gives access to. *)
Definition new_TableCache (dbname : string) (options : Options) (entries : Z)
           (env : World) : TableCache :=
  {| env_ := env; dbname_ := dbname; options_ := options;
     cache_ := NewLRUCache entries; objects := ∅ |}.

Definition set_env (w : World) (t : TableCache) : TableCache :=
  {| env_ := w; dbname_ := dbname_ t; options_ := options_ t;
     cache_ := cache_ t; objects := objects t |}.

Definition set_cache (c : ShardedLRUCache) (t : TableCache) : TableCache :=
  {| env_ := env_ t; dbname_ := dbname_ t; options_ := options_ t;
     cache_ := c; objects := objects t |}.

Definition set_objects (o : gmap positive TableAndFile) (t : TableCache) : TableCache :=
  {| env_ := env_ t; dbname_ := dbname_ t; options_ := options_ t;
     cache_ := cache_ t; objects := o |}.

(** [delete file;] on a pointer that may be null. *)
Definition delete_file (f : option RandomAccessFile) (w : World) : World :=
  match f with
  | Some f => delete_RandomAccessFile f w
  | None => w
  end.

(** The statements of [FindTable] that open the file and the table, from
    [std::string fname = ...] to [s = Table::Open(...)]: the status [s],
    the pointers [file] and [table], and the world afterwards.
    [None]: an assertion of [TableFileName] or [SSTTableFileName] fails. *)
Definition OpenTableFile (file_number file_size : Z) (t : TableCache)
  : option (Status * option RandomAccessFile * option Table * World) :=
  fname ← TableFileName (dbname_ t) file_number;
  let '(s, file, w) := NewRandomAccessFile fname (env_ t) in
  r ← (if negb (Status_ok s) then
         old_fname ← SSTTableFileName (dbname_ t) file_number;
         let '(s', file, w) := NewRandomAccessFile old_fname w in
         Some (if Status_ok s' then LogReader.OK else s, file, w)
       else Some (s, file, w));
  let '(s, file, w) := r in
  if Status_ok s then
    let '(s, table, w) := Table_Open (options_ t) file file_size w in
    Some (s, file, table, w)
  else Some (s, file, None, w).

(** [Status TableCache::FindTable(file_number, file_size, Cache::Handle** handle)]:
    the status, [*handle] and the table cache afterwards. *)
Definition FindTable (file_number file_size : Z) (t : TableCache)
  : option (Status * option Handle * TableCache) :=
  let key := EncodeFixed64 file_number in
  match Lookup Hash key (cache_ t) with
  | None => None
  | Some (Some handle, c) => Some (LogReader.OK, Some handle, set_cache c t)
  | Some (None, c) =>
      let t := set_cache c t in
      match OpenTableFile file_number file_size t with
      | None => None
      | Some (s, file, table, w) =>
          let t := set_env w t in
          if negb (Status_ok s) then
            match table with
            | Some _ => None                         (* assert(table == nullptr) *)
            | None =>
                (* We do not cache error results *)
                Some (s, None, set_env (delete_file file w) t)
            end
          else
            let tf := fresh (dom (objects t)) in     (* new TableAndFile *)
            let t := set_objects (<[tf := {| file := file; table := table |}]> (objects t)) t in
            match Insert Hash key (Z.pos tf) 1 addr_DeleteEntry (cache_ t) with
            | Some (handle, c) => Some (s, Some handle, set_cache c t)
            | None => None
            end
      end
  end.

End WithEnv.

End TableCache.

Module TableCacheProofs.
Import LRU ShardedLRU TableCache.

(** A shard in a state that the operations of the cache keep it in. *)
Definition shard_ok (s : LRUCache) : Prop :=
  LRUProofs.consistent None s /\ exists n, 1 <= n /\ LRUProofs.refs_range n s.

Lemma new_LRUCache_ok capacity : shard_ok (new_LRUCache capacity).
Proof.
  split; [apply LRUProofs.new_LRUCache_consistent|].
  exists 1. split; [lia|]. intros e h Hh. simpl in Hh.
  rewrite lookup_empty in Hh. discriminate.
Qed.

Lemma set_shard_id i s c : shard_ c !! i = Some s -> set_shard i s c = c.
Proof.
  intros Hs. destruct c as [shards id]. unfold set_shard. simpl in *.
  f_equal. apply list_insert_id. exact Hs.
Qed.

Section WithEnv.

Variable Hash : Slice -> Z -> Z.
Variable EncodeFixed64 : Z -> Slice.
Context {World RandomAccessFile Table Options : Type}.
Variable NewRandomAccessFile :
  string -> World -> Status * option RandomAccessFile * World.
Variable Table_Open :
  Options -> option RandomAccessFile -> Z -> World -> Status * option Table * World.
Variable delete_RandomAccessFile : RandomAccessFile -> World -> World.

#[local] Abbreviation TableCache := (@TableCache World RandomAccessFile Table Options).
#[local] Abbreviation OpenTableFile :=
  (OpenTableFile NewRandomAccessFile Table_Open).
#[local] Abbreviation FindTable :=
  (FindTable Hash EncodeFixed64 NewRandomAccessFile Table_Open
     delete_RandomAccessFile).
#[local] Abbreviation delete_file := (delete_file delete_RandomAccessFile).

(** A lookup that finds nothing leaves the cache as it is. *)
Lemma Lookup_miss k c :
  fst <$> Lookup Hash k c = Some None ->
  Lookup Hash k c = Some (None, c).
Proof.
  unfold Lookup. intros H.
  destruct (shard_ c !! Shard (HashSlice Hash k)) as [s|] eqn:Hs; [|discriminate].
  cbn [mbind option_bind] in *. unfold LRU.Lookup, table_Lookup in *.
  destruct (table_ s !! (HashSlice Hash k, k)) as [e|].
  - destruct (Ref e s); cbn in H; discriminate.
  - cbn. rewrite (set_shard_id _ _ _ Hs). reflexivity.
Qed.


Lemma set_cache_id (t : TableCache) :
  set_cache (cache_ t) t = t.
Proof. destruct t. reflexivity. Qed.

(** When [FindTable] is left without a table: no file opens under
    either name, and the status is that of the attempt under the [.ldb]
    name; or a file opens under one of them and [Table::Open] fails. *)
Lemma OpenTableFile_not_ok (t : TableCache) n size s f tb w :
  OpenTableFile n size t = Some (s, f, tb, w) -> Status_ok s = false ->
  exists ldb s1 f1 w1,
    TableFileName (dbname_ t) n = Some ldb
    /\ NewRandomAccessFile ldb (env_ t) = (s1, f1, w1)
    /\ ((Status_ok s1 = false /\ s = s1 /\ tb = None
         /\ exists sst s2,
              SSTTableFileName (dbname_ t) n = Some sst
              /\ NewRandomAccessFile sst w1 = (s2, f, w)
              /\ Status_ok s2 = false)
        \/ (exists w', Table_Open (options_ t) f size w' = (s, tb, w))).
Proof.
  unfold TableCache.OpenTableFile. intros Hopen Hs.
  destruct (TableFileName (dbname_ t) n) as [ldb|]; [|discriminate].
  cbn [mbind option_bind] in Hopen.
  destruct (NewRandomAccessFile ldb (env_ t)) as [[s1 f1] w1] eqn:H1.
  exists ldb, s1, f1, w1. split; [reflexivity|]. split; [exact H1|].
  destruct (Status_ok s1) eqn:Hs1; cbn [negb mbind option_bind] in Hopen.
  - rewrite Hs1 in Hopen.
    destruct (Table_Open (options_ t) f1 size w1) as [[s' tb'] w'] eqn:HO.
    injection Hopen as <- <- <- <-. right. eauto.
  - destruct (SSTTableFileName (dbname_ t) n) as [sst|]; [|discriminate].
    cbn [mbind option_bind] in Hopen.
    destruct (NewRandomAccessFile sst w1) as [[s2 f2] w2] eqn:H2.
    cbn [mbind option_bind] in Hopen.
    destruct (Status_ok s2) eqn:Hs2.
    + cbn [LogReader.Status_ok] in Hopen.
      destruct (Table_Open (options_ t) f2 size w2) as [[s' tb'] w'] eqn:HO.
      injection Hopen as <- <- <- <-. right. eauto.
    + rewrite Hs1 in Hopen. injection Hopen as <- <- <- <-.
      left. split; [reflexivity|]. split; [reflexivity|]. split; [reflexivity|].
      exists sst, s2. split; [reflexivity|]. split; [exact H2|exact Hs2].
Qed.

(** [FindTable] when the table is not in the cache and it cannot be
    opened. *)
Lemma FindTable_miss_error (t : TableCache) n size s f w :
  fst <$> Lookup Hash (EncodeFixed64 n) (cache_ t) = Some None ->
  OpenTableFile n size t = Some (s, f, None, w) ->
  Status_ok s = false ->
  FindTable n size t = Some (s, None, set_env (delete_file f w) t).
Proof.
  intros Hmiss Hopen Hs. unfold TableCache.FindTable.
  rewrite (Lookup_miss _ _ Hmiss), set_cache_id, Hopen, Hs. reflexivity.
Qed.



End WithEnv.


(** An environment for examples: the world is the list of the names of the
    files that can be opened; a table opens when [file_size] is not 0. *)
Definition mem_NewRandomAccessFile (fname : string) (w : list string)
  : Status * option string * list string :=
  if bool_decide (fname ∈ w) then (LogReader.OK, Some fname, w)
  else (LogReader.IOError fname, None, w).

Definition mem_Table_Open (_ : unit) (f : option string) (size : Z) (w : list string)
  : Status * option string * list string :=
  match f with
  | Some f =>
      if 0 <? size then (LogReader.OK, Some f, w)
      else (LogReader.Corruption "file is too short to be an sstable", None, w)
  | None => (LogReader.InvalidArgument "no file", None, w)
  end.

Definition mem_delete (f : string) (w : list string) : list string := w.

(** Eight bytes, the low one first; a hash that sends a key to the shard
    of its first byte. *)
Definition mem_EncodeFixed64 (v : Z) : Slice :=
  map (fun i => Z.land (Z.shiftr v (8 * Z.of_nat i)) 255) (seq 0 8).

Definition mem_Hash (s : Slice) (seed : Z) : Z := Z.shiftl (hd 0 s) 28.

Definition mem_FindTable :=
  FindTable mem_Hash mem_EncodeFixed64 mem_NewRandomAccessFile mem_Table_Open
    mem_delete.

Definition mem_TableCache : @TableCache (list string) string string unit :=
  new_TableCache "db" tt 990 [].



(** What a call returns: the status, whether the handle is null, and the
    number of entries in the cache afterwards. *)
Definition outcome
           (r : option (Status * option Handle * @TableCache (list string) string string unit))
  : option (Status * bool * nat) :=
  match r with
  | Some (s, h, t) =>
      Some (s, bool_decide (is_Some h),
            sum_list (map (fun c => size (table_ c)) (shard_ (cache_ t))))
  | None => None
  end.

(** No file: the status of the attempt under the [.ldb] name comes back. *)
Example FindTable_no_file :
  outcome (mem_FindTable 5 100 mem_TableCache)
  = Some (LogReader.IOError "db/000005.ldb", false, 0%nat).
Proof. vm_compute. reflexivity. Qed.

(** The file exists under the old name but is not a table. *)
Example FindTable_bad_table :
  outcome (mem_FindTable 5 0 (set_env ["db/000005.sst"] mem_TableCache))
  = Some (LogReader.Corruption "file is too short to be an sstable", false, 0%nat).
Proof. vm_compute. reflexivity. Qed.

(** After a failure, once the file is there, the next call opens it and
    caches the table; the call after that finds it in the cache, whatever
    has become of the file. *)
Example FindTable_recovers :
  (mem_FindTable 5 100 mem_TableCache ≫= fun '(_, _, t) =>
   outcome (mem_FindTable 5 100 (set_env ["db/000005.sst"] t)))
  = Some (LogReader.OK, true, 1%nat)
  /\ (mem_FindTable 5 100 mem_TableCache ≫= fun '(_, _, t) =>
      mem_FindTable 5 100 (set_env ["db/000005.sst"] t) ≫= fun '(_, _, t) =>
      outcome (mem_FindTable 5 100 (set_env [] t)))
     = Some (LogReader.OK, true, 1%nat).
Proof. split; vm_compute; reflexivity. Qed.

End TableCacheProofs.

(* ===================================================================== *)
(** ** util/coding.h : fixed-width integers *)
(* ===================================================================== *)

Module Coding.

Abbreviation Slice := (list Z).

(** [static_cast<uint8_t>(x)], and a [char] read through a [uint8_t*]. *)
Definition uint8 (x : Z) : Z := x mod 2 ^ 8.

(** [inline void EncodeFixed32(char* dst, uint32_t value)]: the four bytes
    written to [dst]. *)
Definition EncodeFixed32 (value : Z) : Slice :=
  let value := wrap32 value in
  [ uint8 value; uint8 (Z.shiftr value 8); uint8 (Z.shiftr value 16);
    uint8 (Z.shiftr value 24) ].

(** [inline void EncodeFixed64(char* dst, uint64_t value)] *)
Definition EncodeFixed64 (value : Z) : Slice :=
  let value := wrap64 value in
  [ uint8 value; uint8 (Z.shiftr value 8); uint8 (Z.shiftr value 16);
    uint8 (Z.shiftr value 24); uint8 (Z.shiftr value 32);
    uint8 (Z.shiftr value 40); uint8 (Z.shiftr value 48);
    uint8 (Z.shiftr value 56) ].

(** [inline uint32_t DecodeFixed32(const char* ptr)]; the function reads
    four bytes without any bounds checking: [None] where [ptr] has
    fewer. *)
Definition DecodeFixed32 (ptr : Slice) : option Z :=
  match ptr with
  | b0 :: b1 :: b2 :: b3 :: _ =>
      Some (Z.lor (Z.lor (Z.lor (uint8 b0)
                                (wrap32 (Z.shiftl (uint8 b1) 8)))
                         (wrap32 (Z.shiftl (uint8 b2) 16)))
                  (wrap32 (Z.shiftl (uint8 b3) 24)))
  | _ => None
  end.

(** [inline uint64_t DecodeFixed64(const char* ptr)] *)
Definition DecodeFixed64 (ptr : Slice) : option Z :=
  match ptr with
  | b0 :: b1 :: b2 :: b3 :: b4 :: b5 :: b6 :: b7 :: _ =>
      Some (Z.lor (Z.lor (Z.lor (Z.lor (Z.lor (Z.lor (Z.lor
              (uint8 b0)
              (wrap64 (Z.shiftl (uint8 b1) 8)))
              (wrap64 (Z.shiftl (uint8 b2) 16)))
              (wrap64 (Z.shiftl (uint8 b3) 24)))
              (wrap64 (Z.shiftl (uint8 b4) 32)))
              (wrap64 (Z.shiftl (uint8 b5) 40)))
              (wrap64 (Z.shiftl (uint8 b6) 48)))
              (wrap64 (Z.shiftl (uint8 b7) 56)))
  | _ => None
  end.

End Coding.

Module CodingProofs.
Import Coding.

Lemma uint8_range x : 0 <= uint8 x < 2 ^ 8.
Proof. unfold uint8. apply Z.mod_pos_bound. lia. Qed.

(** Or-ing in a byte above the bits already there adds it. *)
Lemma lor_shiftl_add a b n :
  0 <= n -> 0 <= a < 2 ^ n -> 0 <= b ->
  Z.lor a (Z.shiftl b n) = a + b * 2 ^ n.
Proof.
  intros Hn Ha Hb. rewrite <- Z.shiftl_mul_pow2 by lia.
  assert (Hdisj : Z.land a (Z.shiftl b n) = 0).
  { apply Z.bits_inj'. intros i Hi. rewrite Z.land_spec, Z.bits_0.
    destruct (Z.ltb_spec i n).
    - rewrite Z.shiftl_spec_low by lia. apply andb_false_r.
    - replace (Z.testbit a i) with false; [reflexivity|].
      symmetry. rewrite <- (Z.mod_small a (2 ^ n)) by lia.
      apply Z.mod_pow2_bits_high. lia. }
  rewrite <- Z.lxor_lor by exact Hdisj. symmetry.
  apply Z.add_nocarry_lxor. exact Hdisj.
Qed.

Lemma DecodeFixed32_sum b0 b1 b2 b3 rest :
  DecodeFixed32 (b0 :: b1 :: b2 :: b3 :: rest)
  = Some (uint8 b0 + uint8 b1 * 2 ^ 8 + uint8 b2 * 2 ^ 16 + uint8 b3 * 2 ^ 24).
Proof.
  pose proof (uint8_range b0). pose proof (uint8_range b1).
  pose proof (uint8_range b2). pose proof (uint8_range b3).
  unfold DecodeFixed32. f_equal.
  rewrite !Z.shiftl_mul_pow2 by lia.
  rewrite !wrap32_small by lia.
  rewrite <- !Z.shiftl_mul_pow2 by lia.
  rewrite (lor_shiftl_add (uint8 b0)) by lia.
  rewrite (lor_shiftl_add _ (uint8 b2)) by lia.
  rewrite (lor_shiftl_add _ (uint8 b3)) by lia.
  rewrite !Z.shiftl_mul_pow2 by lia. reflexivity.
Qed.

Lemma DecodeFixed64_sum b0 b1 b2 b3 b4 b5 b6 b7 rest :
  DecodeFixed64 (b0 :: b1 :: b2 :: b3 :: b4 :: b5 :: b6 :: b7 :: rest)
  = Some (uint8 b0 + uint8 b1 * 2 ^ 8 + uint8 b2 * 2 ^ 16 + uint8 b3 * 2 ^ 24
          + uint8 b4 * 2 ^ 32 + uint8 b5 * 2 ^ 40 + uint8 b6 * 2 ^ 48
          + uint8 b7 * 2 ^ 56).
Proof.
  pose proof (uint8_range b0). pose proof (uint8_range b1).
  pose proof (uint8_range b2). pose proof (uint8_range b3).
  pose proof (uint8_range b4). pose proof (uint8_range b5).
  pose proof (uint8_range b6). pose proof (uint8_range b7).
  unfold DecodeFixed64. f_equal.
  rewrite !Z.shiftl_mul_pow2 by lia.
  rewrite !wrap64_small by lia.
  rewrite <- !Z.shiftl_mul_pow2 by lia.
  rewrite (lor_shiftl_add (uint8 b0)) by lia.
  rewrite (lor_shiftl_add _ (uint8 b2)) by lia.
  rewrite (lor_shiftl_add _ (uint8 b3)) by lia.
  rewrite (lor_shiftl_add _ (uint8 b4)) by lia.
  rewrite (lor_shiftl_add _ (uint8 b5)) by lia.
  rewrite (lor_shiftl_add _ (uint8 b6)) by lia.
  rewrite (lor_shiftl_add _ (uint8 b7)) by lia.
  rewrite !Z.shiftl_mul_pow2 by lia. reflexivity.
Qed.

(** The little-endian digits of a number, and the number they spell. *)
Fixpoint le_bytes (n : nat) (v : Z) : list Z :=
  match n with
  | O => []
  | S n => v mod 256 :: le_bytes n (v / 256)
  end.

Fixpoint le_sum (bs : list Z) : Z :=
  match bs with
  | [] => 0
  | b :: bs => b + 256 * le_sum bs
  end.

Lemma le_sum_le_bytes n v : 0 <= v < 256 ^ Z.of_nat n -> le_sum (le_bytes n v) = v.
Proof.
  revert v. induction n as [|n IH]; intros v Hv.
  - simpl in *. lia.
  - cbn [le_bytes le_sum]. rewrite IH.
    + pose proof (Z.div_mod v 256). lia.
    + rewrite Nat2Z.inj_succ, Z.pow_succ_r in Hv by lia.
      split; [apply Z.div_pos; lia|]. apply Z.div_lt_upper_bound; lia.
Qed.

Lemma le_bytes_le_sum bs :
  Forall (fun b => 0 <= b < 256) bs -> le_bytes (length bs) (le_sum bs) = bs.
Proof.
  induction 1 as [|b bs Hb Hbs IH]; [reflexivity|].
  cbn [length le_bytes le_sum].
  replace (b + 256 * le_sum bs) with (b + le_sum bs * 256) by lia. f_equal.
  - rewrite Z_mod_plus_full. apply Z.mod_small. exact Hb.
  - rewrite Z_div_plus_full by lia.
    rewrite (Z.div_small b) by exact Hb. exact IH.
Qed.

Lemma EncodeFixed32_le_bytes value : EncodeFixed32 value = le_bytes 4 (wrap32 value).
Proof.
  unfold EncodeFixed32, uint8. cbn [le_bytes].
  rewrite !Z.shiftr_div_pow2 by lia. rewrite !Z.div_div by lia. reflexivity.
Qed.

Lemma EncodeFixed64_le_bytes value : EncodeFixed64 value = le_bytes 8 (wrap64 value).
Proof.
  unfold EncodeFixed64, uint8. cbn [le_bytes].
  rewrite !Z.shiftr_div_pow2 by lia. rewrite !Z.div_div by lia. reflexivity.
Qed.

Lemma DecodeFixed32_le_sum b0 b1 b2 b3 rest :
  DecodeFixed32 (b0 :: b1 :: b2 :: b3 :: rest)
  = Some (le_sum [uint8 b0; uint8 b1; uint8 b2; uint8 b3]).
Proof. rewrite DecodeFixed32_sum. f_equal. cbn [le_sum]. lia. Qed.

Lemma DecodeFixed64_le_sum b0 b1 b2 b3 b4 b5 b6 b7 rest :
  DecodeFixed64 (b0 :: b1 :: b2 :: b3 :: b4 :: b5 :: b6 :: b7 :: rest)
  = Some (le_sum [uint8 b0; uint8 b1; uint8 b2; uint8 b3;
                  uint8 b4; uint8 b5; uint8 b6; uint8 b7]).
Proof. rewrite DecodeFixed64_sum. f_equal. cbn [le_sum]. lia. Qed.

Lemma uint8_mod x : uint8 (x mod 256) = x mod 256.
Proof. unfold uint8. change (2 ^ 8) with 256. apply Z.mod_mod. lia. Qed.

Lemma le_sum_range bs :
  Forall (fun b => 0 <= b < 256) bs -> 0 <= le_sum bs < 256 ^ Z.of_nat (length bs).
Proof.
  induction 1 as [|b bs Hb Hbs IH]; [simpl; lia|].
  cbn [length le_sum]. rewrite Nat2Z.inj_succ, Z.pow_succ_r by lia. lia.
Qed.

(** X1.  [DecodeFixed32] reads back the value [EncodeFixed32] has
    written (a [uint32_t]: the value modulo 2^32), whatever follows the
    four bytes; and [EncodeFixed32] of what [DecodeFixed32] reads from a
    buffer is the first four bytes of the buffer. *)
Theorem Fixed32_round_trip (value : Z) (b0 b1 b2 b3 : Z) (rest : Slice) :
  DecodeFixed32 (EncodeFixed32 value ++ rest) = Some (wrap32 value)
  /\ EncodeFixed32 <$> DecodeFixed32 (b0 :: b1 :: b2 :: b3 :: rest)
     = Some [uint8 b0; uint8 b1; uint8 b2; uint8 b3].
Proof.
  split.
  - rewrite EncodeFixed32_le_bytes.
    pose proof (le_sum_le_bytes 4 (wrap32 value) (wrap32_range value)) as Hs.
    cbn [le_bytes] in *. cbn [app]. rewrite DecodeFixed32_le_sum.
    rewrite !uint8_mod. f_equal. exact Hs.
  - rewrite DecodeFixed32_le_sum. cbn [fmap option_fmap option_map]. f_equal.
    rewrite EncodeFixed32_le_bytes.
    assert (Hb : Forall (fun b => 0 <= b < 256)
                   [uint8 b0; uint8 b1; uint8 b2; uint8 b3]).
    { repeat constructor; apply uint8_range. }
    rewrite wrap32_small by exact (le_sum_range _ Hb).
    exact (le_bytes_le_sum _ Hb).
Qed.

(** X2.  [DecodeFixed64] reads back the value [EncodeFixed64] has
    written (modulo 2^64), and [EncodeFixed64] of what [DecodeFixed64]
    reads from a buffer is the first eight bytes of the buffer. *)
Theorem Fixed64_round_trip (value : Z) (b0 b1 b2 b3 b4 b5 b6 b7 : Z) (rest : Slice) :
  DecodeFixed64 (EncodeFixed64 value ++ rest) = Some (wrap64 value)
  /\ EncodeFixed64 <$>
       DecodeFixed64 (b0 :: b1 :: b2 :: b3 :: b4 :: b5 :: b6 :: b7 :: rest)
     = Some [uint8 b0; uint8 b1; uint8 b2; uint8 b3;
             uint8 b4; uint8 b5; uint8 b6; uint8 b7].
Proof.
  split.
  - rewrite EncodeFixed64_le_bytes.
    pose proof (le_sum_le_bytes 8 (wrap64 value) (wrap64_range value)) as Hs.
    cbn [le_bytes] in *. cbn [app]. rewrite DecodeFixed64_le_sum.
    rewrite !uint8_mod. f_equal. exact Hs.
  - rewrite DecodeFixed64_le_sum. cbn [fmap option_fmap option_map]. f_equal.
    rewrite EncodeFixed64_le_bytes.
    assert (Hb : Forall (fun b => 0 <= b < 256)
                   [uint8 b0; uint8 b1; uint8 b2; uint8 b3;
                    uint8 b4; uint8 b5; uint8 b6; uint8 b7]).
    { repeat constructor; apply uint8_range. }
    rewrite wrap64_small by exact (le_sum_range _ Hb).
    exact (le_bytes_le_sum _ Hb).
Qed.

End CodingProofs.

(* ===================================================================== *)
(** ** db/dbformat.h : internal keys *)
(* ===================================================================== *)

Module DBFormat.
Import Coding.

(** [enum ValueType] *)
Definition kTypeDeletion : Z := 0.
Definition kTypeValue : Z := 1.

Definition kMaxSequenceNumber : Z := Z.shiftl 1 56 - 1.

(** [struct ParsedInternalKey]; [type] holds the value the cast
    [static_cast<ValueType>(c)] is given. *)
Record ParsedInternalKey := {
  user_key : Slice;
  sequence : Z;      (* SequenceNumber, a uint64_t *)
  type : Z           (* ValueType *)
}.

(** [inline size_t InternalKeyEncodingLength(const ParsedInternalKey& key)] *)
Definition InternalKeyEncodingLength (key : ParsedInternalKey) : Z :=
  wrap64 (Z.of_nat (length (user_key key)) + 8).

(** [inline Slice ExtractUserKey(const Slice& internal_key)];
    [None]: [assert(internal_key.size() >= 8)] fails. *)
Definition ExtractUserKey (internal_key : Slice) : option Slice :=
  if Z.of_nat (length internal_key) <? 8 then None
  else Some (take (length internal_key - 8) internal_key).

(** [inline bool ParseInternalKey(const Slice& internal_key,
    ParsedInternalKey* result)]: the value returned and [*result]
    afterwards. *)
Definition ParseInternalKey (internal_key : Slice) (result : ParsedInternalKey)
  : bool * ParsedInternalKey :=
  let n := length internal_key in
  if Z.of_nat n <? 8 then (false, result)
  else
    match DecodeFixed64 (drop (n - 8) internal_key) with
    | Some num =>
        let c := uint8 (Z.land num 0xff) in
        (c <=? uint8 kTypeValue,
         {| user_key := take (n - 8) internal_key;
            sequence := Z.shiftr num 8;
            type := c |})
    | None => (false, result)
    end.

End DBFormat.

Module DBFormatProofs.
Import Coding DBFormat.

Lemma EncodeFixed64_length v : length (EncodeFixed64 v) = 8%nat.
Proof. reflexivity. Qed.

Lemma DecodeFixed64_EncodeFixed64 v :
  DecodeFixed64 (EncodeFixed64 v) = Some (wrap64 v).
Proof.
  pose proof (CodingProofs.DecodeFixed64_le_sum) as Hd.
  pose proof (CodingProofs.le_sum_le_bytes 8 (wrap64 v) (wrap64_range v)) as Hs.
  rewrite CodingProofs.EncodeFixed64_le_bytes. cbn [CodingProofs.le_bytes] in *.
  rewrite Hd, !CodingProofs.uint8_mod. f_equal. exact Hs.
Qed.

(** X3.  An internal key is the user key followed by the eight bytes of
    [sequence << 8 | type]: [ParseInternalKey] returns true and the three
    parts, for a sequence number of at most 56 bits and the types
    [kTypeDeletion] and [kTypeValue], and [ExtractUserKey] returns the
    user key. *)
Theorem ParseInternalKey_round_trip (u : Slice) (s t : Z) (r : ParsedInternalKey) :
  0 <= s <= kMaxSequenceNumber -> 0 <= t <= kTypeValue ->
  ParseInternalKey (u ++ EncodeFixed64 (Z.lor (Z.shiftl s 8) t)) r
  = (true, {| user_key := u; sequence := s; type := t |})
  /\ ExtractUserKey (u ++ EncodeFixed64 (Z.lor (Z.shiftl s 8) t)) = Some u.
Proof.
  intros Hs Ht. unfold kMaxSequenceNumber in Hs. change (Z.shiftl 1 56) with (2 ^ 56) in Hs.
  unfold kTypeValue in Ht.
  assert (Hpack : Z.lor (Z.shiftl s 8) t = t + s * 2 ^ 8).
  { rewrite Z.lor_comm. apply CodingProofs.lor_shiftl_add; lia. }
  assert (Hlen : (length (u ++ EncodeFixed64 (Z.lor (Z.shiftl s 8) t)) - 8)%nat
                 = length u).
  { rewrite length_app, EncodeFixed64_length. lia. }
  assert (Hn : (Z.of_nat (length (u ++ EncodeFixed64 (Z.lor (Z.shiftl s 8) t))) <? 8)
               = false).
  { apply Z.ltb_ge. rewrite length_app, EncodeFixed64_length. lia. }
  split.
  - unfold ParseInternalKey. rewrite Hn, Hlen.
    rewrite drop_app_length, take_app_length, DecodeFixed64_EncodeFixed64.
    rewrite Hpack, wrap64_small by lia.
    assert (Hc : uint8 (Z.land (t + s * 2 ^ 8) 255) = t).
    { change 255 with (Z.ones 8). rewrite Z.land_ones by lia.
      unfold uint8. rewrite Z.mod_mod by lia.
      rewrite Z_mod_plus_full. apply Z.mod_small. lia. }
    rewrite Hc. f_equal.
    + apply Z.leb_le. unfold uint8, kTypeValue. rewrite Z.mod_small; lia.
    + f_equal. rewrite Z.shiftr_div_pow2 by lia.
      rewrite Z_div_plus_full by lia. rewrite Z.div_small; lia.
  - unfold ExtractUserKey. rewrite Hn, Hlen, take_app_length. reflexivity.
Qed.

Lemma ParseInternalKey_round_trip_witness :
  ParseInternalKey ([107; 101; 121] ++ EncodeFixed64 (Z.lor (Z.shiftl 7 8) 1))
    {| user_key := []; sequence := 0; type := 0 |}
  = (true, {| user_key := [107; 101; 121]; sequence := 7; type := 1 |})
  /\ ExtractUserKey ([107; 101; 121] ++ EncodeFixed64 (Z.lor (Z.shiftl 7 8) 1))
     = Some [107; 101; 121].
Proof.
  apply (ParseInternalKey_round_trip [107; 101; 121] 7 1);
    unfold kMaxSequenceNumber, kTypeValue; change (Z.shiftl 1 56) with (2 ^ 56); lia.
Defined.

(** X4.  [ParseInternalKey] accepts a key exactly when it has at least
    eight bytes and the first of its last eight, the type, is at most
    [kTypeValue]; a key of fewer than eight bytes leaves [*result] alone. *)
Theorem ParseInternalKey_accepts (k : Slice) (r : ParsedInternalKey) :
  fst (ParseInternalKey k r)
  = (8 <=? Z.of_nat (length k)) && (uint8 (nth (length k - 8) k 0) <=? kTypeValue)
  /\ snd (ParseInternalKey k r)
     = if 8 <=? Z.of_nat (length k)
       then {| user_key := take (length k - 8) k;
               sequence := sequence (snd (ParseInternalKey k r));
               type := uint8 (nth (length k - 8) k 0) |}
       else r.
Proof.
  unfold ParseInternalKey.
  destruct (Z.ltb_spec (Z.of_nat (length k)) 8) as [Hn|Hn];
    destruct (Z.leb_spec 8 (Z.of_nat (length k))); try lia; [split; reflexivity|].
  assert (Hd : length (drop (length k - 8) k) = 8%nat).
  { rewrite length_drop. lia. }
  assert (Hnth : nth (length k - 8) k 0 = nth 0 (drop (length k - 8) k) 0).
  { rewrite <- (take_drop (length k - 8) k) at 2.
    rewrite app_nth2; rewrite length_take; [|lia].
    f_equal. lia. }
  rewrite Hnth.
  destruct (drop (length k - 8) k)
    as [|b0 [|b1 [|b2 [|b3 [|b4 [|b5 [|b6 [|b7 rest]]]]]]]];
    try discriminate.
  rewrite CodingProofs.DecodeFixed64_sum. cbn [fst snd user_key sequence nth andb].
  assert (Hc : uint8 (Z.land (uint8 b0 + uint8 b1 * 2 ^ 8 + uint8 b2 * 2 ^ 16
                              + uint8 b3 * 2 ^ 24 + uint8 b4 * 2 ^ 32
                              + uint8 b5 * 2 ^ 40 + uint8 b6 * 2 ^ 48
                              + uint8 b7 * 2 ^ 56) 255) = uint8 b0).
  { change 255 with (Z.ones 8). rewrite Z.land_ones by lia.
    unfold uint8 at 1. rewrite Z.mod_mod by lia.
    pose proof (CodingProofs.uint8_range b0).
    replace (uint8 b0 + uint8 b1 * 2 ^ 8 + uint8 b2 * 2 ^ 16 + uint8 b3 * 2 ^ 24
             + uint8 b4 * 2 ^ 32 + uint8 b5 * 2 ^ 40 + uint8 b6 * 2 ^ 48
             + uint8 b7 * 2 ^ 56)
      with (uint8 b0 + (uint8 b1 + uint8 b2 * 2 ^ 8 + uint8 b3 * 2 ^ 16
                        + uint8 b4 * 2 ^ 24 + uint8 b5 * 2 ^ 32 + uint8 b6 * 2 ^ 40
                        + uint8 b7 * 2 ^ 48) * 2 ^ 8) by lia.
    rewrite Z_mod_plus_full. apply Z.mod_small. lia. }
  rewrite Hc. split; reflexivity.
Qed.

End DBFormatProofs.

Module crc32cProofs.
Import crc32c.

Lemma rol15_testbit r i :
  0 <= r < 2 ^ 32 -> 0 <= i ->
  Z.testbit (rol15 r) i =
  if i <? 15 then Z.testbit r (i + 17)
  else if i <? 32 then Z.testbit r (i - 15) else false.
Proof.
  intros Hr Hi. unfold rol15.
  rewrite Z.lor_spec, Z.shiftr_spec, wrap32_testbit by lia.
  destruct (Z.ltb_spec i 15); destruct (Z.ltb_spec i 32); try lia; simpl.
  - rewrite Z.shiftl_spec_low by lia. apply orb_false_r.
  - rewrite Z.shiftl_spec by lia. rewrite (testbit_above32 r (i + 17)) by lia.
    reflexivity.
  - rewrite (testbit_above32 r (i + 17)) by lia. reflexivity.
Qed.

Lemma rol15_range r : 0 <= r < 2 ^ 32 -> 0 <= rol15 r < 2 ^ 32.
Proof.
  intros Hr.
  assert (Hnn : 0 <= rol15 r).
  { unfold rol15. apply Z.lor_nonneg. split.
    - apply Z.shiftr_nonneg. lia.
    - apply wrap32_range. }
  split; [exact Hnn|].
  destruct (Z.eq_dec (rol15 r) 0) as [->|Hne]; [lia|].
  apply Z.log2_lt_pow2; [lia|].
  destruct (Z.lt_ge_cases (Z.log2 (rol15 r)) 32) as [?|Hge]; [assumption|].
  exfalso.
  pose proof (Z.bit_log2 (rol15 r) ltac:(lia)) as Hb.
  rewrite rol15_testbit in Hb by lia.
  destruct (Z.ltb_spec (Z.log2 (rol15 r)) 15); [lia|].
  destruct (Z.ltb_spec (Z.log2 (rol15 r)) 32); [lia|discriminate].
Qed.

Lemma ror15_rol15 r : 0 <= r < 2 ^ 32 -> ror15 (rol15 r) = r.
Proof.
  intros Hr. pose proof (rol15_range r Hr) as Hl.
  apply Z.bits_inj'. intros i Hi.
  rewrite ror15_testbit by lia.
  destruct (Z.ltb_spec i 17).
  - rewrite rol15_testbit by lia.
    destruct (Z.ltb_spec (i + 15) 15); [lia|].
    destruct (Z.ltb_spec (i + 15) 32); [|lia]. f_equal. lia.
  - destruct (Z.ltb_spec i 32).
    + rewrite rol15_testbit by lia.
      destruct (Z.ltb_spec (i - 17) 15); [|lia]. f_equal. lia.
    + rewrite (testbit_above32 r i) by lia. reflexivity.
Qed.

(** X5.  [Mask] undoes [Unmask]: masking the checksum recovered from a
    stored 32-bit word gives the stored word back (for any argument, the
    word it is truncated to). *)
Theorem Mask_Unmask (masked_crc : Z) : Mask (Unmask masked_crc) = wrap32 masked_crc.
Proof.
  unfold Unmask. cbv zeta.
  pose proof (wrap32_range (masked_crc - kMaskDelta)) as Hr.
  set (rot := wrap32 (masked_crc - kMaskDelta)) in *.
  fold (rol15 rot). unfold Mask. fold (ror15 (rol15 rot)).
  rewrite ror15_rol15 by exact Hr.
  unfold rot, wrap32. rewrite Zplus_mod_idemp_l. f_equal. lia.
Qed.

End crc32cProofs.

(* ===================================================================== *)
(** ** util/random.h : the pseudo-random number generator *)
(* ===================================================================== *)

Module Random.

(** [class Random]: its only member is [uint32_t seed_]. *)
Definition Random := Z.

Definition M : Z := 2147483647.   (* 2^31-1 *)
Definition A : Z := 16807.        (* bits 14, 8, 7, 5, 2, 1, 0 *)

(** [explicit Random(uint32_t s)] *)
Definition new_Random (s : Z) : Random :=
  let seed_ := Z.land (wrap32 s) 0x7fffffff in
  (* Avoid bad seeds. *)
  if (seed_ =? 0) || (seed_ =? 2147483647) then 1 else seed_.

(** [uint32_t Next()]: the value returned, which is also the new
    [seed_]. *)
Definition Next (seed_ : Random) : Z :=
  let product := wrap64 (seed_ * A) in
  let seed_ := wrap32 (wrap64 (Z.shiftr product 31 + Z.land product M)) in
  if M <? seed_ then wrap32 (seed_ - M) else seed_.

(** [uint32_t Uniform(int n)]: the value returned and the new [seed_];
    [n] is converted to [uint32_t], and a remainder by 0 is undefined. *)
Definition Uniform (n : Z) (seed_ : Random) : option (Z * Random) :=
  if wrap32 n =? 0 then None
  else Some (Next seed_ mod wrap32 n, Next seed_).

(** [bool OneIn(int n)] *)
Definition OneIn (n : Z) (seed_ : Random) : option (bool * Random) :=
  if wrap32 n =? 0 then None
  else Some (Next seed_ mod wrap32 n =? 0, Next seed_).

(** [uint32_t Skewed(int max_log)]; a shift by 32 or more is undefined. *)
Definition Skewed (max_log : Z) (seed_ : Random) : option (Z * Random) :=
  match Uniform (max_log + 1) seed_ with
  | Some (bits, seed_) =>
      if 31 <=? bits then None
      else Uniform (Z.shiftl 1 bits) seed_
  | None => None
  end.

End Random.

Module RandomProofs.
Import Random.

Lemma new_Random_range s : 1 <= new_Random s <= M - 1.
Proof.
  unfold new_Random, M.
  assert (Hr : 0 <= Z.land (wrap32 s) 0x7fffffff < 2 ^ 31).
  { change 0x7fffffff with (Z.ones 31). rewrite Z.land_ones by lia.
    apply Z.mod_pos_bound. lia. }
  destruct (Z.eqb_spec (Z.land (wrap32 s) 0x7fffffff) 0); [simpl; lia|].
  destruct (Z.eqb_spec (Z.land (wrap32 s) 0x7fffffff) 2147483647); simpl; lia.
Qed.

(** X6.  From a seed in [1, 2^31 - 2], which is what the constructor
    makes of any number, [Next] returns [seed * 16807 mod (2^31 - 1)], and
    the result is again in [1, 2^31 - 2]: the generator never reaches 0 or
    2^31 - 1, where it would stay. *)
Theorem Next_is_lehmer (seed_ : Z) :
  1 <= seed_ <= M - 1 ->
  Next seed_ = (seed_ * A) mod M /\ 1 <= Next seed_ <= M - 1.
Proof.
  intros Hs. unfold M, A in *.
  assert (Hp : 0 <= seed_ * 16807 < 2 ^ 64) by lia.
  assert (Hnz : (seed_ * 16807) mod 2147483647 <> 0).
  { intros Hz. apply Z.mod_divide in Hz; [|lia].
    rewrite Z.mul_comm in Hz.
    apply Z.gauss in Hz; [|reflexivity].
    apply Z.divide_pos_le in Hz; lia. }
  unfold Next, M, A. rewrite (wrap64_small (seed_ * 16807)) by exact Hp.
  set (p := seed_ * 16807) in *.
  assert (Hland : Z.land p 2147483647 = p mod 2 ^ 31).
  { change 2147483647 with (Z.ones 31). apply Z.land_ones. lia. }
  rewrite Hland.
  rewrite Z.shiftr_div_pow2 by lia.
  pose proof (Z.div_mod p (2 ^ 31) ltac:(lia)) as Hdm.
  pose proof (Z.mod_pos_bound p (2 ^ 31) ltac:(lia)) as Hr.
  assert (Hq : 0 <= p / 2 ^ 31 < 16807).
  { split; [apply Z.div_pos; lia|]. apply Z.div_lt_upper_bound; lia. }
  set (q := p / 2 ^ 31) in *. set (r := p mod 2 ^ 31) in *.
  rewrite wrap64_small by lia. rewrite wrap32_small by lia.
  assert (Hcong : (q + r) mod 2147483647 = p mod 2147483647).
  { rewrite Hdm. replace (2 ^ 31 * q + r) with (q + r + q * 2147483647) by lia.
    rewrite Z_mod_plus_full. reflexivity. }
  destruct (Z.ltb_spec 2147483647 (q + r)) as [Hgt|Hle].
  - rewrite wrap32_small by lia.
    assert (Hm : p mod 2147483647 = q + r - 2147483647).
    { rewrite <- Hcong. symmetry. apply (Z.mod_unique _ _ 1); lia. }
    rewrite Hm. lia.
  - destruct (Z.eq_dec (q + r) 2147483647) as [Heq|Hne].
    + exfalso. apply Hnz. rewrite <- Hcong, Heq. reflexivity.
    + assert (Hm : p mod 2147483647 = q + r).
      { rewrite <- Hcong. apply Z.mod_small. lia. }
      rewrite Hm. split; [reflexivity|]. lia.
Qed.

Lemma Next_is_lehmer_witness :
  Next (new_Random 0xdeadbeef) = (new_Random 0xdeadbeef * A) mod M
  /\ 1 <= Next (new_Random 0xdeadbeef) <= M - 1.
Proof. apply (Next_is_lehmer (new_Random 0xdeadbeef)). apply new_Random_range. Defined.

End RandomProofs.

(** *** More on one shard: what the operations return and leave behind *)

Module LRUFacts.
Import LRU LRUProofs.

(** What [Unref] leaves alone. *)
Lemma Unref_frame e c c' :
  Unref e c = Some c' ->
  table_ c' = table_ c /\ capacity_ c' = capacity_ c /\ usage_ c' = usage_ c
  /\ (forall x, x ≠ e -> heap c' !! x = heap c !! x).
Proof.
  unfold Unref. intros HU.
  destruct (heap c !! e) as [h|] eqn:Hh; [|discriminate]. simpl in HU.
  destruct (refs h <=? 0); [discriminate|].
  destruct (refs h - 1 =? 0).
  - destruct (in_cache h); [discriminate|]. injection HU as <-. cbn.
    repeat split. intros x Hx. apply lookup_delete_ne. congruence.
  - cbn [in_cache with_refs refs] in HU.
    destruct (in_cache h && (refs h - 1 =? 1)); injection HU as <-; cbn;
      (repeat split; intros x Hx; apply lookup_insert_ne; congruence).
Qed.

(** [Unref] of an entry that is not in the cache leaves the lists alone. *)
Lemma Unref_lists e c c' h :
  Unref e c = Some c' -> heap c !! e = Some h -> in_cache h = false ->
  lru_ c' = lru_ c /\ in_use_ c' = in_use_ c.
Proof.
  unfold Unref. intros HU Hh Hin. rewrite Hh in HU. simpl in HU.
  destruct (refs h <=? 0); [discriminate|].
  destruct (refs h - 1 =? 0).
  - rewrite Hin in HU. injection HU as <-. split; reflexivity.
  - cbn [in_cache with_refs refs] in HU. rewrite Hin in HU. cbn [andb] in HU.
    injection HU as <-. split; reflexivity.
Qed.

(** What [FinishErase] does to the rest of the shard. *)
Lemma FinishErase_frame e c b c' h :
  FinishErase (Some e) c = Some (b, c') -> heap c !! e = Some h ->
  table_ c' = table_ c /\ capacity_ c' = capacity_ c
  /\ usage_ c' = wrap64 (usage_ c - charge h)
  /\ lru_ c' = remove_handle e (lru_ c)
  /\ in_use_ c' = remove_handle e (in_use_ c)
  /\ (forall x, x ≠ e -> heap c' !! x = heap c !! x).
Proof.
  unfold FinishErase. intros HF Hh. rewrite Hh in HF. simpl in HF.
  destruct (in_cache h); [|discriminate]. simpl in HF.
  set (c2 := set_usage _ _) in HF.
  destruct (Unref e c2) as [c3|] eqn:HU; [|discriminate]. injection HF as _ <-.
  destruct (Unref_frame e c2 c3 HU) as (Ht & Hc & Hu & Hheap).
  destruct (Unref_lists e c2 c3 (with_in_cache false h) HU) as [Hl Hi].
  { unfold c2. cbn. apply lookup_insert_eq. }
  { reflexivity. }
  rewrite Ht, Hc, Hu, Hl, Hi. unfold c2. cbn.
  repeat split. intros x Hx. rewrite (Hheap x Hx). unfold c2. cbn.
  apply lookup_insert_ne. congruence.
Qed.


Lemma remove_handle_absent e l : (e ∉ l) -> remove_handle e l = l.
Proof.
  intros Hn. unfold remove_handle. induction l as [|x l IH]; [reflexivity|].
  rewrite filter_cons. apply not_elem_of_cons in Hn as [Hne Hn].
  destruct (decide (x ≠ e)) as [_|Heq]; [f_equal; auto|].
  exfalso. apply Heq. congruence.
Qed.

Lemma remove_handle_head e l : (e ∉ l) -> remove_handle e (e :: l) = l.
Proof.
  intros Hn. unfold remove_handle. rewrite filter_cons.
  destruct (decide (e ≠ e)) as [Hne|_]; [contradiction|].
  apply (remove_handle_absent e l Hn).
Qed.

(** Two entries of the table with the same key are the same entry. *)
Lemma table_key_inj c x y hx hy :
  consistent None c -> cached c x hx -> cached c y hy ->
  key_of hx = key_of hy -> x = y.
Proof.
  intros Hc Hx Hy Hk.
  assert (Htx : table_ c !! key_of hx = Some x).
  { apply (cons_table _ _ Hc). split; [eauto|discriminate]. }
  assert (Hty : table_ c !! key_of hx = Some y).
  { apply (cons_table _ _ Hc). split; [|discriminate]. exists hy. split; auto. }
  congruence.
Qed.

(** One turn of the loops of [Insert] and [Prune]: the oldest entry of
    [lru_] goes, the rest of the shard stays. *)
Lemma erase_oldest_frame n c old rest :
  consistent None c -> refs_range n c -> lru_ c = old :: rest ->
  exists h c',
    heap c !! old = Some h /\ refs h = 1
    /\ FinishErase (table_ c !! (hash h, key h))
         (set_table (delete (hash h, key h) (table_ c)) c) = Some (true, c')
    /\ consistent None c' /\ refs_range n c'
    /\ lru_ c' = rest /\ in_use_ c' = in_use_ c
    /\ capacity_ c' = capacity_ c
    /\ usage_ c' = wrap64 (usage_ c - charge h)
    /\ table_ c' = delete (hash h, key h) (table_ c)
    /\ (forall x, x ≠ old -> heap c' !! x = heap c !! x).
Proof.
  intros Hc Hr Hl.
  destruct (erase_oldest n c old rest Hc Hr Hl)
    as (h & c' & Hh & Hr1 & HF & Hc' & Hr' & _).
  exists h, c'. split; [exact Hh|]. split; [exact Hr1|]. split; [exact HF|].
  split; [exact Hc'|]. split; [exact Hr'|].
  rewrite (lru_head_in_table c old rest h Hc Hl Hh) in HF.
  destruct (FinishErase_frame old _ true c' h HF Hh)
    as (Ht & Hcap & Hu & Hlru & Hin & Hheap).
  pose proof (cons_nodup _ _ Hc) as Hnd. rewrite Hl in Hnd.
  cbn [app] in Hnd. apply NoDup_cons in Hnd as [Hnot Hnd].
  rewrite elem_of_app in Hnot.
  cbn [lru_ in_use_ table_ capacity_ usage_ heap set_table] in Hlru, Hin, Ht, Hcap, Hu, Hheap.
  rewrite Hl in Hlru.
  rewrite remove_handle_head in Hlru by tauto.
  rewrite remove_handle_absent in Hin by tauto.
  repeat split; assumption.
Qed.

(** The eviction loop of [Insert]: it removes entries from the old end of
    [lru_] only, leaves the entries in use and their table slots alone,
    and stops when the usage is within the capacity or [lru_] is empty. *)
Lemma evict_spec n fuel c :
  consistent None c -> refs_range n c -> (length (lru_ c) <= fuel)%nat ->
  exists c' k,
    evict fuel c = Some c' /\ consistent None c' /\ refs_range n c'
    /\ lru_ c' = drop k (lru_ c) /\ in_use_ c' = in_use_ c
    /\ capacity_ c' = capacity_ c
    /\ (usage_ c' <= capacity_ c' \/ lru_ c' = [])
    /\ (forall x, x ∈ in_use_ c -> heap c' !! x = heap c !! x)
    /\ (forall key x, x ∈ in_use_ c -> table_ c !! key = Some x ->
                      table_ c' !! key = Some x).
Proof.
  revert c. induction fuel as [|fuel IH]; intros c Hc Hr Hlen.
  - exists c, 0%nat. cbn [evict]. rewrite drop_0.
    destruct (lru_ c) as [|old rest] eqn:Hl; [|simpl in Hlen; lia].
    split; [destruct (capacity_ c <? usage_ c); reflexivity|].
    split; [exact Hc|]. split; [exact Hr|]. split; [reflexivity|].
    split; [reflexivity|]. split; [reflexivity|]. split; [right; reflexivity|].
    split; auto.
  - cbn [evict].
    destruct (Z.ltb_spec (capacity_ c) (usage_ c)) as [Hover|Hfit].
    2:{ exists c, 0%nat. split; [reflexivity|]. rewrite drop_0.
        split; [exact Hc|]. split; [exact Hr|]. split; [reflexivity|].
        split; [reflexivity|]. split; [reflexivity|]. split; [left; lia|].
        split; auto. }
    destruct (lru_ c) as [|old rest] eqn:Hl.
    { exists c, 0%nat. split; [reflexivity|]. rewrite Hl.
      split; [exact Hc|]. split; [exact Hr|]. split; [reflexivity|].
      split; [reflexivity|]. split; [reflexivity|]. split; [right; reflexivity|].
      split; auto. }
    destruct (erase_oldest_frame n c old rest Hc Hr Hl)
      as (h & c1 & Hh & Hr1 & HF & Hc1 & Hrr1 & Hl1 & Hi1 & Hcap1 & Hu1 & Ht1 & Hheap1).
    rewrite Hh. cbn [mbind option_bind]. rewrite Hr1. cbn [Z.eqb Pos.eqb negb].
    unfold table_Remove. rewrite HF.
    destruct (IH c1 Hc1 Hrr1) as (c' & k & He & Hc' & Hr' & Hl' & Hi' & Hcap' & Hstop & Hheap' & Ht').
    { rewrite Hl1. simpl in Hlen. lia. }
    exists c', (S k). split; [exact He|]. split; [exact Hc'|]. split; [exact Hr'|].
    pose proof (cons_nodup _ _ Hc) as Hnd. rewrite Hl in Hnd.
    cbn [app] in Hnd. apply NoDup_cons in Hnd as [Hnot _].
    rewrite elem_of_app in Hnot.
    split; [rewrite Hl', Hl1; reflexivity|].
    split; [congruence|]. split; [congruence|]. split; [exact Hstop|].
    split.
    + intros x Hx. rewrite Hheap' by (rewrite Hi1; exact Hx).
      apply Hheap1. intros ->. tauto.
    + intros key0 x Hx Hkey. apply Ht'; [rewrite Hi1; exact Hx|].
      rewrite Ht1. rewrite lookup_delete_ne; [exact Hkey|].
      intros Heq. rewrite <- Heq in Hkey.
      rewrite (lru_head_in_table c old rest h Hc Hl Hh) in Hkey.
      injection Hkey as <-. tauto.
Qed.


(** A shard in a state that the operations keep it in: the invariant of
    the lists and the table, and no reference count at 0. *)
Definition shard_ok (c : LRUCache) : Prop :=
  consistent None c /\ exists n, 1 <= n /\ refs_range n c.

Lemma new_LRUCache_shard_ok capacity : shard_ok (new_LRUCache capacity).
Proof.
  split; [apply new_LRUCache_consistent|].
  exists 1. split; [lia|]. intros e h Hh. simpl in Hh.
  rewrite lookup_empty in Hh. discriminate.
Qed.

(** The handle a successful [Insert] into a caching shard creates. *)
Definition inserted (k : Slice) (hash_ value_ charge_ deleter_ : Z) : LRUHandle :=
  {| value := value_; deleter := deleter_; charge := charge_; key := k;
     in_cache := true; refs := 2; hash := hash_ |}.

(** [Insert] into a shard that caches: the new entry is in the table under
    its key and at the new end of [in_use_], with the cache's reference
    and the caller's; eviction has taken entries from the old end of
    [lru_] only. *)
Lemma Insert_spec k hash_ value_ charge_ deleter_ c :
  shard_ok c -> 0 < capacity_ c ->
  exists e c' j,
    Insert k hash_ value_ charge_ deleter_ c = Some (e, c')
    /\ shard_ok c'
    /\ heap c !! e = None
    /\ heap c' !! e = Some (inserted k hash_ value_ charge_ deleter_)
    /\ table_ c' !! (hash_, k) = Some e
    /\ capacity_ c' = capacity_ c
    /\ (usage_ c' <= capacity_ c' \/ lru_ c' = [])
    /\ match table_ c !! (hash_, k) with
       | Some old =>
           lru_ c' = drop j (remove_handle old (lru_ c))
           /\ in_use_ c' = remove_handle old (in_use_ c) ++ [e]
       | None =>
           lru_ c' = drop j (lru_ c) /\ in_use_ c' = in_use_ c ++ [e]
       end.
Proof.
  intros [Hc (n & Hn & Hr)] Hcap. rewrite Insert_eq.
  destruct (Z.ltb_spec 0 (capacity_ c)) as [_|]; [|lia].
  destruct (fresh_handle_free None c Hc) as (Hfree & Hnl & Hnt).
  pose proof (Insert_linked_consistent k hash_ value_ charge_ deleter_ c Hc) as Hc2.
  set (c2 := Insert_linked k hash_ value_ charge_ deleter_ c) in *.
  set (e := fresh (dom (heap c))) in *.
  assert (Hr2 : refs_range (n + 1) c2).
  { eapply (refs_range_insert (n + 1) c);
      [apply (refs_range_mono n); [lia|exact Hr]| |reflexivity].
    cbn. change (wrap32 (1 + 1)) with 2. lia. }
  assert (He2 : heap c2 !! e = Some (inserted k hash_ value_ charge_ deleter_)).
  { unfold c2, Insert_linked. cbn. apply lookup_insert_eq. }
  assert (Ht2 : table_ c2 !! (hash_, k) = Some e).
  { unfold c2, Insert_linked. cbn. apply lookup_insert_eq. }
  assert (Hl2 : lru_ c2 = lru_ c /\ in_use_ c2 = in_use_ c ++ [e]
                /\ capacity_ c2 = capacity_ c).
  { unfold c2, Insert_linked. cbn. auto. }
  destruct Hl2 as (Hl2 & Hi2 & Hcap2).
  (* the entry the key had, if any, is erased *)
  assert (Hentry : exists c3,
     snd <$> FinishErase (table_ c !! (hash_, k)) c2 = Some c3
     /\ consistent None c3 /\ refs_range (n + 1) c3
     /\ heap c3 !! e = Some (inserted k hash_ value_ charge_ deleter_)
     /\ table_ c3 !! (hash_, k) = Some e
     /\ capacity_ c3 = capacity_ c
     /\ match table_ c !! (hash_, k) with
        | Some old => lru_ c3 = remove_handle old (lru_ c)
                      /\ in_use_ c3 = remove_handle old (in_use_ c) ++ [e]
        | None => lru_ c3 = lru_ c /\ in_use_ c3 = in_use_ c ++ [e]
        end).
  { destruct (table_ c !! (hash_, k)) as [o|] eqn:Ht.
    - apply (cons_table _ _ Hc) in Ht as [(ho & (Ho & Hoi) & _) _].
      assert (Hoe : o ≠ e) by congruence.
      assert (Ho2 : heap c2 !! o = Some ho).
      { unfold c2, Insert_linked. cbn. rewrite lookup_insert_ne; [exact Ho|].
        intros Heq. apply Hoe. symmetry. exact Heq. }
      destruct (FinishErase_progress c2 o ho Ho2 Hoi (proj1 (Hr o ho Ho)))
        as (c3 & HF & _).
      destruct (FinishErase_frame o c2 true c3 ho HF Ho2)
        as (Ht3 & Hcap3 & _ & Hl3 & Hi3 & Hheap3).
      exists c3. rewrite HF. split; [reflexivity|].
      split; [exact (FinishErase_consistent c2 o true c3 Hc2 HF)|].
      split; [exact (FinishErase_range _ _ _ _ _ Hr2 HF)|].
      split; [rewrite Hheap3 by congruence; exact He2|].
      split; [rewrite Ht3; exact Ht2|]. split; [congruence|].
      rewrite Hl3, Hi3, Hl2, Hi2. split; [reflexivity|].
      unfold remove_handle. rewrite filter_app. f_equal.
      rewrite filter_cons. destruct (decide (e ≠ o)) as [_|Hno]; [reflexivity|].
      exfalso. apply Hno. congruence.
    - exists c2. split; [reflexivity|]. auto 10. }
  destruct Hentry as (c3 & -> & Hc3 & Hr3 & He3 & Ht3 & Hcap3 & Hlists).
  cbn [mbind option_bind].
  destruct (evict_spec (n + 1) (length (lru_ c3)) c3 Hc3 Hr3 (le_n _))
    as (c4 & j & -> & Hc4 & Hr4 & Hl4 & Hi4 & Hcap4 & Hstop & Hheap4 & Ht4).
  cbn [mbind option_bind].
  assert (Hin : e ∈ in_use_ c3).
  { destruct (table_ c !! (hash_, k)); destruct Hlists as [_ ->];
      apply elem_of_app; right; apply list_elem_of_here. }
  exists e, c4, j. split; [reflexivity|].
  split; [split; [exact Hc4|exists (n + 1); split; [lia|exact Hr4]]|].
  split; [exact Hfree|].
  split; [rewrite (Hheap4 e Hin); exact He3|].
  split; [exact (Ht4 _ e Hin Ht3)|]. split; [congruence|]. split; [exact Hstop|].
  destruct (table_ c !! (hash_, k)); destruct Hlists as [Hl3 Hi3];
    rewrite Hl4, Hi4, Hl3, Hi3; split; reflexivity.
Qed.


(** X7.  In a shard that caches ([capacity_ > 0]), [Lookup] of a key
    right after [Insert] returns the handle [Insert] returned, and the
    value stored under it is the value inserted. *)
Theorem Insert_then_Lookup k hash_ value_ charge_ deleter_ c :
  shard_ok c -> 0 < capacity_ c ->
  exists e c1 c2,
    Insert k hash_ value_ charge_ deleter_ c = Some (e, c1)
    /\ Lookup k hash_ c1 = Some (Some e, c2)
    /\ value <$> heap c2 !! e = Some value_
    /\ refs <$> heap c2 !! e = Some 3.
Proof.
  intros Hok Hcap.
  destruct (Insert_spec k hash_ value_ charge_ deleter_ c Hok Hcap)
    as (e & c1 & j & HI & _ & _ & He & Ht & _).
  exists e, c1. unfold Lookup, table_Lookup. rewrite Ht.
  unfold Ref. rewrite He. cbn [mbind option_bind inserted refs in_cache].
  eexists. split; [exact HI|]. split; [reflexivity|].
  cbn. rewrite lookup_insert_eq. split; reflexivity.
Qed.

Lemma Insert_then_Lookup_witness :
  exists e c1 c2,
    Insert [65] 1 100 1 0 (new_LRUCache 3) = Some (e, c1)
    /\ Lookup [65] 1 c1 = Some (Some e, c2)
    /\ value <$> heap c2 !! e = Some 100
    /\ refs <$> heap c2 !! e = Some 3.
Proof.
  apply (Insert_then_Lookup [65] 1 100 1 0 (new_LRUCache 3));
    [apply new_LRUCache_shard_ok|simpl; lia].
Defined.

(** [Erase] takes the key out of the table and nothing else. *)
Lemma Erase_spec k hash_ c :
  shard_ok c ->
  exists c',
    Erase k hash_ c = Some c'
    /\ shard_ok c'
    /\ capacity_ c' = capacity_ c
    /\ table_ c' = delete (hash_, k) (table_ c).
Proof.
  intros [Hc (n & Hn & Hr)].
  destruct (Erase_total n k hash_ c Hc Hr) as (c' & HE & Hc' & Hr').
  exists c'. split; [exact HE|].
  split; [split; [exact Hc'|exists n; auto]|].
  unfold Erase, table_Remove in HE.
  destruct (table_ c !! (hash_, k)) as [e|] eqn:Hte.
  - apply (cons_table _ _ Hc) in Hte as [(h & (Hh & _) & _) _].
    destruct (FinishErase (Some e) (set_table (delete (hash_, k) (table_ c)) c))
      as [[b c1]|] eqn:HF; [|discriminate].
    injection HE as <-.
    destruct (FinishErase_frame e _ b c1 h HF Hh) as (Ht1 & Hcap1 & _).
    split; [exact Hcap1|exact Ht1].
  - injection HE as <-. split; reflexivity.
Qed.

(** X9.  After [Erase] of a key, [Lookup] of that key finds nothing and
    changes nothing; the other keys are in the table as before. *)
Theorem Erase_then_Lookup k hash_ c :
  shard_ok c ->
  exists c',
    Erase k hash_ c = Some c'
    /\ Lookup k hash_ c' = Some (None, c')
    /\ table_ c' = delete (hash_, k) (table_ c).
Proof.
  intros Hok.
  destruct (Erase_spec k hash_ c Hok) as (c' & HE & _ & _ & Ht).
  exists c'. split; [exact HE|]. split; [|exact Ht].
  unfold Lookup, table_Lookup. rewrite Ht, lookup_delete_eq. reflexivity.
Qed.

(** The call of the deleter that frees the entry at [e]. *)
Definition deleter_call (c : LRUCache) (e : handle) : option (Z * Slice * Z) :=
  (fun h => (deleter h, key h, value h)) <$> heap c !! e.

(** [FinishErase] of an idle entry frees it: the deleter is called. *)
Lemma FinishErase_idle e c h :
  heap c !! e = Some h -> in_cache h = true -> refs h = 1 ->
  exists c',
    FinishErase (Some e) c = Some (true, c')
    /\ heap c' = delete e (heap c)
    /\ deleted c' = deleted c ++ [(deleter h, key h, value h)].
Proof.
  intros Hh Hin Hr. unfold FinishErase. rewrite Hh. cbn [mbind option_bind].
  rewrite Hin. cbn [negb]. unfold Unref. cbn [heap set_usage set_heap LRU_Remove set_lists].
  rewrite lookup_insert_eq. cbn [mbind option_bind with_in_cache refs in_cache].
  rewrite Hr. cbn. eexists. split; [reflexivity|]. split; [|reflexivity].
  apply delete_insert_eq.
Qed.

(** [FinishErase] of an entry that a client holds leaves it to the
    client: no deleter is called. *)
Lemma FinishErase_held e c h :
  heap c !! e = Some h -> in_cache h = true -> 1 <= refs h -> refs h ≠ 1 ->
  exists c',
    FinishErase (Some e) c = Some (true, c')
    /\ deleted c' = deleted c.
Proof.
  intros Hh Hin Hr1 Hr. unfold FinishErase. rewrite Hh. cbn [mbind option_bind].
  rewrite Hin. cbn [negb]. unfold Unref. cbn [heap set_usage set_heap LRU_Remove set_lists].
  rewrite lookup_insert_eq. cbn [mbind option_bind with_in_cache refs in_cache with_refs].
  destruct (Z.leb_spec (refs h) 0); [lia|].
  destruct (Z.eqb_spec (refs h - 1) 0); [lia|].
  cbn [andb]. eexists. split; reflexivity.
Qed.

(** The calls of deleters [Erase] of a key makes: one, for the entry under
    the key, where no client holds it. *)
Definition Erase_calls (k : Slice) (hash_ : Z) (c : LRUCache) : list (Z * Slice * Z) :=
  match table_ c !! (hash_, k) ≫= (heap c !!.) with
  | Some h => if refs h =? 1 then [(deleter h, key h, value h)] else []
  | None => []
  end.

Lemma Erase_deleted k hash_ c c' :
  shard_ok c -> Erase k hash_ c = Some c' ->
  deleted c' = deleted c ++ Erase_calls k hash_ c.
Proof.
  intros [Hc (n & Hn & Hr)] HE. unfold Erase, table_Remove in HE.
  unfold Erase_calls.
  destruct (table_ c !! (hash_, k)) as [e|] eqn:Hte; cbn [mbind option_bind].
  - apply (cons_table _ _ Hc) in Hte as [(h & (Hh & Hin) & _) _].
    rewrite Hh.
    destruct (Z.eqb_spec (refs h) 1) as [H1|H1].
    + destruct (FinishErase_idle e (set_table (delete (hash_, k) (table_ c)) c) h
                  Hh Hin H1) as (c1 & HF & _ & Hd).
      rewrite HF in HE. injection HE as <-. exact Hd.
    + destruct (FinishErase_held e (set_table (delete (hash_, k) (table_ c)) c) h
                  Hh Hin (proj1 (Hr e h Hh)) H1) as (c1 & HF & Hd).
      rewrite HF in HE. injection HE as <-. rewrite app_nil_r. exact Hd.
  - injection HE as <-. rewrite app_nil_r. reflexivity.
Qed.

Lemma omap_deleter_call_ext c c' (l : list handle) :
  (forall x, x ∈ l -> heap c' !! x = heap c !! x) ->
  omap (deleter_call c') l = omap (deleter_call c) l.
Proof.
  induction l as [|x l IH]; intros Hext; [reflexivity|].
  cbn [omap list_omap].
  assert (Hx : deleter_call c' x = deleter_call c x).
  { unfold deleter_call. rewrite (Hext x) by apply list_elem_of_here. reflexivity. }
  rewrite Hx, IH; [reflexivity|]. intros y Hy. apply Hext.
  apply list_elem_of_further. exact Hy.
Qed.

(** The loop of [Prune]. *)
Lemma prune_spec n fuel c :
  consistent None c -> refs_range n c -> (length (lru_ c) <= fuel)%nat ->
  exists c',
    prune fuel c = Some c' /\ consistent None c' /\ refs_range n c'
    /\ lru_ c' = [] /\ in_use_ c' = in_use_ c
    /\ deleted c' = deleted c ++ omap (deleter_call c) (lru_ c)
    /\ (forall x, x ∈ lru_ c -> heap c' !! x = None)
    /\ (forall x, (x ∉ lru_ c) -> heap c' !! x = heap c !! x).
Proof.
  revert c. induction fuel as [|fuel IH]; intros c Hc Hr Hlen.
  - exists c. cbn [prune].
    destruct (lru_ c) as [|old rest] eqn:Hl; [|simpl in Hlen; lia].
    split; [reflexivity|]. split; [exact Hc|]. split; [exact Hr|].
    split; [reflexivity|]. split; [reflexivity|].
    split; [cbn; rewrite app_nil_r; reflexivity|].
    split; [intros x Hx; inversion Hx|auto].
  - cbn [prune]. destruct (lru_ c) as [|old rest] eqn:Hl.
    { exists c. split; [reflexivity|]. split; [exact Hc|]. split; [exact Hr|].
      split; [exact Hl|]. split; [reflexivity|].
      split; [cbn; rewrite app_nil_r; reflexivity|].
      split; [intros x Hx; inversion Hx|auto]. }
    destruct (erase_oldest_frame n c old rest Hc Hr Hl)
      as (h & c1 & Hh & Hr1 & HF & Hc1 & Hrr1 & Hl1 & Hi1 & _ & _ & _ & Hheap1).
    rewrite Hh. cbn [mbind option_bind]. rewrite Hr1. cbn [Z.eqb Pos.eqb negb].
    unfold table_Remove. rewrite HF.
    assert (Hold : old ∈ lru_ c ++ in_use_ c).
    { rewrite Hl. apply elem_of_app. left. apply list_elem_of_here. }
    apply (cons_lists _ _ Hc) in Hold as (h' & Hh' & Hic).
    assert (h' = h) by congruence. subst h'.
    rewrite (lru_head_in_table c old rest h Hc Hl Hh) in HF.
    destruct (FinishErase_idle old (set_table (delete (hash h, key h) (table_ c)) c) h
                Hh Hic Hr1) as (c1' & HF' & Hheap1' & Hdel1).
    assert (c1' = c1) by congruence. subst c1'.
    cbn [heap deleted set_table] in Hheap1', Hdel1.
    destruct (IH c1 Hc1 Hrr1) as (c' & HP & Hc' & Hr' & Hl' & Hi' & Hdel' & Hfreed & Hkept).
    { rewrite Hl1. simpl in Hlen. lia. }
    pose proof (cons_nodup _ _ Hc) as Hnd. rewrite Hl in Hnd.
    cbn [app] in Hnd. apply NoDup_cons in Hnd as [Hnot _].
    rewrite elem_of_app in Hnot.
    exists c'. split; [exact HP|]. split; [exact Hc'|]. split; [exact Hr'|].
    split; [exact Hl'|]. split; [congruence|]. split; [|split].
    + rewrite Hdel', Hdel1, Hl1. cbn [omap list_omap]. unfold deleter_call at 2.
      rewrite Hh. cbn [fmap option_fmap option_map]. rewrite <- app_assoc.
      cbn [app]. do 2 f_equal. apply omap_deleter_call_ext.
      intros x Hx. apply Hheap1. intros ->. tauto.
    + intros x Hx. apply elem_of_cons in Hx as [->|Hx].
      * rewrite Hkept by (rewrite Hl1; tauto).
        rewrite Hheap1'. apply lookup_delete_eq.
      * apply Hfreed. rewrite Hl1. exact Hx.
    + intros x Hx. apply not_elem_of_cons in Hx as [Hne Hx].
      rewrite Hkept by (rewrite Hl1; exact Hx). apply Hheap1. exact Hne.
Qed.

(** X10.  [Prune] frees every idle entry, calling its deleter, oldest
    first, and leaves the entries in use alone. *)
Theorem Prune_frees_idle c :
  shard_ok c ->
  exists c',
    Prune c = Some c'
    /\ lru_ c' = [] /\ in_use_ c' = in_use_ c
    /\ deleted c' = deleted c ++ omap (deleter_call c) (lru_ c)
    /\ (forall x, x ∈ lru_ c -> heap c' !! x = None)
    /\ (forall x, x ∈ in_use_ c -> heap c' !! x = heap c !! x).
Proof.
  intros [Hc (n & Hn & Hr)].
  destruct (prune_spec n (length (lru_ c)) c Hc Hr (le_n _))
    as (c' & HP & _ & _ & Hl & Hi & Hd & Hfreed & Hkept).
  exists c'. split; [exact HP|]. split; [exact Hl|]. split; [exact Hi|].
  split; [exact Hd|]. split; [exact Hfreed|].
  intros x Hx. apply Hkept. intros Hxl.
  pose proof (cons_nodup _ _ Hc) as Hnd. apply NoDup_app in Hnd as (_ & Hdisj & _).
  exact (Hdisj x Hxl Hx).
Qed.

(** The charge of the entry at [e]. *)
Definition charge_of (c : LRUCache) (e : handle) : Z :=
  default 0 (charge <$> heap c !! e).

(** [usage_ -= e->charge] for each of the entries evicted, in turn. *)
Definition usage_less (usage : Z) (charges : list Z) : Z :=
  fold_left (fun u ch => wrap64 (u - ch)) charges usage.

Lemma elem_of_take_list {A} (x : A) i (l : list A) : x ∈ take i l -> x ∈ l.
Proof.
  intros Hx. rewrite <- (take_drop i l). apply elem_of_app. left. exact Hx.
Qed.

Lemma fmap_charge_of_ext c c' (l : list handle) :
  (forall x, x ∈ l -> heap c' !! x = heap c !! x) ->
  charge_of c' <$> l = charge_of c <$> l.
Proof.
  induction l as [|x l IH]; intros Hext; [reflexivity|].
  cbn [fmap list_fmap]. f_equal.
  - unfold charge_of. rewrite (Hext x) by apply list_elem_of_here. reflexivity.
  - apply IH. intros y Hy. apply Hext. apply list_elem_of_further. exact Hy.
Qed.

(** The eviction loop of [Insert], turn by turn: it frees the [j] oldest
    entries of [lru_], each because the usage is still above the capacity,
    and stops at the first turn that finds the usage within the capacity,
    or [lru_] empty. *)
Lemma evict_exact n fuel c :
  consistent None c -> refs_range n c -> (length (lru_ c) <= fuel)%nat ->
  exists c' j,
    evict fuel c = Some c'
    /\ (j <= length (lru_ c))%nat
    /\ lru_ c' = drop j (lru_ c) /\ in_use_ c' = in_use_ c
    /\ capacity_ c' = capacity_ c
    /\ deleted c' = deleted c ++ omap (deleter_call c) (take j (lru_ c))
    /\ usage_ c' = usage_less (usage_ c) (charge_of c <$> take j (lru_ c))
    /\ (forall i, (i < j)%nat ->
          capacity_ c < usage_less (usage_ c) (charge_of c <$> take i (lru_ c)))
    /\ (usage_ c' <= capacity_ c \/ j = length (lru_ c))
    /\ (forall x, x ∈ take j (lru_ c) -> heap c' !! x = None)
    /\ (forall x, (x ∉ take j (lru_ c)) -> heap c' !! x = heap c !! x).
Proof.
  revert c. induction fuel as [|fuel IH]; intros c Hc Hr Hlen.
  - exists c, 0%nat. cbn [evict].
    destruct (lru_ c) as [|old rest] eqn:Hl; [|simpl in Hlen; lia].
    split; [destruct (capacity_ c <? usage_ c); reflexivity|].
    cbn [take drop omap list_omap fmap list_fmap usage_less fold_left length].
    rewrite app_nil_r.
    split; [lia|]. split; [reflexivity|]. split; [reflexivity|].
    split; [reflexivity|]. split; [reflexivity|]. split; [reflexivity|].
    split; [intros i Hi; lia|]. split; [right; reflexivity|].
    split; [intros x Hx; inversion Hx|reflexivity].
  - cbn [evict].
    destruct (Z.ltb_spec (capacity_ c) (usage_ c)) as [Hover|Hfit].
    2:{ exists c, 0%nat. split; [reflexivity|].
        rewrite take_0, drop_0.
        cbn [omap list_omap fmap list_fmap usage_less fold_left].
        rewrite app_nil_r.
        split; [lia|]. split; [reflexivity|]. split; [reflexivity|].
        split; [reflexivity|]. split; [reflexivity|]. split; [reflexivity|].
        split; [intros i Hi; lia|]. split; [left; lia|].
        split; [intros x Hx; inversion Hx|reflexivity]. }
    destruct (lru_ c) as [|old rest] eqn:Hl.
    { exists c, 0%nat. split; [reflexivity|].
      cbn [take drop omap list_omap fmap list_fmap usage_less fold_left length].
      rewrite app_nil_r.
      split; [lia|]. split; [exact Hl|]. split; [reflexivity|].
      split; [reflexivity|]. split; [reflexivity|]. split; [reflexivity|].
      split; [intros i Hi; lia|]. split; [right; reflexivity|].
      split; [intros x Hx; inversion Hx|reflexivity]. }
    destruct (erase_oldest_frame n c old rest Hc Hr Hl)
      as (h & c1 & Hh & Hr1 & HF & Hc1 & Hrr1 & Hl1 & Hi1 & Hcap1 & Hu1 & _ & Hheap1).
    rewrite Hh. cbn [mbind option_bind]. rewrite Hr1. cbn [Z.eqb Pos.eqb negb].
    unfold table_Remove. rewrite HF.
    assert (Hold : old ∈ lru_ c ++ in_use_ c).
    { rewrite Hl. apply elem_of_app. left. apply list_elem_of_here. }
    apply (cons_lists _ _ Hc) in Hold as (h' & Hh' & Hic).
    assert (h' = h) by congruence. subst h'.
    rewrite (lru_head_in_table c old rest h Hc Hl Hh) in HF.
    destruct (FinishErase_idle old (set_table (delete (hash h, key h) (table_ c)) c) h
                Hh Hic Hr1) as (c1' & HF' & Hheap1' & Hdel1).
    assert (c1' = c1) by congruence. subst c1'.
    cbn [heap deleted set_table] in Hheap1', Hdel1.
    destruct (IH c1 Hc1 Hrr1)
      as (c' & j & He & Hj & Hl' & Hi' & Hcap' & Hdel' & Hu' & Hneed & Hstop
          & Hfreed & Hkept).
    { rewrite Hl1. simpl in Hlen. lia. }
    rewrite Hl1 in *.
    pose proof (cons_nodup _ _ Hc) as Hnd. rewrite Hl in Hnd.
    cbn [app] in Hnd. apply NoDup_cons in Hnd as [Hnot _].
    rewrite elem_of_app in Hnot.
    assert (Hrest : forall i x, x ∈ take i rest -> heap c1 !! x = heap c !! x).
    { intros i x Hx. apply Hheap1. intros ->.
      apply elem_of_take_list in Hx. tauto. }
    assert (Hcharge : charge_of c old = charge h).
    { unfold charge_of. rewrite Hh. reflexivity. }
    exists c', (S j). split; [exact He|].
    cbn [take drop length fmap list_fmap omap list_omap].
    split; [lia|]. split; [exact Hl'|]. split; [congruence|].
    split; [congruence|]. split; [|split; [|split; [|split; [|split]]]].
    + rewrite Hdel', Hdel1. unfold deleter_call at 2.
      rewrite Hh. cbn [fmap option_fmap option_map]. rewrite <- app_assoc.
      cbn [app]. do 2 f_equal. apply omap_deleter_call_ext. apply Hrest.
    + rewrite Hu', Hu1. cbn [usage_less fold_left]. rewrite Hcharge.
      unfold usage_less. f_equal. apply fmap_charge_of_ext. apply Hrest.
    + intros [|i] Hi.
      * cbn [take fmap list_fmap usage_less fold_left]. exact Hover.
      * cbn [take fmap list_fmap usage_less fold_left]. rewrite Hcharge, <- Hu1.
        rewrite <- (fmap_charge_of_ext c c1) by apply Hrest.
        rewrite <- Hcap1. apply Hneed. lia.
    + destruct Hstop as [Hle | ->]; [left; lia|right; reflexivity].
    + intros x Hx. apply elem_of_cons in Hx as [->|Hx].
      * rewrite Hkept.
        -- rewrite Hheap1'. apply lookup_delete_eq.
        -- intros Hin. apply elem_of_take_list in Hin. tauto.
      * apply Hfreed. exact Hx.
    + intros x Hx. apply not_elem_of_cons in Hx as [Hne Hx].
      rewrite Hkept by exact Hx. apply Hheap1. exact Hne.
Qed.

(** X8.  [Insert] of a key the shard does not hold puts the new entry at
    the new end of [in_use_] and evicts in least-recently-used order, and
    no more than it must: it frees the [j] oldest entries of [lru_],
    calling their deleters oldest first, where each of them goes because
    the usage -- the old usage and the new charge, less the charges of the
    entries already evicted -- is still above the capacity, and it stops
    at the first [j] at which the usage is within the capacity, or when no
    idle entry is left.  No entry in use is evicted. *)
Theorem Insert_evicts_oldest k hash_ value_ charge_ deleter_ c :
  shard_ok c -> 0 < capacity_ c -> table_ c !! (hash_, k) = None ->
  exists e c' j,
    Insert k hash_ value_ charge_ deleter_ c = Some (e, c')
    /\ (j <= length (lru_ c))%nat
    /\ lru_ c' = drop j (lru_ c)
    /\ in_use_ c' = in_use_ c ++ [e]
    /\ deleted c' = deleted c ++ omap (deleter_call c) (take j (lru_ c))
    /\ (forall i, (i < j)%nat ->
          capacity_ c < usage_less (wrap64 (usage_ c + charge_))
                                   (charge_of c <$> take i (lru_ c)))
    /\ usage_ c' = usage_less (wrap64 (usage_ c + charge_))
                              (charge_of c <$> take j (lru_ c))
    /\ (usage_ c' <= capacity_ c \/ j = length (lru_ c)).
Proof.
  intros [Hc (n & Hn & Hr)] Hcap Hnew. rewrite Insert_eq.
  destruct (Z.ltb_spec 0 (capacity_ c)) as [_|]; [|lia].
  destruct (fresh_handle_free None c Hc) as (Hfree & Hnl & Hnt).
  pose proof (Insert_linked_consistent k hash_ value_ charge_ deleter_ c Hc) as Hc2.
  set (c2 := Insert_linked k hash_ value_ charge_ deleter_ c) in *.
  set (e := fresh (dom (heap c))) in *.
  rewrite Hnew in *.
  cbn [FinishErase fmap option_fmap option_map snd mbind option_bind].
  assert (Hr2 : refs_range (n + 1) c2).
  { eapply (refs_range_insert (n + 1) c);
      [apply (refs_range_mono n); [lia|exact Hr]| |reflexivity].
    cbn. change (wrap32 (1 + 1)) with 2. lia. }
  assert (Hc2eq : lru_ c2 = lru_ c /\ in_use_ c2 = in_use_ c ++ [e]
                  /\ capacity_ c2 = capacity_ c /\ deleted c2 = deleted c
                  /\ usage_ c2 = wrap64 (usage_ c + charge_)).
  { unfold c2, Insert_linked. cbn. auto. }
  destruct Hc2eq as (Hl2 & Hi2 & Hcap2 & Hd2 & Hu2).
  assert (Hheap2 : forall x, x ∈ lru_ c -> heap c2 !! x = heap c !! x).
  { intros x Hx. unfold c2, Insert_linked. cbn. apply lookup_insert_ne.
    intros Heq. apply Hnl. apply elem_of_app. left. rewrite <- Heq in Hx. exact Hx. }
  destruct (evict_exact (n + 1) (length (lru_ c2)) c2 Hc2 Hr2 (le_n _))
    as (c' & j & -> & Hj & Hl' & Hi' & Hcap' & Hdel' & Hu' & Hneed & Hstop & _).
  cbn [mbind option_bind].
  rewrite Hl2, ?Hd2, ?Hu2, ?Hcap2 in *.
  assert (Htake : forall i x, x ∈ take i (lru_ c) -> heap c2 !! x = heap c !! x).
  { intros i x Hx. apply Hheap2. exact (elem_of_take_list x i _ Hx). }
  exists e, c', j. split; [reflexivity|]. split; [exact Hj|].
  split; [exact Hl'|]. split; [congruence|].
  split; [rewrite Hdel'; f_equal; apply omap_deleter_call_ext, Htake|].
  split; [|split].
  - intros i Hi. rewrite <- (fmap_charge_of_ext c c2) by apply Htake.
    apply Hneed. exact Hi.
  - rewrite Hu'. f_equal. apply fmap_charge_of_ext, Htake.
  - exact Hstop.
Qed.

(** Every state that a sequence of operations, used as the interface
    asks, reaches from a new shard is a state the operations keep the
    shard in. *)
Lemma run_shard_ok ops : forall n c,
  consistent None c -> refs_range n c -> 1 <= n ->
  n + Z.of_nat (length ops) <= 2 ^ 32 - 1 ->
  well_used ops c = true ->
  exists states, run ops c = Some states /\ Forall shard_ok states.
Proof.
  induction ops as [|op ops IH]; intros n c Hc Hr Hn Hlen Hwu.
  - exists []. split; [reflexivity|constructor].
  - cbn [well_used] in Hwu. apply andb_true_iff in Hwu as [Hop Hwu].
    cbn [length] in Hlen.
    destruct (step_total n op c Hc Hr ltac:(lia) Hop) as (c1 & Hs & Hc1 & Hr1).
    rewrite Hs in Hwu.
    destruct (IH (n + 1) c1 Hc1 Hr1 ltac:(lia) ltac:(lia) Hwu)
      as (states & Hrun & Hall).
    exists (c1 :: states). split.
    + cbn [run]. rewrite Hs. cbn [mbind option_bind]. rewrite Hrun. reflexivity.
    + constructor; [|exact Hall]. split; [exact Hc1|].
      exists (n + 1). split; [lia|exact Hr1].
Qed.

Lemma reached_shard_ok capacity ops c :
  Z.of_nat (length ops) < 2 ^ 32 - 1 ->
  well_used ops (new_LRUCache capacity) = true ->
  run ops (new_LRUCache capacity) ≫= last = Some c ->
  shard_ok c.
Proof.
  intros Hlen Hwu Hlast.
  destruct (run_shard_ok ops 1 (new_LRUCache capacity)) as (states & Hrun & Hall).
  - apply new_LRUCache_consistent.
  - intros e h Hh. simpl in Hh. rewrite lookup_empty in Hh. discriminate.
  - lia.
  - lia.
  - exact Hwu.
  - rewrite Hrun in Hlast. cbn [mbind option_bind] in Hlast.
    rewrite Forall_forall in Hall. apply Hall.
    apply last_Some in Hlast as [l' ->]. apply elem_of_app. right.
    apply list_elem_of_here.
Qed.

(** A shard of capacity 3 with three entries, two of them released. *)
Definition two_idle_ops : list Op :=
  [ OpInsert [65] 1 100 1 0; OpInsert [66] 2 200 1 0; OpInsert [67] 3 300 1 0;
    OpRelease 1%positive; OpRelease 2%positive ].

Definition two_idle : LRUCache :=
  default (new_LRUCache 3) (run two_idle_ops (new_LRUCache 3) ≫= last).

Lemma two_idle_ok : shard_ok two_idle.
Proof.
  apply (reached_shard_ok 3 two_idle_ops); [simpl; lia|vm_compute; reflexivity|].
  vm_compute. reflexivity.
Qed.

Lemma Prune_frees_idle_witness :
  exists c',
    Prune two_idle = Some c'
    /\ lru_ c' = [] /\ in_use_ c' = in_use_ two_idle
    /\ deleted c' = deleted two_idle ++ omap (deleter_call two_idle) (lru_ two_idle)
    /\ (forall x, x ∈ lru_ two_idle -> heap c' !! x = None)
    /\ (forall x, x ∈ in_use_ two_idle -> heap c' !! x = heap two_idle !! x).
Proof. apply (Prune_frees_idle two_idle). apply two_idle_ok. Defined.

(** The two idle entries go, in the order in which they were released;
    the third stays. *)
Example Prune_two_idle :
  (fun c => (deleted c, lru_ c, in_use_ c)) <$> Prune two_idle
  = Some ([(0, [65], 100); (0, [66], 200)], [], [3%positive]).
Proof. vm_compute. reflexivity. Qed.


(** A fourth entry of charge 1 goes into the shard of capacity 3 with two
    idle entries: the older of the two is evicted, and no more. *)
Lemma Insert_evicts_oldest_witness :
  (exists e c' j,
     Insert [68] 4 400 1 0 two_idle = Some (e, c')
     /\ (j <= length (lru_ two_idle))%nat
     /\ lru_ c' = drop j (lru_ two_idle)
     /\ in_use_ c' = in_use_ two_idle ++ [e]
     /\ deleted c' = deleted two_idle
                     ++ omap (deleter_call two_idle) (take j (lru_ two_idle))
     /\ (forall i, (i < j)%nat ->
           capacity_ two_idle
           < usage_less (wrap64 (usage_ two_idle + 1))
                        (charge_of two_idle <$> take i (lru_ two_idle)))
     /\ usage_ c' = usage_less (wrap64 (usage_ two_idle + 1))
                               (charge_of two_idle <$> take j (lru_ two_idle))
     /\ (usage_ c' <= capacity_ two_idle \/ j = length (lru_ two_idle)))
  /\ (lru_ two_idle, in_use_ two_idle, usage_ two_idle, capacity_ two_idle)
     = ([1%positive; 2%positive], [3%positive], 3, 3)
  /\ (fun '(e, c') => (e, deleted c', lru_ c', in_use_ c', usage_ c'))
       <$> Insert [68] 4 400 1 0 two_idle
     = Some (4%positive, [(0, [65], 100)], [2%positive],
             [3%positive; 4%positive], 3).
Proof.
  split; [|split; vm_compute; reflexivity].
  apply (Insert_evicts_oldest [68] 4 400 1 0 two_idle);
    [apply two_idle_ok|vm_compute; reflexivity|vm_compute; reflexivity].
Defined.

(** An entry of charge 3 pushes out both idle entries, and the usage stays
    above the capacity, the third entry being in use. *)
Example Insert_evicts_all_idle :
  (fun '(e, c') => (deleted c', lru_ c', in_use_ c', usage_ c'))
    <$> Insert [68] 4 400 3 0 two_idle
  = Some ([(0, [65], 100); (0, [66], 200)], [], [3%positive; 4%positive], 4).
Proof. vm_compute. reflexivity. Qed.

(** The key [65] is erased from the shard that holds the keys [65], [66]
    and [67]: it is found no more, and the other two are. *)
Lemma Erase_then_Lookup_witness :
  (exists c',
     Erase [65] 1 two_idle = Some c'
     /\ Lookup [65] 1 c' = Some (None, c')
     /\ table_ c' = delete (1, [65]) (table_ two_idle))
  /\ table_ two_idle !! (1, [65]) = Some 1%positive
  /\ (fun c' => (fst <$> Lookup [65] 1 c', fst <$> Lookup [66] 2 c',
                 fst <$> Lookup [67] 3 c', deleted c'))
       <$> Erase [65] 1 two_idle
     = Some (Some None, Some (Some 2%positive), Some (Some 3%positive),
             [(0, [65], 100)]).
Proof.
  split; [|split; vm_compute; reflexivity].
  apply (Erase_then_Lookup [65] 1 two_idle). apply two_idle_ok.
Defined.


(** [capacity_ == 0] turns caching off. *)
Definition caches_nothing (c : LRUCache) : Prop :=
  table_ c = ∅ /\ lru_ c = [] /\ in_use_ c = [] /\ usage_ c = 0.

Definition caching_off (c : LRUCache) : Prop :=
  capacity_ c = 0 /\ caches_nothing c
  /\ forall e h, heap c !! e = Some h -> in_cache h = false.

Lemma step_caching_off op c c' :
  caching_off c -> step op c = Some c' -> caching_off c'.
Proof.
  intros (Hcap & (Ht & Hl & Hi & Hu) & Hheap) Hs.
  destruct op as [k hs v ch d|k hs|e|k hs|]; cbn [step] in Hs.
  - rewrite Insert_eq in Hs. rewrite Hcap in Hs. cbn [Z.ltb Z.compare] in Hs.
    cbn [mbind option_bind lru_ set_heap] in Hs. rewrite Hl in Hs.
    cbn [length evict capacity_ usage_ set_heap] in Hs. rewrite Hcap, Hu in Hs.
    cbn [Z.ltb Z.compare mbind option_bind fmap option_fmap option_map snd] in Hs.
    injection Hs as <-. unfold caching_off, caches_nothing.
    cbn [capacity_ table_ lru_ in_use_ usage_ heap set_heap].
    split; [exact Hcap|]. split; [repeat split; assumption|].
    intros e h. destruct (decide (e = fresh (dom (heap c)))) as [->|Hne].
    + rewrite lookup_insert_eq. intros [= <-]. reflexivity.
    + rewrite lookup_insert_ne by congruence. apply Hheap.
  - unfold Lookup, table_Lookup in Hs. rewrite Ht, lookup_empty in Hs.
    cbn in Hs. injection Hs as <-. repeat split; assumption.
  - unfold Release, Unref in Hs.
    destruct (heap c !! e) as [h|] eqn:Hh; [|discriminate]. cbn [mbind option_bind] in Hs.
    pose proof (Hheap e h Hh) as Hin.
    destruct (refs h <=? 0); [discriminate|].
    cbn [in_cache with_refs refs] in Hs. rewrite Hin in Hs. cbn [andb] in Hs.
    destruct (refs h - 1 =? 0); injection Hs as <-;
      unfold caching_off, caches_nothing;
      cbn [capacity_ table_ lru_ in_use_ usage_ heap set_heap set_deleted];
      (split; [exact Hcap|]); (split; [repeat split; assumption|]); intros x hx.
    + intros Hx. apply lookup_delete_Some in Hx as [_ Hx]. exact (Hheap x hx Hx).
    + destruct (decide (x = e)) as [->|Hne].
      * rewrite lookup_insert_eq. intros [= <-]. exact Hin.
      * rewrite lookup_insert_ne by congruence. apply Hheap.
  - unfold Erase, table_Remove in Hs. rewrite Ht, lookup_empty in Hs.
    cbn in Hs. injection Hs as <-. unfold caching_off, caches_nothing.
    cbn [capacity_ table_ lru_ in_use_ usage_ heap set_table].
    rewrite delete_empty. repeat split; assumption.
  - unfold Prune in Hs. rewrite Hl in Hs. cbn [length prune] in Hs. rewrite Hl in Hs.
    injection Hs as <-. repeat split; assumption.
Qed.

Lemma run_caching_off ops : forall c states,
  caching_off c -> run ops c = Some states -> Forall caching_off states.
Proof.
  induction ops as [|op ops IH]; intros c states Hoff Hrun; cbn [run] in Hrun.
  - injection Hrun as <-. constructor.
  - destruct (step op c) as [c1|] eqn:Hs; [|discriminate].
    cbn [mbind option_bind] in Hrun.
    destruct (run ops c1) as [rest|] eqn:Hrest; [|discriminate].
    injection Hrun as <-.
    pose proof (step_caching_off op c c1 Hoff Hs) as Hoff1.
    constructor; [exact Hoff1|]. exact (IH c1 rest Hoff1 Hrest).
Qed.

(** X11.  A shard of capacity 0 caches nothing: whatever is done to it
    (fewer than 2^32 - 1 operations, each [Release] of a handle that is
    held), every operation completes, and after each of them the table and
    both lists are empty and the usage is 0. *)
Theorem capacity_zero_caches_nothing (ops : list Op) :
  Z.of_nat (length ops) < 2 ^ 32 - 1 ->
  well_used ops (new_LRUCache 0) = true ->
  exists states,
    run ops (new_LRUCache 0) = Some states /\ Forall caches_nothing states.
Proof.
  intros Hlen Hwu.
  destruct (run_shard_ok ops 1 (new_LRUCache 0)) as (states & Hrun & _).
  - apply new_LRUCache_consistent.
  - intros e h Hh. simpl in Hh. rewrite lookup_empty in Hh. discriminate.
  - lia.
  - lia.
  - exact Hwu.
  - exists states. split; [exact Hrun|].
    eapply Forall_impl; [eapply run_caching_off; [|exact Hrun]|].
    + split; [reflexivity|]. split; [repeat split|].
      intros e h Hh. simpl in Hh. rewrite lookup_empty in Hh. discriminate.
    + intros c (_ & Hn & _). exact Hn.
Qed.

Lemma capacity_zero_caches_nothing_witness :
  exists states,
    run [OpInsert [65] 1 100 1 0; OpLookup [65] 1; OpRelease 1%positive; OpPrune]
        (new_LRUCache 0) = Some states
    /\ Forall caches_nothing states.
Proof.
  apply (capacity_zero_caches_nothing
           [OpInsert [65] 1 100 1 0; OpLookup [65] 1; OpRelease 1%positive; OpPrune]);
    [simpl; lia|vm_compute; reflexivity].
Defined.


(** **** [usage_] is the charge of what is cached *)

Definition Zsum (l : list Z) : Z := foldr Z.add 0 l.

(** The sum of the charges of the entries on the two lists. *)
Definition total_charge (c : LRUCache) : Z :=
  Zsum (charge_of c <$> (lru_ c ++ in_use_ c)).

Definition usage_exact (c : LRUCache) : Prop := usage_ c = wrap64 (total_charge c).

Lemma Zsum_app l1 l2 : Zsum (l1 ++ l2) = Zsum l1 + Zsum l2.
Proof. unfold Zsum. induction l1 as [|x l1 IH]; simpl; lia. Qed.

Lemma Zsum_perm l1 l2 : l1 ≡ₚ l2 -> Zsum l1 = Zsum l2.
Proof.
  unfold Zsum.
  induction 1 as [|x l1 l2 _ IH|x y l|l1 l2 l3 _ IH1 _ IH2]; simpl; lia.
Qed.

Lemma Zsum_ext (f g : handle -> Z) (l : list handle) :
  (forall x, x ∈ l -> f x = g x) -> Zsum (f <$> l) = Zsum (g <$> l).
Proof.
  induction l as [|x l IH]; intros Hext; [reflexivity|].
  cbn [fmap list_fmap Zsum foldr]. rewrite (Hext x) by apply list_elem_of_here.
  unfold Zsum in IH. rewrite IH; [reflexivity|].
  intros y Hy. apply Hext. apply list_elem_of_further. exact Hy.
Qed.

Lemma perm_remove_handle e (l : list handle) :
  NoDup l -> e ∈ l -> l ≡ₚ e :: remove_handle e l.
Proof.
  induction l as [|x l IH]; intros Hnd He; [inversion He|].
  apply NoDup_cons in Hnd as [Hx Hnd].
  destruct (decide (x = e)) as [->|Hne].
  - rewrite remove_handle_head by exact Hx. reflexivity.
  - apply elem_of_cons in He as [->|He]; [contradiction|].
    unfold remove_handle. rewrite filter_cons.
    destruct (decide (x ≠ e)) as [_|Hno]; [|contradiction].
    rewrite (IH Hnd He) at 1. apply Permutation_swap.
Qed.

Lemma remove_handle_app e (l u : list handle) :
  remove_handle e (l ++ u) = remove_handle e l ++ remove_handle e u.
Proof. unfold remove_handle. apply filter_app. Qed.

(** The total when the lists are rearranged and the charges stay. *)
Lemma total_charge_perm c c' :
  lru_ c' ++ in_use_ c' ≡ₚ lru_ c ++ in_use_ c ->
  (forall x, x ∈ lru_ c ++ in_use_ c -> charge_of c' x = charge_of c x) ->
  total_charge c' = total_charge c.
Proof.
  intros Hp Hext. unfold total_charge.
  rewrite (Zsum_perm _ _ (fmap_Permutation (charge_of c') _ _ Hp)).
  apply Zsum_ext. exact Hext.
Qed.

(** The total when one entry leaves the lists. *)
Lemma total_charge_remove c c' e :
  NoDup (lru_ c ++ in_use_ c) -> e ∈ lru_ c ++ in_use_ c ->
  lru_ c' = remove_handle e (lru_ c) -> in_use_ c' = remove_handle e (in_use_ c) ->
  (forall x, x ≠ e -> charge_of c' x = charge_of c x) ->
  total_charge c' = total_charge c - charge_of c e.
Proof.
  intros Hnd He Hl Hi Hext. unfold total_charge.
  rewrite Hl, Hi, <- remove_handle_app.
  rewrite (Zsum_perm _ _ (fmap_Permutation (charge_of c) _ _
                            (perm_remove_handle e _ Hnd He))).
  cbn [fmap list_fmap Zsum foldr].
  rewrite (Zsum_ext (charge_of c') (charge_of c)).
  - unfold Zsum. lia.
  - intros x Hx. apply Hext. apply elem_of_remove_handle in Hx. tauto.
Qed.

Lemma charge_of_insert c (c' : LRUCache) e h h' x :
  heap c !! e = Some h -> charge h' = charge h ->
  heap c' = <[e := h']> (heap c) ->
  charge_of c' x = charge_of c x.
Proof.
  intros Hh Hch Heq. unfold charge_of. rewrite Heq.
  destruct (decide (x = e)) as [->|Hne].
  - rewrite lookup_insert_eq, Hh. cbn. exact Hch.
  - rewrite lookup_insert_ne by congruence. reflexivity.
Qed.

Lemma wrap64_sub_l a b : wrap64 (wrap64 a - b) = wrap64 (a - b).
Proof. unfold wrap64. apply Zminus_mod_idemp_l. Qed.

Lemma wrap64_add_l a b : wrap64 (wrap64 a + b) = wrap64 (a + b).
Proof. unfold wrap64. apply Zplus_mod_idemp_l. Qed.

Lemma Ref_usage c e h c' :
  consistent None c -> cached c e h -> usage_exact c ->
  Ref e c = Some c' -> usage_exact c'.
Proof.
  intros Hc Hch Hu HR. pose proof Hch as [Hh Hin].
  unfold Ref in HR. rewrite Hh in HR. cbn [mbind option_bind] in HR.
  rewrite Hin, andb_true_r in HR.
  assert (He : e ∈ lru_ c ++ in_use_ c) by (apply (cons_lists _ _ Hc); eauto).
  pose proof (cons_nodup _ _ Hc) as Hnd.
  unfold usage_exact.
  destruct (refs h =? 1); injection HR as <-.
  - cbn [usage_ set_heap LRU_Append LRU_Remove set_lists].
    rewrite Hu. f_equal. symmetry. apply total_charge_perm.
    + cbn [lru_ in_use_ set_heap LRU_Append LRU_Remove set_lists].
      rewrite app_assoc, <- remove_handle_app.
      rewrite <- Permutation_cons_append. symmetry.
      apply perm_remove_handle; assumption.
    + intros x _. eapply (charge_of_insert c _ e h); [exact Hh| |reflexivity]; reflexivity.
  - cbn [usage_ set_heap]. rewrite Hu. f_equal. symmetry. apply total_charge_perm.
    + reflexivity.
    + intros x _. eapply (charge_of_insert c _ e h); [exact Hh| |reflexivity]; reflexivity.
Qed.

Lemma Unref_usage c e c' :
  consistent None c -> usage_exact c -> Unref e c = Some c' -> usage_exact c'.
Proof.
  intros Hc Hu HU. unfold Unref in HU.
  destruct (heap c !! e) as [h|] eqn:Hh; [|discriminate]. cbn [mbind option_bind] in HU.
  destruct (Z.leb_spec (refs h) 0) as [|Hpos]; [discriminate|].
  pose proof (cons_nodup _ _ Hc) as Hnd. unfold usage_exact.
  cbn [in_cache with_refs refs] in HU.
  destruct (Z.eqb_spec (refs h - 1) 0) as [H0|Hn0].
  - destruct (in_cache h) eqn:Hin; [discriminate|]. injection HU as <-.
    cbn [usage_ set_heap set_deleted]. rewrite Hu. f_equal. symmetry.
    apply total_charge_perm; [reflexivity|].
    intros x Hx. unfold charge_of. cbn [heap set_heap set_deleted].
    rewrite lookup_delete_ne; [reflexivity|]. intros <-.
    apply (cons_lists _ _ Hc) in Hx as (h' & Hh' & Hin'). congruence.
  - destruct (in_cache h) eqn:Hin; cbn [andb] in HU.
    + assert (He : e ∈ lru_ c ++ in_use_ c).
      { apply (cons_lists _ _ Hc). exists h. split; assumption. }
      destruct (refs h - 1 =? 1); injection HU as <-.
      * cbn [usage_ set_heap LRU_Append LRU_Remove set_lists].
        rewrite Hu. f_equal. symmetry. apply total_charge_perm.
        -- cbn [lru_ in_use_ set_heap LRU_Append LRU_Remove set_lists].
           rewrite <- app_assoc. cbn [app].
           rewrite <- Permutation_middle, <- remove_handle_app. symmetry.
           apply perm_remove_handle; assumption.
        -- intros x _. eapply (charge_of_insert c _ e h); [exact Hh| |reflexivity]; reflexivity.
      * cbn [usage_ set_heap]. rewrite Hu. f_equal. symmetry.
        apply total_charge_perm; [reflexivity|].
        intros x _. eapply (charge_of_insert c _ e h); [exact Hh| |reflexivity]; reflexivity.
    + injection HU as <-. cbn [usage_ set_heap]. rewrite Hu. f_equal. symmetry.
      apply total_charge_perm; [reflexivity|].
      intros x _. eapply (charge_of_insert c _ e h); [exact Hh| |reflexivity]; reflexivity.
Qed.

Lemma FinishErase_usage p c e b c' :
  consistent p c -> usage_exact c ->
  (exists h, cached c e h) ->
  FinishErase (Some e) c = Some (b, c') -> usage_exact c'.
Proof.
  intros Hc Hu (h & Hh & Hin) HF.
  destruct (FinishErase_frame e c b c' h HF Hh)
    as (_ & _ & Hu' & Hl' & Hi' & Hheap').
  unfold usage_exact. rewrite Hu', Hu, wrap64_sub_l. f_equal.
  assert (Hce : charge_of c e = charge h).
  { unfold charge_of. rewrite Hh. reflexivity. }
  rewrite (total_charge_remove c c' e (cons_nodup _ _ Hc)).
  - rewrite Hce. reflexivity.
  - apply (cons_lists _ _ Hc). exists h. split; assumption.
  - exact Hl'.
  - exact Hi'.
  - intros x Hx. unfold charge_of. rewrite (Hheap' x Hx). reflexivity.
Qed.

Lemma erase_usage c k hash_ b c' :
  consistent None c -> usage_exact c ->
  FinishErase (fst (table_Remove k hash_ c)) (snd (table_Remove k hash_ c))
    = Some (b, c') ->
  usage_exact c'.
Proof.
  intros Hc Hu HF. pose proof (table_Remove_consistent c k hash_ Hc) as Hp.
  unfold table_Remove in *. cbn [fst snd] in *.
  destruct (table_ c !! (hash_, k)) as [e|] eqn:Ht.
  - apply (FinishErase_usage _ _ e b c' Hp); [exact Hu| |exact HF].
    apply (cons_table _ _ Hc) in Ht as [(h & Hch & _) _]. exists h. exact Hch.
  - cbn in HF. injection HF as _ <-. exact Hu.
Qed.

Lemma evict_usage fuel c c' :
  consistent None c -> usage_exact c -> evict fuel c = Some c' -> usage_exact c'.
Proof.
  revert c. induction fuel as [|fuel IH]; intros c Hc Hu He; cbn [evict] in He.
  - destruct (capacity_ c <? usage_ c); [|congruence].
    destruct (lru_ c); [congruence|discriminate].
  - destruct (capacity_ c <? usage_ c); [|congruence].
    destruct (lru_ c) as [|old rest] eqn:Hl; [congruence|].
    destruct (heap c !! old) as [h|] eqn:Hh; [|discriminate]. cbn [mbind option_bind] in He.
    destruct (negb (refs h =? 1)); [discriminate|].
    pose proof (erase_consistent c (key h) (hash h)) as Her.
    pose proof (erase_usage c (key h) (hash h)) as Heu.
    unfold table_Remove in Her, Heu, He. cbn [fst snd] in Her, Heu.
    destruct (FinishErase (table_ c !! (hash h, key h))
                (set_table (delete (hash h, key h) (table_ c)) c))
      as [[erased c2]|] eqn:HF; [|discriminate].
    destruct erased; [|discriminate].
    apply (IH c2); [exact (Her true c2 Hc eq_refl)|exact (Heu true c2 Hc Hu eq_refl)|exact He].
Qed.

Lemma prune_usage fuel c c' :
  consistent None c -> usage_exact c -> prune fuel c = Some c' -> usage_exact c'.
Proof.
  revert c. induction fuel as [|fuel IH]; intros c Hc Hu He; cbn [prune] in He.
  - destruct (lru_ c); [congruence|discriminate].
  - destruct (lru_ c) as [|old rest] eqn:Hl; [congruence|].
    destruct (heap c !! old) as [h|] eqn:Hh; [|discriminate]. cbn [mbind option_bind] in He.
    destruct (negb (refs h =? 1)); [discriminate|].
    pose proof (erase_consistent c (key h) (hash h)) as Her.
    pose proof (erase_usage c (key h) (hash h)) as Heu.
    unfold table_Remove in Her, Heu, He. cbn [fst snd] in Her, Heu.
    destruct (FinishErase (table_ c !! (hash h, key h))
                (set_table (delete (hash h, key h) (table_ c)) c))
      as [[erased c2]|] eqn:HF; [|discriminate].
    destruct erased; [|discriminate].
    apply (IH c2); [exact (Her true c2 Hc eq_refl)|exact (Heu true c2 Hc Hu eq_refl)|exact He].
Qed.


Lemma Insert_usage k hash_ value_ charge_ deleter_ c e c' :
  consistent None c -> usage_exact c ->
  Insert k hash_ value_ charge_ deleter_ c = Some (e, c') -> usage_exact c'.
Proof.
  intros Hc Hu HI. rewrite Insert_eq in HI.
  destruct (fresh_handle_free None c Hc) as (Hfree & Hnl & Hnt).
  set (f := fresh (dom (heap c))) in *.
  assert (Hold : forall (c2 : LRUCache) h', heap c2 = <[f := h']> (heap c) ->
                 forall x, x ∈ lru_ c ++ in_use_ c -> charge_of c2 x = charge_of c x).
  { intros c2 h' Heq x Hx. unfold charge_of. rewrite Heq.
    rewrite lookup_insert_ne; [reflexivity|]. intros <-. contradiction. }
  match type of HI with
  | (?m ≫= _) = _ => destruct m as [c3|] eqn:Hbranch; [|discriminate]
  end.
  cbn [mbind option_bind] in HI.
  destruct (evict (length (lru_ c3)) c3) as [c4|] eqn:He; [|discriminate].
  cbn [mbind option_bind] in HI. injection HI as _ <-.
  assert (H3 : consistent None c3 /\ usage_exact c3);
    [|destruct H3 as [Hc3 Hu3]; exact (evict_usage _ c3 c4 Hc3 Hu3 He)].
  clear He c4 e.
  destruct (0 <? capacity_ c).
  - pose proof (Insert_linked_consistent k hash_ value_ charge_ deleter_ c Hc) as Hc2.
    set (c2 := Insert_linked k hash_ value_ charge_ deleter_ c) in *.
    assert (Hu2 : usage_exact c2).
    { assert (Hus : usage_ c2 = wrap64 (usage_ c + charge_)) by reflexivity.
      assert (Htot : total_charge c2 = total_charge c + charge_).
      { unfold total_charge.
        change (lru_ c2) with (lru_ c). change (in_use_ c2) with (in_use_ c ++ [f]).
        rewrite app_assoc, fmap_app, Zsum_app. f_equal.
        - apply Zsum_ext. intros x Hx. eapply Hold; [reflexivity|exact Hx].
        - cbn [fmap list_fmap]. unfold Zsum, charge_of, c2, Insert_linked.
          cbn [heap set_table set_usage LRU_Append set_lists set_heap foldr].
          fold f. rewrite lookup_insert_eq. cbn. lia. }
      unfold usage_exact. rewrite Hus, Htot, Hu, wrap64_add_l. reflexivity. }
    destruct (table_ c !! (hash_, k)) as [o|] eqn:Ht.
    + destruct (FinishErase (Some o) c2) as [[b c3']|] eqn:HF; [|discriminate].
      cbn in Hbranch. injection Hbranch as <-.
      split; [exact (FinishErase_consistent c2 o b c3' Hc2 HF)|].
      apply (FinishErase_usage _ c2 o b c3' Hc2 Hu2); [|exact HF].
      apply (cons_table _ _ Hc) in Ht as [(ho & (Ho & Hoi) & _) _].
      exists ho. split; [|exact Hoi]. unfold c2, Insert_linked.
      cbn [heap set_table set_usage LRU_Append set_lists set_heap].
      rewrite lookup_insert_ne; [exact Ho|]. intros Heq. fold f in Heq. congruence.
    + cbn in Hbranch. injection Hbranch as <-. split; assumption.
  - injection Hbranch as <-. split.
    + apply Insert_uncached_consistent; [exact Hc|reflexivity].
    + unfold usage_exact. cbn [usage_ set_heap]. rewrite Hu. f_equal. symmetry.
      apply total_charge_perm; [reflexivity|].
      intros x Hx. eapply Hold; [reflexivity|exact Hx].
Qed.

Lemma step_usage op c c' :
  consistent None c -> usage_exact c -> step op c = Some c' -> usage_exact c'.
Proof.
  intros Hc Hu Hs. destruct op as [k hs v ch d|k hs|e|k hs|]; cbn [step] in Hs.
  - destruct (Insert k hs v ch d c) as [[e c1]|] eqn:HI; [|discriminate].
    injection Hs as <-. exact (Insert_usage _ _ _ _ _ _ _ _ Hc Hu HI).
  - unfold Lookup, table_Lookup in Hs.
    destruct (table_ c !! (hs, k)) as [e|] eqn:Ht.
    + destruct (Ref e c) as [c1|] eqn:HR; [|discriminate].
      cbn in Hs. injection Hs as <-.
      apply (cons_table _ _ Hc) in Ht as [(h & Hch & _) _].
      exact (Ref_usage c e h c1 Hc Hch Hu HR).
    + cbn in Hs. injection Hs as <-. exact Hu.
  - exact (Unref_usage c e c' Hc Hu Hs).
  - unfold Erase in Hs. pose proof (erase_usage c k hs) as Heu.
    destruct (table_Remove k hs c) as [removed c1]. cbn [fst snd] in Heu.
    destruct (FinishErase removed c1) as [[b c2]|] eqn:HF; [|discriminate].
    cbn in Hs. injection Hs as <-. exact (Heu b c2 Hc Hu eq_refl).
  - exact (prune_usage _ c c' Hc Hu Hs).
Qed.

Lemma run_usage ops : forall n c,
  consistent None c -> refs_range n c -> 1 <= n ->
  n + Z.of_nat (length ops) <= 2 ^ 32 - 1 ->
  well_used ops c = true -> usage_exact c ->
  exists states, run ops c = Some states /\ Forall usage_exact states.
Proof.
  induction ops as [|op ops IH]; intros n c Hc Hr Hn Hlen Hwu Hu.
  - exists []. split; [reflexivity|constructor].
  - cbn [well_used] in Hwu. apply andb_true_iff in Hwu as [Hop Hwu].
    cbn [length] in Hlen.
    destruct (step_total n op c Hc Hr ltac:(lia) Hop) as (c1 & Hs & Hc1 & Hr1).
    rewrite Hs in Hwu.
    pose proof (step_usage op c c1 Hc Hu Hs) as Hu1.
    destruct (IH (n + 1) c1 Hc1 Hr1 ltac:(lia) ltac:(lia) Hwu Hu1)
      as (states & Hrun & Hall).
    exists (c1 :: states). split.
    + cbn [run]. rewrite Hs. cbn [mbind option_bind]. rewrite Hrun. reflexivity.
    + constructor; assumption.
Qed.

(** X12.  After each operation on a shard (fewer than 2^32 - 1 of them,
    each [Release] of a handle that is held), [usage_], which
    [TotalCharge()] returns, is the sum modulo 2^64 of the charges of the
    entries that are on the two lists, that is in the cache. *)
Theorem usage_is_total_charge (capacity : Z) (ops : list Op) :
  Z.of_nat (length ops) < 2 ^ 32 - 1 ->
  well_used ops (new_LRUCache capacity) = true ->
  exists states,
    run ops (new_LRUCache capacity) = Some states
    /\ Forall (fun c => usage_ c = wrap64 (total_charge c)) states.
Proof.
  intros Hlen Hwu.
  apply (run_usage ops 1 (new_LRUCache capacity)).
  - apply new_LRUCache_consistent.
  - intros e h Hh. simpl in Hh. rewrite lookup_empty in Hh. discriminate.
  - lia.
  - lia.
  - exact Hwu.
  - reflexivity.
Qed.

Lemma usage_is_total_charge_witness :
  exists states,
    run sample_ops (new_LRUCache 3) = Some states
    /\ Forall (fun c => usage_ c = wrap64 (total_charge c)) states.
Proof.
  apply (usage_is_total_charge 3 sample_ops); [simpl; lia|vm_compute; reflexivity].
Defined.


(** X13.  Recency: [Release] of the only handle held on a cached entry
    makes the entry the newest of [lru_], the last to be evicted; the
    table is as it was. *)
Theorem Release_makes_newest c e h :
  shard_ok c -> heap c !! e = Some h -> in_cache h = true -> refs h = 2 ->
  exists c',
    Release e c = Some c'
    /\ lru_ c' = lru_ c ++ [e]
    /\ in_use_ c' = remove_handle e (in_use_ c)
    /\ table_ c' = table_ c.
Proof.
  intros [Hc _] Hh Hin Hr2.
  assert (Hch : cached c e h) by (split; assumption).
  destruct (cached_on_list None c e h Hc Hch) as [(Hl & Hu & Hr)|(Hl & Hu & Hr)];
    [lia|].
  unfold Release, Unref. rewrite Hh. cbn [mbind option_bind]. rewrite Hr2.
  cbn [Z.leb Z.compare Z.sub Z.add Z.opp Z.pos_sub Z.eqb Pos.eqb
       with_refs refs in_cache Z.succ_double Z.pred_double Z.double Pos.pred_double].
  rewrite Hin. cbn [andb].
  eexists. split; [reflexivity|].
  cbn [lru_ in_use_ table_ set_heap LRU_Append LRU_Remove set_lists].
  rewrite (remove_handle_absent e (lru_ c)) by exact Hl. auto.
Qed.

Lemma Release_makes_newest_witness :
  exists c',
    Release 3%positive two_idle = Some c'
    /\ lru_ c' = lru_ two_idle ++ [3%positive]
    /\ in_use_ c' = remove_handle 3%positive (in_use_ two_idle)
    /\ table_ c' = table_ two_idle.
Proof.
  apply (Release_makes_newest two_idle 3%positive (inserted [67] 3 300 1 0));
    [apply two_idle_ok|vm_compute; reflexivity|reflexivity|reflexivity].
Defined.

(** X14.  [Lookup] of an idle entry pins it: the entry leaves [lru_],
    where it could be evicted, for the new end of [in_use_]. *)
Theorem Lookup_pins c e h :
  shard_ok c -> heap c !! e = Some h -> in_cache h = true -> refs h = 1 ->
  exists c',
    Lookup (key h) (hash h) c = Some (Some e, c')
    /\ lru_ c' = remove_handle e (lru_ c)
    /\ in_use_ c' = in_use_ c ++ [e]
    /\ refs <$> heap c' !! e = Some 2.
Proof.
  intros [Hc _] Hh Hin Hr1.
  assert (Hch : cached c e h) by (split; assumption).
  destruct (cached_on_list None c e h Hc Hch) as [(Hl & Hu & Hr)|(Hl & Hu & Hr)];
    [|lia].
  assert (Ht : table_ c !! (hash h, key h) = Some e).
  { apply (cons_table _ _ Hc). split; [|discriminate]. exists h. split; auto. }
  unfold Lookup, table_Lookup. rewrite Ht. unfold Ref. rewrite Hh.
  cbn [mbind option_bind]. rewrite Hr, Hin. cbn [Z.eqb Pos.eqb andb].
  eexists. split; [reflexivity|].
  cbn [lru_ in_use_ table_ heap set_heap LRU_Append LRU_Remove set_lists].
  rewrite (remove_handle_absent e (in_use_ c)) by exact Hu.
  rewrite lookup_insert_eq. auto.
Qed.

Lemma Lookup_pins_witness :
  exists c',
    Lookup [65] 1 two_idle = Some (Some 1%positive, c')
    /\ lru_ c' = remove_handle 1%positive (lru_ two_idle)
    /\ in_use_ c' = in_use_ two_idle ++ [1%positive]
    /\ refs <$> heap c' !! 1%positive = Some 2.
Proof.
  apply (Lookup_pins two_idle 1%positive
           {| value := 100; deleter := 0; charge := 1; key := [65];
              in_cache := true; refs := 1; hash := 1 |});
    [apply two_idle_ok|vm_compute; reflexivity|reflexivity|reflexivity].
Defined.

End LRUFacts.

(** *** util/arena.cc : aligned allocation, and what the arena hands out *)

Module ArenaAligned.
Import Arena.

Section WithBase.

(** The address at which the block of index [b] starts: what
    [new char[block_bytes]] returned for it. *)
Variable base : nat -> Z.

(** [reinterpret_cast<uintptr_t>(p)] *)
Definition address (p : ptr) : Z :=
  match p with
  | nullptr => 0
  | Ptr b o => wrap64 (base b + o)
  end.

(** [const int align]: the size of a pointer if that is more than 8,
    and 8 otherwise. *)
Definition align : Z := if 8 <? sizeof_ptr then sizeof_ptr else 8.

(** [char* Arena::AllocateAligned(size_t bytes)]; [None] is the failure
    of the assertion on the result. *)
Definition AllocateAligned (bytes : Z) (a : Arena) : option (ptr * Arena) :=
  let current_mod := Z.land (address (alloc_ptr_ a)) (align - 1) in
  let slop := if current_mod =? 0 then 0 else align - current_mod in
  let needed := wrap64 (bytes + slop) in
  let '(result, a) :=
    if needed <=? alloc_bytes_remaining_ a then
      (ptr_add (alloc_ptr_ a) slop,
       {| alloc_ptr_ := ptr_add (alloc_ptr_ a) needed;
          alloc_bytes_remaining_ := alloc_bytes_remaining_ a - needed;
          blocks_ := blocks_ a;
          memory_usage_ := memory_usage_ a |})
    else
      (* AllocateFallback always returned aligned memory *)
      AllocateFallback bytes a in
  if Z.land (address result) (align - 1) =? 0 then Some (result, a) else None.

(** [size_t MemoryUsage() const] *)
Definition MemoryUsage (a : Arena) : Z := memory_usage_ a.

(** A request made of the arena, and the memory handed out for a sequence
    of requests: the pointer returned and the number of bytes asked for. *)
Inductive request :=
| Plain (bytes : Z)         (* Allocate(bytes) *)
| Aligned (bytes : Z).      (* AllocateAligned(bytes) *)

Definition request_bytes (r : request) : Z :=
  match r with Plain n => n | Aligned n => n end.

Definition serve (r : request) (a : Arena) : option (ptr * Arena) :=
  match r with
  | Plain n => Allocate n a
  | Aligned n => AllocateAligned n a
  end.

Fixpoint serve_all (rs : list request) (a : Arena)
  : option (list (ptr * Z) * Arena) :=
  match rs with
  | [] => Some ([], a)
  | r :: rs =>
      match serve r a with
      | Some (p, a) =>
          match serve_all rs a with
          | Some (regions, a) => Some ((p, request_bytes r) :: regions, a)
          | None => None
          end
      | None => None
      end
  end.

End WithBase.

End ArenaAligned.

Module ArenaProofs.
Import Arena ArenaAligned.

(** The bytes [p, p + n) lie inside one block of the arena. *)
Definition region_in (a : Arena) (r : ptr * Z) : Prop :=
  match r.1 with
  | nullptr => False
  | Ptr b o => exists sz, blocks_ a !! b = Some sz /\ 0 <= o /\ o + r.2 <= sz
  end.

(** Two regions share no byte. *)
Definition disjoint (r1 r2 : ptr * Z) : Prop :=
  match r1.1, r2.1 with
  | Ptr b1 o1, Ptr b2 o2 => b1 ≠ b2 \/ o1 + r1.2 <= o2 \/ o2 + r2.2 <= o1
  | _, _ => False
  end.

Fixpoint pairwise_disjoint (l : list (ptr * Z)) : Prop :=
  match l with
  | [] => True
  | r :: l => Forall (disjoint r) l /\ pairwise_disjoint l
  end.

(** The region ends at or before offset [o] of block [b], if it is in
    that block. *)
Definition below (b : nat) (o : Z) (r : ptr * Z) : Prop :=
  match r.1 with
  | nullptr => True
  | Ptr b' o' => b' = b -> o' + r.2 <= o
  end.

(** What holds of an arena and of the regions it has handed out. *)
Record arena_inv (regions : list (ptr * Z)) (a : Arena) : Prop := {
  inv_in : Forall (region_in a) regions;
  inv_disjoint : pairwise_disjoint regions;
  inv_current :
    match alloc_ptr_ a with
    | nullptr => alloc_bytes_remaining_ a = 0
    | Ptr b o =>
        blocks_ a !! b = Some kBlockSize /\ 0 <= o
        /\ o + alloc_bytes_remaining_ a = kBlockSize
        /\ 0 <= alloc_bytes_remaining_ a
        /\ Forall (below b o) regions
    end
}.

Lemma disjoint_sym r1 r2 : disjoint r1 r2 -> disjoint r2 r1.
Proof.
  unfold disjoint. destruct r1 as [[|b1 o1] n1], r2 as [[|b2 o2] n2]; simpl; auto.
  intros [H|[H|H]]; auto.
Qed.

Lemma pairwise_disjoint_snoc l r :
  pairwise_disjoint l -> Forall (fun x => disjoint x r) l ->
  pairwise_disjoint (l ++ [r]).
Proof.
  induction l as [|x l IH]; intros Hp Hr; cbn [app pairwise_disjoint].
  - split; [constructor|exact I].
  - destruct Hp as [Hx Hp]. apply Forall_cons in Hr as [Hxr Hr].
    split; [|exact (IH Hp Hr)].
    apply Forall_app. split; [exact Hx|]. constructor; [exact Hxr|constructor].
Qed.

Lemma region_in_grow a a' r more :
  blocks_ a' = blocks_ a ++ more -> region_in a r -> region_in a' r.
Proof.
  intros Hb. unfold region_in. destruct (r.1) as [|b o]; [auto|].
  intros (sz & Hsz & Ho). exists sz. split; [|exact Ho].
  rewrite Hb. apply lookup_app_l_Some. exact Hsz.
Qed.

(** A region of a new block shares nothing with the regions there are. *)
Lemma new_block_disjoint a regions o n :
  Forall (region_in a) regions ->
  Forall (fun x => disjoint x (Ptr (length (blocks_ a)) o, n)) regions.
Proof.
  intros Hin. eapply Forall_impl; [exact Hin|].
  intros [[|b o'] n'] Hr; unfold region_in, disjoint in *; simpl in *; [contradiction|].
  destruct Hr as (sz & Hsz & _). left.
  apply lookup_lt_Some in Hsz. lia.
Qed.

Lemma new_block_below a regions o :
  Forall (region_in a) regions -> Forall (below (length (blocks_ a)) o) regions.
Proof.
  intros Hin. eapply Forall_impl; [exact Hin|].
  intros [[|b o'] n'] Hr; unfold region_in, below in *; simpl in *; [auto|].
  destruct Hr as (sz & Hsz & _). intros ->.
  apply lookup_lt_Some in Hsz. lia.
Qed.

(** [AllocateFallback] keeps the invariant, with the region it returns. *)
Lemma AllocateFallback_inv regions a bytes :
  arena_inv regions a -> 0 < bytes ->
  arena_inv (regions ++ [((AllocateFallback bytes a).1, bytes)])
            (AllocateFallback bytes a).2.
Proof.
  intros [Hin Hdis Hcur] Hb. unfold AllocateFallback.
  destruct (Z.ltb_spec (kBlockSize / 4) bytes) as [Hbig|Hsmall];
    unfold AllocateNewBlock; cbn [fst snd].
  - constructor; cbn [alloc_ptr_ alloc_bytes_remaining_ blocks_].
    + apply Forall_app. split.
      * eapply Forall_impl; [exact Hin|]. intros r. apply (region_in_grow a _ r [bytes]).
        reflexivity.
      * constructor; [|constructor]. unfold region_in. cbn [fst snd blocks_].
        exists bytes. split; [|lia]. apply list_lookup_middle. reflexivity.
    + apply pairwise_disjoint_snoc; [exact Hdis|]. apply new_block_disjoint. exact Hin.
    + destruct (alloc_ptr_ a) as [|b o]; [exact Hcur|].
      destruct Hcur as (Hsz & Ho & Hsum & Hrem & Hbelow).
      split; [apply lookup_app_l_Some; exact Hsz|]. split; [exact Ho|].
      split; [exact Hsum|]. split; [exact Hrem|].
      apply Forall_app. split; [exact Hbelow|]. constructor; [|constructor].
      unfold below. cbn [fst snd]. intros Heq.
      apply lookup_lt_Some in Hsz. lia.
  - change (kBlockSize / 4) with 1024 in Hsmall. unfold kBlockSize in *.
    constructor; cbn [alloc_ptr_ alloc_bytes_remaining_ blocks_ ptr_add].
    + apply Forall_app. split.
      * eapply Forall_impl; [exact Hin|]. intros r. apply (region_in_grow a _ r [4096]).
        reflexivity.
      * constructor; [|constructor]. unfold region_in. cbn [fst snd blocks_].
        exists 4096. split; [|lia]. apply list_lookup_middle. reflexivity.
    + apply pairwise_disjoint_snoc; [exact Hdis|]. apply new_block_disjoint. exact Hin.
    + unfold kBlockSize.
      split; [apply list_lookup_middle; reflexivity|]. split; [lia|].
      split; [lia|]. split; [lia|].
      apply Forall_app. split; [apply new_block_below; exact Hin|].
      constructor; [|constructor]. unfold below. cbn [fst snd]. lia.
Qed.

(** Carving [slop + bytes] bytes, the last [bytes] of which are handed
    out, from the current block. *)
Lemma bump_inv regions a b o slop bytes o1 o2 rem' :
  arena_inv regions a -> alloc_ptr_ a = Ptr b o ->
  0 <= slop -> 0 < bytes -> slop + bytes <= alloc_bytes_remaining_ a ->
  o1 = o + slop -> o2 = o + slop + bytes ->
  rem' = alloc_bytes_remaining_ a - (slop + bytes) ->
  arena_inv (regions ++ [(Ptr b o1, bytes)])
    {| alloc_ptr_ := Ptr b o2;
       alloc_bytes_remaining_ := rem';
       blocks_ := blocks_ a;
       memory_usage_ := memory_usage_ a |}.
Proof.
  intros [Hin Hdis Hcur] Hp Hs Hb Hfit -> -> ->.
  rewrite Hp in Hcur.
  destruct Hcur as (Hsz & Ho & Hsum & Hrem & Hbelow).
  constructor; cbn [alloc_ptr_ alloc_bytes_remaining_ blocks_ ptr_add].
  - apply Forall_app. split; [exact Hin|]. constructor; [|constructor].
    unfold region_in. cbn [fst snd]. exists kBlockSize. split; [exact Hsz|]. lia.
  - apply pairwise_disjoint_snoc; [exact Hdis|].
    assert (Hboth : Forall (fun r => region_in a r /\ below b o r) regions)
      by (apply Forall_and; split; assumption).
    eapply Forall_impl; [exact Hboth|].
    intros [[|b' o'] n']; unfold region_in, below, disjoint; cbn [fst snd];
      [tauto|].
    intros [_ Hbl]. destruct (decide (b' = b)) as [->|Hne]; [|left; exact Hne].
    right. left. specialize (Hbl eq_refl). lia.
  - split; [exact Hsz|]. split; [lia|]. split; [lia|]. split; [lia|].
    apply Forall_app. split.
    + eapply Forall_impl; [exact Hbelow|].
      intros [[|b' o'] n']; unfold below; cbn [fst snd]; [auto|].
      intros Hbl Heq. specialize (Hbl Heq). lia.
    + constructor; [|constructor]. unfold below. cbn [fst snd]. lia.
Qed.

Lemma Allocate_inv regions a bytes :
  arena_inv regions a -> 0 < bytes ->
  exists p a', Allocate bytes a = Some (p, a')
               /\ arena_inv (regions ++ [(p, bytes)]) a'.
Proof.
  intros Hinv Hb. unfold Allocate.
  destruct (Z.leb_spec bytes 0); [lia|].
  destruct (Z.leb_spec bytes (alloc_bytes_remaining_ a)) as [Hfit|Hnofit].
  - eexists _, _. split; [reflexivity|].
    destruct (alloc_ptr_ a) as [|b o] eqn:Hp.
    + pose proof (inv_current _ _ Hinv) as Hcur. rewrite Hp in Hcur. lia.
    + cbn [ptr_add]. apply (bump_inv regions a b o 0 bytes); auto; lia.
  - eexists _, _. split; [apply f_equal, surjective_pairing|].
    apply AllocateFallback_inv; assumption.
Qed.

Section WithBase.

Variable base : nat -> Z.

(** [new char[n]] returns memory aligned for any object: the blocks start
    at multiples of 8. *)
Hypothesis base_aligned : forall b, base b mod 8 = 0.

Lemma land_align x : Z.land (wrap64 x) (align - 1) = x mod 8.
Proof.
  change (align - 1) with (Z.ones 3). rewrite Z.land_ones by lia.
  unfold wrap64. change (2 ^ 64) with (2 ^ 3 * 2 ^ 61).
  rewrite Z.rem_mul_r by lia.
  change (2 ^ 3) with 8.
  rewrite Z.mul_comm, Z_mod_plus_full. apply Z.mod_mod. lia.
Qed.

Lemma address_mod p :
  Z.land (address base p) (align - 1)
  = match p with nullptr => 0 | Ptr b o => o mod 8 end.
Proof.
  destruct p as [|b o]; [reflexivity|]. unfold address. rewrite land_align.
  rewrite Z.add_mod, base_aligned by lia. rewrite Z.add_0_l. apply Z.mod_mod. lia.
Qed.

(** The bytes [AllocateAligned] skips to reach a multiple of 8. *)
Definition slop_of (a : Arena) : Z :=
  match alloc_ptr_ a with
  | nullptr => 0
  | Ptr b o => if o mod 8 =? 0 then 0 else 8 - o mod 8
  end.

Lemma AllocateFallback_aligned bytes a :
  Z.land (address base (AllocateFallback bytes a).1) (align - 1) = 0.
Proof.
  rewrite address_mod. unfold AllocateFallback, AllocateNewBlock.
  destruct (kBlockSize / 4 <? bytes); reflexivity.
Qed.

Lemma address_aligned b o : o mod 8 = 0 -> address base (Ptr b o) mod 8 = 0.
Proof.
  intros Ho. unfold address, wrap64. change (2 ^ 64) with (2 ^ 3 * 2 ^ 61).
  rewrite Z.rem_mul_r by lia. change (2 ^ 3) with 8.
  rewrite Z.mul_comm, Z_mod_plus_full, Z.mod_mod by lia.
  rewrite Z.add_mod, base_aligned, Ho by lia. reflexivity.
Qed.

Lemma AllocateFallback_ptr bytes a :
  (AllocateFallback bytes a).1 = Ptr (length (blocks_ a)) 0.
Proof.
  unfold AllocateFallback, AllocateNewBlock.
  destruct (kBlockSize / 4 <? bytes); reflexivity.
Qed.

Lemma AllocateAligned_inv regions a bytes :
  arena_inv regions a -> 0 < bytes < 2 ^ 63 ->
  exists p a', AllocateAligned base bytes a = Some (p, a')
               /\ arena_inv (regions ++ [(p, bytes)]) a'
               /\ p <> nullptr /\ address base p mod 8 = 0.
Proof.
  intros Hinv Hb. unfold AllocateAligned. rewrite address_mod.
  pose proof (inv_current _ _ Hinv) as Hcur.
  destruct (alloc_ptr_ a) as [|b o] eqn:Hp; cbv zeta.
  - (* no current block *)
    cbn [Z.eqb]. rewrite Z.add_0_r, wrap64_small by lia. rewrite Hcur.
    destruct (Z.leb_spec bytes 0); [lia|].
    rewrite (surjective_pairing (AllocateFallback bytes a)).
    rewrite AllocateFallback_aligned. cbn [Z.eqb].
    eexists _, _. split; [reflexivity|]. split; [|split].
    + apply AllocateFallback_inv; [assumption|lia].
    + rewrite AllocateFallback_ptr. discriminate.
    + rewrite AllocateFallback_ptr. apply address_aligned. reflexivity.
  - destruct Hcur as (Hsz & Ho & Hsum & Hrem & Hbelow).
    pose proof (Z.mod_pos_bound o 8 ltac:(lia)) as Hm.
    change align with 8.
    set (slop := if o mod 8 =? 0 then 0 else 8 - o mod 8).
    assert (Hslop : 0 <= slop < 8 /\ (o + slop) mod 8 = 0).
    { unfold slop. destruct (Z.eqb_spec (o mod 8) 0) as [H0|Hn0].
      - rewrite Z.add_0_r. lia.
      - split; [lia|]. replace (o + (8 - o mod 8)) with (o - o mod 8 + 1 * 8) by lia.
        rewrite Z_mod_plus_full. rewrite Zminus_mod, Z.mod_mod, Z.sub_diag by lia.
        reflexivity. }
    destruct Hslop as [Hs Hal].
    rewrite (wrap64_small (bytes + slop)) by lia.
    destruct (Z.leb_spec (bytes + slop) (alloc_bytes_remaining_ a)) as [Hfit|Hnofit].
    + change (8 - 1) with (align - 1). rewrite address_mod. cbn [ptr_add].
      rewrite Hal. cbn [Z.eqb].
      eexists _, _. split; [reflexivity|]. split; [|split].
      * apply (bump_inv regions a b o slop bytes); auto; lia.
      * discriminate.
      * apply address_aligned. exact Hal.
    + rewrite (surjective_pairing (AllocateFallback bytes a)).
      change (8 - 1) with (align - 1).
      rewrite AllocateFallback_aligned. cbn [Z.eqb].
      eexists _, _. split; [reflexivity|]. split; [|split].
      * apply AllocateFallback_inv; [assumption|lia].
      * rewrite AllocateFallback_ptr. discriminate.
      * rewrite AllocateFallback_ptr. apply address_aligned. reflexivity.
Qed.

(** A request the arena can serve: a positive size (zero-byte allocations
    are refused by [Allocate]) that leaves room for the alignment slop. *)
Definition servable (r : request) : Prop := 0 < request_bytes r < 2 ^ 63.

(** The pointer handed out for an aligned request is a multiple of 8. *)
Definition answers (r : request) (reg : ptr * Z) : Prop :=
  reg.2 = request_bytes r
  /\ match r with
     | Plain _ => True
     | Aligned _ => address base reg.1 mod 8 = 0
     end.

Lemma serve_inv regions a r :
  arena_inv regions a -> servable r ->
  exists p a', serve base r a = Some (p, a')
               /\ arena_inv (regions ++ [(p, request_bytes r)]) a'
               /\ answers r (p, request_bytes r).
Proof.
  intros Hinv Hr. destruct r as [n|n]; unfold servable in Hr; cbn in Hr |- *.
  - destruct (Allocate_inv regions a n Hinv) as (p & a' & HA & Hinv'); [lia|].
    exists p, a'. split; [exact HA|]. split; [exact Hinv'|].
    split; [reflexivity|exact I].
  - destruct (AllocateAligned_inv regions a n Hinv Hr)
      as (p & a' & HA & Hinv' & _ & Hal).
    exists p, a'. split; [exact HA|]. split; [exact Hinv'|].
    split; [reflexivity|exact Hal].
Qed.

Lemma serve_all_inv rs : forall regions0 a,
  arena_inv regions0 a -> Forall servable rs ->
  exists regions a', serve_all base rs a = Some (regions, a')
                     /\ arena_inv (regions0 ++ regions) a'
                     /\ Forall2 answers rs regions.
Proof.
  induction rs as [|r rs IH]; intros regions0 a Hinv Hrs.
  - exists [], a. rewrite app_nil_r. split; [reflexivity|].
    split; [assumption|constructor].
  - inversion Hrs as [|? ? Hr Hrs']; subst.
    destruct (serve_inv regions0 a r Hinv Hr) as (p & a1 & Hs & Hinv1 & Hans).
    destruct (IH _ a1 Hinv1 Hrs') as (regions & a' & Hall & Hinv' & Hanss).
    exists ((p, request_bytes r) :: regions), a'.
    cbn [serve_all]. rewrite Hs, Hall. split; [reflexivity|]. split.
    + rewrite <- app_assoc in Hinv'. exact Hinv'.
    + constructor; assumption.
Qed.

Lemma new_Arena_inv : arena_inv [] new_Arena.
Proof. constructor; cbn; auto. Qed.

Lemma AllocateAligned_total bytes a :
  exists p a', AllocateAligned base bytes a = Some (p, a')
               /\ address base p mod 8 = 0.
Proof.
  assert (Hland : forall x, Z.land x (align - 1) = x mod 8).
  { intros x. change (align - 1) with (Z.ones 3). apply Z.land_ones. lia. }
  assert (Hfb : address base (AllocateFallback bytes a).1 mod 8 = 0).
  { rewrite AllocateFallback_ptr. apply address_aligned. reflexivity. }
  unfold AllocateAligned. cbv zeta.
  set (slop := if Z.land (address base (alloc_ptr_ a)) (align - 1) =? 0 then 0
               else align - Z.land (address base (alloc_ptr_ a)) (align - 1)).
  assert (Hbump : address base (ptr_add (alloc_ptr_ a) slop) mod 8 = 0).
  { unfold slop. rewrite address_mod.
    destruct (alloc_ptr_ a) as [|b o]; [reflexivity|].
    cbn [ptr_add]. apply address_aligned. change align with 8.
    pose proof (Z.mod_pos_bound o 8 ltac:(lia)) as Hm.
    destruct (Z.eqb_spec (o mod 8) 0) as [H0|Hn0].
    - rewrite Z.add_0_r. exact H0.
    - replace (o + (8 - o mod 8)) with (o - o mod 8 + 1 * 8) by lia.
      rewrite Z_mod_plus_full, Zminus_mod, Z.mod_mod, Z.sub_diag by lia.
      reflexivity. }
  destruct (wrap64 (bytes + slop) <=? alloc_bytes_remaining_ a).
  - rewrite Hland, Hbump. cbn [Z.eqb]. eexists _, _. split; [reflexivity|exact Hbump].
  - rewrite (surjective_pairing (AllocateFallback bytes a)).
    rewrite Hland, Hfb. cbn [Z.eqb]. eexists _, _. split; [reflexivity|exact Hfb].
Qed.

(** The sizes of the blocks with a pointer for each, as [MemoryUsage]
    counts them. *)
Definition blocks_bytes (l : list Z) : Z :=
  fold_right (fun sz acc => sz + sizeof_ptr + acc) 0 l.

Lemma blocks_bytes_snoc l sz :
  blocks_bytes (l ++ [sz]) = blocks_bytes l + (sz + sizeof_ptr).
Proof. induction l as [|x l IH]; cbn; [lia|]. unfold blocks_bytes in IH. rewrite IH. lia. Qed.

Definition usage_exact (a : Arena) : Prop :=
  MemoryUsage a = wrap64 (blocks_bytes (blocks_ a)).

Lemma AllocateNewBlock_usage n a :
  usage_exact a -> usage_exact (AllocateNewBlock n a).2.
Proof.
  unfold usage_exact, MemoryUsage, AllocateNewBlock. cbn [snd blocks_ memory_usage_].
  intros ->. rewrite blocks_bytes_snoc. unfold wrap64.
  rewrite Zplus_mod_idemp_l, Zplus_mod_idemp_r. reflexivity.
Qed.

Lemma AllocateFallback_usage n a :
  usage_exact a -> usage_exact (AllocateFallback n a).2.
Proof.
  intros Hu. unfold AllocateFallback.
  destruct (kBlockSize / 4 <? n); [apply AllocateNewBlock_usage; exact Hu|].
  apply (AllocateNewBlock_usage kBlockSize) in Hu. exact Hu.
Qed.

Lemma serve_usage r a p a' :
  serve base r a = Some (p, a') -> usage_exact a -> usage_exact a'.
Proof.
  destruct r as [n|n]; cbn [serve].
  - unfold Allocate. destruct (n <=? 0); [discriminate|].
    destruct (n <=? alloc_bytes_remaining_ a).
    + intros [= <- <-] Hu. exact Hu.
    + intros Heq Hu. inversion Heq as [Heq'].
      apply (AllocateFallback_usage n) in Hu. rewrite Heq' in Hu. exact Hu.
  - unfold AllocateAligned. cbv zeta.
    destruct (_ <=? alloc_bytes_remaining_ a).
    + destruct (_ =? 0); [|discriminate]. intros [= <- <-] Hu. exact Hu.
    + destruct (AllocateFallback n a) as [q a1] eqn:HF.
      destruct (_ =? 0); [|discriminate]. intros [= <- <-] Hu.
      apply (AllocateFallback_usage n) in Hu. rewrite HF in Hu. exact Hu.
Qed.

Lemma serve_all_usage rs : forall a regions a',
  serve_all base rs a = Some (regions, a') -> usage_exact a -> usage_exact a'.
Proof.
  induction rs as [|r rs IH]; intros a regions a'; cbn [serve_all].
  - intros [= <- <-] Hu. exact Hu.
  - destruct (serve base r a) as [[p a1]|] eqn:Hs; [|discriminate].
    destruct (serve_all base rs a1) as [[regs a2]|] eqn:Hall; [|discriminate].
    intros [= <- <-] Hu. eapply IH; [exact Hall|].
    eapply serve_usage; eassumption.
Qed.

End WithBase.

(** X15. If [new char[]] returns memory aligned to 8 bytes, then in every
    state of the arena and for every size [AllocateAligned] returns a
    pointer whose address is a multiple of 8: the assertion on its result
    never fails. *)
Theorem AllocateAligned_is_aligned (base : nat -> Z) (bytes : Z) (a : Arena) :
  (forall b, base b mod 8 = 0) ->
  exists p a', AllocateAligned base bytes a = Some (p, a')
               /\ address base p mod 8 = 0.
Proof. intros Hbase. apply AllocateAligned_total. exact Hbase. Qed.

Definition sample_base (b : nat) : Z := (Z.of_nat b + 1) * 65536.

Lemma sample_base_aligned b : sample_base b mod 8 = 0.
Proof.
  unfold sample_base.
  replace ((Z.of_nat b + 1) * 65536) with ((Z.of_nat b + 1) * 8192 * 8) by lia.
  apply Z_mod_mult.
Qed.

(** An arena that has served three bytes. *)
Definition three_used : Arena :=
  {| alloc_ptr_ := Ptr 0 3; alloc_bytes_remaining_ := 4093;
     blocks_ := [4096]; memory_usage_ := 4104 |}.

Lemma AllocateAligned_is_aligned_witness :
  exists p a', AllocateAligned sample_base 16 three_used = Some (p, a')
               /\ address sample_base p mod 8 = 0.
Proof.
  apply (AllocateAligned_is_aligned sample_base 16 three_used).
  exact sample_base_aligned.
Defined.

(** With a block that starts off a multiple of 8 the assertion fails. *)
Example AllocateAligned_unaligned_block :
  AllocateAligned (fun _ => 4) 16 new_Arena = None.
Proof. reflexivity. Qed.

(** X16. The memory handed out by a new arena for any sequence of
    [Allocate] and [AllocateAligned] requests of positive size (below
    2^63), where [new char[]] returns memory aligned to 8 bytes: whenever
    the requests are all served -- no allocation of a block fails, no
    assertion fails -- each returned region has the size asked for and
    lies inside one block of the arena, and no two of the regions share a
    byte. *)
Theorem arena_regions_disjoint (base : nat -> Z) (rs : list request)
    (regions : list (ptr * Z)) (a' : Arena) :
  (forall b, base b mod 8 = 0) -> Forall servable rs ->
  serve_all base rs new_Arena = Some (regions, a') ->
  map snd regions = map request_bytes rs
  /\ Forall (region_in a') regions
  /\ pairwise_disjoint regions.
Proof.
  intros Hbase Hrs Hserved.
  destruct (serve_all_inv base Hbase rs [] new_Arena new_Arena_inv Hrs)
    as (regions0 & a0 & Hall & Hinv & Hans).
  rewrite Hserved in Hall. injection Hall as <- <-.
  split; [|split].
  - clear -Hans. induction Hans as [|r reg rs regs [Hn _] _ IH]; [reflexivity|].
    cbn [map]. rewrite Hn, IH. reflexivity.
  - exact (inv_in _ _ Hinv).
  - exact (inv_disjoint _ _ Hinv).
Qed.

Definition sample_requests : list request :=
  [Plain 3; Aligned 16; Plain 2000; Aligned 4000; Plain 1; Aligned 90; Plain 4000].

Lemma sample_requests_servable : Forall servable sample_requests.
Proof. repeat constructor. Qed.

(** The regions the sample requests are served with. *)
Definition sample_regions : list (ptr * Z) :=
  [(Ptr 0 0, 3); (Ptr 0 8, 16); (Ptr 0 24, 2000); (Ptr 1 0, 4000);
   (Ptr 0 2024, 1); (Ptr 0 2032, 90); (Ptr 2 0, 4000)].

Definition sample_arena : Arena :=
  default new_Arena (snd <$> serve_all sample_base sample_requests new_Arena).

Lemma arena_regions_disjoint_witness :
  serve_all sample_base sample_requests new_Arena = Some (sample_regions, sample_arena)
  /\ map snd sample_regions = map request_bytes sample_requests
  /\ Forall (region_in sample_arena) sample_regions
  /\ pairwise_disjoint sample_regions.
Proof.
  split; [reflexivity|].
  apply (arena_regions_disjoint sample_base sample_requests sample_regions sample_arena).
  - exact sample_base_aligned.
  - exact sample_requests_servable.
  - reflexivity.
Defined.

(** The blocks of the arena after the sample requests: one of the
    standard size and one for each of the two large requests. *)
Example sample_requests_served :
  blocks_ sample_arena = [4096; 4000; 4000].
Proof. reflexivity. Qed.

(** X17. [MemoryUsage] of an arena that has served any sequence of
    requests is the total size of its blocks plus the size of a pointer
    for each block, modulo 2^64. *)
Theorem MemoryUsage_counts_blocks (base : nat -> Z) (rs : list request)
    (regions : list (ptr * Z)) (a : Arena) :
  serve_all base rs new_Arena = Some (regions, a) ->
  MemoryUsage a = wrap64 (blocks_bytes (blocks_ a)).
Proof.
  intros Hall. eapply serve_all_usage; [exact Hall|]. reflexivity.
Qed.

Lemma MemoryUsage_counts_blocks_witness :
  exists regions a,
    serve_all sample_base sample_requests new_Arena = Some (regions, a)
    /\ MemoryUsage a = wrap64 (blocks_bytes (blocks_ a)).
Proof.
  eexists _, _. split; [reflexivity|].
  apply (MemoryUsage_counts_blocks sample_base sample_requests _ _ eq_refl).
Defined.

Example sample_requests_usage :
  MemoryUsage <$> (snd <$> serve_all sample_base sample_requests new_Arena)
  = Some (4096 + 4000 + 4000 + 3 * 8).
Proof. reflexivity. Qed.

End ArenaProofs.

(** *** db/table_cache.cc : what stays in the cache *)

Module TableCacheMore.
Import LRU ShardedLRU TableCache.

Section WithEnv.

Variable Hash : Slice -> Z -> Z.
Variable EncodeFixed64 : Z -> Slice.
Context {World RandomAccessFile Table Options : Type}.
Variable delete_RandomAccessFile : RandomAccessFile -> World -> World.

(** [delete table] runs the destructor of [Table], of table/table.cc,
    which is not among the sources. *)
Variable delete_Table : Table -> World -> World.

#[local] Abbreviation TableCache := (@TableCache World RandomAccessFile Table Options).

(** [delete tf->table;] on a pointer that may be null. *)
Definition delete_table (tb : option Table) (w : World) : World :=
  match tb with
  | Some tb => delete_Table tb w
  | None => w
  end.

(** [static void DeleteEntry(const Slice& key, void* value)]: the table
    and the file are deleted, then the [TableAndFile] itself.  [None]:
    [value] is not the address of a [TableAndFile]. *)
Definition DeleteEntry (key : Slice) (value : Z) (t : TableCache) : option TableCache :=
  match value with
  | Z.pos tf =>
      x ← objects t !! tf;
      let w := delete_table (table x) (env_ t) in
      let w := delete_file delete_RandomAccessFile (file x) w in
      Some (set_objects (delete tf (objects t)) (set_env w t))
  | _ => None
  end.

(** A call of the deleter of an entry, with its key and value, in the
    cache of tables, whose entries are inserted with [&DeleteEntry].
    [None]: the deleter is another function. *)
Definition call_deleter (call : Z * Slice * Z) (t : TableCache) : option TableCache :=
  let '(d, key, value) := call in
  if d =? addr_DeleteEntry then DeleteEntry key value t else None.

Fixpoint call_deleters (calls : list (Z * Slice * Z)) (t : TableCache)
  : option TableCache :=
  match calls with
  | [] => Some t
  | call :: calls => t ← call_deleter call t; call_deleters calls t
  end.

(** The calls of deleters that have taken the shard [i] from its state in
    [c] to its state in [c']. *)
Definition deleter_calls (i : nat) (c c' : ShardedLRUCache) : list (Z * Slice * Z) :=
  match shard_ c !! i, shard_ c' !! i with
  | Some s, Some s' => drop (length (deleted s)) (deleted s')
  | _, _ => []
  end.

(** [void TableCache::Evict(uint64_t file_number)]: [Erase] on the cache,
    with the calls of [DeleteEntry] it makes. *)
Definition Evict (file_number : Z) (t : TableCache) : option TableCache :=
  let key := EncodeFixed64 file_number in
  c ← Erase Hash key (cache_ t);
  call_deleters (deleter_calls (Shard (HashSlice Hash key)) (cache_ t) c)
                (set_cache c t).

(** The entry the cache holds for a file number. *)
Definition cached_entry (file_number : Z) (t : TableCache) : option LRUHandle :=
  let key := EncodeFixed64 file_number in
  s ← shard_ (cache_ t) !! Shard (HashSlice Hash key);
  e ← table_ s !! (HashSlice Hash key, key);
  heap s !! e.


End WithEnv.

End TableCacheMore.

Module TableCacheFacts.
Import LRU ShardedLRU TableCache TableCacheProofs TableCacheMore.

(** A shard that caches, in a state the operations keep it in. *)
Definition caching (s : LRUCache) : Prop := shard_ok s /\ 0 < capacity_ s.

Section WithEnv.

Variable Hash : Slice -> Z -> Z.
Variable EncodeFixed64 : Z -> Slice.
Context {World RandomAccessFile Table Options : Type}.
Variable NewRandomAccessFile :
  string -> World -> Status * option RandomAccessFile * World.
Variable Table_Open :
  Options -> option RandomAccessFile -> Z -> World -> Status * option Table * World.
Variable delete_RandomAccessFile : RandomAccessFile -> World -> World.
Variable delete_Table : Table -> World -> World.

#[local] Abbreviation TableCache := (@TableCache World RandomAccessFile Table Options).
#[local] Abbreviation Evict :=
  (Evict Hash EncodeFixed64 delete_RandomAccessFile delete_Table).
#[local] Abbreviation OpenTableFile :=
  (OpenTableFile NewRandomAccessFile Table_Open).
#[local] Abbreviation FindTable :=
  (FindTable Hash EncodeFixed64 NewRandomAccessFile Table_Open
     delete_RandomAccessFile).
#[local] Abbreviation delete_file := (delete_file delete_RandomAccessFile).

Lemma shard_lookup_set i s s' c :
  shard_ c !! i = Some s -> shard_ (set_shard i s' c) !! i = Some s'.
Proof.
  intros Hs. unfold set_shard. cbn [shard_].
  apply list_lookup_insert_eq. eapply lookup_lt_Some. exact Hs.
Qed.

Lemma caching_set i s' c :
  Forall caching (shard_ c) -> caching s' ->
  Forall caching (shard_ (set_shard i s' c)).
Proof.
  intros Hall Hs'. unfold set_shard. cbn [shard_].
  apply Forall_insert; assumption.
Qed.

(** [Insert] into the sharded cache, then [Lookup] of the same key. *)
Lemma sharded_Insert_Lookup k v ch d c :
  is_Some (shard_ c !! Shard (HashSlice Hash k)) ->
  Forall caching (shard_ c) ->
  exists h c1 c2,
    Insert Hash k v ch d c = Some (h, c1)
    /\ Value h c1 = Some v
    /\ Forall caching (shard_ c1)
    /\ Lookup Hash k c1 = Some (Some h, c2)
    /\ Value h c2 = Some v
    /\ Forall caching (shard_ c2).
Proof.
  intros [s Hs] Hall.
  assert (Hok : caching s).
  { rewrite Forall_forall in Hall. apply Hall. apply list_elem_of_lookup. eauto. }
  destruct Hok as [Hok Hcap].
  destruct (LRUFacts.Insert_spec k (HashSlice Hash k) v ch d s Hok Hcap)
    as (e & s1 & j & HI & Hok1 & _ & He & Ht & Hcap1 & _).
  destruct Hok1 as [Hc1 (n1 & Hn1 & Hr1)].
  assert (Hch : LRUProofs.cached s1 e (LRUFacts.inserted k (HashSlice Hash k) v ch d))
    by (split; [exact He|reflexivity]).
  destruct (Ref e s1) as [s2|] eqn:HR;
    [|unfold Ref in HR; rewrite He in HR; discriminate].
  assert (Hc2 : LRUProofs.consistent None s2).
  { apply (LRUProofs.Ref_consistent s1 e _ s2 Hc1 Hch); [|exact HR].
    cbn. lia. }
  assert (Hr2 : LRUProofs.refs_range (Z.max n1 3) s2).
  { unfold Ref in HR. rewrite He in HR. cbn [mbind option_bind] in HR.
    intros x hx Hx.
    assert (Hheap : heap s2 = <[e := with_refs 3 (LRUFacts.inserted k (HashSlice Hash k) v ch d)]> (heap s1)).
    { cbn in HR. injection HR as <-. reflexivity. }
    rewrite Hheap in Hx. destruct (decide (x = e)) as [->|Hne].
    - rewrite lookup_insert_eq in Hx. injection Hx as <-. cbn. lia.
    - rewrite lookup_insert_ne in Hx by congruence.
      specialize (Hr1 x hx Hx). lia. }
  assert (Hcap2 : capacity_ s2 = capacity_ s1).
  { unfold Ref in HR. rewrite He in HR. cbn in HR. injection HR as <-. reflexivity. }
  exists (Shard (HashSlice Hash k), e), (set_shard (Shard (HashSlice Hash k)) s1 c),
    (set_shard (Shard (HashSlice Hash k)) s2 (set_shard (Shard (HashSlice Hash k)) s1 c)).
  split; [unfold Insert; cbv zeta; rewrite Hs; cbn [mbind option_bind]; rewrite HI; reflexivity|].
  split.
  { unfold Value, deref. cbn [fst snd].
    rewrite (shard_lookup_set _ _ _ _ Hs). cbn [mbind option_bind].
    rewrite He. reflexivity. }
  split.
  { apply caching_set; [exact Hall|]. split; [|lia].
    split; [exact Hc1|]. exists n1. auto. }
  split.
  { unfold Lookup. cbv zeta. rewrite (shard_lookup_set _ _ _ _ Hs).
    cbn [mbind option_bind]. unfold LRU.Lookup, table_Lookup. rewrite Ht, HR.
    reflexivity. }
  split.
  { unfold Value, deref. cbn [fst snd].
    rewrite (shard_lookup_set _ s1 _ _ (shard_lookup_set _ _ s1 _ Hs)).
    cbn [mbind option_bind]. unfold Ref in HR. rewrite He in HR.
    cbn in HR. injection HR as <-. cbn. rewrite lookup_insert_eq. reflexivity. }
  apply caching_set; [apply caching_set; [exact Hall|]|].
  - split; [|lia]. split; [exact Hc1|]. exists n1. auto.
  - split; [|lia]. split; [exact Hc2|]. exists (Z.max n1 3). split; [lia|exact Hr2].
Qed.


(** [Erase] from the sharded cache, then [Lookup] of the same key; the
    deleter is called where no client holds the entry. *)
Lemma sharded_Erase_Lookup k c s :
  shard_ c !! Shard (HashSlice Hash k) = Some s ->
  Forall caching (shard_ c) ->
  exists c',
    Erase Hash k c = Some c'
    /\ Forall caching (shard_ c')
    /\ Lookup Hash k c' = Some (None, c')
    /\ deleter_calls (Shard (HashSlice Hash k)) c c'
       = LRUFacts.Erase_calls k (HashSlice Hash k) s.
Proof.
  intros Hs Hall.
  assert (Hok : caching s).
  { rewrite Forall_forall in Hall. apply Hall. apply list_elem_of_lookup. eauto. }
  destruct Hok as [Hok Hcap].
  destruct (LRUFacts.Erase_spec k (HashSlice Hash k) s Hok)
    as (s' & HE & Hok' & Hcap' & Ht).
  exists (set_shard (Shard (HashSlice Hash k)) s' c).
  split; [unfold Erase; cbv zeta; rewrite Hs; cbn [mbind option_bind];
          rewrite HE; reflexivity|].
  split; [apply caching_set; [exact Hall|]; split; [exact Hok'|lia]|].
  split.
  - unfold Lookup. cbv zeta. rewrite (shard_lookup_set _ _ _ _ Hs).
    cbn [mbind option_bind]. unfold LRU.Lookup, table_Lookup.
    rewrite Ht, lookup_delete_eq.
    rewrite set_shard_id; [reflexivity|]. apply (shard_lookup_set _ _ _ _ Hs).
  - unfold deleter_calls. rewrite Hs, (shard_lookup_set _ _ _ _ Hs).
    rewrite (LRUFacts.Erase_deleted _ _ _ _ Hok HE). apply drop_app_length.
Qed.

(** X19.  After [Evict] of a file number the table is no longer served
    from the cache, whether it was cached or not.  Where the cache holds
    an entry for it that no client holds (one reference, the cache's),
    an entry as [FindTable] makes them (its deleter is [DeleteEntry], its
    value the address of a [TableAndFile]), [DeleteEntry] runs: the table
    and the file are deleted, in this order, and the [TableAndFile] is
    freed.  Where a client holds the entry, or the cache has none, the
    world and the [TableAndFile] structures are as before.  In each case
    the next [FindTable] opens the file again, so that it returns the
    error of the environment when the file can no longer be opened. *)
Theorem Evict_then_FindTable (t : TableCache) n :
  is_Some (shard_ (cache_ t) !! Shard (HashSlice Hash (EncodeFixed64 n))) ->
  Forall caching (shard_ (cache_ t)) ->
  (forall h, cached_entry Hash EncodeFixed64 n t = Some h -> refs h = 1 ->
             deleter h = addr_DeleteEntry
             /\ exists tf, value h = Z.pos tf /\ is_Some (objects t !! tf)) ->
  exists t',
    Evict n t = Some t'
    /\ Lookup Hash (EncodeFixed64 n) (cache_ t') = Some (None, cache_ t')
    /\ match cached_entry Hash EncodeFixed64 n t with
       | Some h =>
           if refs h =? 1 then
             exists tf x,
               value h = Z.pos tf /\ objects t !! tf = Some x
               /\ objects t' = delete tf (objects t)
               /\ env_ t' = delete_file (file x)
                              (delete_table delete_Table (table x) (env_ t))
           else env_ t' = env_ t /\ objects t' = objects t
       | None => env_ t' = env_ t /\ objects t' = objects t
       end
    /\ forall w2 size s f w,
         OpenTableFile n size (set_env w2 t') = Some (s, f, None, w) ->
         Status_ok s = false ->
         FindTable n size (set_env w2 t')
         = Some (s, None, set_env (delete_file f w) (set_env w2 t')).
Proof.
  intros [sh Hsh] Hall Hentry.
  destruct (sharded_Erase_Lookup (EncodeFixed64 n) (cache_ t) sh Hsh Hall)
    as (c' & HE & _ & HL & Hcalls).
  assert (Hc : cached_entry Hash EncodeFixed64 n t
               = table_ sh !! (HashSlice Hash (EncodeFixed64 n), EncodeFixed64 n)
                 ≫= (heap sh !!.)).
  { unfold cached_entry. cbv zeta. rewrite Hsh. reflexivity. }
  assert (Hmiss : forall t' : TableCache,
            cache_ t' = c' ->
            forall w2 size s f w,
              OpenTableFile n size (set_env w2 t') = Some (s, f, None, w) ->
              Status_ok s = false ->
              FindTable n size (set_env w2 t')
              = Some (s, None, set_env (delete_file f w) (set_env w2 t'))).
  { intros t' Ht' w2 size s f w Hopen Hs.
    apply (FindTable_miss_error Hash EncodeFixed64 NewRandomAccessFile Table_Open
             delete_RandomAccessFile);
      [|exact Hopen|exact Hs].
    cbn [cache_ set_cache set_env]. rewrite Ht', HL. reflexivity. }
  unfold TableCacheMore.Evict. cbv zeta. rewrite HE. cbn [mbind option_bind].
  rewrite Hcalls. unfold LRUFacts.Erase_calls. rewrite <- Hc.
  destruct (cached_entry Hash EncodeFixed64 n t) as [h|] eqn:Hce.
  - destruct (Z.eqb_spec (refs h) 1) as [H1|H1].
    + destruct (Hentry h eq_refl H1) as (Hd & tf & Hv & [x Hx]).
      cbn [call_deleters call_deleter]. rewrite Hd, Z.eqb_refl.
      unfold DeleteEntry. rewrite Hv. cbn [objects set_cache].
      rewrite Hx. cbn [mbind option_bind call_deleters].
      eexists. split; [reflexivity|].
      split; [exact HL|].
      split; [exists tf, x; repeat split; assumption|].
      apply Hmiss. reflexivity.
    + cbn [call_deleters]. eexists. split; [reflexivity|].
      split; [exact HL|]. split; [split; reflexivity|].
      apply Hmiss. reflexivity.
  - cbn [call_deleters]. eexists. split; [reflexivity|].
    split; [exact HL|]. split; [split; reflexivity|].
    apply Hmiss. reflexivity.
Qed.

End WithEnv.

Lemma NewLRUCache_caching capacity :
  0 < capacity < 2 ^ 63 -> Forall caching (shard_ (NewLRUCache capacity)).
Proof.
  intros Hcap. apply Forall_replicate. split; [apply new_LRUCache_ok|].
  cbn [capacity_ new_LRUCache]. unfold wrap64.
  change (kNumShards - 1) with 15. change kNumShards with 16.
  rewrite Z.mod_small by lia.
  apply Z.div_str_pos. lia.
Qed.

(** The file of table 5 is there. *)
Definition mem_TableCache5 : @TableCache.TableCache (list string) string string unit :=
  new_TableCache "db" tt 990 ["db/000005.ldb"].


(** The table cache once table 5 has been found. *)
Definition mem_TableCache5_found : @TableCache.TableCache (list string) string string unit :=
  match mem_FindTable 5 100 mem_TableCache5 with
  | Some (_, _, t) => t
  | None => mem_TableCache5
  end.

Lemma mem_TableCache5_found_caching :
  Forall caching (shard_ (cache_ mem_TableCache5_found)).
Proof.
  destruct (sharded_Insert_Lookup mem_Hash (mem_EncodeFixed64 5) 1 1 addr_DeleteEntry
              (cache_ mem_TableCache5)) as (h & c1 & c2 & HI & _ & Hall & _).
  - vm_compute. eauto.
  - apply NewLRUCache_caching. lia.
  - replace (cache_ mem_TableCache5_found) with c1; [exact Hall|].
    revert HI. vm_compute. intros [= <- <-]. reflexivity.
Qed.

(** The destructor of a table leaves the files where they are. *)
Definition mem_delete_Table (tb : string) (w : list string) : list string := w.

Definition mem_Evict :=
  @Evict mem_Hash mem_EncodeFixed64 (list string) string string unit
    mem_delete mem_delete_Table.

(** The table cache once table 5 has been found and the handle released,
    as [TableCache::Get] does. *)
Definition mem_TableCache5_idle : @TableCache.TableCache (list string) string string unit :=
  match mem_FindTable 5 100 mem_TableCache5 with
  | Some (_, Some h, t) =>
      match ShardedLRU.Release h (cache_ t) with
      | Some c => set_cache c t
      | None => t
      end
  | _ => mem_TableCache5
  end.

Lemma mem_TableCache5_idle_caching :
  Forall caching (shard_ (cache_ mem_TableCache5_idle)).
Proof.
  set (ops := [OpInsert (mem_EncodeFixed64 5) (HashSlice mem_Hash (mem_EncodeFixed64 5))
                        1 1 addr_DeleteEntry;
               OpRelease 1%positive]).
  set (s := default (new_LRUCache 62) (run ops (new_LRUCache 62) ≫= last)).
  assert (Hs : caching s).
  { split; [|vm_compute; reflexivity].
    apply (LRUFacts.reached_shard_ok 62 ops);
      [simpl; lia|vm_compute; reflexivity|vm_compute; reflexivity]. }
  replace (shard_ (cache_ mem_TableCache5_idle))
    with (shard_ (set_shard (Shard (HashSlice mem_Hash (mem_EncodeFixed64 5))) s
                    (NewLRUCache 990)))
    by (vm_compute; reflexivity).
  apply caching_set; [|exact Hs]. apply NewLRUCache_caching. lia.
Qed.

(** Table 5 is cached and no client holds it: [Evict] deletes the table,
    the file and the [TableAndFile]. *)
Lemma Evict_then_FindTable_witness :
  (exists t',
     mem_Evict 5 mem_TableCache5_idle = Some t'
     /\ Lookup mem_Hash (mem_EncodeFixed64 5) (cache_ t') = Some (None, cache_ t')
     /\ match cached_entry mem_Hash mem_EncodeFixed64 5 mem_TableCache5_idle with
        | Some h =>
            if refs h =? 1 then
              exists tf x,
                value h = Z.pos tf /\ objects mem_TableCache5_idle !! tf = Some x
                /\ objects t' = delete tf (objects mem_TableCache5_idle)
                /\ env_ t' = TableCache.delete_file mem_delete (file x)
                               (delete_table mem_delete_Table (table x)
                                  (env_ mem_TableCache5_idle))
            else env_ t' = env_ mem_TableCache5_idle
                 /\ objects t' = objects mem_TableCache5_idle
        | None => env_ t' = env_ mem_TableCache5_idle
                  /\ objects t' = objects mem_TableCache5_idle
        end
     /\ forall w2 size s f w,
          TableCache.OpenTableFile mem_NewRandomAccessFile mem_Table_Open
            5 size (set_env w2 t') = Some (s, f, None, w) ->
          Status_ok s = false ->
          mem_FindTable 5 size (set_env w2 t')
          = Some (s, None, set_env (TableCache.delete_file mem_delete f w) (set_env w2 t')))
  /\ (fun h => (refs h, deleter h, value h))
       <$> cached_entry mem_Hash mem_EncodeFixed64 5 mem_TableCache5_idle
     = Some (1, addr_DeleteEntry, 1)
  /\ objects mem_TableCache5_idle
     = {[ 1%positive := {| file := Some "db/000005.ldb";
                           table := Some "db/000005.ldb" |} ]}
  /\ objects <$> mem_Evict 5 mem_TableCache5_idle = Some ∅.
Proof.
  split; [|repeat split; vm_compute; reflexivity].
  apply (Evict_then_FindTable mem_Hash mem_EncodeFixed64 mem_NewRandomAccessFile
           mem_Table_Open mem_delete mem_delete_Table mem_TableCache5_idle 5).
  - vm_compute. eauto.
  - exact mem_TableCache5_idle_caching.
  - intros h Hh _. revert Hh. vm_compute. intros [= <-].
    split; [reflexivity|]. exists 1%positive. split; [reflexivity|]. eauto.
Defined.

(** While a client holds the handle [FindTable] returned, [Evict] takes
    the entry out of the cache and leaves the [TableAndFile] to the
    client. *)
Example Evict_held :
  (fun h => refs h) <$> cached_entry mem_Hash mem_EncodeFixed64 5 mem_TableCache5_found
  = Some 2
  /\ (fun t => (objects t, fst <$> Lookup mem_Hash (mem_EncodeFixed64 5) (cache_ t)))
       <$> mem_Evict 5 mem_TableCache5_found
     = Some (objects mem_TableCache5_found, Some None).
Proof. split; vm_compute; reflexivity. Qed.

(** Table 5 is found, evicted, and its file removed: the next call
    reports that the file cannot be opened. *)
Example FindTable_after_Evict :
  (mem_Evict 5 mem_TableCache5_found ≫= fun t =>
   outcome (mem_FindTable 5 100 (set_env [] t)))
  = Some (LogReader.IOError "db/000005.ldb", false, 0%nat).
Proof. vm_compute. reflexivity. Qed.

End TableCacheFacts.

(** *** util/bloom.cc : which keys a filter matches *)

Module BloomFacts.
Import Bloom BloomProofs.

Lemma pos_split p q :
  0 <= p -> 0 <= q -> p / 8 = q / 8 -> p mod 8 = q mod 8 -> p = q.
Proof. intros. rewrite (Z.div_mod p 8), (Z.div_mod q 8) by lia. lia. Qed.

(** Setting bit [q] sets that bit only. *)
Lemma bit_at_or_byte s base p q :
  0 <= p -> 0 <= q ->
  (base + Z.to_nat (q / 8) < length s)%nat ->
  bit_at (or_byte (Z.shiftl 1 (q mod 8)) (base + Z.to_nat (q / 8)) s) base p = true
  <-> bit_at s base p = true \/ p = q.
Proof.
  intros Hp Hq Hlen. unfold bit_at, or_byte. rewrite !nth_lookup.
  pose proof (mod8_range p) as Hpm. pose proof (mod8_range q) as Hqm.
  assert (Hpd : 0 <= p / 8) by (apply Z.div_pos; lia).
  assert (Hqd : 0 <= q / 8) by (apply Z.div_pos; lia).
  destruct (decide (p / 8 = q / 8)) as [Hdiv|Hdiv].
  - rewrite Hdiv, list_lookup_alter_eq.
    destruct (lookup_lt_is_Some_2 s _ Hlen) as [b Hb].
    rewrite Hb. simpl. change 256 with (2 ^ 8).
    rewrite Z.mod_pow2_bits_low, Z.lor_spec, Z.shiftl_1_l, Z.pow2_bits_eqb by lia.
    rewrite orb_true_iff, Z.eqb_eq. split.
    + intros [H|H]; [left; exact H|right]. apply pos_split; auto.
    + intros [H|H]; [left; exact H|right]. subst. reflexivity.
  - rewrite list_lookup_alter_ne by lia.
    split; [auto|]. intros [H|H]; [exact H|]. subst. contradiction.
Qed.

Lemma set_probes_bit j bits h delta base dst p :
  0 < bits -> 0 <= p ->
  (base + Z.to_nat ((bits - 1) / 8) < length dst)%nat ->
  bit_at (set_probes j bits h delta base dst) base p = true
  <-> bit_at dst base p = true \/ p ∈ probe_positions j bits h delta.
Proof.
  intros Hbits Hp. revert h dst.
  induction j as [|j IH]; intros h dst Hlen; simpl.
  - split; [auto|]. intros [H|H]; [exact H|inversion H].
  - assert (Hq : 0 <= wrap32 (h mod bits) < bits).
    { apply (probe_positions_range 1 bits h delta); [exact Hbits|].
      simpl. apply list_elem_of_here. }
    assert (wrap32 (h mod bits) / 8 <= (bits - 1) / 8) by (apply Z.div_le_mono; lia).
    assert (0 <= wrap32 (h mod bits) / 8) by (apply Z.div_pos; lia).
    rewrite IH by (unfold or_byte; rewrite length_alter; exact Hlen).
    rewrite bit_at_or_byte by lia. rewrite elem_of_cons. tauto.
Qed.

Lemma check_probes_iff j bits h delta array :
  check_probes j bits h delta array = true
  <-> forall pos, pos ∈ probe_positions j bits h delta -> bit_at array 0 pos = true.
Proof.
  split; [|apply check_probes_true].
  revert h. induction j as [|j IH]; intros h Hc pos Hpos; simpl in *.
  - inversion Hpos.
  - rewrite land_shiftl_1 in Hc by apply mod8_range.
    destruct (Z.testbit _ _) eqn:Hb; simpl in Hc; [|discriminate].
    apply elem_of_cons in Hpos as [->|Hpos]; [exact Hb|].
    exact (IH _ Hc pos Hpos).
Qed.

Section WithHash.

Variable Hash : Slice -> Z -> Z.

(** The bit positions [CreateFilter] sets, and [KeyMayMatch] tests, for a
    key in a filter of [bits] bits with [k] probes. *)
Definition key_probes (k bits : Z) (key : Slice) : list Z :=
  probe_positions (Z.to_nat k) bits (BloomHash Hash key)
                  (rotate17 (BloomHash Hash key)).

Lemma add_keys_bit keys k bits base dst p :
  0 < bits -> 0 <= p ->
  (base + Z.to_nat ((bits - 1) / 8) < length dst)%nat ->
  bit_at (add_keys Hash keys k bits base dst) base p = true
  <-> bit_at dst base p = true
      \/ exists key, key ∈ keys /\ p ∈ key_probes k bits key.
Proof.
  intros Hbits Hp. revert dst.
  induction keys as [|key0 keys IH]; intros dst Hlen; simpl.
  - split; [auto|]. intros [H|(key & Hk & _)]; [exact H|inversion Hk].
  - rewrite IH by (rewrite set_probes_length; exact Hlen).
    rewrite set_probes_bit by assumption. split.
    + intros [[H|H]|(key & Hk & Hpos)]; [left; exact H| |].
      * right. exists key0. split; [apply list_elem_of_here|exact H].
      * right. exists key. split; [apply list_elem_of_further; exact Hk|exact Hpos].
    + intros [H|(key & Hk & Hpos)]; [left; left; exact H|].
      apply elem_of_cons in Hk as [->|Hk].
      * left. right. exact Hpos.
      * right. exists key. split; assumption.
Qed.

Lemma bit_at_zero (dst : list Z) bytes tail pos :
  0 <= pos -> pos / 8 < bytes ->
  bit_at ((dst ++ repeat 0 (Z.to_nat bytes)) ++ tail) (length dst) pos = false.
Proof.
  intros Hp Hlt. unfold bit_at. rewrite nth_lookup.
  assert (0 <= pos / 8) by (apply Z.div_pos; lia).
  rewrite lookup_app_l by (rewrite length_app, repeat_length; lia).
  rewrite lookup_app_r by lia.
  replace (length dst + Z.to_nat (pos / 8) - length dst)%nat
    with (Z.to_nat (pos / 8)) by lia.
  rewrite <- nth_lookup. rewrite nth_repeat. apply Z.bits_0.
Qed.

(** X20.  What a filter matches.  For a policy of [bits_per_key >= 1] and
    an array of keys (both of type [int]), [CreateFilter] appends to [dst]
    a filter of [filter_bytes] bytes and one more that holds [k_], and
    leaves what was in [dst]; on that filter [KeyMayMatch] answers true
    for a key exactly when each of the [k_] bit positions the key probes
    is probed by one of the keys the filter was built from. *)
Theorem KeyMayMatch_exact
        (bits_per_key : Z) (keys : list Slice) (dst : list Z) (key : Slice) :
  1 <= bits_per_key < 2 ^ 31 ->
  Z.of_nat (length keys) < 2 ^ 31 ->
  exists p filter,
    NewBloomFilterPolicy bits_per_key = Some p
    /\ CreateFilter Hash p keys dst = dst ++ filter
    /\ Z.of_nat (length filter) = filter_bytes p (Z.of_nat (length keys)) + 1
    /\ last filter = Some (k_ p)
    /\ (KeyMayMatch Hash p key filter = true
        <-> forall pos,
              pos ∈ key_probes (k_ p) (8 * filter_bytes p (Z.of_nat (length keys))) key ->
              exists key', key' ∈ keys
                /\ pos ∈ key_probes (k_ p)
                           (8 * filter_bytes p (Z.of_nat (length keys))) key').
Proof.
  intros Hb Hn.
  destruct (NewBloomFilterPolicy_defined bits_per_key ltac:(lia)) as (p & Hp & _ & Hk).
  assert (Hbpk : bits_per_key_ p = bits_per_key).
  { unfold NewBloomFilterPolicy in Hp.
    destruct (probes_raw bits_per_key); [|discriminate].
    injection Hp as <-. simpl. apply wrap64_small. lia. }
  set (n := Z.of_nat (length keys)).
  pose proof (filter_bytes_range p n ltac:(lia) ltac:(lia)) as Hbytes.
  set (bytes := filter_bytes p n) in *.
  set (base := length dst).
  set (out := CreateFilter Hash p keys dst).
  assert (Hout : out = add_keys Hash keys (k_ p) (wrap64 (bytes * 8)) base
                               ((dst ++ repeat 0 (Z.to_nat bytes)) ++ [k_ p mod 256]))
    by reflexivity.
  assert (Hbits : wrap64 (bytes * 8) = 8 * bytes) by (rewrite wrap64_small; lia).
  rewrite Hbits in Hout.
  assert (Hlen : length out = (base + Z.to_nat bytes + 1)%nat).
  { rewrite Hout, add_keys_length, !length_app, repeat_length. simpl. lia. }
  assert (Htake : take base out = dst).
  { rewrite Hout, add_keys_take, <- app_assoc.
    unfold base. apply take_app_length. }
  assert (Hdiv : (8 * bytes - 1) / 8 = bytes - 1).
  { symmetry. apply Z.div_unique with (r := 7); lia. }
  assert (Hlast : out !! (base + Z.to_nat bytes)%nat = Some (k_ p mod 256)).
  { rewrite Hout, add_keys_lookup_out by (rewrite ?Hdiv; lia).
    rewrite lookup_app_r by (rewrite length_app, repeat_length; unfold base; lia).
    rewrite length_app, repeat_length.
    replace (base + Z.to_nat bytes - (length dst + Z.to_nat bytes))%nat with 0%nat
      by (unfold base; lia).
    reflexivity. }
  assert (Hksmall : k_ p mod 256 = k_ p) by (apply Z.mod_small; lia).
  assert (Hflen : Z.of_nat (length (drop base out)) = bytes + 1).
  { rewrite length_drop, Hlen. lia. }
  exists p, (drop base out). split; [exact Hp|]. split.
  { change (out = dst ++ drop base out).
    rewrite <- (take_drop base out) at 1. rewrite Htake. reflexivity. }
  split; [exact Hflen|]. split.
  { rewrite last_lookup, lookup_drop.
    replace (base + Nat.pred (length (drop base out)))%nat
      with (base + Z.to_nat bytes)%nat by lia.
    rewrite Hlast, Hksmall. reflexivity. }
  unfold KeyMayMatch. rewrite Hflen.
  destruct (Z.ltb_spec (bytes + 1) 2); [lia|].
  replace (bytes + 1 - 1) with bytes by lia. rewrite Hbits.
  rewrite nth_lookup, lookup_drop, Hlast. simpl. rewrite Hksmall.
  unfold size_t_of_char.
  destruct (Z.ltb_spec (k_ p) 128); [|lia].
  destruct (Z.ltb_spec 30 (k_ p)); [lia|].
  rewrite check_probes_iff. fold (key_probes (k_ p) (8 * bytes) key).
  assert (Hbit : forall pos, 0 <= pos < 8 * bytes ->
            (bit_at (drop base out) 0 pos = true
             <-> exists key', key' ∈ keys /\ pos ∈ key_probes (k_ p) (8 * bytes) key')).
  { intros pos Hpos.
    assert (Hshift : bit_at (drop base out) 0 pos = bit_at out base pos).
    { unfold bit_at. rewrite !nth_lookup, lookup_drop. reflexivity. }
    rewrite Hshift, Hout.
    rewrite add_keys_bit; [|lia|lia|].
    - unfold base. rewrite bit_at_zero; [|lia|].
      + split; [intros [Hf|Hex]; [discriminate|exact Hex]|auto].
      + apply Z.div_lt_upper_bound; lia.
    - rewrite Hdiv, !length_app, repeat_length. simpl. unfold base. lia. }
  split.
  - intros Hall pos Hpos. apply Hbit; [|apply Hall; exact Hpos].
    eapply probe_positions_range; [|exact Hpos]. lia.
  - intros Hall pos Hpos. apply Hbit; [|apply Hall; exact Hpos].
    eapply probe_positions_range; [|exact Hpos]. lia.
Qed.

End WithHash.

Lemma KeyMayMatch_exact_witness :
  exists p filter,
    NewBloomFilterPolicy 10 = Some p
    /\ CreateFilter sample_hash p [[104; 105]; [1; 2; 3]] [7] = [7] ++ filter
    /\ Z.of_nat (length filter) = filter_bytes p 2 + 1
    /\ last filter = Some (k_ p)
    /\ (KeyMayMatch sample_hash p [9] filter = true
        <-> forall pos,
              pos ∈ key_probes sample_hash (k_ p) (8 * filter_bytes p 2) [9] ->
              exists key', key' ∈ [[104; 105]; [1; 2; 3]]
                /\ pos ∈ key_probes sample_hash (k_ p) (8 * filter_bytes p 2) key').
Proof.
  apply (KeyMayMatch_exact sample_hash 10 [[104; 105]; [1; 2; 3]] [7] [9]);
    [lia | simpl; lia].
Defined.

(** A filter built from no key rejects a key; the filter of the two keys
    above rejects a third. *)
Example filter_samples :
  (p ← NewBloomFilterPolicy 10;
   Some (KeyMayMatch sample_hash p [104; 105] (CreateFilter sample_hash p [] []),
         KeyMayMatch sample_hash p [9]
           (CreateFilter sample_hash p [[104; 105]; [1; 2; 3]] [])))
  = Some (false, false).
Proof. vm_compute. reflexivity. Qed.

End BloomFacts.

(** *** table/merger.cc : moving in both directions *)

Module MergerFacts.
Import Merger MergerProofs.

Abbreviation entry := (Slice * Slice)%type.

(** The number of entries whose key satisfies [P]. *)
Fixpoint count (P : Slice -> bool) (es : list entry) : nat :=
  match es with
  | [] => 0
  | e :: es => ((if P e.1 then 1 else 0) + count P es)%nat
  end.

(** The index of the last of the first [n] entries; past the end when
    there is none, where [Prev] leaves an iterator. *)
Definition rpos (n : nat) (es : list entry) : nat :=
  match n with
  | O => length es
  | S n' => n'
  end.

Lemma count_le_length P es : (count P es <= length es)%nat.
Proof. induction es as [|e es IH]; simpl; [lia|]. destruct (P e.1); lia. Qed.

Lemma count_ext P Q es :
  (forall e, e ∈ es -> P e.1 = Q e.1) -> count P es = count Q es.
Proof.
  induction es as [|e es IH]; intros H; simpl; [reflexivity|].
  rewrite (H e) by apply list_elem_of_here. rewrite IH; [reflexivity|].
  intros x Hx. apply H. apply list_elem_of_further. exact Hx.
Qed.

Lemma count_app P es1 es2 : count P (es1 ++ es2) = (count P es1 + count P es2)%nat.
Proof. induction es1 as [|e es1 IH]; simpl; [reflexivity|]. rewrite IH. lia. Qed.

Lemma count_perm P es1 es2 : es1 ≡ₚ es2 -> count P es1 = count P es2.
Proof.
  induction 1 as [|x l l' _ IH|x y l|l l' l'' _ IH1 _ IH2]; simpl; try lia.
Qed.

Lemma count_none P es : Forall (fun e => P e.1 = false) es -> count P es = 0%nat.
Proof. induction 1 as [|e es He _ IH]; simpl; [reflexivity|]. rewrite He, IH. reflexivity. Qed.

Lemma count_all P es : count P es = length es -> Forall (fun e => P e.1 = true) es.
Proof.
  induction es as [|e es IH]; simpl; intros H; [constructor|].
  pose proof (count_le_length P es).
  destruct (P e.1) eqn:He; [|lia]. constructor; [exact He|]. apply IH. lia.
Qed.

Lemma count_concat_all P (ents : list (list entry)) :
  Forall (fun es => count P es = length es) ents ->
  count P (concat ents) = length (concat ents).
Proof.
  induction 1 as [|es ents Hes _ IH]; simpl; [reflexivity|].
  rewrite count_app, length_app, Hes, IH. reflexivity.
Qed.

Lemma count_concat_none P (ents : list (list entry)) :
  Forall (fun es => count P es = 0%nat) ents -> count P (concat ents) = 0%nat.
Proof.
  induction 1 as [|es ents Hes _ IH]; simpl; [reflexivity|].
  rewrite count_app, Hes, IH. reflexivity.
Qed.

Section WithComparator.

Variable Compare : Slice -> Slice -> Z.

(** The comparator is a three-way comparison of a total order. *)
Hypothesis Compare_trans :
  forall a b c, Compare a b <= 0 -> Compare b c <= 0 -> Compare a c <= 0.
Hypothesis Compare_total :
  forall a b, 0 <= Compare a b -> Compare b a <= 0.
Hypothesis Compare_sign :
  forall a b, Compare a b <= 0 -> 0 <= Compare b a.

Lemma Compare_self a : Compare a a = 0.
Proof.
  destruct (Z.le_gt_cases 0 (Compare a a)) as [H|H].
  - pose proof (Compare_total _ _ H). lia.
  - pose proof (Compare_sign a a ltac:(lia)). lia.
Qed.

Lemma lt_flip a b : Compare a b < 0 -> 0 < Compare b a.
Proof.
  intros H. pose proof (Compare_sign a b ltac:(lia)) as H1.
  destruct (Z.eq_dec (Compare b a) 0) as [H0|]; [|lia].
  pose proof (Compare_sign b a ltac:(lia)). lia.
Qed.

Lemma lt_le_trans a b c : Compare a b < 0 -> Compare b c <= 0 -> Compare a c < 0.
Proof.
  intros H1 H2. destruct (Z.le_gt_cases 0 (Compare a c)) as [H|H]; [|lia].
  pose proof (Compare_total _ _ H) as Hca.
  pose proof (Compare_trans _ _ _ H2 Hca) as Hba.
  pose proof (Compare_sign _ _ Hba). lia.
Qed.

Lemma le_lt_trans a b c : Compare a b <= 0 -> Compare b c < 0 -> Compare a c < 0.
Proof.
  intros H1 H2. destruct (Z.le_gt_cases 0 (Compare a c)) as [H|H]; [|lia].
  pose proof (Compare_total _ _ H) as Hca.
  pose proof (Compare_trans _ _ _ Hca H1) as Hcb.
  pose proof (Compare_sign _ _ Hcb). lia.
Qed.

(** Keys before [k], and keys at or before [k]. *)
Definition lt_key (k a : Slice) : bool := Compare a k <? 0.
Definition le_key (k a : Slice) : bool := Compare a k <=? 0.

(** A set of keys that holds, with a key, every key before it. *)
Definition closed (P : Slice -> bool) : Prop :=
  forall a b, P b = true -> Compare a b <= 0 -> P a = true.

Lemma closed_lt_key k : closed (lt_key k).
Proof.
  intros a b Hb Hab. unfold lt_key in *. apply Z.ltb_lt in Hb. apply Z.ltb_lt.
  eapply le_lt_trans; eassumption.
Qed.

Lemma closed_le_key k : closed (le_key k).
Proof.
  intros a b Hb Hab. unfold le_key in *. apply Z.leb_le in Hb. apply Z.leb_le.
  eapply Compare_trans; eassumption.
Qed.

(** Each entry is before the next, and no two keys compare equal. *)
Definition lt_entry (a b : entry) : Prop := Compare a.1 b.1 < 0.
Definition sorted (es : list entry) : Prop := StronglySorted lt_entry es.

Lemma sorted_lookup_lt es i j x y :
  sorted es -> es !! i = Some x -> es !! j = Some y -> (i < j)%nat -> lt_entry x y.
Proof.
  intros Hs. revert i j. induction Hs as [|e es Hs IH Hall]; intros i j Hi Hj Hlt.
  - discriminate.
  - destruct j as [|j]; [lia|]. destruct i as [|i]; simpl in *.
    + injection Hi as <-. rewrite Forall_forall in Hall. apply Hall.
      apply list_elem_of_lookup. eauto.
    + apply (IH i j); [assumption|assumption|lia].
Qed.

Lemma sorted_lookup_le es i j x y :
  sorted es -> es !! i = Some x -> es !! j = Some y -> (i <= j)%nat ->
  Compare x.1 y.1 <= 0.
Proof.
  intros Hs Hi Hj Hle. destruct (decide (i = j)) as [->|Hne].
  - rewrite Hi in Hj. injection Hj as <-. rewrite Compare_self. lia.
  - pose proof (sorted_lookup_lt es i j x y Hs Hi Hj ltac:(lia)) as H.
    unfold lt_entry in H. lia.
Qed.

(** In a sorted sequence the entries of a closed set are the first ones. *)
Lemma sorted_count P es i e :
  sorted es -> closed P -> es !! i = Some e ->
  (P e.1 = true <-> (i < count P es)%nat).
Proof.
  intros Hs HP. revert i. induction Hs as [|e0 es Hs IH Hall]; intros i Hi.
  - discriminate.
  - simpl. destruct (P e0.1) eqn:H0.
    + destruct i as [|i]; simpl in Hi.
      * injection Hi as <-. split; [lia|auto].
      * rewrite (IH i Hi). lia.
    + assert (Hnone : Forall (fun x => P x.1 = false) es).
      { eapply Forall_impl; [exact Hall|]. intros x Hx. simpl.
        destruct (P x.1) eqn:Hpx; [|reflexivity].
        unfold lt_entry in Hx. rewrite (HP e0.1 x.1 Hpx ltac:(lia)) in H0.
        discriminate. }
      rewrite (count_none P es Hnone). simpl. split; [|lia].
      destruct i as [|i]; simpl in Hi.
      * injection Hi as <-. congruence.
      * rewrite Forall_forall in Hnone. intros Hp.
        rewrite (Hnone e) in Hp; [discriminate|].
        apply list_elem_of_lookup. eauto.
Qed.

(** Where an entry is, by counting. *)
Lemma index_count es i k v :
  sorted es -> es !! i = Some (k, v) ->
  count (lt_key k) es = i /\ count (le_key k) es = S i.
Proof.
  intros Hs Hi. pose proof (lookup_lt_Some _ _ _ Hi) as Hlen. split.
  - pose proof (sorted_count _ es i _ Hs (closed_lt_key k) Hi) as Hc.
    cbn [fst] in Hc. unfold lt_key in Hc at 1. rewrite Compare_self in Hc.
    assert (Hge : ~ (i < count (lt_key k) es)%nat).
    { intros H. apply Hc in H. discriminate. }
    destruct (decide (count (lt_key k) es = i)) as [|Hne]; [assumption|].
    destruct (lookup_lt_is_Some_2 es (count (lt_key k) es)) as [e He]; [lia|].
    pose proof (sorted_count _ es _ _ Hs (closed_lt_key k) He) as Hce.
    pose proof (sorted_lookup_lt es _ i e (k, v) Hs He Hi ltac:(lia)) as Hlt.
    unfold lt_entry in Hlt. cbn [fst] in Hlt.
    assert (lt_key k e.1 = true) by (apply Z.ltb_lt; exact Hlt).
    apply Hce in H. lia.
  - pose proof (sorted_count _ es i _ Hs (closed_le_key k) Hi) as Hc.
    cbn [fst] in Hc. unfold le_key in Hc at 1. rewrite Compare_self in Hc.
    assert (Hlt : (i < count (le_key k) es)%nat) by (apply Hc; reflexivity).
    destruct (decide (count (le_key k) es = S i)) as [|Hne]; [assumption|].
    pose proof (count_le_length (le_key k) es).
    destruct (lookup_lt_is_Some_2 es (S i)) as [e He]; [lia|].
    pose proof (sorted_count _ es _ _ Hs (closed_le_key k) He) as Hce.
    assert (Hle : le_key k e.1 = true) by (apply Hce; lia).
    pose proof (sorted_lookup_lt es i (S i) (k, v) e Hs Hi He ltac:(lia)) as Hke.
    unfold lt_entry in Hke. cbn [fst] in Hke. apply lt_flip in Hke.
    unfold le_key in Hle. apply Z.leb_le in Hle. lia.
Qed.

(** [Seek] on a sorted sequence stops after the keys before the target. *)
Lemma seek_pos_count t es : sorted es -> seek_pos Compare t es = count (lt_key t) es.
Proof.
  induction 1 as [|e es Hs IH Hall]; simpl; [reflexivity|].
  unfold lt_key at 1.
  destruct (Z.leb_spec 0 (Compare e.1 t)) as [Hge|Hlt].
  - destruct (Z.ltb_spec (Compare e.1 t) 0); [lia|]. simpl.
    symmetry. apply count_none.
    eapply Forall_impl; [exact Hall|]. intros x Hx. simpl.
    unfold lt_key. apply Z.ltb_ge.
    destruct (Z.le_gt_cases 0 (Compare x.1 t)) as [|Hxt]; [assumption|].
    unfold lt_entry in Hx.
    assert (Hxt' : Compare x.1 t <= 0) by lia.
    pose proof (lt_le_trans _ _ _ Hx Hxt'). lia.
  - destruct (Z.ltb_spec (Compare e.1 t) 0); [|lia]. simpl. rewrite IH. reflexivity.
Qed.

(** What [find_largest] has found after the children of [suf], the last
    ones of [all]. *)
Definition is_max (all suf : list VecIter) (r : option (nat * VecIter)) : Prop :=
  match r with
  | None => Forall (fun c => child_Valid c = false) suf
  | Some (i, s) =>
      all !! i = Some s /\ child_Valid s = true
      /\ Forall (fun c => child_Valid c = true ->
                          Compare (child_key c) (child_key s) <= 0) suf
  end.

Lemma find_largest_is_max pre : forall suf acc,
  is_max (pre ++ suf) suf acc ->
  is_max (pre ++ suf) (pre ++ suf) (find_largest Compare (rev pre) (length pre) acc).
Proof.
  induction pre as [|c pre IH] using rev_ind; intros suf acc Hacc.
  - simpl. exact Hacc.
  - rewrite rev_app_distr, length_app. simpl rev. simpl app.
    replace (length pre + length [c])%nat with (S (length pre)) by (simpl; lia).
    cbn [find_largest].
    rewrite <- app_assoc in *. simpl app in *.
    apply IH.
    assert (Hc : (pre ++ c :: suf) !! length pre = Some c).
    { rewrite lookup_app_r by lia. rewrite Nat.sub_diag. reflexivity. }
    destruct (child_Valid c) eqn:Hv.
    + destruct acc as [[j l]|]; simpl in *.
      * destruct Hacc as (Hj & Hl & Hall).
        destruct (Z.ltb_spec 0 (Compare (child_key c) (child_key l))) as [Hgt|Hle]; simpl.
        -- split; [exact Hc|]. split; [exact Hv|].
           constructor; [intros _; rewrite Compare_self; lia|].
           eapply Forall_impl; [exact Hall|]. simpl. intros x Hx Hxv.
           apply (Compare_trans _ (child_key l)); [auto|].
           apply Compare_total. lia.
        -- split; [exact Hj|]. split; [exact Hl|].
           constructor; [intros _; exact Hle|exact Hall].
      * split; [exact Hc|]. split; [exact Hv|].
        constructor; [intros _; rewrite Compare_self; lia|].
        eapply Forall_impl; [exact Hacc|]. simpl. intros x Hx Hxv. congruence.
    + destruct acc as [[j l]|]; simpl in *.
      * destruct Hacc as (Hj & Hl & Hall). split; [exact Hj|]. split; [exact Hl|].
        constructor; [intros Hc'; congruence|exact Hall].
      * constructor; [exact Hv|exact Hacc].
Qed.

Lemma FindLargest_is_max cs :
  is_max cs cs (find_largest Compare (rev cs) (length cs) None).
Proof.
  pose proof (find_largest_is_max cs [] None) as H.
  rewrite app_nil_r in H. apply H. constructor.
Qed.

Lemma valid_entry es n :
  child_Valid {| entries := es; pos := n |} = true ->
  es !! n = Some (child_key {| entries := es; pos := n |},
                  child_value {| entries := es; pos := n |}).
Proof.
  unfold child_Valid, child_key, child_value. cbn [entries pos]. intros H.
  apply Nat.ltb_lt in H. destruct (lookup_lt_is_Some_2 es n H) as [e He].
  rewrite !nth_lookup, He. simpl. destruct e; reflexivity.
Qed.

Lemma entry_valid es n e :
  es !! n = Some e ->
  child_Valid {| entries := es; pos := n |} = true
  /\ child_key {| entries := es; pos := n |} = e.1
  /\ child_value {| entries := es; pos := n |} = e.2.
Proof.
  intros He. unfold child_Valid, child_key, child_value. cbn [entries pos].
  rewrite !nth_lookup, He. split; [|auto].
  apply Nat.ltb_lt. eapply lookup_lt_Some. exact He.
Qed.

Lemma elem_of_concat (ents : list (list entry)) e :
  e ∈ concat ents <-> exists es, es ∈ ents /\ e ∈ es.
Proof.
  induction ents as [|es0 ents IH]; simpl.
  - split; [intros H; inversion H|intros (es & H & _); inversion H].
  - rewrite elem_of_app, IH. split.
    + intros [H|(es & H1 & H2)].
      * exists es0. split; [apply list_elem_of_here|exact H].
      * exists es. split; [apply list_elem_of_further; exact H1|exact H2].
    + intros (es & H1 & H2). apply elem_of_cons in H1 as [->|H1]; [left; exact H2|].
      right. exists es. split; assumption.
Qed.

Lemma sorted_NoDup es : sorted es -> NoDup es.
Proof.
  induction 1 as [|e es Hs IH Hall]; constructor; [|exact IH].
  intros Hin. rewrite Forall_forall in Hall. specialize (Hall e Hin).
  unfold lt_entry in Hall. rewrite Compare_self in Hall. lia.
Qed.

Lemma NoDup_concat_lookup (ents : list (list entry)) i j a b x :
  NoDup (concat ents) -> ents !! i = Some a -> ents !! j = Some b ->
  (i < j)%nat -> x ∈ a -> x ∉ b.
Proof.
  revert i j. induction ents as [|e0 ents IH]; intros i j Hnd Hi Hj Hlt Ha Hb.
  - discriminate.
  - simpl in Hnd. apply NoDup_app in Hnd as (_ & Hdis & Hnd).
    destruct j as [|j]; [lia|]. destruct i as [|i]; simpl in Hi, Hj.
    + injection Hi as <-. apply (Hdis x Ha). apply elem_of_concat.
      exists b. split; [apply list_elem_of_lookup; eauto|exact Hb].
    + apply (IH i j Hnd Hi Hj ltac:(lia) Ha Hb).
Qed.

Section WithChildren.

(** The sequences of the children, and their merge: the sequence [L] of
    all their entries in the order of the comparator, where no two keys
    compare equal. *)
Variable ents : list (list entry).
Variable L : list entry.
Hypothesis ents_sorted : Forall sorted ents.
Hypothesis L_merge : L ≡ₚ concat ents.
Hypothesis L_sorted : sorted L.

(** The children with the child over [es] at position [f es]. *)
Definition place (f : list entry -> nat) : list VecIter :=
  (fun es => {| entries := es; pos := f es |}) <$> ents.

Lemma place_ext f g : (forall es, es ∈ ents -> f es = g es) -> place f = place g.
Proof.
  intros H. unfold place. apply list_fmap_ext. intros i es Hes.
  rewrite (H es); [reflexivity|]. apply list_elem_of_lookup. eauto.
Qed.

Lemma place_lookup f i s :
  place f !! i = Some s ->
  exists es, ents !! i = Some es /\ s = {| entries := es; pos := f es |}.
Proof.
  unfold place. rewrite list_lookup_fmap. intros H.
  destruct (ents !! i) as [es|]; [|discriminate]. injection H as <-. eauto.
Qed.

Lemma place_entries f : entries <$> place f = ents.
Proof.
  unfold place. rewrite <- list_fmap_compose. apply list_fmap_id.
Qed.

Lemma length_place f : length (place f) = length ents.
Proof. unfold place. apply length_fmap. Qed.

Lemma elem_of_L e : e ∈ L <-> exists es, es ∈ ents /\ e ∈ es.
Proof. rewrite L_merge. apply elem_of_concat. Qed.

Lemma sorted_of es : es ∈ ents -> sorted es.
Proof. intros H. rewrite Forall_forall in ents_sorted. auto. Qed.

(** [FindSmallest] when every child has passed exactly its keys of [P]:
    the merging iterator is at the first entry of [L] past the keys of [P],
    and every child has passed exactly the keys before that one. *)
Lemma forward_find P :
  closed P ->
  match find_smallest Compare (place (count P)) 0 None with
  | None => count P L = length L
  | Some (i, s) =>
      place (count P) !! i = Some s /\ child_Valid s = true
      /\ L !! count P L = Some (child_key s, child_value s)
      /\ place (count P) = place (count (lt_key (child_key s)))
  end.
Proof.
  intros HP.
  pose proof (FindSmallest_is_min Compare Compare_trans Compare_total
                (place (count P))) as Hmin.
  destruct (find_smallest Compare (place (count P)) 0 None) as [[i s]|]; simpl in Hmin.
  - destruct Hmin as (Hi & Hv & Hall). split; [exact Hi|]. split; [exact Hv|].
    destruct (place_lookup _ _ _ Hi) as (es & Hes & ->).
    pose proof (valid_entry _ _ Hv) as Hentry.
    set (k := child_key _) in *. set (v := child_value _) in *.
    assert (Hes_in : es ∈ ents) by (apply list_elem_of_lookup; eauto).
    assert (HPk : P k = false).
    { pose proof (sorted_count P es _ _ (sorted_of es Hes_in) HP Hentry) as Hc.
      cbn [fst] in Hc. destruct (P k); [|reflexivity].
      assert (count P es < count P es)%nat by (apply Hc; reflexivity). lia. }
    (* [k] is the least key outside [P] *)
    assert (Hleast : forall es' e, es' ∈ ents -> e ∈ es' -> P e.1 = false ->
                                   Compare k e.1 <= 0).
    { intros es' e Hes' He HPe.
      apply list_elem_of_lookup in He as [j Hj].
      pose proof (sorted_count P es' j e (sorted_of es' Hes') HP Hj) as Hc.
      assert (Hge : (count P es' <= j)%nat).
      { destruct (le_lt_dec (count P es') j); [assumption|].
        rewrite (proj2 Hc) in HPe by assumption. discriminate. }
      pose proof (lookup_lt_Some _ _ _ Hj) as Hjlen.
      destruct (lookup_lt_is_Some_2 es' (count P es')) as [e0 He0]; [lia|].
      destruct (entry_valid es' _ e0 He0) as (Hv0 & Hk0 & _).
      rewrite Forall_forall in Hall.
      apply list_elem_of_lookup in Hes' as [i' Hi'].
      assert (Hin : {| entries := es'; pos := count P es' |} ∈ place (count P)).
      { apply list_elem_of_lookup. exists i'. unfold place.
        rewrite list_lookup_fmap, Hi'. reflexivity. }
      pose proof (Hall _ Hin Hv0) as Hle. rewrite Hk0 in Hle.
      apply (Compare_trans _ e0.1); [exact Hle|].
      apply (sorted_lookup_le es' (count P es') j); auto.
      apply sorted_of. apply list_elem_of_lookup. eauto. }
    assert (Hext : forall e, (exists es', es' ∈ ents /\ e ∈ es') -> P e.1 = lt_key k e.1).
    { intros e (es' & Hes' & He). unfold lt_key.
      destruct (P e.1) eqn:HPe.
      - symmetry. apply Z.ltb_lt.
        destruct (Z.le_gt_cases 0 (Compare e.1 k)) as [Hge|]; [|lia].
        rewrite (HP k e.1 HPe (Compare_total _ _ Hge)) in HPk. discriminate.
      - symmetry. apply Z.ltb_ge. apply Compare_sign. eapply Hleast; eassumption. }
    split.
    + assert (HkL : (k, v) ∈ L).
      { apply elem_of_L. exists es. split; [exact Hes_in|].
        apply list_elem_of_lookup. eauto. }
      apply list_elem_of_lookup in HkL as [j Hj].
      pose proof (sorted_count P L j _ L_sorted HP Hj) as Hc. cbn [fst] in Hc.
      assert (Hge : (count P L <= j)%nat).
      { destruct (le_lt_dec (count P L) j); [assumption|].
        rewrite (proj2 Hc) in HPk by assumption. discriminate. }
      pose proof (lookup_lt_Some _ _ _ Hj) as Hjlen.
      destruct (lookup_lt_is_Some_2 L (count P L)) as [e0 He0]; [lia|].
      destruct (decide (count P L = j)) as [->|Hne]; [exact Hj|].
      exfalso.
      pose proof (sorted_count P L _ e0 L_sorted HP He0) as Hc0.
      assert (HP0 : P e0.1 = false).
      { destruct (P e0.1); [|reflexivity].
        assert (count P L < count P L)%nat by (apply Hc0; reflexivity). lia. }
      assert (He0L : e0 ∈ L) by (apply list_elem_of_lookup; eauto).
      apply elem_of_L in He0L as (es' & Hes' & He0').
      pose proof (Hleast es' e0 Hes' He0' HP0) as Hle.
      pose proof (sorted_lookup_lt L _ j e0 (k, v) L_sorted He0 Hj ltac:(lia)) as Hlt.
      unfold lt_entry in Hlt. cbn [fst] in Hlt.
      pose proof (Compare_sign _ _ Hle). lia.
    + apply place_ext. intros es' Hes'. apply count_ext.
      intros e He. apply Hext. eauto.
  - assert (Hall : Forall (fun es => count P es = length es) ents).
    { apply Forall_forall. intros es Hes.
      pose proof (count_le_length P es).
      destruct (decide (count P es = length es)) as [|Hne]; [assumption|].
      rewrite Forall_forall in Hmin.
      apply list_elem_of_lookup in Hes as [i Hi].
      assert (Hin : {| entries := es; pos := count P es |} ∈ place (count P)).
      { apply list_elem_of_lookup. exists i. unfold place.
        rewrite list_lookup_fmap, Hi. reflexivity. }
      specialize (Hmin _ Hin). unfold child_Valid in Hmin. cbn [entries pos] in Hmin.
      apply Nat.ltb_ge in Hmin. lia. }
    rewrite (count_perm P _ _ L_merge), (Permutation_length L_merge).
    apply count_concat_all. exact Hall.
Qed.

Lemma rpos_valid n es e :
  (n <= length es)%nat -> es !! rpos n es = Some e -> exists n', n = S n'.
Proof.
  intros Hn He. destruct n as [|n']; [|eauto]. simpl in He.
  apply lookup_lt_Some in He. lia.
Qed.

(** [FindLargest] when every child is at the last of its keys of [P]: the
    merging iterator is at the last entry of [L] among the keys of [P], and
    every child is at its last key at or before that one. *)
Lemma backward_find P :
  closed P ->
  match find_largest Compare (rev (place (fun es => rpos (count P es) es)))
                     (length (place (fun es => rpos (count P es) es))) None with
  | None => count P L = 0%nat
  | Some (i, s) =>
      place (fun es => rpos (count P es) es) !! i = Some s /\ child_Valid s = true
      /\ (exists q, count P L = S q /\ L !! q = Some (child_key s, child_value s))
      /\ place (fun es => rpos (count P es) es)
         = place (fun es => rpos (count (le_key (child_key s)) es) es)
  end.
Proof.
  intros HP.
  set (cs := place (fun es => rpos (count P es) es)).
  pose proof (FindLargest_is_max cs) as Hmax.
  destruct (find_largest Compare (rev cs) (length cs) None) as [[i s]|]; simpl in Hmax.
  - destruct Hmax as (Hi & Hv & Hall). split; [exact Hi|]. split; [exact Hv|].
    destruct (place_lookup _ _ _ Hi) as (es & Hes & ->).
    pose proof (valid_entry _ _ Hv) as Hentry.
    set (k := child_key _) in *. set (v := child_value _) in *.
    assert (Hes_in : es ∈ ents) by (apply list_elem_of_lookup; eauto).
    destruct (rpos_valid _ _ _ (count_le_length P es) Hentry) as (n & Hn).
    rewrite Hn in Hentry. cbn [rpos] in Hentry.
    assert (HPk : P k = true).
    { pose proof (sorted_count P es _ _ (sorted_of es Hes_in) HP Hentry) as Hc.
      cbn [fst] in Hc. apply Hc. lia. }
    (* [k] is the greatest key of [P] *)
    assert (Hgreatest : forall es' e, es' ∈ ents -> e ∈ es' -> P e.1 = true ->
                                      Compare e.1 k <= 0).
    { intros es' e Hes' He HPe.
      apply list_elem_of_lookup in He as [j Hj].
      pose proof (sorted_count P es' j e (sorted_of es' Hes') HP Hj) as Hc.
      assert (Hlt : (j < count P es')%nat) by (apply Hc; exact HPe).
      pose proof (count_le_length P es') as Hlen.
      destruct (count P es') as [|n'] eqn:Hcount; [lia|].
      destruct (lookup_lt_is_Some_2 es' n') as [e0 He0]; [lia|].
      destruct (entry_valid es' _ e0 He0) as (Hv0 & Hk0 & _).
      rewrite Forall_forall in Hall.
      pose proof Hes' as Hes''.
      apply list_elem_of_lookup in Hes' as [i' Hi'].
      assert (Hin : {| entries := es'; pos := n' |} ∈ cs).
      { apply list_elem_of_lookup. exists i'. unfold cs, place.
        rewrite list_lookup_fmap, Hi'. simpl. rewrite Hcount. reflexivity. }
      pose proof (Hall _ Hin Hv0) as Hle. rewrite Hk0 in Hle.
      apply (Compare_trans _ e0.1); [|exact Hle].
      apply (sorted_lookup_le es' j n'); [exact (sorted_of es' Hes'')|exact Hj|exact He0|lia]. }
    assert (Hext : forall e, (exists es', es' ∈ ents /\ e ∈ es') -> P e.1 = le_key k e.1).
    { intros e (es' & Hes' & He). unfold le_key.
      destruct (P e.1) eqn:HPe.
      - symmetry. apply Z.leb_le. eapply Hgreatest; eassumption.
      - symmetry. apply Z.leb_gt.
        destruct (Z.le_gt_cases (Compare e.1 k) 0) as [Hle|]; [|lia].
        rewrite (HP e.1 k HPk Hle) in HPe. discriminate. }
    split.
    + assert (HkL : (k, v) ∈ L).
      { apply elem_of_L. exists es. split; [exact Hes_in|].
        apply list_elem_of_lookup. eauto. }
      apply list_elem_of_lookup in HkL as [j Hj].
      pose proof (sorted_count P L j _ L_sorted HP Hj) as Hc. cbn [fst] in Hc.
      assert (Hlt : (j < count P L)%nat) by (apply Hc; exact HPk).
      pose proof (count_le_length P L) as Hlen.
      destruct (count P L) as [|q] eqn:Hcount; [lia|].
      exists q. split; [reflexivity|].
      destruct (lookup_lt_is_Some_2 L q) as [e0 He0]; [lia|].
      destruct (decide (j = q)) as [->|Hne]; [exact Hj|].
      exfalso.
      pose proof (sorted_count P L _ e0 L_sorted HP He0) as Hc0.
      assert (HP0 : P e0.1 = true) by (apply Hc0; lia).
      assert (He0L : e0 ∈ L) by (apply list_elem_of_lookup; eauto).
      apply elem_of_L in He0L as (es' & Hes' & He0').
      pose proof (Hgreatest es' e0 Hes' He0' HP0) as Hle.
      pose proof (sorted_lookup_lt L j q (k, v) e0 L_sorted Hj He0 ltac:(lia)) as Hlt'.
      unfold lt_entry in Hlt'. cbn [fst] in Hlt'.
      apply lt_flip in Hlt'. lia.
    + apply place_ext. intros es' Hes'. f_equal. apply count_ext.
      intros e He. apply Hext. eauto.
  - assert (Hall : Forall (fun es => count P es = 0%nat) ents).
    { apply Forall_forall. intros es Hes.
      pose proof (count_le_length P es).
      destruct (count P es) as [|n] eqn:Hcount; [reflexivity|].
      rewrite Forall_forall in Hmax.
      apply list_elem_of_lookup in Hes as [i Hi].
      assert (Hin : {| entries := es; pos := n |} ∈ cs).
      { apply list_elem_of_lookup. exists i. unfold cs, place.
        rewrite list_lookup_fmap, Hi. simpl. rewrite Hcount. reflexivity. }
      specialize (Hmax _ Hin). unfold child_Valid in Hmax. cbn [entries pos] in Hmax.
      apply Nat.ltb_ge in Hmax. lia. }
    rewrite (count_perm P _ _ L_merge).
    apply count_concat_none. exact Hall.
Qed.

(** No key of another child compares equal to a key of a child. *)
Lemma others_differ cur es k v j es' e :
  ents !! cur = Some es -> (k, v) ∈ es ->
  ents !! j = Some es' -> j ≠ cur -> e ∈ es' -> Compare e.1 k ≠ 0.
Proof.
  intros Hcur Hk Hj Hne He H0.
  assert (HkL : (k, v) ∈ L).
  { apply elem_of_L. exists es. split; [apply list_elem_of_lookup; eauto|exact Hk]. }
  assert (HeL : e ∈ L).
  { apply elem_of_L. exists es'. split; [apply list_elem_of_lookup; eauto|exact He]. }
  apply list_elem_of_lookup in HkL as [a Ha]. apply list_elem_of_lookup in HeL as [b Hb].
  assert (Hab : a = b).
  { destruct (lt_eq_lt_dec a b) as [[Hlt| ->]|Hlt]; [|reflexivity|].
    - pose proof (sorted_lookup_lt L a b _ _ L_sorted Ha Hb Hlt) as H.
      unfold lt_entry in H. cbn [fst] in H. apply lt_flip in H. lia.
    - pose proof (sorted_lookup_lt L b a _ _ L_sorted Hb Ha Hlt) as H.
      unfold lt_entry in H. cbn [fst] in H. lia. }
  subst b. rewrite Ha in Hb. injection Hb as <-.
  assert (Hnd : NoDup (concat ents)).
  { rewrite <- L_merge. apply sorted_NoDup. exact L_sorted. }
  destruct (lt_eq_lt_dec cur j) as [[Hlt|Heq]|Hlt]; [|congruence|].
  - exact (NoDup_concat_lookup ents cur j es es' _ Hnd Hcur Hj Hlt Hk He).
  - exact (NoDup_concat_lookup ents j cur es' es _ Hnd Hj Hcur Hlt He Hk).
Qed.

Lemma others_count cur es k v j es' :
  ents !! cur = Some es -> (k, v) ∈ es ->
  ents !! j = Some es' -> j ≠ cur ->
  count (lt_key k) es' = count (le_key k) es'.
Proof.
  intros Hcur Hk Hj Hne. apply count_ext. intros e He.
  pose proof (others_differ cur es k v j es' e Hcur Hk Hj Hne He) as Hd.
  unfold lt_key, le_key.
  destruct (Z.ltb_spec (Compare e.1 k) 0); destruct (Z.leb_spec (Compare e.1 k) 0);
    try reflexivity; lia.
Qed.

Lemma own_count cur es k v :
  ents !! cur = Some es -> (k, v) ∈ es ->
  es !! count (lt_key k) es = Some (k, v)
  /\ count (le_key k) es = S (count (lt_key k) es).
Proof.
  intros Hcur Hk. apply list_elem_of_lookup in Hk as [i Hi].
  assert (Hs : sorted es) by (apply sorted_of; apply list_elem_of_lookup; eauto).
  destruct (index_count es i k v Hs Hi) as [-> ->]. auto.
Qed.

(** Moving the current child by [G] and the others by [F]. *)
Lemma alter_imap_place (G F : VecIter -> VecIter) f g cur :
  (forall es, ents !! cur = Some es ->
              G {| entries := es; pos := f es |} = {| entries := es; pos := g es |}) ->
  (forall j es, j ≠ cur -> ents !! j = Some es ->
                F {| entries := es; pos := f es |} = {| entries := es; pos := g es |}) ->
  alter G cur (imap (fun i child => if Nat.eqb i cur then child else F child) (place f))
  = place g.
Proof.
  intros HG HF. apply list_eq. intros j. unfold place.
  destruct (decide (j = cur)) as [->|Hne].
  - rewrite list_lookup_alter_eq, list_lookup_imap, !list_lookup_fmap.
    rewrite Nat.eqb_refl.
    destruct (ents !! cur) as [es|] eqn:Hes; [|reflexivity]. simpl.
    rewrite (HG es eq_refl). reflexivity.
  - rewrite list_lookup_alter_ne by congruence.
    rewrite list_lookup_imap, !list_lookup_fmap.
    destruct (Nat.eqb_spec j cur) as [|_]; [contradiction|].
    destruct (ents !! j) as [es|] eqn:Hes; [|reflexivity]. simpl.
    rewrite (HF j es Hne Hes). reflexivity.
Qed.

Lemma alter_place (G : VecIter -> VecIter) f g cur :
  (forall es, ents !! cur = Some es ->
              G {| entries := es; pos := f es |} = {| entries := es; pos := g es |}) ->
  (forall j es, j ≠ cur -> ents !! j = Some es -> f es = g es) ->
  alter G cur (place f) = place g.
Proof.
  intros HG HF. apply list_eq. intros j. unfold place.
  destruct (decide (j = cur)) as [->|Hne].
  - rewrite list_lookup_alter_eq, !list_lookup_fmap.
    destruct (ents !! cur) as [es|] eqn:Hes; [|reflexivity]. simpl.
    rewrite (HG es eq_refl). reflexivity.
  - rewrite list_lookup_alter_ne by congruence. rewrite !list_lookup_fmap.
    destruct (ents !! j) as [es|] eqn:Hes; [|reflexivity]. simpl.
    rewrite (HF j es Hne Hes). reflexivity.
Qed.

(** The position of a child when the merging iterator is at key [k]:
    moving forward, at its first key at or after [k]; moving backward, at
    its last key at or before [k]. *)
Definition posf (d : Direction) (k : Slice) (es : list entry) : nat :=
  match d with
  | kForward => count (lt_key k) es
  | kReverse => rpos (count (le_key k) es) es
  end.

(** The merging iterator [m] is where the iterator [c] over [L] is. *)
Definition sim (m : MergingIterator) (c : VecIter) : Prop :=
  entries c = L
  /\ match L !! pos c with
     | None => current_ m = None /\ entries <$> children_ m = ents
     | Some (k, v) =>
         exists cur es,
           current_ m = Some cur /\ ents !! cur = Some es /\ (k, v) ∈ es
           /\ children_ m = place (posf (direction_ m) k)
     end.

Lemma sim_entries m c : sim m c -> entries <$> children_ m = ents.
Proof.
  intros [_ H]. destruct (L !! pos c) as [[k v]|]; [|tauto].
  destruct H as (cur & es & _ & _ & _ & ->). apply place_entries.
Qed.

Lemma posf_own d cur es k v :
  ents !! cur = Some es -> (k, v) ∈ es -> es !! posf d k es = Some (k, v).
Proof.
  intros Hcur Hk. destruct (own_count cur es k v Hcur Hk) as [Hi Hle].
  destruct d; simpl; [exact Hi|]. rewrite Hle. exact Hi.
Qed.

Lemma sim_current m c k v :
  sim m c -> L !! pos c = Some (k, v) ->
  exists cur es,
    current_ m = Some cur /\ ents !! cur = Some es /\ (k, v) ∈ es
    /\ children_ m = place (posf (direction_ m) k)
    /\ key m = Some k /\ value m = Some v.
Proof.
  intros [_ H] HL. rewrite HL in H. destruct H as (cur & es & Hc & Hes & Hk & Hcs).
  exists cur, es. split; [exact Hc|]. split; [exact Hes|]. split; [exact Hk|].
  split; [exact Hcs|].
  pose proof (posf_own (direction_ m) cur es k v Hes Hk) as Hown.
  destruct (entry_valid _ _ _ Hown) as (_ & Hkey & Hval).
  unfold key, value, current_child. rewrite Hc, Hcs. unfold place.
  rewrite list_lookup_fmap, Hes. simpl. rewrite Hkey, Hval. auto.
Qed.

Lemma Compare_zero_flip a b : Compare a b = 0 -> Compare b a = 0.
Proof.
  intros H. pose proof (Compare_total a b ltac:(lia)).
  pose proof (Compare_sign a b ltac:(lia)). lia.
Qed.

(** [Next]: before [FindSmallest], every child has passed exactly its
    keys at or before the current key. *)
Lemma Next_children d cur es k v :
  ents !! cur = Some es -> (k, v) ∈ es ->
  alter child_Next cur
    (if Direction_eqb d kForward then place (posf d k)
     else imap (fun i child =>
                  if Nat.eqb i cur then child
                  else
                    let child := child_Seek Compare k child in
                    if child_Valid child && (Compare k (child_key child) =? 0)
                    then child_Next child else child)
               (place (posf d k)))
  = place (count (le_key k)).
Proof.
  intros Hcur Hk. destruct (own_count cur es k v Hcur Hk) as [Hi Hle].
  destruct d; cbn [Direction_eqb];
    [change (posf kForward k) with (count (lt_key k))
    |change (posf kReverse k) with (fun es => rpos (count (le_key k) es) es)].
  - apply alter_place.
    + intros es0 Hes0. rewrite Hcur in Hes0. injection Hes0 as <-.
      unfold child_Next. cbn [entries pos]. rewrite Hle. reflexivity.
    + intros j es' Hne Hj. exact (others_count cur es k v j es' Hcur Hk Hj Hne).
  - apply (alter_imap_place child_Next
             (fun child =>
                let child := child_Seek Compare k child in
                if child_Valid child && (Compare k (child_key child) =? 0)
                then child_Next child else child)).
    + intros es0 Hes0. rewrite Hcur in Hes0. injection Hes0 as <-.
      unfold child_Next. cbn [entries pos]. rewrite Hle. reflexivity.
    + intros j es' Hne Hj. cbv zeta. unfold child_Seek. cbn [entries pos].
      assert (Hs : sorted es') by (apply sorted_of; apply list_elem_of_lookup; eauto).
      rewrite (seek_pos_count k es' Hs).
      rewrite <- (others_count cur es k v j es' Hcur Hk Hj Hne).
      destruct (child_Valid {| entries := es'; pos := count (lt_key k) es' |}) eqn:Hv;
        [|reflexivity].
      pose proof (valid_entry _ _ Hv) as He.
      set (k0 := child_key _) in *. set (v0 := child_value _) in *.
      assert (Hin : (k0, v0) ∈ es') by (apply list_elem_of_lookup; eauto).
      pose proof (others_differ cur es k v j es' _ Hcur Hk Hj Hne Hin) as Hd.
      cbn [fst] in Hd.
      destruct (Z.eqb_spec (Compare k k0) 0) as [H0|_]; [|reflexivity].
      exfalso. apply Hd. apply Compare_zero_flip. exact H0.
Qed.

(** [Prev]: before [FindLargest], every child is at the last of its keys
    before the current key. *)
Lemma Prev_children d cur es k v :
  ents !! cur = Some es -> (k, v) ∈ es ->
  alter child_Prev cur
    (if Direction_eqb d kReverse then place (posf d k)
     else imap (fun i child =>
                  if Nat.eqb i cur then child
                  else
                    let child := child_Seek Compare k child in
                    if child_Valid child then child_Prev child
                    else child_SeekToLast child)
               (place (posf d k)))
  = place (fun es => rpos (count (lt_key k) es) es).
Proof.
  intros Hcur Hk. destruct (own_count cur es k v Hcur Hk) as [Hi Hle].
  destruct d; cbn [Direction_eqb];
    [change (posf kForward k) with (count (lt_key k))
    |change (posf kReverse k) with (fun es => rpos (count (le_key k) es) es)].
  - apply (alter_imap_place child_Prev
             (fun child =>
                let child := child_Seek Compare k child in
                if child_Valid child then child_Prev child
                else child_SeekToLast child)).
    + intros es0 Hes0. reflexivity.
    + intros j es' Hne Hj. cbv zeta. unfold child_Seek. cbn [entries pos].
      assert (Hs : sorted es') by (apply sorted_of; apply list_elem_of_lookup; eauto).
      rewrite (seek_pos_count k es' Hs).
      destruct (child_Valid {| entries := es'; pos := count (lt_key k) es' |}) eqn:Hv;
        [reflexivity|].
      unfold child_Valid in Hv. cbn [entries pos] in Hv. apply Nat.ltb_ge in Hv.
      pose proof (count_le_length (lt_key k) es').
      unfold child_SeekToLast. cbn [entries]. f_equal.
      replace (count (lt_key k) es') with (length es') by lia.
      unfold rpos. destruct (length es'); reflexivity.
  - apply alter_place.
    + intros es0 Hes0. rewrite Hcur in Hes0. injection Hes0 as <-.
      unfold child_Prev. cbn [entries pos]. rewrite Hle. reflexivity.
    + intros j es' Hne Hj.
      rewrite (others_count cur es k v j es' Hcur Hk Hj Hne). reflexivity.
Qed.

Lemma sim_of_forward P c :
  closed P -> entries c = L -> pos c = count P L ->
  sim {| children_ := place (count P);
         current_ := fst <$> find_smallest Compare (place (count P)) 0 None;
         direction_ := kForward |} c.
Proof.
  intros HP Hc Hp. pose proof (forward_find P HP) as Hfind.
  split; [exact Hc|]. rewrite Hp. cbn [children_ current_ direction_].
  destruct (find_smallest Compare (place (count P)) 0 None) as [[i s]|].
  - destruct Hfind as (Hi & Hv & HL & Hplace). rewrite HL.
    destruct (place_lookup _ _ _ Hi) as (es & Hes & ->).
    pose proof (valid_entry _ _ Hv) as He.
    exists i, es. split; [reflexivity|]. split; [exact Hes|].
    split; [apply list_elem_of_lookup; eauto|]. exact Hplace.
  - rewrite Hfind. rewrite lookup_ge_None_2 by lia.
    split; [reflexivity|apply place_entries].
Qed.

Lemma sim_of_backward P c :
  closed P -> entries c = L -> pos c = rpos (count P L) L ->
  sim {| children_ := place (fun es => rpos (count P es) es);
         current_ :=
           fst <$> find_largest Compare
                     (rev (place (fun es => rpos (count P es) es)))
                     (length (place (fun es => rpos (count P es) es))) None;
         direction_ := kReverse |} c.
Proof.
  intros HP Hc Hp. pose proof (backward_find P HP) as Hfind.
  split; [exact Hc|]. rewrite Hp. cbn [children_ current_ direction_].
  destruct (find_largest Compare _ _ None) as [[i s]|].
  - destruct Hfind as (Hi & Hv & (q & Hq & HL) & Hplace). rewrite Hq. cbn [rpos].
    rewrite HL.
    destruct (place_lookup _ _ _ Hi) as (es & Hes & ->).
    pose proof (valid_entry _ _ Hv) as He.
    exists i, es. split; [reflexivity|]. split; [exact Hes|].
    split; [apply list_elem_of_lookup; eauto|]. exact Hplace.
  - rewrite Hfind. cbn [rpos]. rewrite lookup_ge_None_2 by lia.
    split; [reflexivity|apply place_entries].
Qed.

Lemma fmap_children (F : VecIter -> VecIter) f cs :
  entries <$> cs = ents ->
  (forall c, F c = {| entries := entries c; pos := f (entries c) |}) ->
  F <$> cs = place f.
Proof.
  intros Hcs HF. unfold place. rewrite <- Hcs, <- list_fmap_compose.
  apply list_fmap_ext. intros i c _. apply HF.
Qed.

Lemma sim_Seek t m c : sim m c -> sim (Seek Compare t m) (child_Seek Compare t c).
Proof.
  intros Hsim. pose proof (sim_entries m c Hsim) as Hents. destruct Hsim as [Hc _].
  unfold Seek, with_direction, FindSmallest. cbn [children_ current_ direction_].
  assert (Hcs : child_Seek Compare t <$> children_ m = place (count (lt_key t))).
  { rewrite (fmap_children _ (seek_pos Compare t) _ Hents) by reflexivity.
    apply place_ext. intros es Hes. apply seek_pos_count. apply sorted_of. exact Hes. }
  rewrite Hcs. apply sim_of_forward; [apply closed_lt_key|exact Hc|].
  unfold child_Seek. cbn [pos]. rewrite Hc. apply seek_pos_count. exact L_sorted.
Qed.

Lemma sim_SeekToFirst m c : sim m c -> sim (SeekToFirst Compare m) (child_SeekToFirst c).
Proof.
  intros Hsim. pose proof (sim_entries m c Hsim) as Hents. destruct Hsim as [Hc _].
  unfold SeekToFirst, with_direction, FindSmallest. cbn [children_ current_ direction_].
  assert (Hcs : child_SeekToFirst <$> children_ m = place (count (fun _ => false))).
  { rewrite (fmap_children _ (fun _ => 0%nat) _ Hents) by reflexivity.
    apply place_ext. intros es Hes. symmetry. apply count_none.
    apply Forall_forall. reflexivity. }
  rewrite Hcs. apply sim_of_forward; [intros a b H; discriminate|exact Hc|].
  cbn [child_SeekToFirst pos]. symmetry. apply count_none.
  apply Forall_forall. reflexivity.
Qed.

Lemma count_true es : count (fun _ => true) es = length es.
Proof. induction es as [|e es IH]; simpl; [reflexivity|]. rewrite IH. reflexivity. Qed.

Lemma rpos_length es : rpos (length es) es = Nat.pred (length es).
Proof. unfold rpos. destruct (length es); reflexivity. Qed.

Lemma sim_SeekToLast m c : sim m c -> sim (SeekToLast Compare m) (child_SeekToLast c).
Proof.
  intros Hsim. pose proof (sim_entries m c Hsim) as Hents. destruct Hsim as [Hc _].
  unfold SeekToLast, with_direction, FindLargest. cbn [children_ current_ direction_].
  assert (Hcs : child_SeekToLast <$> children_ m
                = place (fun es => rpos (count (fun _ => true) es) es)).
  { rewrite (fmap_children _ (fun es => Nat.pred (length es)) _ Hents) by reflexivity.
    apply place_ext. intros es Hes. rewrite count_true, rpos_length. reflexivity. }
  rewrite Hcs. apply sim_of_backward; [intros a b H _; reflexivity|exact Hc|].
  cbn [child_SeekToLast pos]. rewrite Hc, count_true, rpos_length. reflexivity.
Qed.

Lemma valid_lookup c :
  entries c = L -> child_Valid c = true ->
  L !! pos c = Some (child_key c, child_value c).
Proof.
  intros Hc Hv. destruct c as [es p]. cbn [entries pos] in *. subst es.
  apply valid_entry. exact Hv.
Qed.

Lemma sim_Next m c :
  sim m c -> child_Valid c = true ->
  exists m', Next Compare m = Some m' /\ sim m' (child_Next c).
Proof.
  intros Hsim Hv. pose proof Hsim as [Hc _].
  pose proof (valid_lookup c Hc Hv) as HL.
  destruct (sim_current m c _ _ Hsim HL) as (cur & es & Hcur & Hes & Hk & Hcs & Hkey & _).
  unfold Next. rewrite Hcur, Hkey. eexists. split; [reflexivity|].
  unfold FindSmallest. cbn [children_ current_ direction_].
  rewrite Hcs, (Next_children _ cur es _ _ Hes Hk).
  apply sim_of_forward; [apply closed_le_key|exact Hc|].
  cbn [child_Next pos].
  destruct (index_count L (pos c) _ _ L_sorted HL) as [_ ->].
  reflexivity.
Qed.

Lemma sim_Prev m c :
  sim m c -> child_Valid c = true ->
  exists m', Prev Compare m = Some m' /\ sim m' (child_Prev c).
Proof.
  intros Hsim Hv. pose proof Hsim as [Hc _].
  pose proof (valid_lookup c Hc Hv) as HL.
  destruct (sim_current m c _ _ Hsim HL) as (cur & es & Hcur & Hes & Hk & Hcs & Hkey & _).
  unfold Prev. rewrite Hcur, Hkey. eexists. split; [reflexivity|].
  unfold FindLargest. cbn [children_ current_ direction_].
  rewrite Hcs, (Prev_children _ cur es _ _ Hes Hk).
  apply sim_of_backward; [apply closed_lt_key|exact Hc|].
  cbn [child_Prev pos].
  destruct (index_count L (pos c) _ _ L_sorted HL) as [-> _].
  rewrite Hc. reflexivity.
Qed.

Lemma sim_invalid m c :
  sim m c -> child_Valid c = false -> current_ m = None.
Proof.
  intros [Hc H] Hv. unfold child_Valid in Hv. apply Nat.ltb_ge in Hv.
  rewrite Hc in Hv. rewrite lookup_ge_None_2 in H by exact Hv. tauto.
Qed.

(** What a user of an iterator sees: whether it is valid, and the entry
    it is at when it is. *)
Definition Iterator_entry (it : Iterator) : option entry :=
  match it with
  | EmptyIterator => None
  | ChildIterator c =>
      if child_Valid c then Some (child_key c, child_value c) else None
  | MergingIter m =>
      match key m, value m with
      | Some k, Some v => Some (k, v)
      | _, _ => None
      end
  end.

Lemma sim_entry m c :
  sim m c -> Iterator_entry (MergingIter m) = Iterator_entry (ChildIterator c).
Proof.
  intros Hsim. cbn [Iterator_entry]. destruct (child_Valid c) eqn:Hv.
  - pose proof Hsim as [Hc _]. pose proof (valid_lookup c Hc Hv) as HL.
    destruct (sim_current m c _ _ Hsim HL) as (cur & es & _ & _ & _ & _ & -> & ->).
    reflexivity.
  - unfold key, current_child. rewrite (sim_invalid m c Hsim Hv). reflexivity.
Qed.

Lemma sim_run ops : forall m c,
  sim m c ->
  Iterator_entry <$> Iterator_run Compare ops (MergingIter m)
  = Iterator_entry <$> Iterator_run Compare ops (ChildIterator c).
Proof.
  induction ops as [|op ops IH]; intros m c Hsim; cbn [Iterator_run].
  - cbn. f_equal. apply sim_entry. exact Hsim.
  - destruct op; cbn [Iterator_apply].
    + apply IH. apply sim_SeekToFirst. exact Hsim.
    + apply IH. apply sim_SeekToLast. exact Hsim.
    + apply IH. apply sim_Seek. exact Hsim.
    + destruct (child_Valid c) eqn:Hv.
      * destruct (sim_Next m c Hsim Hv) as (m' & -> & Hsim'). cbn. apply IH. exact Hsim'.
      * unfold Next. rewrite (sim_invalid m c Hsim Hv). reflexivity.
    + destruct (child_Valid c) eqn:Hv.
      * destruct (sim_Prev m c Hsim Hv) as (m' & -> & Hsim'). cbn. apply IH. exact Hsim'.
      * unfold Prev. rewrite (sim_invalid m c Hsim Hv). reflexivity.
Qed.

End WithChildren.

(** X21.  A merging iterator is an iterator over the merge.  For a
    comparator that is a three-way comparison of a total order, and
    children over sequences in increasing order whose keys are all
    different, let [L] be the sequence of all their entries in increasing
    order.  Then after any sequence of [SeekToFirst], [SeekToLast],
    [Seek], [Next] and [Prev], in any order and with any changes of
    direction, a new merging iterator over the children is valid exactly
    when an iterator over [L] is after the same calls, with the same key
    and value; and the same calls fail an assertion on both. *)
Theorem merging_iterator_is_cursor
        (children : list VecIter) (L : list entry) (ops : list IterOp) :
  Forall (fun c => sorted (entries c)) children ->
  L ≡ₚ concat (entries <$> children) ->
  sorted L ->
  Iterator_entry <$> Iterator_run Compare ops (MergingIter (new_MergingIterator children))
  = Iterator_entry
      <$> Iterator_run Compare ops (ChildIterator {| entries := L; pos := length L |}).
Proof.
  intros Hsorted Hmerge HL.
  apply (sim_run (entries <$> children) L); [|exact Hmerge|exact HL|].
  - apply Forall_fmap. exact Hsorted.
  - split; [reflexivity|]. cbn [pos]. rewrite lookup_ge_None_2 by lia.
    split; reflexivity.
Qed.

End WithComparator.

Lemma bytewise_compare_sign a b :
  bytewise_compare a b <= 0 -> 0 <= bytewise_compare b a.
Proof.
  revert b. induction a as [|x a IH]; intros [|y b]; simpl; try lia.
  destruct (Z.ltb_spec x y); destruct (Z.ltb_spec y x); try lia. apply IH.
Qed.

(** Three children, over [1, 3, 5], over [2, 6] and over [4]; their merge;
    and calls that change direction four times. *)
Definition three_children : list VecIter :=
  [ {| entries := [([1], [10]); ([3], [30]); ([5], [50])]; pos := 0 |};
    {| entries := [([2], [20]); ([6], [60])]; pos := 0 |};
    {| entries := [([4], [40])]; pos := 0 |} ].

Definition three_merged : list entry :=
  [([1], [10]); ([2], [20]); ([3], [30]); ([4], [40]); ([5], [50]); ([6], [60])].

Definition back_and_forth : list IterOp :=
  [OpSeek [3]; OpNext; OpPrev; OpPrev; OpNext; OpNext; OpSeekToLast; OpPrev; OpNext].

Lemma merging_iterator_is_cursor_witness :
  Iterator_entry
    <$> Iterator_run bytewise_compare back_and_forth
          (MergingIter (new_MergingIterator three_children))
  = Iterator_entry
      <$> Iterator_run bytewise_compare back_and_forth
            (ChildIterator {| entries := three_merged; pos := length three_merged |}).
Proof.
  apply (merging_iterator_is_cursor bytewise_compare bytewise_compare_trans
           bytewise_compare_total bytewise_compare_sign).
  - repeat constructor; unfold lt_entry; simpl; lia.
  - apply (bool_decide_unpack _). vm_compute. exact I.
  - repeat constructor; unfold lt_entry; simpl; lia.
Defined.

(** The entry after each of the calls of [back_and_forth]. *)
Example back_and_forth_entries :
  map (fun n => Iterator_entry
                  <$> Iterator_run bytewise_compare (take n back_and_forth)
                        (MergingIter (new_MergingIterator three_children)))
      (seq 1 9)
  = map (fun e => Some (Some e))
        [([3], [30]); ([4], [40]); ([3], [30]); ([2], [20]); ([3], [30]);
         ([4], [40]); ([6], [60]); ([5], [50]); ([6], [60])].
Proof. vm_compute. reflexivity. Qed.

End MergerFacts.

(** *** db/log_reader.cc : reading a log back *)

Module LogReaderFacts.
Import LogReader LogReaderProofs.

(** A physical record as it lies in the file: the four bytes of the
    checksum field, the type, the payload. *)
Record Fragment := {
  c0 : Z; c1 : Z; c2 : Z; c3 : Z;
  ftype : Z;
  payload : Slice
}.

Definition frame (f : Fragment) : Slice :=
  [c0 f; c1 f; c2 f; c3 f; size (payload f) mod 256; size (payload f) / 256; ftype f]
  ++ payload f.

Definition frames (fs : list Fragment) : Slice := concat (frame <$> fs).

(** A block of the file: physical records, then a trailer too short for
    a header. *)
Record Block := {
  frags : list Fragment;
  trailer : Slice
}.

Definition bytes (b : Block) : Slice := frames (frags b) ++ trailer b.

(** The fragments of one record: one of type Full, or one of type First,
    any number of type Middle and one of type Last. *)
Inductive is_record : list Fragment -> Prop :=
| record_full f : ftype f = kFullType -> is_record [f]
| record_fragmented f mids l :
    ftype f = kFirstType ->
    Forall (fun m => ftype m = kMiddleType) mids ->
    ftype l = kLastType ->
    is_record (f :: mids ++ [l]).

(** The record the fragments carry. *)
Definition contents (fs : list Fragment) : Slice := concat (payload <$> fs).

Lemma header_length_frame f rest :
  0 <= size (payload f) < 2 ^ 16 ->
  header_length (frame f ++ rest) = size (payload f).
Proof.
  intros Hlen. unfold header_length, frame. cbn [app nth].
  set (n := size (payload f)) in *.
  change 255 with (Z.ones 8). rewrite !Z.land_ones by lia.
  rewrite Z.mod_mod by lia.
  assert (Hhi : 0 <= n / 256 < 256).
  { split; [apply Z.div_pos; lia|apply Z.div_lt_upper_bound; lia]. }
  rewrite (Z.mod_small (n / 256)) by (change (2 ^ 8) with 256; lia).
  apply Z.bits_inj'. intros i Hi.
  rewrite Z.lor_spec. change (2 ^ 8) with 256.
  destruct (Z.lt_ge_cases i 8) as [Hlo|Hge].
  - rewrite (Z.shiftl_spec_low _ _ _ Hlo), orb_false_r.
    change 256 with (2 ^ 8). apply Z.mod_pow2_bits_low. exact Hlo.
  - change 256 with (2 ^ 8).
    rewrite Z.mod_pow2_bits_high by lia. rewrite orb_false_l.
    rewrite Z.shiftl_spec by lia. rewrite Z.div_pow2_bits by lia.
    f_equal. lia.
Qed.

Section WithFile.

Variable File : Type.
Variable file_Read : Z -> File -> Status * Slice * File.
Variable file_Skip : Z -> File -> Status * File.
Variable crc32c_Extend : Z -> Slice -> Z.

#[local] Abbreviation Reader := (Reader File).
#[local] Abbreviation ReadPhysicalRecord := (ReadPhysicalRecord File file_Read crc32c_Extend).
#[local] Abbreviation parse_physical_record := (parse_physical_record File crc32c_Extend).
#[local] Abbreviation ReadRecord_loop := (ReadRecord_loop File file_Read crc32c_Extend).
#[local] Abbreviation ReadRecord := (ReadRecord File file_Read file_Skip crc32c_Extend).

(** The checksum field is the masked checksum of the type and the payload,
    where the reader verifies checksums. *)
Definition frame_ok (checksum : bool) (f : Fragment) : Prop :=
  checksum = true ->
  crc32c_Value crc32c_Extend (ftype f :: payload f)
  = crc32c.Unmask (DecodeFixed32 [c0 f; c1 f; c2 f; c3 f]).

(** The file returns the blocks one by one: each read of a block's worth
    returns a whole block, and the last one returns less. *)
Fixpoint holds (f : File) (bs : list Block) : Prop :=
  match bs with
  | [] => False
  | b :: bs' =>
      exists f', file_Read kBlockSize f = (OK, bytes b, f')
                 /\ size (trailer b) < kHeaderSize
                 /\ match bs' with
                    | [] => size (bytes b) < kBlockSize
                    | _ => size (bytes b) = kBlockSize /\ holds f' bs'
                    end
  end.

(** [ReadRecord] until it returns false: the records returned. *)
Fixpoint read_all (fuel : nat) (r : Reader) : option (list Slice * Reader) :=
  match fuel with
  | O => None
  | S fuel' =>
      match ReadRecord fuel [] [] r with
      | Some (true, st, r) =>
          match read_all fuel' r with
          | Some (records, r) => Some (record st :: records, r)
          | None => None
          end
      | Some (false, _, r) => Some ([], r)
      | None => None
      end
  end.

(** The block at which a reader constructed with [initial_offset] starts:
    [block_start_location] of [SkipToInitialBlock]. *)
Definition first_block (initial_offset : Z) : Z :=
  let offset_in_block := initial_offset mod kBlockSize in
  let block_start_location := wrap64 (initial_offset - offset_in_block) in
  if kBlockSize - 6 <? offset_in_block
  then wrap64 (block_start_location + kBlockSize)
  else block_start_location.

(** The reader between two physical records: [cur] is what is left of
    the block in [buffer_] before its trailer [tr], [more] the blocks still
    in the file.  The reader was constructed with [initial_offset]; where
    that is not 0, what is left in the buffer starts at or after it, and
    the offsets of the file stay below 2^64. *)
Record reading (checksum : bool) (reporter : option Reporter)
       (initial_offset : Z) (resyncing : bool)
       (r : Reader) (cur : list Fragment) (tr : Slice) (more : list Block) : Prop := {
  rd_buffer : buffer_ File r = frames cur ++ tr;
  rd_trailer : size tr < kHeaderSize;
  rd_size : size (buffer_ File r) <= kBlockSize;
  rd_more : match more with
            | [] => eof_ File r = true
            | _ => eof_ File r = false /\ holds (file_ File r) more
            end;
  rd_offset : initial_offset_ File r = initial_offset;
  rd_start : initial_offset = 0
             \/ (0 <= initial_offset
                      <= end_of_buffer_offset_ File r - size (buffer_ File r)
                 /\ end_of_buffer_offset_ File r
                    + kBlockSize * Z.of_nat (length more) < 2 ^ 64);
  rd_resyncing : resyncing_ File r = resyncing;
  rd_checksum : checksum_ File r = checksum;
  rd_reporter : reporter_ File r = reporter
}.

(** The physical records still to come. *)
Definition pending (cur : list Fragment) (more : list Block) : list Fragment :=
  cur ++ concat (frags <$> more).

(** The reader as [ReadRecord] leaves resyncing mode. *)
Definition resynced (r : Reader) : Reader :=
  if resyncing_ File r then set_resyncing File false r else r.

Lemma size_app (a b : Slice) : size (a ++ b) = size a + size b.
Proof. unfold size. rewrite length_app. lia. Qed.

Lemma size_nonneg (a : Slice) : 0 <= size a.
Proof. unfold size. lia. Qed.

Lemma size_frame f : size (frame f) = kHeaderSize + size (payload f).
Proof. unfold frame, size. rewrite length_app. simpl length. unfold kHeaderSize. lia. Qed.

(** The offset of a physical record that does not start before
    [initial_offset]. *)
Lemma offset_from io e s h l :
  io = 0 \/ (0 <= io <= e - (s + h + l) /\ e < 2 ^ 64) ->
  0 <= s -> 0 <= h -> 0 <= l ->
  io <= wrap64 (wrap64 (wrap64 (e - s) - h) - l).
Proof.
  intros [->|[H1 H2]] Hs Hh Hl.
  - apply wrap64_range.
  - rewrite (wrap64_small (e - s)) by lia.
    rewrite (wrap64_small (e - s - h)) by lia.
    rewrite wrap64_small by lia. lia.
Qed.

Lemma parse_frame checksum reporter io resync r f cur tr more res :
  reading checksum reporter io resync r (f :: cur) tr more ->
  frame_ok checksum f -> 1 <= ftype f <= 4 ->
  parse_physical_record res r
  = (ftype f, payload f, set_buffer File (frames cur ++ tr) r)
  /\ reading checksum reporter io resync (set_buffer File (frames cur ++ tr) r) cur tr more
  /\ io <= wrap64 (wrap64 (wrap64 (end_of_buffer_offset_ File r
                                    - size (frames cur ++ tr))
                           - kHeaderSize) - size (payload f)).
Proof.
  intros Hrd Hok Htype.
  pose proof (rd_buffer _ _ _ _ _ _ _ _ Hrd) as Hbuf.
  pose proof (rd_size _ _ _ _ _ _ _ _ Hrd) as Hsize.
  pose proof (rd_start _ _ _ _ _ _ _ _ Hrd) as Hstart.
  change (frames (f :: cur)) with (frame f ++ frames cur) in Hbuf.
  rewrite <- app_assoc in Hbuf.
  pose proof (size_nonneg (payload f)) as Hp0.
  pose proof (size_nonneg (frames cur ++ tr)) as Hr0.
  assert (Hplen : size (payload f) < 2 ^ 16).
  { rewrite Hbuf, size_app, size_frame in Hsize. unfold kBlockSize, kHeaderSize in Hsize. lia. }
  assert (Hphys : io <= wrap64 (wrap64 (wrap64 (end_of_buffer_offset_ File r
                                                - size (frames cur ++ tr))
                                        - kHeaderSize) - size (payload f))).
  { apply offset_from; try assumption; [|unfold kHeaderSize; lia].
    destruct Hstart as [->|[H1 H2]]; [left; reflexivity|right].
    rewrite Hbuf, size_app, size_frame in H1.
    unfold kBlockSize in H2. lia. }
  split; [|split; [|exact Hphys]].
  - unfold LogReader.parse_physical_record. cbv zeta.
    rewrite Hbuf.
    rewrite (header_length_frame f (frames cur ++ tr)) by lia.
    assert (Htyp : header_type (frame f ++ frames cur ++ tr) = ftype f).
    { unfold header_type, frame. cbn [app nth]. unfold uint_of_char.
      destruct (Z.ltb_spec (ftype f) 128); [reflexivity|lia]. }
    rewrite Htyp.
    rewrite size_app, size_frame.
    destruct (Z.ltb_spec (kHeaderSize + size (payload f) + size (frames cur ++ tr))
                         (kHeaderSize + size (payload f))) as [|_]; [lia|].
    destruct (Z.eqb_spec (ftype f) kZeroType) as [H0|_];
      [unfold kZeroType in H0; lia|]. cbn [andb].
    assert (Hcrc : checksum_ File r
                   && negb (crc32c_Value crc32c_Extend
                              (take (Z.to_nat (1 + size (payload f)))
                                    (drop 6 (frame f ++ frames cur ++ tr)))
                            =? crc32c.Unmask (DecodeFixed32 (frame f ++ frames cur ++ tr)))
                   = false).
    { rewrite (rd_checksum _ _ _ _ _ _ _ _ Hrd).
      destruct checksum; [|reflexivity]. cbn [andb].
      assert (Hdata : take (Z.to_nat (1 + size (payload f)))
                           (drop 6 (frame f ++ frames cur ++ tr))
                      = ftype f :: payload f).
      { unfold frame. cbn [app drop].
        replace (Z.to_nat (1 + size (payload f))) with (S (length (payload f)))
          by (unfold size; lia).
        cbn [take]. f_equal. apply take_app_length. }
      rewrite Hdata. rewrite (Hok eq_refl).
      unfold DecodeFixed32, frame. cbn [app nth]. rewrite Z.eqb_refl. reflexivity. }
    rewrite Hcrc.
    assert (Hdrop : drop (Z.to_nat (kHeaderSize + size (payload f)))
                         (frame f ++ frames cur ++ tr) = frames cur ++ tr).
    { replace (Z.to_nat (kHeaderSize + size (payload f))) with (length (frame f))
        by (pose proof (size_frame f) as Hsf; unfold size in *; lia).
      apply drop_app_length. }
    assert (Hpay : take (Z.to_nat (size (payload f)))
                        (drop (Z.to_nat kHeaderSize) (frame f ++ frames cur ++ tr))
                   = payload f).
    { unfold frame. change (Z.to_nat kHeaderSize) with 7%nat. cbn [app drop].
      replace (Z.to_nat (size (payload f))) with (length (payload f))
        by (unfold size; lia).
      apply take_app_length. }
    rewrite Hdrop, Hpay.
    cbn [buffer_ set_buffer end_of_buffer_offset_ initial_offset_].
    rewrite (rd_offset _ _ _ _ _ _ _ _ Hrd).
    match goal with
    | |- context [?x <? io] =>
        destruct (Z.ltb_spec x io) as [Hneg|_]; [lia|]
    end.
    reflexivity.
  - destruct Hrd as [Hb Ht Hs Hm Ho Hst Hre Hc Hrep].
    constructor; cbn [buffer_ set_buffer eof_ file_ initial_offset_ resyncing_
                      checksum_ reporter_ end_of_buffer_offset_]; try assumption.
    + reflexivity.
    + rewrite Hbuf, size_app in Hs. pose proof (size_nonneg (frame f)). lia.
    + destruct Hst as [->|[H1 H2]]; [left; reflexivity|right].
      rewrite Hbuf, size_app in H1. pose proof (size_nonneg (frame f)). lia.
Qed.

(** The reader once it has read the block [b] from the file. *)
Definition after_read (b : Block) (f' : File) (r : Reader) : Reader :=
  let r := set_buffer File (bytes b) (set_file File f' r) in
  let r := set_end_of_buffer_offset File
             (wrap64 (end_of_buffer_offset_ File r + size (buffer_ File r))) r in
  if size (buffer_ File r) <? kBlockSize then set_eof File true r else r.

Lemma read_block checksum reporter io resync r tr b more res :
  reading checksum reporter io resync r [] tr (b :: more) ->
  exists f',
    ReadPhysicalRecord res r
    = LogReader.ReadPhysicalRecord_loop File file_Read crc32c_Extend 1 res
        (after_read b f' r)
    /\ reading checksum reporter io resync (after_read b f' r) (frags b) (trailer b) more.
Proof.
  intros Hrd. destruct Hrd as [Hb Ht Hs Hm Ho Hst Hre Hc Hrep].
  destruct Hm as [Heof Hholds]. cbn [holds] in Hholds.
  destruct Hholds as (f' & Hread & Htr & Hrest).
  exists f'. split.
  - unfold LogReader.ReadPhysicalRecord.
    cbn [LogReader.ReadPhysicalRecord_loop].
    rewrite Hb. change (frames []) with (@nil Z). rewrite app_nil_l.
    destruct (Z.ltb_spec (size tr) kHeaderSize) as [_|]; [|lia].
    rewrite Heof. cbn [negb]. rewrite Hread. cbn [Status_ok negb].
    reflexivity.
  - assert (Hle : size (bytes b) <= kBlockSize) by (destruct more; lia).
    pose proof (size_nonneg (bytes b)) as Hb0.
    assert (Hst' : io = 0
                   \/ (0 <= io <= wrap64 (end_of_buffer_offset_ File r + size (bytes b))
                                  - size (bytes b)
                       /\ wrap64 (end_of_buffer_offset_ File r + size (bytes b))
                          + kBlockSize * Z.of_nat (length more) < 2 ^ 64)).
    { destruct Hst as [->|[H1 H2]]; [left; reflexivity|right].
      pose proof (size_nonneg (buffer_ File r)).
      cbn [length] in H2. unfold kBlockSize in *.
      rewrite wrap64_small by lia. lia. }
    unfold after_read. cbv zeta.
    cbn [buffer_ set_buffer set_file set_end_of_buffer_offset end_of_buffer_offset_].
    destruct (Z.ltb_spec (size (bytes b)) kBlockSize) as [Hlt|Hge].
    + constructor; cbn; try assumption; try reflexivity.
      destruct more as [|b' more]; [reflexivity|]. lia.
    + constructor; cbn; try assumption; try reflexivity.
      destruct more as [|b' more]; [lia|]. split; [exact Heof|tauto].
Qed.

Lemma frames_nonempty f fs tr : kHeaderSize <= size (frames (f :: fs) ++ tr).
Proof.
  change (frames (f :: fs)) with (frame f ++ frames fs).
  rewrite <- app_assoc, size_app, size_frame.
  pose proof (size_nonneg (payload f)). pose proof (size_nonneg (frames fs ++ tr)). lia.
Qed.

(** [ReadPhysicalRecord] returns the next physical record of the file,
    which does not start before [initial_offset]. *)
Lemma read_fragment checksum reporter io resync r cur tr more f rest res :
  reading checksum reporter io resync r cur tr more ->
  pending cur more = f :: rest ->
  frame_ok checksum f -> 1 <= ftype f <= 4 ->
  exists r' cur' tr' more',
    ReadPhysicalRecord res r = Some (ftype f, payload f, r')
    /\ reading checksum reporter io resync r' cur' tr' more'
    /\ pending cur' more' = rest
    /\ io <= wrap64 (wrap64 (wrap64 (end_of_buffer_offset_ File r'
                                      - size (buffer_ File r'))
                             - kHeaderSize) - size (payload f)).
Proof.
  intros Hrd Hpend Hok Htype. destruct cur as [|g cur].
  - destruct more as [|b more]; [discriminate|].
    destruct (read_block _ _ _ _ _ _ _ _ res Hrd) as (f' & -> & Hrd').
    unfold pending in Hpend. cbn in Hpend.
    destruct (frags b) as [|g gs] eqn:Hfr.
    + exfalso. destruct more as [|b' more]; [discriminate|].
      destruct Hrd as [_ _ _ Hm _ _ _ _ _]. destruct Hm as [_ Hholds].
      cbn [holds] in Hholds. destruct Hholds as (f0 & _ & Htr & Hsz & _).
      unfold bytes, frames in Hsz. rewrite Hfr in Hsz. cbn in Hsz.
      unfold kBlockSize, kHeaderSize in *. lia.
    + injection Hpend as -> Hrest.
      cbn [LogReader.ReadPhysicalRecord_loop].
      rewrite (rd_buffer _ _ _ _ _ _ _ _ Hrd').
      destruct (Z.ltb_spec (size (frames (f :: gs) ++ trailer b)) kHeaderSize) as [Hlt|_];
        [pose proof (frames_nonempty f gs (trailer b)); lia|].
      destruct (parse_frame _ _ _ _ _ _ _ _ _ res Hrd' Hok Htype) as (-> & Hrd'' & Hph).
      eexists _, gs, (trailer b), more. split; [reflexivity|]. split; [exact Hrd''|].
      split; [exact Hrest|exact Hph].
  - unfold pending in Hpend. cbn in Hpend. injection Hpend as -> Hrest.
    rewrite (ReadPhysicalRecord_parses File file_Read crc32c_Extend).
    + destruct (parse_frame _ _ _ _ _ _ _ _ _ res Hrd Hok Htype) as (-> & Hrd' & Hph).
      eexists _, cur, tr, more. split; [reflexivity|]. split; [exact Hrd'|].
      split; [exact Hrest|exact Hph].
    + rewrite (rd_buffer _ _ _ _ _ _ _ _ Hrd). apply frames_nonempty.
Qed.

(** At the end of the records [ReadPhysicalRecord] returns [kEof]. *)
Lemma read_eof checksum reporter io resync r cur tr more res :
  reading checksum reporter io resync r cur tr more ->
  pending cur more = [] ->
  exists r',
    ReadPhysicalRecord res r = Some (kEof, res, r')
    /\ reading checksum reporter io resync r' [] [] [].
Proof.
  intros Hrd Hpend. destruct cur as [|g cur]; [|discriminate].
  assert (Hfinal : forall r0 tr0,
            reading checksum reporter io resync r0 [] tr0 [] ->
            forall n, LogReader.ReadPhysicalRecord_loop File file_Read crc32c_Extend (S n) res r0
                      = Some (kEof, res, set_buffer File [] r0)
                      /\ reading checksum reporter io resync (set_buffer File [] r0) [] [] []).
  { intros r0 tr0 [Hb Ht Hs Hm Ho Hst Hre Hc Hrep] n. split.
    - cbn [LogReader.ReadPhysicalRecord_loop]. rewrite Hb.
      change (frames []) with (@nil Z). rewrite app_nil_l.
      destruct (Z.ltb_spec (size tr0) kHeaderSize) as [_|]; [|lia].
      rewrite Hm. reflexivity.
    - constructor;
        cbn [buffer_ set_buffer eof_ file_ initial_offset_ resyncing_
             checksum_ reporter_ end_of_buffer_offset_];
        try assumption; try reflexivity.
      + unfold size, kBlockSize. simpl. lia.
      + destruct Hst as [->|[H1 H2]]; [left; reflexivity|right].
        pose proof (size_nonneg (buffer_ File r0)).
        change (size []) with 0. lia. }
  destruct more as [|b more].
  - eexists. apply (Hfinal r tr Hrd 1%nat).
  - destruct (read_block _ _ _ _ _ _ _ _ res Hrd) as (f' & -> & Hrd').
    unfold pending in Hpend. cbn in Hpend.
    apply app_eq_nil in Hpend as [Hfr Hmore].
    destruct more as [|b' more].
    + rewrite Hfr in Hrd'. eexists. apply (Hfinal _ _ Hrd' 0%nat).
    + exfalso.
      destruct Hrd as [_ _ _ Hm _ _ _ _ _]. destruct Hm as [_ Hholds].
      cbn [holds] in Hholds. destruct Hholds as (f0 & _ & Htr & Hsz & _).
      unfold bytes, frames in Hsz. rewrite Hfr in Hsz. cbn in Hsz.
      unfold kBlockSize, kHeaderSize in *. lia.
Qed.

Lemma reading_set_last checksum reporter io resync r cur tr more o :
  reading checksum reporter io resync r cur tr more ->
  reading checksum reporter io resync (set_last_record_offset File o r) cur tr more.
Proof.
  intros [Hb Ht Hs Hm Ho Hst Hre Hc Hrep]. constructor; cbn; assumption.
Qed.

Lemma reading_resynced checksum reporter io resync r cur tr more :
  reading checksum reporter io resync r cur tr more ->
  reading checksum reporter io false (resynced r) cur tr more.
Proof.
  intros [Hb Ht Hs Hm Ho Hst Hre Hc Hrep]. unfold resynced. rewrite Hre.
  destruct resync; constructor; cbn; try assumption; reflexivity.
Qed.

(** Outside the Middle and Last fragments dropped in resyncing mode, an
    iteration of [ReadRecord] leaves resyncing mode and goes through the
    [switch]. *)
Lemma dispatch_resynced t st r :
  resyncing_ File r = false \/ (t <> kMiddleType /\ t <> kLastType) ->
  ReadRecord_dispatch File t st r
  = ReadRecord_switch File t (physical_record_offset File st r) st (resynced r).
Proof.
  intros H. unfold ReadRecord_dispatch, resynced, physical_record_offset.
  destruct (resyncing_ File r); [|reflexivity].
  destruct H as [H|[Hm Hl]]; [discriminate|].
  destruct (Z.eqb_spec t kMiddleType); [contradiction|].
  destruct (Z.eqb_spec t kLastType); [contradiction|]. reflexivity.
Qed.

(** The loop of [ReadRecord] inside a fragmented record: the Middle
    fragments are appended to [scratch], the Last one completes the
    record. *)
Lemma loop_fragments checksum reporter io mids : forall fuel st r cur tr more l rest,
  reading checksum reporter io false r cur tr more ->
  in_fragmented_record st = true ->
  io <= prospective_record_offset st ->
  pending cur more = mids ++ l :: rest ->
  Forall (fun m => ftype m = kMiddleType) mids -> ftype l = kLastType ->
  Forall (frame_ok checksum) (mids ++ [l]) ->
  (length mids < fuel)%nat ->
  exists st' r' cur' tr' more',
    ReadRecord_loop fuel st r = Some (true, st', r')
    /\ record st' = scratch st ++ contents (mids ++ [l])
    /\ reading checksum reporter io false r' cur' tr' more'
    /\ pending cur' more' = rest
    /\ io <= last_record_offset_ File r'.
Proof.
  induction mids as [|m mids IH];
    intros fuel st r cur tr more l rest Hrd Hin Hpro Hpend Hmids Hl Hok Hfuel.
  - destruct fuel as [|fuel]; [simpl in Hfuel; lia|].
    cbn [app] in *. apply Forall_cons in Hok as [Hokl _].
    destruct (read_fragment _ _ _ _ _ _ _ _ _ _ (fragment st) Hrd Hpend Hokl)
      as (r1 & cur1 & tr1 & more1 & HR & Hrd1 & Hpend1 & _);
      [rewrite Hl; unfold kLastType; lia|].
    cbn [LogReader.ReadRecord_loop]. rewrite HR.
    unfold ReadRecord_dispatch. rewrite (rd_resyncing _ _ _ _ _ _ _ _ Hrd1).
    unfold ReadRecord_switch. rewrite Hl.
    cbn [Z.eqb kLastType kFullType kFirstType kMiddleType Pos.eqb
         in_fragmented_record set_fragment fragment scratch prospective_record_offset].
    rewrite Hin. cbn [negb].
    eexists _, _, cur1, tr1, more1. split; [reflexivity|].
    split; [cbn [record]; unfold contents; cbn; rewrite app_nil_r; reflexivity|].
    split; [apply reading_set_last; assumption|]. split; [exact Hpend1|exact Hpro].
  - destruct fuel as [|fuel]; [simpl in Hfuel; lia|].
    cbn [app] in *. apply Forall_cons in Hok as [Hokm Hok].
    apply Forall_cons in Hmids as [Hm Hmids].
    destruct (read_fragment _ _ _ _ _ _ _ _ _ _ (fragment st) Hrd Hpend Hokm)
      as (r1 & cur1 & tr1 & more1 & HR & Hrd1 & Hpend1 & _);
      [rewrite Hm; unfold kMiddleType; lia|].
    cbn [LogReader.ReadRecord_loop]. rewrite HR.
    unfold ReadRecord_dispatch. rewrite (rd_resyncing _ _ _ _ _ _ _ _ Hrd1).
    unfold ReadRecord_switch. rewrite Hm.
    cbn [Z.eqb kLastType kFullType kFirstType kMiddleType Pos.eqb
         in_fragmented_record set_fragment fragment scratch prospective_record_offset].
    rewrite Hin. cbn [negb].
    match goal with
    | |- context [ReadRecord_loop fuel ?st1 r1] =>
        destruct (IH fuel st1 r1 cur1 tr1 more1 l rest Hrd1)
          as (st' & r' & cur' & tr' & more' & HL & Hrec & Hrd' & Hpend' & Hlast);
          [first [exact Hin|reflexivity]|exact Hpro|exact Hpend1|exact Hmids
          |exact Hl|exact Hok|simpl in Hfuel; lia|]
    end.
    exists st', r', cur', tr', more'. split; [exact HL|].
    split; [|split; [exact Hrd'|split; [exact Hpend'|exact Hlast]]].
    rewrite Hrec. cbn [scratch]. unfold contents. cbn. rewrite app_assoc. reflexivity.
Qed.

(** The loop of [ReadRecord] at the start of a record, resyncing or not,
    returns the record. *)
Lemma loop_record checksum reporter io resync fs : forall fuel st r cur tr more rest,
  reading checksum reporter io resync r cur tr more ->
  in_fragmented_record st = false ->
  pending cur more = fs ++ rest ->
  is_record fs -> Forall (frame_ok checksum) fs ->
  (length fs <= fuel)%nat ->
  exists st' r' cur' tr' more',
    ReadRecord_loop fuel st r = Some (true, st', r')
    /\ record st' = contents fs
    /\ reading checksum reporter io false r' cur' tr' more'
    /\ pending cur' more' = rest
    /\ io <= last_record_offset_ File r'.
Proof.
  intros fuel st r cur tr more rest Hrd Hin Hpend Hrec Hok Hfuel.
  destruct Hrec as [f Hf|f mids l Hf Hmids Hl].
  - destruct fuel as [|fuel]; [simpl in Hfuel; lia|].
    apply Forall_cons in Hok as [Hokf _]. cbn [app] in Hpend.
    destruct (read_fragment _ _ _ _ _ _ _ _ _ _ (fragment st) Hrd Hpend Hokf)
      as (r1 & cur1 & tr1 & more1 & HR & Hrd1 & Hpend1 & Hph);
      [rewrite Hf; unfold kFullType; lia|].
    cbn [LogReader.ReadRecord_loop]. rewrite HR.
    rewrite dispatch_resynced
      by (right; rewrite Hf; unfold kFullType, kMiddleType, kLastType; lia).
    unfold ReadRecord_switch. rewrite Hf.
    cbn [Z.eqb kFullType Pos.eqb in_fragmented_record set_fragment
         fragment scratch].
    rewrite Hin. cbn [andb].
    eexists _, _, cur1, tr1, more1. split; [reflexivity|].
    split; [cbn [record]; unfold contents; cbn; rewrite app_nil_r; reflexivity|].
    split; [apply reading_set_last, (reading_resynced _ _ _ _ _ _ _ _ Hrd1)|].
    split; [exact Hpend1|]. exact Hph.
  - destruct fuel as [|fuel]; [simpl in Hfuel; lia|].
    apply Forall_cons in Hok as [Hokf Hok]. cbn [app] in Hpend.
    rewrite <- app_assoc in Hpend. cbn [app] in Hpend.
    destruct (read_fragment _ _ _ _ _ _ _ _ _ _ (fragment st) Hrd Hpend Hokf)
      as (r1 & cur1 & tr1 & more1 & HR & Hrd1 & Hpend1 & Hph);
      [rewrite Hf; unfold kFirstType; lia|].
    cbn [LogReader.ReadRecord_loop]. rewrite HR.
    rewrite dispatch_resynced
      by (right; rewrite Hf; unfold kFirstType, kMiddleType, kLastType; lia).
    unfold ReadRecord_switch. rewrite Hf.
    cbn [Z.eqb kFullType kFirstType Pos.eqb in_fragmented_record set_fragment
         fragment scratch].
    rewrite Hin. cbn [andb].
    match goal with
    | |- context [ReadRecord_loop fuel ?st1 ?r2] =>
        destruct (loop_fragments checksum reporter io mids fuel st1 r2 cur1 tr1 more1
                    l rest (reading_resynced _ _ _ _ _ _ _ _ Hrd1))
          as (st' & r' & cur' & tr' & more' & HL & Hrec & Hrd' & Hpend' & Hlast);
          [reflexivity|exact Hph|exact Hpend1|exact Hmids|exact Hl|exact Hok
          |simpl in Hfuel; rewrite length_app in Hfuel; simpl in Hfuel; lia|]
    end.
    exists st', r', cur', tr', more'. split; [exact HL|].
    split; [|split; [exact Hrd'|split; [exact Hpend'|exact Hlast]]].
    rewrite Hrec. reflexivity.
Qed.

(** At the end of the file the loop of [ReadRecord] returns false. *)
Lemma loop_eof checksum reporter io resync fuel st r cur tr more :
  reading checksum reporter io resync r cur tr more ->
  pending cur more = [] ->
  exists st' r',
    ReadRecord_loop (S fuel) st r = Some (false, st', r')
    /\ reading checksum reporter io false r' [] [] [].
Proof.
  intros Hrd Hpend.
  destruct (read_eof _ _ _ _ _ _ _ _ (fragment st) Hrd Hpend) as (r1 & HR & Hrd1).
  cbn [LogReader.ReadRecord_loop]. rewrite HR.
  rewrite dispatch_resynced by (right; vm_compute; split; discriminate).
  eexists _, _. split; [reflexivity|]. exact (reading_resynced _ _ _ _ _ _ _ _ Hrd1).
Qed.





(** After its first call, [ReadRecord] goes straight to its loop. *)
Lemma ReadRecord_later checksum reporter io resync r cur tr more fuel record0 scratch0 :
  reading checksum reporter io resync r cur tr more ->
  io <= last_record_offset_ File r ->
  ReadRecord fuel record0 scratch0 r = ReadRecord_loop fuel ReadState_init r.
Proof.
  intros Hrd Hlast. unfold LogReader.ReadRecord.
  rewrite (rd_offset _ _ _ _ _ _ _ _ Hrd).
  destruct (Z.ltb_spec (last_record_offset_ File r) io); [lia|]. reflexivity.
Qed.

(** One call of [ReadRecord] returns the next record of the file. *)
Lemma ReadRecord_record checksum reporter io fs : forall fuel r cur tr more rest,
  reading checksum reporter io false r cur tr more ->
  io <= last_record_offset_ File r ->
  pending cur more = fs ++ rest ->
  is_record fs -> Forall (frame_ok checksum) fs ->
  (length fs <= fuel)%nat ->
  exists st' r' cur' tr' more',
    ReadRecord fuel [] [] r = Some (true, st', r')
    /\ record st' = contents fs
    /\ reading checksum reporter io false r' cur' tr' more'
    /\ pending cur' more' = rest
    /\ io <= last_record_offset_ File r'.
Proof.
  intros fuel r cur tr more rest Hrd Hlast Hpend Hrec Hok Hfuel.
  rewrite (ReadRecord_later _ _ _ _ _ _ _ _ _ _ _ Hrd Hlast).
  apply (loop_record checksum reporter io false fs fuel ReadState_init r cur tr more rest);
    try assumption. reflexivity.
Qed.

(** At the end of the file [ReadRecord] returns false. *)
Lemma ReadRecord_eof checksum reporter io fuel r cur tr more :
  reading checksum reporter io false r cur tr more ->
  io <= last_record_offset_ File r ->
  pending cur more = [] ->
  exists st' r',
    ReadRecord (S fuel) [] [] r = Some (false, st', r')
    /\ reading checksum reporter io false r' [] [] [].
Proof.
  intros Hrd Hlast Hpend.
  rewrite (ReadRecord_later _ _ _ _ _ _ _ _ _ _ _ Hrd Hlast).
  apply (loop_eof _ _ _ _ _ _ _ _ _ _ Hrd Hpend).
Qed.

Lemma read_all_records checksum reporter io recs : forall fuel r cur tr more,
  reading checksum reporter io false r cur tr more ->
  io <= last_record_offset_ File r ->
  pending cur more = concat recs ->
  Forall is_record recs -> Forall (frame_ok checksum) (concat recs) ->
  (length (concat recs) < fuel)%nat ->
  exists r',
    read_all fuel r = Some (contents <$> recs, r')
    /\ reading checksum reporter io false r' [] [] [].
Proof.
  induction recs as [|fs recs IH];
    intros fuel r cur tr more Hrd Hlast Hpend Hrecs Hok Hfuel.
  - destruct fuel as [|fuel]; [simpl in Hfuel; lia|].
    destruct (ReadRecord_eof _ _ _ fuel _ _ _ _ Hrd Hlast Hpend) as (st' & r' & HR & Hrd').
    exists r'. cbn [read_all]. rewrite HR. split; [reflexivity|exact Hrd'].
  - destruct fuel as [|fuel]; [simpl in Hfuel; lia|].
    apply Forall_cons in Hrecs as [Hrec Hrecs].
    cbn [concat] in *. apply Forall_app in Hok as [Hokfs Hok].
    rewrite length_app in Hfuel.
    assert (Hne : (1 <= length fs)%nat).
    { destruct Hrec; simpl; lia. }
    destruct (ReadRecord_record _ _ _ fs (S fuel) _ _ _ _ _ Hrd Hlast Hpend Hrec Hokfs)
      as (st' & r1 & cur1 & tr1 & more1 & HR & Hst & Hrd1 & Hpend1 & Hlast1); [lia|].
    destruct (IH fuel r1 cur1 tr1 more1 Hrd1 Hlast1 Hpend1 Hrecs Hok) as (r' & HA & Hrd');
      [lia|].
    exists r'. cbn [read_all]. rewrite HR, HA, Hst. split; [reflexivity|exact Hrd'].
Qed.


(** X22.  Reading a log back.  The file returns, block by block, a
    sequence of physical records -- each block but the last of 32768
    bytes, closed by a trailer of less than 7 bytes -- and these are the
    fragments of a sequence of records: for each record one Full fragment,
    or a First, Middle ones and a Last, with the checksums right where the
    reader verifies them.  Then a reader started at offset 0 returns the
    records in order, each the concatenation of the payloads of its
    fragments, then returns false, and reports nothing. *)
Theorem log_is_read_back (file : File) (reporter : option Reporter) (checksum : bool)
        (blocks : list Block) (recs : list (list Fragment)) :
  holds file blocks ->
  concat (frags <$> blocks) = concat recs ->
  Forall is_record recs ->
  Forall (frame_ok checksum) (concat recs) ->
  exists r',
    read_all (S (length (concat recs))) (new_Reader File file reporter checksum 0)
    = Some (contents <$> recs, r')
    /\ reporter_ File r' = reporter.
Proof.
  intros Hholds Hfrags Hrecs Hok.
  assert (Hrd : reading checksum reporter 0 false (new_Reader File file reporter checksum 0)
                        [] [] blocks).
  { constructor;
      cbn [buffer_ eof_ file_ initial_offset_ resyncing_ checksum_ reporter_
           last_record_offset_ new_Reader];
      try reflexivity.
    - unfold size, kBlockSize. simpl. lia.
    - destruct blocks as [|b bs]; [destruct Hholds|]. split; [reflexivity|exact Hholds].
    - left. reflexivity. }
  destruct (read_all_records checksum reporter 0 recs (S (length (concat recs)))
              _ _ _ _ Hrd (Z.le_refl 0) Hfrags Hrecs Hok)
    as (r' & HA & Hrd'); [lia|].
  exists r'. split; [exact HA|]. exact (rd_reporter _ _ _ _ _ _ _ _ Hrd').
Qed.


End WithFile.

(** On a buffer of four bytes or more, [DecodeFixed32] as the reader calls
    it is [DecodeFixed32] of util/coding.h. *)
Lemma DecodeFixed32_agrees (ptr : Slice) :
  (4 <= length ptr)%nat ->
  Coding.DecodeFixed32 ptr = Some (DecodeFixed32 ptr).
Proof.
  intros Hlen.
  destruct ptr as [|b0 [|b1 [|b2 [|b3 rest]]]]; simpl in Hlen; try lia.
  reflexivity.
Qed.


(** A stand-in for [crc32c::Extend], whose implementation is not among the
    sources: a 32-bit value that depends on every byte and on their
    order. *)
Definition sum_crc (init_crc : Z) (data : Slice) : Z :=
  fold_left (fun crc b => wrap32 (crc * 31 + b mod 256 + 1)) data init_crc.

(** A fragment whose checksum field holds, as [EncodeFixed32] writes it,
    the masked checksum of its type and payload. *)
Definition sealed (type : Z) (data : Slice) : Fragment :=
  let field := Coding.EncodeFixed32 (crc32c.Mask (crc32c_Value sum_crc (type :: data))) in
  {| c0 := nth 0 field 0; c1 := nth 1 field 0; c2 := nth 2 field 0; c3 := nth 3 field 0;
     ftype := type; payload := data |}.

(** A record in three fragments and a record in one, in a single short
    block with a trailer of three bytes. *)
Definition short_block : Block :=
  {| frags := [sealed kFirstType [1; 2]; sealed kMiddleType [3];
               sealed kLastType [4; 5]; sealed kFullType [102]];
     trailer := [0; 0; 0] |}.

Definition short_records : list (list Fragment) :=
  [[sealed kFirstType [1; 2]; sealed kMiddleType [3]; sealed kLastType [4; 5]];
   [sealed kFullType [102]]].

Lemma log_is_read_back_witness :
  exists r',
    read_all (list Z) mem_Read mem_Skip sum_crc (S (length (concat short_records)))
      (new_Reader (list Z) (bytes short_block) (Some []) true 0)
    = Some (contents <$> short_records, r')
    /\ reporter_ (list Z) r' = Some [].
Proof.
  apply (log_is_read_back (list Z) mem_Read mem_Skip sum_crc (bytes short_block)
           (Some []) true [short_block] short_records).
  - exists []. split; [vm_compute; reflexivity|]. split; vm_compute; reflexivity.
  - reflexivity.
  - repeat constructor.
    apply (record_fragmented (sealed kFirstType [1; 2]) [sealed kMiddleType [3]]
             (sealed kLastType [4; 5])); [reflexivity|repeat constructor|reflexivity].
  - repeat constructor; intros _; vm_compute; reflexivity.
Defined.

(** The same block read with and without verification of the checksums,
    and with the last byte of the first payload changed: the reader that
    verifies checksums reports a mismatch, drops the buffer
    (37 bytes) and returns no record. *)
Example short_block_read :
  (fun '(records, r) => (records, reporter_ (list Z) r))
    <$> read_all (list Z) mem_Read mem_Skip sum_crc 5
          (new_Reader (list Z) (bytes short_block) (Some []) true 0)
  = Some ([[1; 2; 3; 4; 5]; [102]], Some [])
  /\ (fun '(records, r) => (records, reporter_ (list Z) r))
       <$> read_all (list Z) mem_Read mem_Skip sum_crc 5
             (new_Reader (list Z) (<[8%nat := 7]> (bytes short_block)) (Some []) true 0)
     = Some ([], Some [(37, Corruption "checksum mismatch")])
  /\ (fun '(records, r) => (records, reporter_ (list Z) r))
       <$> read_all (list Z) mem_Read mem_Skip sum_crc 5
             (new_Reader (list Z) (<[8%nat := 7]> (bytes short_block)) (Some []) false 0)
     = Some ([[1; 7; 3; 4; 5]; [102]], Some []).
Proof. repeat split; vm_compute; reflexivity. Qed.

(** The records of the log of three blocks above: one of 65532 bytes in
    three fragments, and one of one byte. *)
Example log_three_blocks_read :
  (fun '(records, r) => (map size records, reporter_ (list Z) r))
    <$> read_all (list Z) mem_Read mem_Skip no_crc 5
          (new_Reader (list Z) log_three_blocks (Some []) false 0)
  = Some ([65532; 1], Some []).
Proof. vm_compute. reflexivity. Qed.






(** A reader constructed with an offset in the last six bytes of block 0
    starts at block 1 as well. *)
Example resync_from_trailer :
  first_block 32765 = 32768
  /\ (fun '(records, r) => (records, reporter_ (list Z) r, resyncing_ (list Z) r))
       <$> read_all (list Z) mem_Read mem_Skip no_crc 4
             (new_Reader (list Z) log_three_blocks (Some []) false 32765)
     = Some ([[102]], Some [], false).
Proof. split; vm_compute; reflexivity. Qed.

End LogReaderFacts.

(** *** util/cache.cc : the hash table of a shard *)

Module HandleTable.
Import LRU.

(** [class HandleTable]: [list_] is the array of [length_] buckets, each
    kept as the chain of handles from its head along [next_hash]. *)
Record HandleTable := {
  length_ : Z;                  (* uint32_t *)
  elems_ : Z;                   (* uint32_t *)
  list_ : list (list handle)    (* LRUHandle** *)
}.

Section WithMemory.

(** The memory the handles live in, for their [hash] and [key()]. *)
Variable mem : gmap handle LRUHandle.

(** [hash & (length_ - 1)] *)
Definition bucket (hash_ length : Z) : nat :=
  Z.to_nat (Z.land hash_ (wrap32 (length - 1))).

(** The loop of [FindPointer] on a chain: the number of [next_hash] links
    followed.  [None]: a handle of the chain is not in memory. *)
Fixpoint find_in_chain (k : Slice) (hash_ : Z) (chain : list handle) : option nat :=
  match chain with
  | [] => Some O
  | e :: rest =>
      h ← mem !! e;
      if negb (hash h =? hash_) || negb (bool_decide (k = key h))
      then S <$> find_in_chain k hash_ rest
      else Some O
  end.

(** [LRUHandle** FindPointer(const Slice& key, uint32_t hash)]: the slot
    returned, as the bucket and the number of links from its head. *)
Definition FindPointer (k : Slice) (hash_ : Z) (t : HandleTable) : option (nat * nat) :=
  let i := bucket hash_ (length_ t) in
  chain ← list_ t !! i;
  j ← find_in_chain k hash_ chain;
  Some (i, j).

(** [LRUHandle* Lookup(const Slice& key, uint32_t hash)]; the inner
    [None] is [nullptr]. *)
Definition Lookup (k : Slice) (hash_ : Z) (t : HandleTable) : option (option handle) :=
  p ← FindPointer k hash_ t;
  chain ← list_ t !! p.1;
  Some (chain !! p.2).

(** The loop [while (new_length < elems_) new_length *= 2]. *)
Fixpoint grow (fuel : nat) (new_length elems : Z) : option Z :=
  if new_length <? elems then
    match fuel with
    | O => None
    | S fuel => grow fuel (wrap32 (new_length * 2)) elems
    end
  else Some new_length.

(** The body of the inner loop of [Resize]: [h] becomes the head of its
    bucket of [new_list]. *)
Definition relink (new_length : Z) (e : handle) (new_list : list (list handle))
  : option (list (list handle)) :=
  h ← mem !! e;
  Some (alter (cons e) (bucket (hash h) new_length) new_list).

Fixpoint rehash (new_length : Z) (es : list handle) (new_list : list (list handle))
  : option (list (list handle)) :=
  match es with
  | [] => Some new_list
  | e :: es => new_list ← relink new_length e new_list; rehash new_length es new_list
  end.

(** [void Resize()]; [None]: the loop on [new_length] does not end, a
    handle is not in memory, or [assert(elems_ == count)] fails. *)
Definition Resize (t : HandleTable) : option HandleTable :=
  new_length ← grow 32 4 (elems_ t);
  let old := concat (take (Z.to_nat (length_ t)) (list_ t)) in
  new_list ← rehash new_length old (replicate (Z.to_nat new_length) []);
  let count := wrap32 (Z.of_nat (length old)) in
  if elems_ t =? count
  then Some {| length_ := new_length; elems_ := elems_ t; list_ := new_list |}
  else None.

(** [HandleTable() : length_(0), elems_(0), list_(nullptr) { Resize(); }] *)
Definition new_HandleTable : option HandleTable :=
  Resize {| length_ := 0; elems_ := 0; list_ := [] |}.

(** [LRUHandle* Insert(LRUHandle* h)] *)
Definition Insert (e : handle) (t : HandleTable) : option (option handle * HandleTable) :=
  h ← mem !! e;
  p ← FindPointer (key h) (hash h) t;
  chain ← list_ t !! p.1;
  let old := chain !! p.2 in
  let chain := take p.2 chain ++ e :: drop (S p.2) chain in
  let t := {| length_ := length_ t; elems_ := elems_ t;
              list_ := <[p.1 := chain]> (list_ t) |} in
  match old with
  | None =>
      let t := {| length_ := length_ t; elems_ := wrap32 (elems_ t + 1);
                  list_ := list_ t |} in
      if length_ t <? elems_ t then
        (* Since each cache entry is fairly large, we aim for a small
           average linked list length (<= 1). *)
        t ← Resize t; Some (old, t)
      else Some (old, t)
  | Some _ => Some (old, t)
  end.

(** [LRUHandle* Remove(const Slice& key, uint32_t hash)] *)
Definition Remove (k : Slice) (hash_ : Z) (t : HandleTable)
  : option (option handle * HandleTable) :=
  p ← FindPointer k hash_ t;
  chain ← list_ t !! p.1;
  match chain !! p.2 with
  | Some result =>
      Some (Some result,
            {| length_ := length_ t; elems_ := wrap32 (elems_ t - 1);
               list_ := <[p.1 := take p.2 chain ++ drop (S p.2) chain]> (list_ t) |})
  | None => Some (None, t)
  end.

End WithMemory.

End HandleTable.

Module HandleTableProofs.
Import LRU HandleTable.

Section WithMemory.

Variable mem : gmap handle LRUHandle.

(** The hash and the key of a handle. *)
Definition pair_of (e : handle) : option (Z * Slice) :=
  (fun h => (hash h, key h)) <$> mem !! e.

(** The handles of the table. *)
Definition handles (t : HandleTable) : list handle := concat (list_ t).

(** The table is in order: [length_] buckets, a power of two of them;
    [elems_] handles; each handle in memory and in the bucket of its hash;
    no two handles with the same hash and key. *)
Record ordered (t : HandleTable) : Prop := {
  ord_length : Z.of_nat (length (list_ t)) = length_ t;
  ord_pow2 : exists p, 2 <= p <= 31 /\ length_ t = 2 ^ p;
  ord_elems : elems_ t = Z.of_nat (length (handles t));
  ord_bucket : forall i chain e,
      list_ t !! i = Some chain -> e ∈ chain ->
      exists h, mem !! e = Some h /\ bucket (hash h) (length_ t) = i;
  ord_nodup : NoDup (handles t);
  ord_inj : forall e1 e2,
      e1 ∈ handles t -> e2 ∈ handles t -> pair_of e1 = pair_of e2 -> e1 = e2
}.

(** Between two operations there is at most one handle per bucket on
    average. *)
Definition wf (t : HandleTable) : Prop := ordered t /\ elems_ t <= length_ t.

(** The finite map the table implements. *)
Definition represents (t : HandleTable) (m : gmap (Z * Slice) handle) : Prop :=
  forall hash_ k e,
    m !! (hash_, k) = Some e <-> e ∈ handles t /\ pair_of e = Some (hash_, k).

Lemma bucket_lt hash_ p :
  2 <= p <= 31 -> (bucket hash_ (2 ^ p) < Z.to_nat (2 ^ p))%nat.
Proof.
  intros Hp. unfold bucket.
  assert (H2 : 0 < 2 ^ p) by (apply Z.pow_pos_nonneg; lia).
  assert (Hlt : 2 ^ p < 2 ^ 32) by (apply Z.pow_lt_mono_r; lia).
  rewrite wrap32_small by lia.
  replace (2 ^ p - 1) with (Z.ones p) by (rewrite Z.ones_equiv; lia).
  rewrite Z.land_ones by lia.
  pose proof (Z.mod_pos_bound hash_ (2 ^ p) H2). lia.
Qed.

Lemma elem_of_concat_lookup (l : list (list handle)) e :
  e ∈ concat l <-> exists i chain, l !! i = Some chain /\ e ∈ chain.
Proof.
  induction l as [|c l IH]; simpl.
  - split; [intros H; inversion H|intros (i & chain & H & _); discriminate].
  - rewrite elem_of_app, IH. split.
    + intros [H|(i & chain & Hi & He)]; [exists 0%nat, c; auto|].
      exists (S i), chain. auto.
    + intros (i & chain & Hi & He). destruct i as [|i]; simpl in Hi.
      * injection Hi as <-. left. exact He.
      * right. eauto.
Qed.

(** The loop of [FindPointer] stops at the first handle with the hash and
    the key, or at the end of the chain. *)
Lemma find_in_chain_spec k hash_ chain :
  (forall e, e ∈ chain -> is_Some (mem !! e)) ->
  exists j,
    find_in_chain mem k hash_ chain = Some j
    /\ match chain !! j with
       | Some e => pair_of e = Some (hash_, k)
       | None => j = length chain
                 /\ forall e, e ∈ chain -> pair_of e <> Some (hash_, k)
       end.
Proof.
  induction chain as [|e chain IH]; intros Hmem.
  - exists 0%nat. split; [reflexivity|]. simpl. split; [reflexivity|].
    intros e He. inversion He.
  - destruct (Hmem e (list_elem_of_here _ _)) as [h Hh].
    cbn [find_in_chain]. rewrite Hh. cbn [mbind option_bind].
    destruct (Z.eqb_spec (hash h) hash_) as [Hhash|Hhash]; cbn [negb orb].
    + destruct (bool_decide_reflect (k = key h)) as [Hkey|Hkey]; cbn [negb].
      * exists 0%nat. split; [reflexivity|]. simpl. unfold pair_of. rewrite Hh.
        simpl. congruence.
      * destruct IH as (j & -> & Hj);
          [intros x Hx; apply Hmem; apply list_elem_of_further; exact Hx|].
        exists (S j). split; [reflexivity|]. simpl.
        destruct (chain !! j) as [x|]; [exact Hj|].
        destruct Hj as [-> Hno]. split; [reflexivity|].
        intros x Hx. apply elem_of_cons in Hx as [->|Hx]; [|auto].
        unfold pair_of. rewrite Hh. simpl. congruence.
    + destruct IH as (j & -> & Hj);
        [intros x Hx; apply Hmem; apply list_elem_of_further; exact Hx|].
      exists (S j). split; [reflexivity|]. simpl.
      destruct (chain !! j) as [x|]; [exact Hj|].
      destruct Hj as [-> Hno]. split; [reflexivity|].
      intros x Hx. apply elem_of_cons in Hx as [->|Hx]; [|auto].
      unfold pair_of. rewrite Hh. simpl. congruence.
Qed.

(** [FindPointer] in a table in order. *)
Lemma FindPointer_spec t m k hash_ :
  ordered t -> represents t m ->
  exists chain j,
    list_ t !! bucket hash_ (length_ t) = Some chain
    /\ FindPointer mem k hash_ t = Some (bucket hash_ (length_ t), j)
    /\ chain !! j = m !! (hash_, k)
    /\ (m !! (hash_, k) = None -> j = length chain).
Proof.
  intros Hwf Hrep.
  destruct (ord_pow2 _ Hwf) as (p & Hp & Hlen).
  assert (Hlt : (bucket hash_ (length_ t) < length (list_ t))%nat).
  { pose proof (bucket_lt hash_ p Hp) as H. rewrite <- Hlen in H.
    pose proof (ord_length _ Hwf). lia. }
  destruct (lookup_lt_is_Some_2 _ _ Hlt) as [chain Hchain].
  destruct (find_in_chain_spec k hash_ chain) as (j & Hfind & Hj).
  { intros e He. destruct (ord_bucket _ Hwf _ _ _ Hchain He) as (h & -> & _). eauto. }
  exists chain, j. split; [exact Hchain|].
  split; [unfold FindPointer; cbv zeta; rewrite Hchain; cbn; rewrite Hfind; reflexivity|].
  destruct (chain !! j) as [e|] eqn:Hcj.
  - split; [|intros Hnone; exfalso].
    + symmetry. apply Hrep. split; [|exact Hj].
      apply elem_of_concat_lookup. exists (bucket hash_ (length_ t)), chain.
      split; [exact Hchain|]. apply list_elem_of_lookup. eauto.
    + assert (Hsome : m !! (hash_, k) = Some e).
      { apply Hrep. split; [|exact Hj].
        apply elem_of_concat_lookup. exists (bucket hash_ (length_ t)), chain.
        split; [exact Hchain|]. apply list_elem_of_lookup. eauto. }
      congruence.
  - destruct Hj as [-> Hno]. split; [|reflexivity].
    destruct (m !! (hash_, k)) as [e|] eqn:Hm; [|reflexivity].
    exfalso. apply Hrep in Hm as [He Hpair].
    apply elem_of_concat_lookup in He as (i & chain' & Hi & He).
    destruct (ord_bucket _ Hwf _ _ _ Hi He) as (h & Hh & Hb).
    unfold pair_of in Hpair. rewrite Hh in Hpair. simpl in Hpair.
    injection Hpair as Hhash Hkey. rewrite Hhash in Hb. subst i.
    rewrite Hchain in Hi. injection Hi as <-.
    apply (Hno e He). unfold pair_of. rewrite Hh. simpl. congruence.
Qed.

(** The handles of a table one of whose chains is replaced. *)
Lemma handles_insert (l : list (list handle)) i c c' :
  l !! i = Some c ->
  concat l = concat (take i l) ++ c ++ concat (drop (S i) l)
  /\ concat (<[i := c']> l) = concat (take i l) ++ c' ++ concat (drop (S i) l).
Proof.
  intros Hi. split.
  - rewrite <- (take_drop_middle l i c Hi) at 1.
    rewrite concat_app. reflexivity.
  - rewrite insert_take_drop by (eapply lookup_lt_Some; exact Hi).
    rewrite concat_app. reflexivity.
Qed.

(** What the table holds once the slot [FindPointer] returned is
    overwritten or unlinked: [rest] is every handle but the one in the
    slot. *)
Lemma slot_split t i chain j :
  list_ t !! i = Some chain ->
  exists rest,
    (forall c', concat (<[i := take j chain ++ c' ++ drop (S j) chain]> (list_ t))
                ≡ₚ c' ++ rest)
    /\ match chain !! j with
       | Some o => handles t ≡ₚ o :: rest
       | None => handles t = rest
       end.
Proof.
  intros Hi. destruct (handles_insert (list_ t) i chain chain Hi) as [HE _].
  exists (concat (take i (list_ t)) ++ (take j chain ++ drop (S j) chain)
          ++ concat (drop (S i) (list_ t))).
  split.
  - intros c'.
    destruct (handles_insert (list_ t) i chain
                (take j chain ++ c' ++ drop (S j) chain) Hi) as [_ ->].
    solve_Permutation.
  - unfold handles. rewrite HE. destruct (chain !! j) as [o|] eqn:Hj.
    + rewrite <- (take_drop_middle chain j o Hj) at 1. solve_Permutation.
    + apply lookup_ge_None in Hj.
      rewrite (take_ge chain j) by lia. rewrite (drop_ge chain (S j)) by lia.
      rewrite app_nil_r. reflexivity.
Qed.

Lemma ordered_update t i chain j c' n' rest :
  ordered t -> list_ t !! i = Some chain ->
  concat (<[i := take j chain ++ c' ++ drop (S j) chain]> (list_ t)) ≡ₚ c' ++ rest ->
  (forall x, x ∈ rest -> x ∈ handles t) ->
  NoDup (c' ++ rest) ->
  (forall e, e ∈ c' -> exists h, mem !! e = Some h /\ bucket (hash h) (length_ t) = i) ->
  (forall e1 e2, e1 ∈ c' ++ rest -> e2 ∈ c' ++ rest ->
                 pair_of e1 = pair_of e2 -> e1 = e2) ->
  n' = Z.of_nat (length (c' ++ rest)) ->
  ordered {| length_ := length_ t; elems_ := n';
             list_ := <[i := take j chain ++ c' ++ drop (S j) chain]> (list_ t) |}.
Proof.
  intros Hord Hi Hperm Hsub Hnd Hc' Hinj Hn'.
  constructor; unfold handles; cbn [length_ elems_ list_].
  - rewrite length_insert. apply (ord_length _ Hord).
  - apply (ord_pow2 _ Hord).
  - rewrite Hn'. f_equal. symmetry. apply Permutation_length. exact Hperm.
  - intros i' ch e Hch He.
    apply list_lookup_insert_Some in Hch as [(-> & <- & _)|(Hne & Hch)].
    + rewrite !elem_of_app in He. destruct He as [He|[He|He]].
      * apply (ord_bucket _ Hord i' chain e Hi). eapply subseteq_take. exact He.
      * apply Hc'. exact He.
      * apply (ord_bucket _ Hord i' chain e Hi). eapply subseteq_drop. exact He.
    + apply (ord_bucket _ Hord i' ch e Hch He).
  - rewrite Hperm. exact Hnd.
  - intros e1 e2 H1 H2. rewrite Hperm in H1, H2. apply Hinj; assumption.
Qed.

Lemma represents_perm t t' m :
  handles t ≡ₚ handles t' -> represents t m -> represents t' m.
Proof.
  intros Hperm Hrep hash_ k e. rewrite <- Hperm. apply Hrep.
Qed.

(** Unlinking the handle in the slot. *)
Lemma remove_slot t m hash_ k chain j o :
  ordered t -> represents t m -> elems_ t < 2 ^ 32 ->
  list_ t !! bucket hash_ (length_ t) = Some chain ->
  chain !! j = Some o -> m !! (hash_, k) = Some o ->
  ordered {| length_ := length_ t; elems_ := wrap32 (elems_ t - 1);
             list_ := <[bucket hash_ (length_ t) := take j chain ++ drop (S j) chain]>
                        (list_ t) |}
  /\ represents {| length_ := length_ t; elems_ := wrap32 (elems_ t - 1);
                   list_ := <[bucket hash_ (length_ t) := take j chain ++ drop (S j) chain]>
                              (list_ t) |}
                (delete (hash_, k) m)
  /\ wrap32 (elems_ t - 1) = elems_ t - 1.
Proof.
  intros Hord Hrep Hbound Hchain Hj Hm.
  destruct (slot_split t _ chain j Hchain) as (rest & Hnew & Hold).
  rewrite Hj in Hold. specialize (Hnew []). cbn [app] in Hnew.
  pose proof (ord_nodup _ Hord) as Hnd. rewrite Hold in Hnd.
  apply NoDup_cons in Hnd as [Ho Hnd].
  assert (Hpo : pair_of o = Some (hash_, k)) by (apply Hrep in Hm; tauto).
  assert (Hlen : length (handles t) = S (length rest))
    by (rewrite (Permutation_length Hold); reflexivity).
  pose proof (ord_elems _ Hord) as He.
  assert (Hw : wrap32 (elems_ t - 1) = elems_ t - 1) by (apply wrap32_small; lia).
  split; [|split; [|exact Hw]].
  - apply (ordered_update t _ chain j [] _ rest Hord Hchain Hnew).
    + intros x Hx. rewrite Hold. apply list_elem_of_further. exact Hx.
    + exact Hnd.
    + intros e Hin. inversion Hin.
    + intros e1 e2 H1 H2. cbn [app] in *. apply (ord_inj _ Hord);
        rewrite Hold; apply list_elem_of_further; assumption.
    + cbn [app]. lia.
  - intros hash' k' e. unfold handles. cbn [list_].
    rewrite Hnew. destruct (decide ((hash', k') = (hash_, k))) as [Heq|Hne].
    + rewrite Heq, lookup_delete_eq. split; [discriminate|].
      intros [Hin Hpe]. exfalso. apply Ho.
      assert (e = o); [|subst; exact Hin].
      apply (ord_inj _ Hord).
      * rewrite Hold. apply list_elem_of_further. exact Hin.
      * rewrite Hold. apply list_elem_of_here.
      * congruence.
    + rewrite lookup_delete_ne by congruence. rewrite (Hrep hash' k' e), Hold.
      rewrite elem_of_cons. split; [|tauto].
      intros [[->|Hin] Hpe]; [congruence|tauto].
Qed.


(** Putting [e] in the slot. *)
Lemma insert_slot t m e h chain j :
  ordered t -> represents t m -> elems_ t < 2 ^ 32 - 1 ->
  mem !! e = Some h ->
  list_ t !! bucket (hash h) (length_ t) = Some chain ->
  chain !! j = m !! (hash h, key h) ->
  exists n',
    n' = match m !! (hash h, key h) with
         | Some _ => elems_ t
         | None => elems_ t + 1
         end
    /\ (m !! (hash h, key h) = None -> wrap32 (elems_ t + 1) = n')
    /\ ordered {| length_ := length_ t; elems_ := n';
                  list_ := <[bucket (hash h) (length_ t)
                             := take j chain ++ e :: drop (S j) chain]> (list_ t) |}
    /\ represents {| length_ := length_ t; elems_ := n';
                     list_ := <[bucket (hash h) (length_ t)
                                := take j chain ++ e :: drop (S j) chain]> (list_ t) |}
                  (<[(hash h, key h) := e]> m).
Proof.
  intros Hord Hrep Hbound Hh Hchain Hj.
  set (kk := (hash h, key h)) in *.
  assert (Hpe : pair_of e = Some kk) by (unfold pair_of; rewrite Hh; reflexivity).
  destruct (slot_split t _ chain j Hchain) as (rest & Hnew & Hold).
  specialize (Hnew [e]). cbn [app] in Hnew.
  pose proof (ord_nodup _ Hord) as Hnd.
  pose proof (ord_elems _ Hord) as Helems.
  assert (Hfacts :
    (forall x, x ∈ rest -> x ∈ handles t)
    /\ (forall x, x ∈ rest -> pair_of x <> Some kk)
    /\ (forall x, x ∈ handles t -> pair_of x <> Some kk -> x ∈ rest)
    /\ NoDup rest
    /\ match m !! kk with
       | Some _ => elems_ t
       | None => elems_ t + 1
       end = Z.of_nat (S (length rest))).
  { rewrite Hj in Hold. destruct (m !! kk) as [o|] eqn:Hm.
    - rewrite Hold in Hnd. apply NoDup_cons in Hnd as [Ho Hnd].
      assert (Hpo : pair_of o = Some kk) by (apply Hrep in Hm; tauto).
      split; [intros x Hx; rewrite Hold; apply list_elem_of_further; exact Hx|].
      split.
      { intros x Hx Hpx. apply Ho. assert (x = o); [|subst; exact Hx].
        apply (ord_inj _ Hord);
          [rewrite Hold; apply list_elem_of_further; exact Hx
          |rewrite Hold; apply list_elem_of_here|congruence]. }
      split.
      { intros x Hx Hpx. rewrite Hold in Hx.
        apply elem_of_cons in Hx as [->|Hx]; [congruence|exact Hx]. }
      split; [exact Hnd|].
      rewrite Helems, (Permutation_length Hold). reflexivity.
    - rewrite <- Hold.
      split; [auto|]. split.
      { intros x Hx Hpx. assert (m !! kk = Some x) by (apply Hrep; auto). congruence. }
      split; [auto|]. split; [exact Hnd|]. rewrite Helems. lia. }
  destruct Hfacts as (Hsub & Hno & Hback & Hndr & Hcount).
  eexists. split; [reflexivity|]. split.
  { intros Hm. rewrite Hm. apply wrap32_small. lia. }
  assert (He_rest : e ∉ rest) by (intros Hin; exact (Hno e Hin Hpe)).
  split.
  - apply (ordered_update t _ chain j [e] _ rest Hord Hchain Hnew Hsub).
    + apply NoDup_cons. auto.
    + intros x Hx. apply list_elem_of_singleton in Hx as ->. exists h. auto.
    + intros e1 e2 H1 H2 Hp. cbn [app] in H1, H2.
      apply elem_of_cons in H1 as [->|H1]; apply elem_of_cons in H2 as [->|H2].
      * reflexivity.
      * exfalso. apply (Hno e2 H2). congruence.
      * exfalso. apply (Hno e1 H1). congruence.
      * apply (ord_inj _ Hord); auto.
    + cbn [app length]. exact Hcount.
  - intros hash' k' x. unfold handles. cbn [list_]. rewrite Hnew, elem_of_cons.
    destruct (decide ((hash', k') = kk)) as [Heq|Hne].
    + rewrite Heq, lookup_insert_eq. split.
      * intros [= <-]. auto.
      * intros [[->|Hx] Hpx]; [reflexivity|]. exfalso. exact (Hno x Hx Hpx).
    + rewrite lookup_insert_ne by congruence. rewrite (Hrep hash' k' x). split.
      * intros [Hx Hpx]. split; [|exact Hpx]. right. apply Hback; [exact Hx|congruence].
      * intros [[->|Hx] Hpx]; [congruence|]. auto.
Qed.

Lemma grow_spec fuel : forall q elems,
  2 <= q <= 31 -> elems <= 2 ^ 31 -> 31 - q < Z.of_nat fuel ->
  exists p, q <= p <= 31 /\ grow fuel (2 ^ q) elems = Some (2 ^ p) /\ elems <= 2 ^ p.
Proof.
  induction fuel as [|fuel IH]; intros q elems Hq He Hf; [lia|].
  cbn [grow]. destruct (Z.ltb_spec (2 ^ q) elems) as [Hlt|Hge].
  - assert (Hq31 : q < 31).
    { destruct (Z.lt_ge_cases q 31); [assumption|].
      assert (q = 31) by lia. subst q. lia. }
    assert (Hdouble : wrap32 (2 ^ q * 2) = 2 ^ (q + 1)).
    { rewrite Z.pow_add_r by lia. change (2 ^ 1) with 2. apply wrap32_small.
      assert (2 ^ q <= 2 ^ 30) by (apply Z.pow_le_mono_r; lia). lia. }
    rewrite Hdouble.
    destruct fuel as [|fuel'].
    + cbn [grow]. destruct (Z.ltb_spec (2 ^ (q + 1)) elems) as [Hlt'|Hge'].
      * exfalso. assert (q = 30) by lia. subst q. change (2 ^ (30 + 1)) with (2 ^ 31) in Hlt'. lia.
      * exists (q + 1). split; [lia|]. split; [reflexivity|exact Hge'].
    + destruct (IH (q + 1) elems ltac:(lia) He ltac:(lia)) as (p & Hp & Hg & Hle).
      exists p. split; [lia|]. split; [exact Hg|exact Hle].
  - exists q. split; [lia|]. destruct fuel; split; auto.
Qed.

Lemma concat_alter_cons (l : list (list handle)) i e :
  (i < length l)%nat -> concat (alter (cons e) i l) ≡ₚ e :: concat l.
Proof.
  revert i. induction l as [|c l IH]; intros i Hi; simpl in Hi; [lia|].
  destruct i as [|i].
  - reflexivity.
  - change (alter (cons e) (S i) (c :: l)) with (c :: alter (cons e) i l).
    cbn [concat]. rewrite IH by lia. solve_Permutation.
Qed.

(** The loops of [Resize] that move the handles to the new array. *)
Lemma rehash_spec p es : forall nl,
  2 <= p <= 31 ->
  (forall e, e ∈ es -> is_Some (mem !! e)) ->
  length nl = Z.to_nat (2 ^ p) ->
  exists nl',
    rehash mem (2 ^ p) es nl = Some nl'
    /\ length nl' = length nl
    /\ concat nl' ≡ₚ es ++ concat nl
    /\ forall i chain x,
         nl' !! i = Some chain -> x ∈ chain ->
         (exists h, mem !! x = Some h /\ bucket (hash h) (2 ^ p) = i)
         \/ (exists chain0, nl !! i = Some chain0 /\ x ∈ chain0).
Proof.
  induction es as [|e es IH]; intros nl Hp Hmem Hlen.
  - exists nl. split; [reflexivity|]. split; [reflexivity|]. split; [reflexivity|].
    intros i chain x Hi Hx. right. eauto.
  - destruct (Hmem e (list_elem_of_here _ _)) as [h Hh].
    cbn [rehash]. unfold relink. rewrite Hh. cbn [mbind option_bind].
    pose proof (bucket_lt (hash h) p Hp) as Hb.
    destruct (IH (alter (cons e) (bucket (hash h) (2 ^ p)) nl) Hp)
      as (nl' & -> & Hlen' & Hperm & Hbk).
    { intros x Hx. apply Hmem. apply list_elem_of_further. exact Hx. }
    { rewrite length_alter. exact Hlen. }
    exists nl'. split; [reflexivity|].
    split; [rewrite Hlen', length_alter; reflexivity|].
    split.
    + rewrite Hperm, concat_alter_cons by lia. solve_Permutation.
    + intros i chain x Hi Hx.
      destruct (Hbk i chain x Hi Hx) as [Hl|(chain0 & Hc0 & Hx0)]; [left; exact Hl|].
      rewrite list_lookup_alter in Hc0. case_decide as Hib.
      * subst i.
        destruct (nl !! bucket (hash h) (2 ^ p)) as [c|] eqn:Hnl; [|discriminate].
        cbn in Hc0. injection Hc0 as <-.
        apply elem_of_cons in Hx0 as [->|Hx0].
        -- left. exists h. split; [exact Hh|reflexivity].
        -- right. eauto.
      * right. eauto.
Qed.

Lemma Resize_spec t :
  ordered t -> elems_ t <= 2 ^ 31 ->
  exists t',
    Resize mem t = Some t' /\ wf t'
    /\ handles t' ≡ₚ handles t /\ elems_ t' = elems_ t.
Proof.
  intros Hord Hbound.
  pose proof (ord_elems _ Hord) as Helems.
  destruct (grow_spec 32 2 (elems_ t) ltac:(lia) Hbound ltac:(lia))
    as (p & Hp & Hgrow & Hle).
  change (2 ^ 2) with 4 in Hgrow.
  unfold Resize. rewrite Hgrow. cbn [mbind option_bind].
  assert (Hold : concat (take (Z.to_nat (length_ t)) (list_ t)) = handles t).
  { unfold handles. rewrite take_ge; [reflexivity|].
    pose proof (ord_length _ Hord). lia. }
  rewrite Hold.
  destruct (rehash_spec p (handles t) (replicate (Z.to_nat (2 ^ p)) []))
    as (nl & -> & Hlen & Hperm & Hbk).
  { lia. }
  { intros e He. apply elem_of_concat_lookup in He as (i & chain & Hi & He).
    destruct (ord_bucket _ Hord _ _ _ Hi He) as (h & -> & _). eauto. }
  { apply length_replicate. }
  cbn [mbind option_bind].
  assert (Hempty : forall n, concat (replicate n (@nil handle)) = []).
  { intros n. induction n as [|n IHn]; [reflexivity|]. simpl. exact IHn. }
  rewrite Hempty, app_nil_r in Hperm.
  rewrite wrap32_small by lia.
  rewrite <- Helems, Z.eqb_refl.
  eexists. split; [reflexivity|].
  assert (H2p : 0 < 2 ^ p) by (apply Z.pow_pos_nonneg; lia).
  split; [split|split; [exact Hperm|reflexivity]].
  - constructor; unfold handles; cbn [length_ elems_ list_].
    + rewrite Hlen, length_replicate. lia.
    + exists p. auto.
    + rewrite Helems. f_equal. symmetry. apply Permutation_length. exact Hperm.
    + intros i chain e Hi He.
      destruct (Hbk i chain e Hi He) as [Hl|(chain0 & Hc0 & Hx0)]; [exact Hl|].
      apply lookup_replicate in Hc0 as [-> _]. inversion Hx0.
    + rewrite Hperm. apply (ord_nodup _ Hord).
    + intros e1 e2 H1 H2. rewrite Hperm in H1, H2. apply (ord_inj _ Hord); assumption.
  - cbn [length_ elems_]. exact Hle.
Qed.

Lemma wf_bound t : wf t -> elems_ t <= 2 ^ 31.
Proof.
  intros [Hord Hload]. destruct (ord_pow2 _ Hord) as (p & Hp & Hl).
  assert (2 ^ p <= 2 ^ 31) by (apply Z.pow_le_mono_r; lia). lia.
Qed.

Lemma Insert_represents t m e h :
  wf t -> represents t m -> mem !! e = Some h -> elems_ t < 2 ^ 31 ->
  exists t',
    Insert mem e t = Some (m !! (hash h, key h), t')
    /\ wf t' /\ represents t' (<[(hash h, key h) := e]> m).
Proof.
  intros [Hord Hload] Hrep Hh Hbound.
  destruct (FindPointer_spec t m (key h) (hash h) Hord Hrep)
    as (chain & j & Hchain & HF & Hcj & _).
  destruct (insert_slot t m e h chain j Hord Hrep ltac:(lia) Hh Hchain Hcj)
    as (n' & Hn' & Hwrap & Hord1 & Hrep1).
  unfold Insert. rewrite Hh. cbn [mbind option_bind]. rewrite HF.
  cbn [mbind option_bind fst snd]. rewrite Hchain. cbn [mbind option_bind].
  cbv zeta. cbn [length_ elems_ list_]. rewrite Hcj.
  destruct (m !! (hash h, key h)) as [o|] eqn:Hm.
  - subst n'. eexists. split; [reflexivity|]. split; [split|]; assumption.
  - rewrite (Hwrap eq_refl). subst n'.
    destruct (Z.ltb_spec (length_ t) (elems_ t + 1)) as [Hfull|Hroom].
    + destruct (Resize_spec _ Hord1) as (t2 & -> & Hwf2 & Hperm & _);
        [cbn [elems_]; lia|].
      cbn [mbind option_bind]. eexists. split; [reflexivity|].
      split; [exact Hwf2|].
      eapply represents_perm; [|exact Hrep1]. symmetry. exact Hperm.
    + eexists. split; [reflexivity|]. split; [split|]; [exact Hord1| |exact Hrep1].
      cbn [elems_ length_]. exact Hroom.
Qed.

(** The table of the constructor is in order and holds nothing. *)
Lemma new_HandleTable_spec :
  exists t, new_HandleTable mem = Some t /\ wf t /\ represents t ∅.
Proof.
  eexists. split; [reflexivity|]. split; [split|].
  - constructor; cbn; try reflexivity.
    + exists 2. split; [lia|reflexivity].
    + intros i chain e Hi He. exfalso.
      do 4 (destruct i as [|i]; [injection Hi as <-; inversion He|]).
      discriminate.
    + constructor.
    + intros e1 e2 H1. inversion H1.
  - cbn. lia.
  - intros hash_ k e. rewrite lookup_empty. split; [discriminate|].
    intros [H _]. inversion H.
Qed.

(** X23.  [Lookup] on the hash table is the lookup of the finite map the
    table implements: it returns the handle stored under the hash and the
    key, or [nullptr]. *)
Theorem HandleTable_Lookup (t : HandleTable) (m : gmap (Z * Slice) handle)
        (k : Slice) (hash_ : Z) :
  wf t -> represents t m ->
  Lookup mem k hash_ t = Some (m !! (hash_, k)).
Proof.
  intros [Hord _] Hrep.
  destruct (FindPointer_spec t m k hash_ Hord Hrep)
    as (chain & j & Hchain & HF & Hcj & _).
  unfold Lookup. rewrite HF. cbn [mbind option_bind fst snd].
  rewrite Hchain. cbn. rewrite Hcj. reflexivity.
Qed.

(** X24.  [Insert] on the hash table is the insertion into the finite map:
    on a table that holds fewer than 2^31 handles, it returns the handle
    the key had, or [nullptr], and leaves a table that implements the map
    with the key bound to the new handle, resized when it holds more
    handles than buckets so that it is in order again. *)
Theorem HandleTable_Insert (t : HandleTable) (m : gmap (Z * Slice) handle)
        (e : handle) (h : LRUHandle) :
  wf t -> represents t m -> mem !! e = Some h -> elems_ t < 2 ^ 31 ->
  exists t',
    Insert mem e t = Some (m !! (hash h, key h), t')
    /\ wf t' /\ represents t' (<[(hash h, key h) := e]> m).
Proof. apply Insert_represents. Qed.

(** X25.  [Remove] on the hash table is the deletion from the finite map:
    it returns the handle the key had, or [nullptr], and leaves a table in
    order that implements the map without the key. *)
Theorem HandleTable_Remove (t : HandleTable) (m : gmap (Z * Slice) handle)
        (k : Slice) (hash_ : Z) :
  wf t -> represents t m ->
  exists t',
    Remove mem k hash_ t = Some (m !! (hash_, k), t')
    /\ wf t' /\ represents t' (delete (hash_, k) m).
Proof.
  intros Hwf Hrep. pose proof (wf_bound t Hwf) as Hb. destruct Hwf as [Hord Hload].
  destruct (FindPointer_spec t m k hash_ Hord Hrep)
    as (chain & j & Hchain & HF & Hcj & _).
  unfold Remove. rewrite HF. cbn [mbind option_bind fst snd].
  rewrite Hchain. cbn [mbind option_bind]. rewrite Hcj.
  destruct (m !! (hash_, k)) as [o|] eqn:Hm.
  - destruct (remove_slot t m hash_ k chain j o Hord Hrep ltac:(lia) Hchain Hcj Hm)
      as (Hord' & Hrep' & Hw).
    eexists. split; [reflexivity|]. split; [split|]; [exact Hord'| |exact Hrep'].
    cbn [elems_ length_]. rewrite Hw. lia.
  - exists t. split; [reflexivity|]. split; [split; assumption|].
    rewrite delete_id by exact Hm. exact Hrep.
Qed.

(** Handles inserted one after the other, and the map they make. *)
Fixpoint insert_all (es : list handle) (t : HandleTable) : option HandleTable :=
  match es with
  | [] => Some t
  | e :: es =>
      match Insert mem e t with
      | Some (_, t) => insert_all es t
      | None => None
      end
  end.

Fixpoint map_of (es : list handle) (m : gmap (Z * Slice) handle)
  : gmap (Z * Slice) handle :=
  match es with
  | [] => m
  | e :: es =>
      map_of es (match mem !! e with
                 | Some h => <[(hash h, key h) := e]> m
                 | None => m
                 end)
  end.

Lemma insert_all_represents es : forall t m,
  wf t -> represents t m ->
  (forall e, e ∈ es -> is_Some (mem !! e)) ->
  elems_ t + Z.of_nat (length es) <= 2 ^ 31 ->
  exists t', insert_all es t = Some t' /\ wf t' /\ represents t' (map_of es m)
             /\ elems_ t' <= elems_ t + Z.of_nat (length es).
Proof.
  induction es as [|e es IH]; intros t m Hwf Hrep Hmem Hbound.
  - exists t. cbn [insert_all map_of length].
    split; [reflexivity|]. split; [exact Hwf|]. split; [exact Hrep|]. lia.
  - destruct (Hmem e (list_elem_of_here _ _)) as [h Hh].
    cbn [length] in Hbound.
    assert (Hlt : elems_ t < 2 ^ 31) by lia.
    destruct (Insert_represents t m e h Hwf Hrep Hh Hlt) as (t1 & HI & Hwf1 & Hrep1).
    assert (He1 : elems_ t1 <= elems_ t + 1).
    { destruct Hwf as [Hord _]. destruct Hwf1 as [Hord1 _].
      rewrite (ord_elems _ Hord1), (ord_elems _ Hord).
      assert (Hsub : forall x, x ∈ handles t1 -> x = e \/ x ∈ handles t).
      { intros x Hx. destruct (decide (x = e)) as [|Hne]; [auto|right].
        destruct (mem !! x) as [hx|] eqn:Hhx.
        - assert (Hmx : (<[(hash h, key h) := e]> m) !! (hash hx, key hx) = Some x).
          { apply Hrep1. split; [exact Hx|]. unfold pair_of. rewrite Hhx. reflexivity. }
          apply lookup_insert_Some in Hmx as [[_ Heq]|[_ Hmx]]; [congruence|].
          apply Hrep in Hmx. tauto.
        - apply elem_of_concat_lookup in Hx as (i & chain & Hi & Hxc).
          destruct (ord_bucket _ Hord1 _ _ _ Hi Hxc) as (hx & Hhx' & _). congruence. }
      assert (Hincl : handles t1 ⊆ e :: handles t).
      { intros x Hx. apply elem_of_cons. apply Hsub. exact Hx. }
      pose proof (submseteq_length _ _
                    (NoDup_submseteq _ _ (ord_nodup _ Hord1) Hincl)) as Hlen.
      cbn [length] in Hlen. lia. }
    destruct (IH t1 _ Hwf1 Hrep1) as (t' & HA & Hwf' & Hrep' & He').
    { intros x Hx. apply Hmem. apply list_elem_of_further. exact Hx. }
    { lia. }
    exists t'. cbn [insert_all map_of]. rewrite HI, Hh.
    split; [exact HA|]. split; [exact Hwf'|]. split; [exact Hrep'|].
    cbn [length]. lia.
Qed.

End WithMemory.

(** Six handles in memory: the hashes of the first three fall into the
    same bucket of a table of four, the fifth makes the table grow, and
    the sixth has the hash and key of the first. *)
Definition sample_handle (k hash_ : Z) : LRUHandle :=
  {| value := 0; deleter := 0; charge := 1; key := [k]; in_cache := true;
     refs := 1; hash := hash_ |}.

Definition sample_mem : gmap handle LRUHandle :=
  list_to_map [(1%positive, sample_handle 65 1); (2%positive, sample_handle 66 5);
               (3%positive, sample_handle 67 9); (4%positive, sample_handle 68 2);
               (5%positive, sample_handle 69 13); (6%positive, sample_handle 65 1)].

Definition sample_handles : list handle :=
  [1%positive; 2%positive; 3%positive; 4%positive; 5%positive].

Definition sample_table : HandleTable :=
  default {| length_ := 0; elems_ := 0; list_ := [] |}
          (new_HandleTable sample_mem ≫= insert_all sample_mem sample_handles).

Definition sample_map : gmap (Z * Slice) handle :=
  map_of sample_mem sample_handles ∅.

Lemma sample_table_spec :
  wf sample_mem sample_table /\ represents sample_mem sample_table sample_map.
Proof.
  destruct (new_HandleTable_spec sample_mem) as (t0 & H0 & Hwf0 & Hrep0).
  destruct (insert_all_represents sample_mem sample_handles t0 ∅ Hwf0 Hrep0)
    as (t & HA & Hwf & Hrep & _).
  - intros e He. unfold sample_handles in He.
    repeat (apply elem_of_cons in He as [->|He]; [vm_compute; eauto|]).
    inversion He.
  - injection H0 as <-. vm_compute. discriminate.
  - unfold sample_table. rewrite H0. cbn [mbind option_bind]. rewrite HA.
    split; assumption.
Qed.

Lemma HandleTable_Lookup_witness :
  Lookup sample_mem [67] 9 sample_table = Some (sample_map !! (9, [67])).
Proof.
  apply (HandleTable_Lookup sample_mem sample_table sample_map [67] 9);
    apply sample_table_spec.
Defined.

Lemma HandleTable_Insert_witness :
  exists t',
    Insert sample_mem 6%positive sample_table
    = Some (sample_map !! (hash (sample_handle 65 1), key (sample_handle 65 1)), t')
    /\ wf sample_mem t'
    /\ represents sample_mem t'
         (<[(hash (sample_handle 65 1), key (sample_handle 65 1)) := 6%positive]>
            sample_map).
Proof.
  apply (HandleTable_Insert sample_mem sample_table sample_map 6%positive
           (sample_handle 65 1));
    [apply sample_table_spec|apply sample_table_spec|reflexivity
    |vm_compute; reflexivity].
Defined.

Lemma HandleTable_Remove_witness :
  exists t',
    Remove sample_mem [66] 5 sample_table = Some (sample_map !! (5, [66]), t')
    /\ wf sample_mem t'
    /\ represents sample_mem t' (delete (5, [66]) sample_map).
Proof.
  apply (HandleTable_Remove sample_mem sample_table sample_map [66] 5);
    apply sample_table_spec.
Defined.

(** The sample table has grown to eight buckets; the handles of hash 1
    and 9 share a bucket, those of hash 5 and 13 another. *)
Example sample_table_buckets :
  sample_table
  = {| length_ := 8; elems_ := 5;
       list_ := [[]; [3%positive; 1%positive]; [4%positive]; []; [];
                 [5%positive; 2%positive]; []; []] |}
  /\ Lookup sample_mem [67] 9 sample_table = Some (Some 3%positive)
  /\ Lookup sample_mem [67] 1 sample_table = Some None
  /\ fst <$> Insert sample_mem 6%positive sample_table = Some (Some 1%positive)
  /\ (list_ ∘ snd) <$> Remove sample_mem [65] 1 sample_table
     = Some [[]; [3%positive]; [4%positive]; []; []; [5%positive; 2%positive]; []; []].
Proof. repeat split; vm_compute; reflexivity. Qed.

End HandleTableProofs.

(** *** table/two_level_iterator.cc *)

Module TwoLevel.
Import Merger.

Abbreviation Status := LogReader.Status.
Abbreviation Status_ok := LogReader.Status_ok.

(** [class TwoLevelIterator].  The index iterator ranges over a finite
    sequence of entries, the value of each being the handle of a data
    block; [data_iter_] is [None] when the wrapper holds [nullptr]. *)
Record TwoLevelIterator := {
  status_ : Status;
  index_iter_ : VecIter;
  data_iter_ : option VecIter;
  data_block_handle_ : Slice
}.

(** [status()] of an iterator over a sequence in memory. *)
Definition child_status (c : VecIter) : Status := LogReader.OK.

Section WithBlocks.

Variable Compare : Slice -> Slice -> Z.

(** The call of [block_function_] on [arg_], [options_] and a handle: the
    iterator over the block of that handle, or [nullptr]. *)
Variable block_function : Slice -> option VecIter.

(** [TwoLevelIterator(index_iter, block_function, arg, options)] *)
Definition NewTwoLevelIterator (index_iter : VecIter) : TwoLevelIterator :=
  {| status_ := LogReader.OK; index_iter_ := index_iter; data_iter_ := None;
     data_block_handle_ := [] |}.

(** [data_iter_.Valid()] of the wrapper. *)
Definition Valid (t : TwoLevelIterator) : bool :=
  match data_iter_ t with
  | Some d => child_Valid d
  | None => false
  end.

(** [key()] and [value()]; [None]: [assert(Valid())] fails. *)
Definition key (t : TwoLevelIterator) : option Slice :=
  match data_iter_ t with
  | Some d => if child_Valid d then Some (child_key d) else None
  | None => None
  end.

Definition value (t : TwoLevelIterator) : option Slice :=
  match data_iter_ t with
  | Some d => if child_Valid d then Some (child_value d) else None
  | None => None
  end.

(** [void SaveError(const Status& s)] *)
Definition SaveError (s : Status) (t : TwoLevelIterator) : TwoLevelIterator :=
  if Status_ok (status_ t) && negb (Status_ok s)
  then {| status_ := s; index_iter_ := index_iter_ t; data_iter_ := data_iter_ t;
          data_block_handle_ := data_block_handle_ t |}
  else t.

(** [void SetDataIterator(Iterator* data_iter)] *)
Definition SetDataIterator (data_iter : option VecIter) (t : TwoLevelIterator)
  : TwoLevelIterator :=
  let t := match data_iter_ t with
           | Some d => SaveError (child_status d) t
           | None => t
           end in
  {| status_ := status_ t; index_iter_ := index_iter_ t; data_iter_ := data_iter;
     data_block_handle_ := data_block_handle_ t |}.

Definition set_index (i : VecIter) (t : TwoLevelIterator) : TwoLevelIterator :=
  {| status_ := status_ t; index_iter_ := i; data_iter_ := data_iter_ t;
     data_block_handle_ := data_block_handle_ t |}.

(** [data_iter_.F()] where the wrapper holds an iterator. *)
Definition on_data (F : VecIter -> VecIter) (t : TwoLevelIterator) : TwoLevelIterator :=
  {| status_ := status_ t; index_iter_ := index_iter_ t;
     data_iter_ := F <$> data_iter_ t;
     data_block_handle_ := data_block_handle_ t |}.

(** [void InitDataBlock()] *)
Definition InitDataBlock (t : TwoLevelIterator) : TwoLevelIterator :=
  if negb (child_Valid (index_iter_ t)) then SetDataIterator None t
  else
    let handle := child_value (index_iter_ t) in
    if bool_decide (is_Some (data_iter_ t))
       && bool_decide (handle = data_block_handle_ t)
    then
      (* data_iter_ is already constructed with this iterator, so
         no need to change anything *)
      t
    else
      let iter := block_function handle in
      SetDataIterator iter
        {| status_ := status_ t; index_iter_ := index_iter_ t;
           data_iter_ := data_iter_ t; data_block_handle_ := handle |}.

(** [void SkipEmptyDataBlocksForward()]; [None]: the fuel ran out. *)
Fixpoint SkipEmptyDataBlocksForward (fuel : nat) (t : TwoLevelIterator)
  : option TwoLevelIterator :=
  if negb (Valid t) then
    (* Move to next block *)
    if negb (child_Valid (index_iter_ t)) then Some (SetDataIterator None t)
    else
      match fuel with
      | O => None
      | S fuel =>
          let t := set_index (child_Next (index_iter_ t)) t in
          let t := InitDataBlock t in
          let t := on_data child_SeekToFirst t in
          SkipEmptyDataBlocksForward fuel t
      end
  else Some t.

(** [void SkipEmptyDataBlocksBackward()] *)
Fixpoint SkipEmptyDataBlocksBackward (fuel : nat) (t : TwoLevelIterator)
  : option TwoLevelIterator :=
  if negb (Valid t) then
    (* Move to previous block *)
    if negb (child_Valid (index_iter_ t)) then Some (SetDataIterator None t)
    else
      match fuel with
      | O => None
      | S fuel =>
          let t := set_index (child_Prev (index_iter_ t)) t in
          let t := InitDataBlock t in
          let t := on_data child_SeekToLast t in
          SkipEmptyDataBlocksBackward fuel t
      end
  else Some t.

Definition Seek (fuel : nat) (target : Slice) (t : TwoLevelIterator)
  : option TwoLevelIterator :=
  let t := set_index (child_Seek Compare target (index_iter_ t)) t in
  let t := InitDataBlock t in
  let t := on_data (child_Seek Compare target) t in
  SkipEmptyDataBlocksForward fuel t.

Definition SeekToFirst (fuel : nat) (t : TwoLevelIterator) : option TwoLevelIterator :=
  let t := set_index (child_SeekToFirst (index_iter_ t)) t in
  let t := InitDataBlock t in
  let t := on_data child_SeekToFirst t in
  SkipEmptyDataBlocksForward fuel t.

Definition SeekToLast (fuel : nat) (t : TwoLevelIterator) : option TwoLevelIterator :=
  let t := set_index (child_SeekToLast (index_iter_ t)) t in
  let t := InitDataBlock t in
  let t := on_data child_SeekToLast t in
  SkipEmptyDataBlocksBackward fuel t.

(** [Next()] and [Prev()]; [None] also where [assert(Valid())] fails. *)
Definition Next (fuel : nat) (t : TwoLevelIterator) : option TwoLevelIterator :=
  if Valid t then SkipEmptyDataBlocksForward fuel (on_data child_Next t) else None.

Definition Prev (fuel : nat) (t : TwoLevelIterator) : option TwoLevelIterator :=
  if Valid t then SkipEmptyDataBlocksBackward fuel (on_data child_Prev t) else None.

Definition apply (fuel : nat) (op : IterOp) (t : TwoLevelIterator)
  : option TwoLevelIterator :=
  match op with
  | OpSeekToFirst => SeekToFirst fuel t
  | OpSeekToLast => SeekToLast fuel t
  | OpSeek target => Seek fuel target t
  | OpNext => Next fuel t
  | OpPrev => Prev fuel t
  end.

Fixpoint run (fuel : nat) (ops : list IterOp) (t : TwoLevelIterator)
  : option TwoLevelIterator :=
  match ops with
  | [] => Some t
  | op :: ops =>
      match apply fuel op t with
      | Some t => run fuel ops t
      | None => None
      end
  end.

End WithBlocks.

End TwoLevel.

Module TwoLevelFacts.
Import Merger MergerProofs TwoLevel.

Abbreviation entry := (Slice * Slice)%type.

Section WithBlocks.

Variable Compare : Slice -> Slice -> Z.
Variable block_function : Slice -> option VecIter.

(** The entries of the index block, and the block each of them names. *)
Variable idx : list entry.

Hypothesis blocks_open : forall e, e ∈ idx -> is_Some (block_function e.2).

Definition block_of (handle : Slice) : list entry :=
  match block_function handle with
  | Some d => entries d
  | None => []
  end.

Definition blocks : list (list entry) := (fun e => block_of e.2) <$> idx.

(** All the entries of the table, block after block. *)
Definition all_entries : list entry := concat blocks.

(** The number of entries before block [i]. *)
Definition offset (i : nat) : nat := length (concat (take i blocks)).

Lemma offset_S i b : blocks !! i = Some b -> offset (S i) = (offset i + length b)%nat.
Proof.
  intros Hb. unfold offset. rewrite (take_S_r _ _ _ Hb), concat_app, length_app.
  simpl. rewrite app_nil_r. reflexivity.
Qed.

Lemma offset_end i : (length blocks <= i)%nat -> offset i = length all_entries.
Proof. intros Hi. unfold offset, all_entries. rewrite take_ge by lia. reflexivity. Qed.

Lemma offset_0 : offset 0 = 0%nat.
Proof. reflexivity. Qed.

Lemma all_entries_split i b :
  blocks !! i = Some b ->
  all_entries = concat (take i blocks) ++ b ++ concat (drop (S i) blocks).
Proof.
  intros Hb. unfold all_entries. rewrite <- (take_drop_middle _ _ _ Hb) at 1.
  rewrite concat_app. reflexivity.
Qed.

Lemma all_entries_lookup i b q :
  blocks !! i = Some b -> (q < length b)%nat ->
  all_entries !! (offset i + q)%nat = b !! q.
Proof.
  intros Hb Hq. rewrite (all_entries_split i b Hb). unfold offset.
  rewrite lookup_app_r by lia.
  replace (length (concat (take i blocks)) + q - length (concat (take i blocks)))%nat
    with q by lia.
  apply lookup_app_l. exact Hq.
Qed.

Lemma offset_le i : (offset i <= length all_entries)%nat.
Proof.
  unfold offset, all_entries. rewrite <- (take_drop i blocks) at 2.
  rewrite concat_app, length_app. lia.
Qed.

Lemma offset_block_le i b :
  blocks !! i = Some b -> (offset i + length b <= length all_entries)%nat.
Proof. intros Hb. rewrite <- (offset_S i b Hb). apply offset_le. Qed.

Lemma blocks_lookup i e : idx !! i = Some e -> blocks !! i = Some (block_of e.2).
Proof. intros He. unfold blocks. rewrite list_lookup_fmap, He. reflexivity. Qed.

Lemma length_blocks : length blocks = length idx.
Proof. unfold blocks. apply length_fmap. Qed.

(** The iterator is in block [i], its data iterator at position [q]. *)
Definition at_block (t : TwoLevelIterator) (i q : nat) : Prop :=
  index_iter_ t = {| entries := idx; pos := i |}
  /\ exists e, idx !! i = Some e
               /\ data_iter_ t = Some {| entries := block_of e.2; pos := q |}
               /\ data_block_handle_ t = e.2.

Lemma SetDataIterator_eq d t :
  SetDataIterator d t
  = {| status_ := status_ t; index_iter_ := index_iter_ t; data_iter_ := d;
       data_block_handle_ := data_block_handle_ t |}.
Proof.
  unfold SetDataIterator. destruct (data_iter_ t); [|reflexivity].
  unfold SaveError, child_status. cbn [LogReader.Status_ok negb].
  rewrite andb_false_r. reflexivity.
Qed.

(** [InitDataBlock] then a seek in the block, with the index at entry
    [i]. *)
Lemma InitDataBlock_at (F : VecIter -> VecIter) (f : list entry -> nat) t i e :
  (forall d, F d = {| entries := entries d; pos := f (entries d) |}) ->
  index_iter_ t = {| entries := idx; pos := i |} ->
  idx !! i = Some e ->
  (forall d, data_iter_ t = Some d -> entries d = block_of (data_block_handle_ t)) ->
  at_block (on_data F (InitDataBlock block_function t)) i (f (block_of e.2)).
Proof.
  intros HF Hidx He Hdata.
  destruct (MergerFacts.entry_valid idx i e He) as (Hv & _ & Hval).
  unfold InitDataBlock. rewrite Hidx, Hv. cbn [negb]. rewrite Hval. cbv zeta.
  destruct (bool_decide (is_Some (data_iter_ t)) && bool_decide (e.2 = data_block_handle_ t))
    eqn:Hreuse.
  - apply andb_true_iff in Hreuse as [Hsome Heq].
    apply bool_decide_eq_true in Hsome as [d Hd]. apply bool_decide_eq_true in Heq.
    split; [exact Hidx|]. exists e. split; [exact He|]. unfold on_data.
    cbn [data_iter_ data_block_handle_]. rewrite Hd. cbn [fmap option_fmap option_map].
    rewrite HF, (Hdata d Hd), <- Heq. auto.
  - rewrite SetDataIterator_eq. cbn [status_ index_iter_ data_block_handle_].
    destruct (blocks_open e) as [d Hd]; [apply list_elem_of_lookup; eauto|].
    split; [first [exact Hidx|reflexivity]|]. exists e. split; [exact He|]. unfold on_data.
    cbn [data_iter_ data_block_handle_]. rewrite Hd. cbn [fmap option_fmap option_map].
    rewrite HF. unfold block_of. rewrite Hd. auto.
Qed.

(** [InitDataBlock] with the index past its entries. *)
Lemma InitDataBlock_end (F : VecIter -> VecIter) t i :
  index_iter_ t = {| entries := idx; pos := i |} -> (length idx <= i)%nat ->
  data_iter_ (on_data F (InitDataBlock block_function t)) = None
  /\ index_iter_ (on_data F (InitDataBlock block_function t))
     = {| entries := idx; pos := i |}.
Proof.
  intros Hidx Hi. unfold InitDataBlock. rewrite Hidx.
  unfold child_Valid. cbn [entries pos].
  destruct (Nat.ltb_spec i (length idx)); [lia|]. cbn [negb].
  rewrite SetDataIterator_eq. split; [reflexivity|exact Hidx].
Qed.

Lemma at_block_data t i q :
  at_block t i q ->
  forall d, data_iter_ t = Some d -> entries d = block_of (data_block_handle_ t).
Proof.
  intros (_ & e & _ & Hd & Hh) d Hd'. rewrite Hd in Hd'. injection Hd' as <-.
  rewrite Hh. reflexivity.
Qed.

Lemma skip_forward_valid fuel t :
  Valid t = true -> SkipEmptyDataBlocksForward block_function fuel t = Some t.
Proof. intros Hv. destruct fuel; cbn [SkipEmptyDataBlocksForward]; rewrite Hv; reflexivity. Qed.

Lemma skip_forward_end fuel t :
  Valid t = false -> child_Valid (index_iter_ t) = false ->
  SkipEmptyDataBlocksForward block_function fuel t = Some (SetDataIterator None t).
Proof.
  intros Hv Hi. destruct fuel; cbn [SkipEmptyDataBlocksForward]; rewrite Hv, Hi; reflexivity.
Qed.

Lemma skip_forward_step fuel t :
  Valid t = false -> child_Valid (index_iter_ t) = true ->
  SkipEmptyDataBlocksForward block_function (S fuel) t
  = SkipEmptyDataBlocksForward block_function fuel
      (on_data child_SeekToFirst
         (InitDataBlock block_function (set_index (child_Next (index_iter_ t)) t))).
Proof. intros Hv Hi. cbn [SkipEmptyDataBlocksForward]. rewrite Hv, Hi. reflexivity. Qed.

Lemma skip_backward_valid fuel t :
  Valid t = true -> SkipEmptyDataBlocksBackward block_function fuel t = Some t.
Proof. intros Hv. destruct fuel; cbn [SkipEmptyDataBlocksBackward]; rewrite Hv; reflexivity. Qed.

Lemma skip_backward_end fuel t :
  Valid t = false -> child_Valid (index_iter_ t) = false ->
  SkipEmptyDataBlocksBackward block_function fuel t = Some (SetDataIterator None t).
Proof.
  intros Hv Hi. destruct fuel; cbn [SkipEmptyDataBlocksBackward]; rewrite Hv, Hi; reflexivity.
Qed.

Lemma skip_backward_step fuel t :
  Valid t = false -> child_Valid (index_iter_ t) = true ->
  SkipEmptyDataBlocksBackward block_function (S fuel) t
  = SkipEmptyDataBlocksBackward block_function fuel
      (on_data child_SeekToLast
         (InitDataBlock block_function (set_index (child_Prev (index_iter_ t)) t))).
Proof. intros Hv Hi. cbn [SkipEmptyDataBlocksBackward]. rewrite Hv, Hi. reflexivity. Qed.

(** The iterator is at entry [p] of the table, or past its entries. *)
Definition lands (t : TwoLevelIterator) (p : nat) : Prop :=
  entries (index_iter_ t) = idx
  /\ match all_entries !! p with
     | Some _ =>
         exists i q e,
           index_iter_ t = {| entries := idx; pos := i |}
           /\ idx !! i = Some e
           /\ data_iter_ t = Some {| entries := block_of e.2; pos := q |}
           /\ data_block_handle_ t = e.2
           /\ (q < length (block_of e.2))%nat
           /\ (offset i + q)%nat = p
     | None => data_iter_ t = None
     end.

Lemma at_block_valid t i q e :
  at_block t i q -> idx !! i = Some e ->
  Valid t = (q <? length (block_of e.2))%nat
  /\ child_Valid (index_iter_ t) = true.
Proof.
  intros (Hidx & e' & He' & Hd & _) He. rewrite He in He'. injection He' as <-.
  unfold Valid. rewrite Hd, Hidx. unfold child_Valid. cbn [entries pos].
  split; [reflexivity|]. apply Nat.ltb_lt. eapply lookup_lt_Some. exact He.
Qed.

Lemma lands_at t i q e :
  at_block t i q -> idx !! i = Some e -> (q < length (block_of e.2))%nat ->
  lands t (offset i + q).
Proof.
  intros Hat He Hq. pose proof Hat as (Hidx & e' & He' & Hd & Hh).
  rewrite He in He'. injection He' as <-.
  split; [rewrite Hidx; reflexivity|].
  rewrite (all_entries_lookup i _ q (blocks_lookup i e He) Hq).
  destruct (lookup_lt_is_Some_2 _ _ Hq) as [x ->].
  exists i, q, e. auto 10.
Qed.

Lemma lands_end t p :
  entries (index_iter_ t) = idx -> data_iter_ t = None ->
  (length all_entries <= p)%nat -> lands t p.
Proof.
  intros Hidx Hd Hp. split; [exact Hidx|].
  rewrite lookup_ge_None_2 by exact Hp. exact Hd.
Qed.

(** [SkipEmptyDataBlocksForward] from block [i], position [q]. *)
Lemma skip_forward fuel : forall t i q e,
  at_block t i q -> idx !! i = Some e -> (q <= length (block_of e.2))%nat ->
  (length idx - i <= fuel)%nat ->
  exists t',
    SkipEmptyDataBlocksForward block_function fuel t = Some t'
    /\ lands t' (offset i + q).
Proof.
  induction fuel as [|fuel IH]; intros t i q e Hat He Hq Hfuel;
    destruct (at_block_valid t i q e Hat He) as [Hv Hiv];
    pose proof (lookup_lt_Some _ _ _ He) as Hi;
    destruct (Nat.ltb_spec q (length (block_of e.2))) as [Hlt|Hge];
    try (exists t; split; [apply skip_forward_valid; exact Hv
                         |apply (lands_at t i q e); assumption]).
  - lia.
  - assert (q = length (block_of e.2)) by lia. subst q.
    rewrite (skip_forward_step _ _ Hv Hiv).
    pose proof Hat as (Hidx & _).
    set (t1 := set_index (child_Next (index_iter_ t)) t).
    assert (Hidx1 : index_iter_ t1 = {| entries := idx; pos := S i |}).
    { unfold t1. cbn [index_iter_ set_index]. rewrite Hidx. reflexivity. }
    assert (Hdata1 : forall d, data_iter_ t1 = Some d ->
                               entries d = block_of (data_block_handle_ t1)).
    { exact (at_block_data t i _ Hat). }
    rewrite <- (offset_S i _ (blocks_lookup i e He)).
    destruct (idx !! S i) as [e'|] eqn:He'.
    + pose proof (InitDataBlock_at child_SeekToFirst (fun _ => 0%nat) t1 (S i) e'
                    ltac:(reflexivity) Hidx1 He' Hdata1) as Hat2.
      destruct (IH _ (S i) 0%nat e' Hat2 He' ltac:(lia) ltac:(lia)) as (t' & HS & Hl).
      exists t'. split; [exact HS|]. rewrite Nat.add_0_r in Hl. exact Hl.
    + apply lookup_ge_None in He'.
      destruct (InitDataBlock_end child_SeekToFirst t1 (S i) Hidx1 He') as [Hd2 Hi2].
      set (t2 := on_data child_SeekToFirst (InitDataBlock block_function t1)) in *.
      assert (Hv2 : Valid t2 = false) by (unfold Valid; rewrite Hd2; reflexivity).
      assert (Hiv2 : child_Valid (index_iter_ t2) = false).
      { rewrite Hi2. unfold child_Valid. cbn [entries pos]. apply Nat.ltb_ge. lia. }
      rewrite (skip_forward_end _ _ Hv2 Hiv2). eexists. split; [reflexivity|].
      apply lands_end.
      * rewrite SetDataIterator_eq. cbn [index_iter_]. rewrite Hi2. reflexivity.
      * rewrite SetDataIterator_eq. reflexivity.
      * rewrite offset_end; [lia|]. rewrite length_blocks. lia.
Qed.

(** The entry before entry [n]; past the entries when there is none. *)
Definition before (n : nat) : nat :=
  match n with
  | O => length all_entries
  | S p => p
  end.

(** [SkipEmptyDataBlocksBackward] from block [i], position [q], where
    [q] past the block stands for before its first entry. *)
Lemma skip_backward fuel : forall t i q e,
  at_block t i q -> idx !! i = Some e -> (q <= length (block_of e.2))%nat ->
  (i < fuel)%nat ->
  exists t',
    SkipEmptyDataBlocksBackward block_function fuel t = Some t'
    /\ lands t' (if (q <? length (block_of e.2))%nat then (offset i + q)%nat
                 else before (offset i)).
Proof.
  induction fuel as [|fuel IH]; intros t i q e Hat He Hq Hfuel; [lia|].
  destruct (at_block_valid t i q e Hat He) as [Hv Hiv].
  destruct (Nat.ltb_spec q (length (block_of e.2))) as [Hlt|Hge].
  - exists t. split; [apply skip_backward_valid; exact Hv
                     |apply (lands_at t i q e); assumption].
  - rewrite (skip_backward_step _ _ Hv Hiv).
    pose proof Hat as (Hidx & _).
    set (t1 := set_index (child_Prev (index_iter_ t)) t).
    assert (Hdata1 : forall d, data_iter_ t1 = Some d ->
                               entries d = block_of (data_block_handle_ t1)).
    { exact (at_block_data t i _ Hat). }
    destruct i as [|i0].
    + assert (Hidx1 : index_iter_ t1 = {| entries := idx; pos := length idx |}).
      { unfold t1. cbn [index_iter_ set_index]. rewrite Hidx. reflexivity. }
      destruct (InitDataBlock_end child_SeekToLast t1 _ Hidx1 (le_n _)) as [Hd2 Hi2].
      set (t2 := on_data child_SeekToLast (InitDataBlock block_function t1)) in *.
      assert (Hv2 : Valid t2 = false) by (unfold Valid; rewrite Hd2; reflexivity).
      assert (Hiv2 : child_Valid (index_iter_ t2) = false).
      { rewrite Hi2. unfold child_Valid. cbn [entries pos]. apply Nat.ltb_ge. lia. }
      rewrite (skip_backward_end _ _ Hv2 Hiv2). eexists. split; [reflexivity|].
      apply lands_end.
      * rewrite SetDataIterator_eq. cbn [index_iter_]. rewrite Hi2. reflexivity.
      * rewrite SetDataIterator_eq. reflexivity.
      * rewrite offset_0. simpl. lia.
    + assert (Hidx1 : index_iter_ t1 = {| entries := idx; pos := i0 |}).
      { unfold t1. cbn [index_iter_ set_index]. rewrite Hidx. reflexivity. }
      pose proof (lookup_lt_Some _ _ _ He) as Hi.
      destruct (lookup_lt_is_Some_2 idx i0 ltac:(lia)) as [e0 He0].
      pose proof (InitDataBlock_at child_SeekToLast (fun es => Nat.pred (length es))
                    t1 i0 e0 ltac:(reflexivity) Hidx1 He0 Hdata1) as Hat2.
      destruct (IH _ i0 _ e0 Hat2 He0 ltac:(lia) ltac:(lia)) as (t' & HS & Hl).
      exists t'. split; [exact HS|].
      rewrite (offset_S i0 _ (blocks_lookup i0 e0 He0)).
      destruct (length (block_of e0.2)) as [|n] eqn:Hlen; cbn [Nat.pred] in Hl.
      * rewrite Nat.ltb_irrefl in Hl. rewrite Nat.add_0_r. exact Hl.
      * destruct (Nat.ltb_spec n (S n)); [|lia].
        replace (offset i0 + S n)%nat with (S (offset i0 + n)) by lia. exact Hl.
Qed.

(** What holds of the iterator between two calls. *)
Definition inv (t : TwoLevelIterator) : Prop :=
  entries (index_iter_ t) = idx
  /\ forall d, data_iter_ t = Some d -> entries d = block_of (data_block_handle_ t).

Lemma lands_inv t p : lands t p -> inv t.
Proof.
  intros [Hidx H]. split; [exact Hidx|].
  destruct (all_entries !! p).
  - destruct H as (i & q & e & _ & _ & Hd & Hh & _). intros d Hd'.
    rewrite Hd in Hd'. injection Hd' as <-. rewrite Hh. reflexivity.
  - intros d Hd. congruence.
Qed.

Lemma lands_valid t p x :
  lands t p -> all_entries !! p = Some x ->
  exists i q e,
    at_block t i q /\ idx !! i = Some e /\ (q < length (block_of e.2))%nat
    /\ (offset i + q)%nat = p
    /\ Valid t = true /\ key t = Some x.1 /\ value t = Some x.2.
Proof.
  intros [Hidx H] Hx. rewrite Hx in H.
  destruct H as (i & q & e & Hi & He & Hd & Hh & Hq & Hp).
  exists i, q, e. split; [split; [exact Hi|eauto]|]. split; [exact He|].
  split; [exact Hq|]. split; [exact Hp|].
  rewrite <- Hp, (all_entries_lookup i _ q (blocks_lookup i e He) Hq) in Hx.
  destruct (MergerFacts.entry_valid _ _ _ Hx) as (Hv & Hk & Hvl).
  unfold Valid, key, value. rewrite Hd, Hv, Hk, Hvl. auto.
Qed.

Lemma lands_invalid t p :
  lands t p -> all_entries !! p = None -> Valid t = false.
Proof. intros [_ H] Hx. rewrite Hx in H. unfold Valid. rewrite H. reflexivity. Qed.

(** A seek on the index, then in the block, then past empty blocks. *)
Lemma seek_lands (G F : VecIter -> VecIter) (g f : list entry -> nat) t :
  (forall d, G d = {| entries := entries d; pos := g (entries d) |}) ->
  (forall d, F d = {| entries := entries d; pos := f (entries d) |}) ->
  inv t ->
  let t2 := on_data F (InitDataBlock block_function (set_index (G (index_iter_ t)) t)) in
  match idx !! g idx with
  | Some e => at_block t2 (g idx) (f (block_of e.2))
  | None => Valid t2 = false /\ child_Valid (index_iter_ t2) = false
            /\ entries (index_iter_ t2) = idx /\ data_iter_ t2 = None
  end.
Proof.
  intros HG HF [Hidx Hdata]. cbv zeta.
  set (t1 := set_index (G (index_iter_ t)) t).
  assert (Hidx1 : index_iter_ t1 = {| entries := idx; pos := g idx |}).
  { unfold t1. cbn [index_iter_ set_index]. rewrite HG, Hidx. reflexivity. }
  destruct (idx !! g idx) as [e|] eqn:He.
  - apply (InitDataBlock_at F f t1 (g idx) e HF Hidx1 He). exact Hdata.
  - apply lookup_ge_None in He.
    destruct (InitDataBlock_end F t1 _ Hidx1 He) as [Hd2 Hi2].
    split; [unfold Valid; rewrite Hd2; reflexivity|].
    split; [rewrite Hi2; unfold child_Valid; cbn [entries pos]; apply Nat.ltb_ge; lia|].
    split; [rewrite Hi2; reflexivity|exact Hd2].
Qed.

Lemma SeekToFirst_lands fuel t :
  inv t -> (length idx <= fuel)%nat ->
  exists t', SeekToFirst block_function fuel t = Some t' /\ lands t' 0.
Proof.
  intros Hinv Hfuel. unfold SeekToFirst. cbv zeta.
  pose proof (seek_lands child_SeekToFirst child_SeekToFirst (fun _ => 0%nat)
                (fun _ => 0%nat) t ltac:(reflexivity) ltac:(reflexivity) Hinv) as H.
  cbv zeta in H. cbv beta in H.
  destruct (idx !! 0%nat) as [e|] eqn:He.
  - destruct (skip_forward fuel _ 0%nat 0%nat e H He) as (t' & HS & Hl); [lia|lia|].
    exists t'. split; [exact HS|exact Hl].
  - destruct H as (Hv & Hiv & Hidx & Hd).
    rewrite (skip_forward_end _ _ Hv Hiv). eexists. split; [reflexivity|].
    apply lands_end; [rewrite SetDataIterator_eq; exact Hidx
                     |rewrite SetDataIterator_eq; reflexivity|].
    apply lookup_ge_None in He. rewrite <- (offset_end 0); [rewrite offset_0; lia|].
    rewrite length_blocks. exact He.
Qed.

Lemma SeekToLast_lands fuel t :
  inv t -> (length idx <= fuel)%nat ->
  exists t', SeekToLast block_function fuel t = Some t'
             /\ lands t' (Nat.pred (length all_entries)).
Proof.
  intros Hinv Hfuel. unfold SeekToLast. cbv zeta.
  pose proof (seek_lands child_SeekToLast child_SeekToLast
                (fun es => Nat.pred (length es)) (fun es => Nat.pred (length es))
                t ltac:(reflexivity) ltac:(reflexivity) Hinv) as H.
  cbv zeta in H. cbv beta in H.
  destruct (idx !! Nat.pred (length idx)) as [e|] eqn:He.
  - pose proof (lookup_lt_Some _ _ _ He) as Hi.
    destruct (skip_backward fuel _ _ _ e H He) as (t' & HS & Hl); [lia|lia|].
    exists t'. split; [exact HS|].
    assert (Hend : length all_entries
                   = (offset (Nat.pred (length idx)) + length (block_of e.2))%nat).
    { rewrite <- (offset_S _ _ (blocks_lookup _ e He)).
      symmetry. apply offset_end. rewrite length_blocks. lia. }
    destruct (Nat.ltb_spec (Nat.pred (length (block_of e.2))) (length (block_of e.2)))
      as [Hlt|Hge].
    + replace (Nat.pred (length all_entries))
        with (offset (Nat.pred (length idx)) + Nat.pred (length (block_of e.2)))%nat
        by lia.
      exact Hl.
    + assert (Hempty : length (block_of e.2) = 0%nat) by lia.
      rewrite Hempty, Nat.add_0_r in Hend. rewrite <- Hend in Hl.
      unfold before in Hl. destruct (length all_entries); exact Hl.
  - destruct H as (Hv & Hiv & Hidx & Hd).
    rewrite (skip_backward_end _ _ Hv Hiv). eexists. split; [reflexivity|].
    apply lookup_ge_None in He.
    assert (Hno : length idx = 0%nat) by lia.
    apply lands_end; [rewrite SetDataIterator_eq; exact Hidx
                     |rewrite SetDataIterator_eq; reflexivity|].
    rewrite <- (offset_end 0); [rewrite offset_0; lia|]. rewrite length_blocks. lia.
Qed.

Lemma Next_lands fuel t p x :
  lands t p -> all_entries !! p = Some x -> (length idx <= fuel)%nat ->
  exists t', Next block_function fuel t = Some t' /\ lands t' (S p).
Proof.
  intros Hl Hx Hfuel.
  destruct (lands_valid t p x Hl Hx) as (i & q & e & Hat & He & Hq & Hp & Hv & _).
  unfold Next. rewrite Hv.
  assert (Hat' : at_block (on_data child_Next t) i (S q)).
  { destruct Hat as (Hidx & e' & He' & Hd & Hh). split; [exact Hidx|].
    exists e'. split; [exact He'|]. unfold on_data. cbn [data_iter_ data_block_handle_].
    rewrite Hd. auto. }
  destruct (skip_forward fuel _ i (S q) e Hat' He) as (t' & HS & Hl'); [lia|lia|].
  exists t'. split; [exact HS|]. replace (S p) with (offset i + S q)%nat by lia. exact Hl'.
Qed.

Lemma Prev_lands fuel t p x :
  lands t p -> all_entries !! p = Some x -> (length idx <= fuel)%nat ->
  exists t', Prev block_function fuel t = Some t' /\ lands t' (before p).
Proof.
  intros Hl Hx Hfuel.
  destruct (lands_valid t p x Hl Hx) as (i & q & e & Hat & He & Hq & Hp & Hv & _).
  pose proof (lookup_lt_Some _ _ _ He) as Hi.
  unfold Prev. rewrite Hv.
  set (q1 := match q with O => length (block_of e.2) | S q' => q' end).
  assert (Hat' : at_block (on_data child_Prev t) i q1).
  { destruct Hat as (Hidx & e' & He' & Hd & Hh). split; [exact Hidx|].
    exists e'. split; [exact He'|]. unfold on_data. cbn [data_iter_ data_block_handle_].
    rewrite Hd. rewrite He in He'. injection He' as <-. auto. }
  destruct (skip_backward fuel _ i q1 e Hat' He) as (t' & HS & Hl').
  { unfold q1. destruct q; lia. }
  { lia. }
  exists t'. split; [exact HS|]. subst p. unfold q1 in Hl'. destruct q as [|q'].
  - rewrite Nat.ltb_irrefl in Hl'. rewrite Nat.add_0_r. exact Hl'.
  - destruct (Nat.ltb_spec q' (length (block_of e.2))); [|lia].
    replace (offset i + S q')%nat with (S (offset i + q')) by lia. exact Hl'.
Qed.

(** The comparator is a three-way comparison of a total order; the key of
    an index entry is at least every key of its block, and at most every
    key of the blocks after it. *)
Hypothesis Compare_trans :
  forall a b c, Compare a b <= 0 -> Compare b c <= 0 -> Compare a c <= 0.
Hypothesis Compare_total :
  forall a b, 0 <= Compare a b -> Compare b a <= 0.
Hypothesis Compare_sign :
  forall a b, Compare a b <= 0 -> 0 <= Compare b a.
Hypothesis index_upper :
  forall e x, e ∈ idx -> x ∈ block_of e.2 -> Compare x.1 e.1 <= 0.
Hypothesis index_lower :
  forall i j e e' x,
    (i < j)%nat -> idx !! i = Some e -> idx !! j = Some e' -> x ∈ block_of e'.2 ->
    Compare e.1 x.1 <= 0.

Lemma seek_pos_le t (l : list entry) : (seek_pos Compare t l <= length l)%nat.
Proof. induction l as [|e l IH]; simpl; [lia|]. destruct (0 <=? _); lia. Qed.

Lemma seek_pos_app t (l1 l2 : list entry) :
  seek_pos Compare t (l1 ++ l2)
  = if (seek_pos Compare t l1 <? length l1)%nat then seek_pos Compare t l1
    else (length l1 + seek_pos Compare t l2)%nat.
Proof.
  induction l1 as [|e l1 IH]; [reflexivity|]. simpl.
  destruct (0 <=? Compare e.1 t); [reflexivity|]. rewrite IH.
  change (S (seek_pos Compare t l1) <? S (length l1))%nat
    with (seek_pos Compare t l1 <? length l1)%nat.
  destruct (seek_pos Compare t l1 <? length l1)%nat; reflexivity.
Qed.

Lemma seek_pos_all_lt t (l : list entry) :
  Forall (fun e => Compare e.1 t < 0) l -> seek_pos Compare t l = length l.
Proof.
  induction 1 as [|e l He _ IH]; [reflexivity|]. simpl.
  destruct (Z.leb_spec 0 (Compare e.1 t)); [lia|]. rewrite IH. reflexivity.
Qed.

Lemma seek_pos_all_ge t (l : list entry) :
  Forall (fun e => 0 <= Compare e.1 t) l -> seek_pos Compare t l = 0%nat.
Proof.
  destruct 1 as [|e l He _]; [reflexivity|]. simpl.
  destruct (Z.leb_spec 0 (Compare e.1 t)); [reflexivity|lia].
Qed.

Lemma seek_pos_before t (l : list entry) : forall j e,
  l !! j = Some e -> (j < seek_pos Compare t l)%nat -> Compare e.1 t < 0.
Proof.
  induction l as [|x l IH]; intros j e He Hj; [discriminate|]. simpl in Hj.
  destruct (Z.leb_spec 0 (Compare x.1 t)); [lia|].
  destruct j as [|j]; [injection He as <-; assumption|].
  apply (IH j); [exact He|lia].
Qed.

Lemma seek_pos_at t (l : list entry) e :
  l !! seek_pos Compare t l = Some e -> 0 <= Compare e.1 t.
Proof.
  induction l as [|x l IH]; [discriminate|]. simpl.
  destruct (Z.leb_spec 0 (Compare x.1 t)); [intros [= <-]; assumption|exact IH].
Qed.

(** The blocks before the one a seek on the index finds hold smaller keys
    only. *)
Lemma seek_skips_blocks t i :
  (i <= seek_pos Compare t idx)%nat ->
  Forall (fun e => Compare e.1 t < 0) (concat (take i blocks)).
Proof.
  intros Hi. apply Forall_forall. intros x Hx.
  apply MergerFacts.elem_of_concat in Hx as (b & Hb & Hxb).
  apply list_elem_of_lookup in Hb as [j Hj]. apply lookup_take_Some in Hj as [Hj Hlt].
  unfold blocks in Hj. rewrite list_lookup_fmap in Hj.
  destruct (idx !! j) as [e|] eqn:He; [|discriminate]. injection Hj as <-.
  apply (MergerFacts.le_lt_trans Compare Compare_trans Compare_total Compare_sign
           _ e.1).
  - apply index_upper; [|exact Hxb]. apply list_elem_of_lookup. eauto.
  - apply (seek_pos_before t idx j e He). lia.
Qed.

(** Where a seek in the whole table ends, from where it ends in the index
    and in the block. *)
Lemma seek_pos_table t :
  seek_pos Compare t all_entries
  = match idx !! seek_pos Compare t idx with
    | Some e => (offset (seek_pos Compare t idx) + seek_pos Compare t (block_of e.2))%nat
    | None => length all_entries
    end.
Proof.
  set (i := seek_pos Compare t idx).
  destruct (idx !! i) as [e|] eqn:He.
  - rewrite (all_entries_split i _ (blocks_lookup i e He)).
    rewrite seek_pos_app, (seek_pos_all_lt t _ (seek_skips_blocks t i ltac:(lia))).
    rewrite Nat.ltb_irrefl. fold (offset i). f_equal.
    rewrite seek_pos_app.
    destruct (Nat.ltb_spec (seek_pos Compare t (block_of e.2)) (length (block_of e.2)))
      as [Hlt|Hge]; [reflexivity|].
    pose proof (seek_pos_le t (block_of e.2)).
    rewrite seek_pos_all_ge; [lia|].
    apply Forall_forall. intros x Hx.
    apply MergerFacts.elem_of_concat in Hx as (b & Hb & Hxb).
    apply list_elem_of_lookup in Hb as [j Hj]. rewrite lookup_drop in Hj.
    unfold blocks in Hj. rewrite list_lookup_fmap in Hj.
    destruct (idx !! (S i + j)%nat) as [e'|] eqn:He'; [|discriminate]. injection Hj as <-.
    pose proof (index_lower i (S i + j) e e' x ltac:(lia) He He' Hxb) as Hle.
    pose proof (seek_pos_at t idx e He) as Hge'.
    destruct (Z.le_gt_cases 0 (Compare x.1 t)) as [|Hlt]; [assumption|].
    assert (Hlt' : Compare x.1 t < 0) by lia.
    pose proof (MergerFacts.le_lt_trans Compare Compare_trans Compare_total Compare_sign
                  _ _ _ Hle Hlt').
    lia.
  - apply lookup_ge_None in He. apply seek_pos_all_lt.
    unfold all_entries.
    rewrite <- (take_ge blocks i) by (rewrite length_blocks; exact He).
    apply seek_skips_blocks. lia.
Qed.

Lemma Seek_lands fuel target t :
  inv t -> (length idx <= fuel)%nat ->
  exists t', Seek Compare block_function fuel target t = Some t'
             /\ lands t' (seek_pos Compare target all_entries).
Proof.
  intros Hinv Hfuel. unfold Seek. cbv zeta.
  pose proof (seek_lands (child_Seek Compare target) (child_Seek Compare target)
                (seek_pos Compare target) (seek_pos Compare target)
                t ltac:(reflexivity) ltac:(reflexivity) Hinv) as H.
  cbv zeta in H. rewrite seek_pos_table.
  destruct (idx !! seek_pos Compare target idx) as [e|] eqn:He.
  - destruct (skip_forward fuel _ _ _ e H He) as (t' & HS & Hl);
      [apply seek_pos_le|lia|].
    exists t'. split; [exact HS|exact Hl].
  - destruct H as (Hv & Hiv & Hidx & Hd).
    rewrite (skip_forward_end _ _ Hv Hiv). eexists. split; [reflexivity|].
    apply lands_end; [rewrite SetDataIterator_eq; exact Hidx
                     |rewrite SetDataIterator_eq; reflexivity|lia].
Qed.

(** What a user of the iterator sees. *)
Definition entry_of (t : TwoLevelIterator) : option entry :=
  match key t, value t with
  | Some k, Some v => Some (k, v)
  | _, _ => None
  end.

Lemma lands_entry t p :
  lands t p ->
  entry_of t
  = MergerFacts.Iterator_entry (ChildIterator {| entries := all_entries; pos := p |}).
Proof.
  intros Hl. cbn [MergerFacts.Iterator_entry].
  destruct (all_entries !! p) as [x|] eqn:Hx.
  - destruct (lands_valid t _ x Hl Hx) as (_ & _ & _ & _ & _ & _ & _ & _ & Hk & Hv).
    destruct (MergerFacts.entry_valid _ _ _ Hx) as (-> & -> & ->).
    unfold entry_of. rewrite Hk, Hv. destruct x; reflexivity.
  - pose proof (lands_invalid t _ Hl Hx) as Hv. unfold entry_of, key.
    unfold Valid in Hv. apply lookup_ge_None in Hx.
    unfold child_Valid at 2. cbn [entries pos]. rewrite (proj2 (Nat.ltb_ge _ _) Hx).
    destruct (data_iter_ t); [rewrite Hv|]; reflexivity.
Qed.

Lemma lands_run fuel ops : forall t p,
  (length idx <= fuel)%nat -> lands t p ->
  entry_of <$> run Compare block_function fuel ops t
  = MergerFacts.Iterator_entry
      <$> Iterator_run Compare ops (ChildIterator {| entries := all_entries; pos := p |}).
Proof.
  induction ops as [|op ops IH]; intros t p Hfuel Hl; cbn [run Iterator_run].
  - cbn. f_equal. apply lands_entry; assumption.
  - pose proof (lands_inv t _ Hl) as Hinv.
    destruct op as [| |target| |]; cbn [apply Iterator_apply].
    + destruct (SeekToFirst_lands fuel t Hinv Hfuel) as (t' & -> & Hl').
      apply IH; [exact Hfuel|exact Hl'].
    + destruct (SeekToLast_lands fuel t Hinv Hfuel) as (t' & -> & Hl').
      apply IH; [exact Hfuel|exact Hl'].
    + destruct (Seek_lands fuel target t Hinv Hfuel) as (t' & -> & Hl').
      apply IH; [exact Hfuel|exact Hl'].
    + destruct (all_entries !! p) as [x|] eqn:Hx.
      * destruct (Next_lands fuel t _ x Hl Hx Hfuel) as (t' & -> & Hl').
        destruct (MergerFacts.entry_valid _ _ _ Hx) as (-> & _).
        apply IH; [exact Hfuel|exact Hl'].
      * unfold Next. rewrite (lands_invalid t _ Hl Hx).
        apply lookup_ge_None in Hx. unfold child_Valid. cbn [entries pos].
        rewrite (proj2 (Nat.ltb_ge _ _) Hx). reflexivity.
    + destruct (all_entries !! p) as [x|] eqn:Hx.
      * destruct (Prev_lands fuel t _ x Hl Hx Hfuel) as (t' & -> & Hl').
        destruct (MergerFacts.entry_valid _ _ _ Hx) as (-> & _).
        apply IH; [exact Hfuel|]. unfold before in Hl'. cbn [entries pos].
        destruct p; exact Hl'.
      * unfold Prev. rewrite (lands_invalid t _ Hl Hx).
        apply lookup_ge_None in Hx. unfold child_Valid. cbn [entries pos].
        rewrite (proj2 (Nat.ltb_ge _ _) Hx). reflexivity.
Qed.

End WithBlocks.

(** X26.  A two-level iterator is an iterator over the blocks one after
    the other.  For a comparator that is a three-way comparison of a total
    order, an index whose every handle opens a block, and index keys that
    are at least every key of their block and at most every key of the
    later blocks: after any sequence of [SeekToFirst], [SeekToLast],
    [Seek], [Next] and [Prev], a new two-level iterator is valid exactly
    when an iterator over the concatenation of the blocks is after the
    same calls, with the same key and value, and the same calls fail an
    assertion on both.  Empty blocks are skipped in both directions, and
    no loop of the iterator makes more rounds than the index has entries. *)
Theorem two_level_is_cursor
        (Compare : Slice -> Slice -> Z) (block_function : Slice -> option VecIter)
        (index_iter : VecIter) (ops : list IterOp) (fuel : nat) :
  (forall a b c, Compare a b <= 0 -> Compare b c <= 0 -> Compare a c <= 0) ->
  (forall a b, 0 <= Compare a b -> Compare b a <= 0) ->
  (forall a b, Compare a b <= 0 -> 0 <= Compare b a) ->
  (forall e, e ∈ entries index_iter -> is_Some (block_function e.2)) ->
  (forall e x, e ∈ entries index_iter -> x ∈ block_of block_function e.2 ->
               Compare x.1 e.1 <= 0) ->
  (forall i j e e' x,
      (i < j)%nat -> entries index_iter !! i = Some e ->
      entries index_iter !! j = Some e' -> x ∈ block_of block_function e'.2 ->
      Compare e.1 x.1 <= 0) ->
  (length (entries index_iter) <= fuel)%nat ->
  entry_of <$> run Compare block_function fuel ops (NewTwoLevelIterator index_iter)
  = MergerFacts.Iterator_entry
      <$> Iterator_run Compare ops
            (ChildIterator
               {| entries := all_entries block_function (entries index_iter);
                  pos := length (all_entries block_function (entries index_iter)) |}).
Proof.
  intros Htrans Htotal Hsign Hopen Hupper Hlower Hfuel.
  apply (lands_run Compare block_function (entries index_iter) Hopen
           Htrans Htotal Hsign Hupper Hlower); [exact Hfuel|].
  apply lands_end; [reflexivity|reflexivity|]. cbn [pos]. lia.
Qed.

(** An index of four blocks, the second and the last of them empty. *)
Definition sample_index : VecIter :=
  {| entries := [([3], [0]); ([5], [1]); ([7], [2]); ([9], [3])]; pos := 4 |}.

Definition sample_block_function (handle : Slice) : option VecIter :=
  match handle with
  | [0] => Some {| entries := [([1], [10]); ([3], [30])]; pos := 2 |}
  | [2] => Some {| entries := [([6], [60])]; pos := 1 |}
  | [_] => Some {| entries := []; pos := 0 |}
  | _ => None
  end.

Definition sample_calls : list IterOp :=
  [OpSeek [4]; OpPrev; OpNext; OpNext; OpSeekToLast; OpPrev; OpSeekToFirst; OpSeek [7]].

Lemma two_level_is_cursor_witness :
  entry_of
    <$> run bytewise_compare sample_block_function 4 sample_calls
          (NewTwoLevelIterator sample_index)
  = MergerFacts.Iterator_entry
      <$> Iterator_run bytewise_compare sample_calls
            (ChildIterator
               {| entries := all_entries sample_block_function (entries sample_index);
                  pos := length (all_entries sample_block_function
                                   (entries sample_index)) |}).
Proof.
  apply (two_level_is_cursor bytewise_compare sample_block_function sample_index
           sample_calls 4 bytewise_compare_trans bytewise_compare_total
           MergerFacts.bytewise_compare_sign).
  - intros e He. cbn in He.
    repeat (apply elem_of_cons in He as [->|He]); try (apply elem_of_nil in He; tauto);
      cbn; eauto.
  - intros e x He Hx. cbn in He.
    repeat (apply elem_of_cons in He as [->|He]); try (apply elem_of_nil in He; tauto);
      cbn in Hx;
      repeat (apply elem_of_cons in Hx as [->|Hx]); try (apply elem_of_nil in Hx; tauto);
      vm_compute; discriminate.
  - intros i j e e' x Hij Hi Hj Hx.
    destruct i as [|[|[|[|i]]]]; try discriminate Hi; injection Hi as <-;
      destruct j as [|[|[|[|j]]]]; try discriminate Hj; try lia; injection Hj as <-;
      cbn in Hx;
      repeat (apply elem_of_cons in Hx as [->|Hx]); try (apply elem_of_nil in Hx; tauto);
      vm_compute; discriminate.
  - cbn. lia.
Defined.

(** The entry after each of the calls of [sample_calls]. *)
Example sample_calls_entries :
  map (fun n => entry_of
                  <$> run bytewise_compare sample_block_function 4
                        (take n sample_calls) (NewTwoLevelIterator sample_index))
      (seq 1 8)
  = [Some (Some ([6], [60])); Some (Some ([3], [30])); Some (Some ([6], [60]));
     Some None; Some (Some ([6], [60])); Some (Some ([3], [30]));
     Some (Some ([1], [10])); Some None].
Proof. vm_compute. reflexivity. Qed.

End TwoLevelFacts.

(* ===================================================================== *)
(** ** table/filter_block.cc *)
(* ===================================================================== *)

Module FilterBlock.
Import Coding.

(** Generate new filter every 2KB of data *)
Definition kFilterBaseLg : Z := 11.
Definition kFilterBase : Z := Z.shiftl 1 kFilterBaseLg.

(** [class FilterBlockBuilder].  The size of a string or of a vector in
    memory is a [nat]; an element of [filter_offsets_] is a [uint32_t]. *)
Record FilterBlockBuilder := {
  keys_ : list Z;             (* Flattened key contents *)
  start_ : list nat;          (* Starting index in keys_ of each key *)
  result_ : list Z;           (* Filter data computed so far *)
  filter_offsets_ : list Z
}.

Definition new_FilterBlockBuilder : FilterBlockBuilder :=
  {| keys_ := []; start_ := []; result_ := []; filter_offsets_ := [] |}.

(** [static_cast<int>(num_keys)] of a [size_t], in two's complement. *)
Definition int_of_size_t (n : nat) : Z :=
  let w := wrap32 (Z.of_nat n) in
  if w <? 2 ^ 31 then w else w - 2 ^ 32.

(** [class FilterBlockReader]; [data_] is the contents of the block
    ([[]] for [nullptr]) and [offset_] the index in it of the offset
    array. *)
Record FilterBlockReader := {
  data_ : Slice;
  offset_ : nat;
  num_ : Z;        (* Number of entries in offset array *)
  base_lg_ : Z     (* Encoding parameter (see kFilterBaseLg in .cc file) *)
}.

Section WithPolicy.

(** [policy_->CreateFilter(keys, n, dst)], which gives the new value of
    [dst], and [policy_->KeyMayMatch(key, filter)]. *)
Variable policy_CreateFilter : list Slice -> Z -> list Z -> list Z.
Variable policy_KeyMayMatch : Slice -> Slice -> bool.

(** [PutFixed32(dst, value)] of util/coding.h, which gives the new value
    of [dst]. *)
Variable PutFixed32 : list Z -> Z -> list Z.

(** [void FilterBlockBuilder::GenerateFilter()] *)
Definition GenerateFilter (b : FilterBlockBuilder) : FilterBlockBuilder :=
  let num_keys := length (start_ b) in
  if (num_keys =? 0)%nat then
    (* Fast path if there are no keys for this filter *)
    {| keys_ := keys_ b; start_ := start_ b; result_ := result_ b;
       filter_offsets_ :=
         filter_offsets_ b ++ [wrap32 (Z.of_nat (length (result_ b)))] |}
  else
    (* Make list of keys from flattened key structure *)
    let start := start_ b ++ [length (keys_ b)] in
    let tmp_keys :=
      (fun i => let base := drop (nth i start O) (keys_ b) in
                let length := (nth (S i) start O - nth i start O)%nat in
                take length base)
        <$> seq 0 num_keys in
    (* Generate filter for current set of keys and append to result_. *)
    {| keys_ := []; start_ := [];
       result_ := policy_CreateFilter tmp_keys (int_of_size_t num_keys) (result_ b);
       filter_offsets_ :=
         filter_offsets_ b ++ [wrap32 (Z.of_nat (length (result_ b)))] |}.

(** The loop of [StartBlock]; [None]: the fuel ran out. *)
Fixpoint generate_filters (fuel : nat) (filter_index : Z) (b : FilterBlockBuilder)
  : option FilterBlockBuilder :=
  if Z.of_nat (length (filter_offsets_ b)) <? filter_index then
    match fuel with
    | O => None
    | S fuel => generate_filters fuel filter_index (GenerateFilter b)
    end
  else Some b.

(** [void FilterBlockBuilder::StartBlock(uint64_t block_offset)]; [None]
    also where the assertion fails. *)
Definition StartBlock (fuel : nat) (block_offset : Z) (b : FilterBlockBuilder)
  : option FilterBlockBuilder :=
  let filter_index := block_offset / kFilterBase in
  if filter_index <? Z.of_nat (length (filter_offsets_ b)) then None
  else generate_filters fuel filter_index b.

(** [void FilterBlockBuilder::AddKey(const Slice& key)] *)
Definition AddKey (key : Slice) (b : FilterBlockBuilder) : FilterBlockBuilder :=
  {| keys_ := keys_ b ++ key; start_ := start_ b ++ [length (keys_ b)];
     result_ := result_ b; filter_offsets_ := filter_offsets_ b |}.

(** [Slice FilterBlockBuilder::Finish()]: the block. *)
Definition Finish (b : FilterBlockBuilder) : Slice :=
  let b := if bool_decide (start_ b = []) then b else GenerateFilter b in
  (* Append array of per-filter offsets *)
  let array_offset := wrap32 (Z.of_nat (length (result_ b))) in
  let result := fold_left PutFixed32 (filter_offsets_ b) (result_ b) in
  let result := PutFixed32 result array_offset in
  result ++ [kFilterBaseLg].

(** [FilterBlockReader(policy, contents)]; [None] where [DecodeFixed32]
    would read past the contents. *)
Definition new_FilterBlockReader (contents : Slice) : option FilterBlockReader :=
  let n := length contents in
  if (n <? 5)%nat
  then Some {| data_ := []; offset_ := 0; num_ := 0; base_lg_ := 0 |}
  else
    let base_lg := Bloom.size_t_of_char (nth (n - 1) contents 0) in
    match DecodeFixed32 (drop (n - 5) contents) with
    | Some last_word =>
        if Z.of_nat (n - 5) <? last_word
        then Some {| data_ := []; offset_ := 0; num_ := 0; base_lg_ := base_lg |}
        else Some {| data_ := contents; offset_ := Z.to_nat last_word;
                     num_ := (Z.of_nat (n - 5) - last_word) / 4;
                     base_lg_ := base_lg |}
    | None => None
    end.

(** [bool FilterBlockReader::KeyMayMatch(uint64_t block_offset, const
    Slice& key)]; [None] where the shift is by the width of [uint64_t] or
    more, or [DecodeFixed32] would read past the contents. *)
Definition KeyMayMatch (r : FilterBlockReader) (block_offset : Z) (key : Slice)
  : option bool :=
  if 64 <=? base_lg_ r then None
  else
    let index := Z.shiftr block_offset (base_lg_ r) in
    if index <? num_ r then
      match DecodeFixed32 (drop (offset_ r + Z.to_nat index * 4) (data_ r)),
            DecodeFixed32 (drop (offset_ r + Z.to_nat index * 4 + 4) (data_ r)) with
      | Some start, Some limit =>
          if (start <=? limit) && (limit <=? Z.of_nat (offset_ r)) then
            let filter := take (Z.to_nat (limit - start))
                               (drop (Z.to_nat start) (data_ r)) in
            Some (policy_KeyMayMatch key filter)
          else if start =? limit then
            (* Empty filters do not match any keys *)
            Some false
          else Some true
      | _, _ => None
      end
    else Some true.  (* Errors are treated as potential matches *)

(** The calls a table builder makes for one data block: [StartBlock] with
    the offset of the block, and [AddKey] with each of its keys. *)
Definition add_block (fuel : nat) (block : Z * list Slice) (b : FilterBlockBuilder)
  : option FilterBlockBuilder :=
  match StartBlock fuel block.1 b with
  | Some b => Some (fold_left (fun b key => AddKey key b) block.2 b)
  | None => None
  end.

Fixpoint add_blocks (fuel : nat) (blocks : list (Z * list Slice))
         (b : FilterBlockBuilder) : option FilterBlockBuilder :=
  match blocks with
  | [] => Some b
  | block :: blocks =>
      match add_block fuel block b with
      | Some b => add_blocks fuel blocks b
      | None => None
      end
  end.

(** The filter block of a table of these data blocks. *)
Definition build (fuel : nat) (blocks : list (Z * list Slice)) : option Slice :=
  Finish <$> add_blocks fuel blocks new_FilterBlockBuilder.

End WithPolicy.

End FilterBlock.

Module FilterBlockFacts.
Import Coding CodingProofs FilterBlock.

Lemma EncodeFixed32_length v : length (EncodeFixed32 v) = 4%nat.
Proof. reflexivity. Qed.

Lemma DecodeFixed32_EncodeFixed32 v rest :
  DecodeFixed32 (EncodeFixed32 v ++ rest) = Some (wrap32 v).
Proof.
  rewrite EncodeFixed32_le_bytes.
  pose proof (le_sum_le_bytes 4 (wrap32 v) (wrap32_range v)) as Hs.
  cbn [le_bytes] in *. cbn [app]. rewrite DecodeFixed32_le_sum.
  rewrite !uint8_mod. f_equal. exact Hs.
Qed.

(** The word at index [j] of an array of fixed-width words. *)
Lemma decode_word (W : list Z) rest : forall j w,
  W !! j = Some w ->
  DecodeFixed32 (drop (j * 4) (concat (EncodeFixed32 <$> W) ++ rest)) = Some (wrap32 w).
Proof.
  induction W as [|v W IH]; intros j w Hj; [discriminate|].
  destruct j as [|j].
  - injection Hj as ->. cbn [fmap list_fmap concat drop Nat.mul].
    rewrite <- app_assoc. apply DecodeFixed32_EncodeFixed32.
  - cbn [fmap list_fmap concat]. rewrite <- app_assoc.
    replace (S j * 4)%nat with (length (EncodeFixed32 v) + j * 4)%nat
      by (rewrite EncodeFixed32_length; lia).
    rewrite drop_app_add. apply IH. exact Hj.
Qed.

(** The start of filter [i] in the concatenation of the filters. *)
Definition start_of {A} (fs : list (list A)) (i : nat) : nat :=
  length (concat (take i fs)).

Definition starts {A} (fs : list (list A)) : list nat :=
  start_of fs <$> seq 0 (length fs).

Lemma start_of_app_l {A} (fs gs : list (list A)) i :
  (i <= length fs)%nat -> start_of (fs ++ gs) i = start_of fs i.
Proof. intros Hi. unfold start_of. rewrite take_app_le by exact Hi. reflexivity. Qed.

Lemma start_of_all {A} (fs : list (list A)) i :
  (length fs <= i)%nat -> start_of fs i = length (concat fs).
Proof. intros Hi. unfold start_of. rewrite take_ge by exact Hi. reflexivity. Qed.

Lemma start_of_S {A} (fs : list (list A)) i f :
  fs !! i = Some f -> start_of fs (S i) = (start_of fs i + length f)%nat.
Proof.
  intros Hf. unfold start_of. rewrite (take_S_r _ _ _ Hf), concat_app, length_app.
  simpl. rewrite app_nil_r. reflexivity.
Qed.

Lemma start_of_le {A} (fs : list (list A)) i : (start_of fs i <= length (concat fs))%nat.
Proof.
  unfold start_of. rewrite <- (take_drop i fs) at 2.
  rewrite concat_app, length_app. lia.
Qed.

Lemma starts_snoc {A} (fs : list (list A)) f :
  starts (fs ++ [f]) = starts fs ++ [length (concat fs)].
Proof.
  unfold starts. rewrite length_app. cbn [length].
  rewrite Nat.add_1_r, seq_S, fmap_app. cbn [fmap list_fmap]. f_equal.
  - apply list_fmap_ext. intros j i Hi. apply lookup_seq in Hi as [-> Hi].
    apply start_of_app_l. simpl. lia.
  - simpl. rewrite start_of_app_l by lia. rewrite start_of_all by lia. reflexivity.
Qed.

Lemma starts_lookup {A} (fs : list (list A)) i :
  (i < length fs)%nat -> starts fs !! i = Some (start_of fs i).
Proof.
  intros Hi. unfold starts. rewrite list_lookup_fmap, lookup_seq_lt by exact Hi.
  reflexivity.
Qed.

Lemma length_starts {A} (fs : list (list A)) : length (starts fs) = length fs.
Proof. unfold starts. rewrite length_fmap, length_seq. reflexivity. Qed.

(** Filter [i] in the concatenation of the filters. *)
Lemma slice_concat {A} (fs : list (list A)) i f rest :
  fs !! i = Some f ->
  take (start_of fs (S i) - start_of fs i) (drop (start_of fs i) (concat fs ++ rest)) = f.
Proof.
  intros Hf. rewrite (start_of_S fs i f Hf).
  replace (start_of fs i + length f - start_of fs i)%nat with (length f) by lia.
  rewrite <- (take_drop_middle _ _ _ Hf) at 2.
  rewrite concat_app. cbn [concat]. rewrite <- !app_assoc.
  unfold start_of. rewrite drop_app_length. apply take_app_length.
Qed.

Section WithPolicy.

Variable policy_CreateFilter : list Slice -> Z -> list Z -> list Z.
Variable policy_KeyMayMatch : Slice -> Slice -> bool.
Variable PutFixed32 : list Z -> Z -> list Z.

Hypothesis PutFixed32_appends : forall dst v, PutFixed32 dst v = dst ++ EncodeFixed32 v.

(** The policy appends a filter which matches every key it was made
    from. *)
Hypothesis policy_appends :
  forall keys dst,
    exists f, policy_CreateFilter keys (Z.of_nat (length keys)) dst = dst ++ f
              /\ forall key, key ∈ keys -> policy_KeyMayMatch key f = true.

(** The builder holds the filters [fs] and waits with the keys
    [pending]. *)
Record rep (b : FilterBlockBuilder) (fs : list Slice) (pending : list Slice) : Prop := {
  rep_result : result_ b = concat fs;
  rep_offsets : filter_offsets_ b = (fun s => wrap32 (Z.of_nat s)) <$> starts fs;
  rep_keys : keys_ b = concat pending;
  rep_start : start_ b = starts pending
}.

Lemma new_rep : rep new_FilterBlockBuilder [] [].
Proof. split; reflexivity. Qed.

Lemma AddKey_rep b fs pending key :
  rep b fs pending -> rep (AddKey key b) fs (pending ++ [key]).
Proof.
  intros [Hr Ho Hk Hs]. split; cbn [AddKey result_ filter_offsets_ keys_ start_].
  - exact Hr.
  - exact Ho.
  - rewrite Hk, concat_app. simpl. rewrite app_nil_r. reflexivity.
  - rewrite Hs, Hk, starts_snoc. reflexivity.
Qed.

Lemma AddKeys_rep keys : forall b fs pending,
  rep b fs pending ->
  rep (fold_left (fun b key => AddKey key b) keys b) fs (pending ++ keys).
Proof.
  induction keys as [|key keys IH]; intros b fs pending Hrep; cbn [fold_left].
  - rewrite app_nil_r. exact Hrep.
  - replace (pending ++ key :: keys) with ((pending ++ [key]) ++ keys)
      by (rewrite <- app_assoc; reflexivity).
    apply IH, AddKey_rep, Hrep.
Qed.

(** The keys [GenerateFilter] makes from the flattened ones. *)
Lemma tmp_keys_eq (pending : list Slice) :
  (fun i => take (nth (S i) (starts pending ++ [length (concat pending)]) O
                  - nth i (starts pending ++ [length (concat pending)]) O)
                 (drop (nth i (starts pending ++ [length (concat pending)]) O)
                       (concat pending)))
    <$> seq 0 (length pending)
  = pending.
Proof.
  apply list_eq. intros i. rewrite list_lookup_fmap.
  destruct (pending !! i) as [key|] eqn:Hkey.
  - pose proof (lookup_lt_Some _ _ _ Hkey) as Hi.
    rewrite lookup_seq_lt by exact Hi. cbn [fmap option_fmap option_map]. f_equal.
    rewrite <- (starts_snoc pending []).
    assert (Hnth : forall j, (j <= length pending)%nat ->
                             nth j (starts (pending ++ [[]])) O = start_of pending j).
    { intros j Hj. apply nth_lookup_Some with (d := O).
      rewrite starts_lookup by (rewrite length_app; simpl; lia).
      rewrite start_of_app_l by exact Hj. reflexivity. }
    rewrite !Hnth by lia.
    rewrite <- (app_nil_r (concat pending)). apply slice_concat. exact Hkey.
  - apply lookup_ge_None in Hkey. rewrite lookup_seq_ge by exact Hkey. reflexivity.
Qed.

Lemma int_of_size_t_small n : Z.of_nat n < 2 ^ 31 -> int_of_size_t n = Z.of_nat n.
Proof.
  intros Hn. unfold int_of_size_t. rewrite wrap32_small by lia.
  destruct (Z.ltb_spec (Z.of_nat n) (2 ^ 31)); [reflexivity|lia].
Qed.

(** Every key of [pending] is told to match by the filter [f]. *)
Definition made_from (pending : list Slice) (f : Slice) : Prop :=
  forall key, key ∈ pending -> policy_KeyMayMatch key f = true.

Lemma GenerateFilter_rep b fs pending :
  rep b fs pending -> Z.of_nat (length pending) < 2 ^ 31 ->
  exists f,
    rep (GenerateFilter policy_CreateFilter b) (fs ++ [f]) [] /\ made_from pending f.
Proof.
  intros [Hr Ho Hk Hs] Hn. unfold GenerateFilter. cbv zeta.
  rewrite Hs, length_starts.
  destruct (Nat.eqb_spec (length pending) 0) as [Hz|Hnz].
  - exists []. destruct pending; [|discriminate]. split.
    + split; cbn [result_ filter_offsets_ keys_ start_].
      * rewrite Hr, concat_app. simpl. rewrite app_nil_r. reflexivity.
      * rewrite Ho, Hr, starts_snoc, fmap_app. reflexivity.
      * first [exact Hk|reflexivity].
      * first [exact Hs|reflexivity].
    + intros key Hkey. apply elem_of_nil in Hkey. tauto.
  - rewrite Hk, tmp_keys_eq, int_of_size_t_small by exact Hn.
    destruct (policy_appends pending (result_ b)) as (f & Hf & Hmatch).
    exists f. split; [|exact Hmatch].
    split; cbn [result_ filter_offsets_ keys_ start_].
    + rewrite Hf, Hr, concat_app. simpl. rewrite app_nil_r. reflexivity.
    + rewrite Ho, Hr, starts_snoc, fmap_app. reflexivity.
    + reflexivity.
    + reflexivity.
Qed.

(** A key of the block at [block_offset] is in the filter of its index,
    or waits while the filter of its index is the next one. *)
Definition covered (fs pending : list Slice) (block_offset : Z) (key : Slice) : Prop :=
  0 <= block_offset
  /\ ((exists f, fs !! Z.to_nat (block_offset / kFilterBase) = Some f
                 /\ policy_KeyMayMatch key f = true)
      \/ (Z.to_nat (block_offset / kFilterBase) = length fs /\ key ∈ pending)).

Lemma covered_snoc fs pending f o key :
  covered fs pending o key -> made_from pending f -> covered (fs ++ [f]) [] o key.
Proof.
  intros [Ho [(g & Hg & Hm)|[Hi Hkey]]] Hmade; (split; [exact Ho|]); left.
  - exists g. split; [|exact Hm]. apply lookup_app_l_Some. exact Hg.
  - exists f. split; [|apply Hmade; exact Hkey].
    rewrite Hi. rewrite lookup_app_r by lia. rewrite Nat.sub_diag. reflexivity.
Qed.

Lemma covered_more fs pending keys o key :
  covered fs pending o key -> covered fs (pending ++ keys) o key.
Proof.
  intros [Ho [H|[Hi Hkey]]]; (split; [exact Ho|]); [left; exact H|right].
  split; [exact Hi|]. apply elem_of_app. left. exact Hkey.
Qed.

(** The loop of [StartBlock] makes the filters up to [filter_index]. *)
Lemma generate_filters_rep fuel filter_index : forall b fs pending,
  rep b fs pending -> Z.of_nat (length pending) < 2 ^ 31 ->
  Z.of_nat (length fs) <= filter_index ->
  (Z.to_nat filter_index - length fs <= fuel)%nat ->
  exists b' fs' pending',
    generate_filters policy_CreateFilter fuel filter_index b = Some b'
    /\ rep b' fs' pending'
    /\ Z.of_nat (length fs') = filter_index
    /\ (length pending' <= length pending)%nat
    /\ (forall o key, covered fs pending o key -> covered fs' pending' o key).
Proof.
  induction fuel as [|fuel IH]; intros b fs pending Hrep Hn Hle Hfuel;
    cbn [generate_filters]; rewrite (rep_offsets _ _ _ Hrep), length_fmap, length_starts.
  - destruct (Z.ltb_spec (Z.of_nat (length fs)) filter_index) as [Hlt|Hge]; [lia|].
    exists b, fs, pending. split; [reflexivity|]. split; [exact Hrep|].
    split; [lia|]. split; [lia|]. auto.
  - destruct (Z.ltb_spec (Z.of_nat (length fs)) filter_index) as [Hlt|Hge].
    + destruct (GenerateFilter_rep b fs pending Hrep Hn) as (f & Hrep' & Hmade).
      destruct (IH _ (fs ++ [f]) [] Hrep') as (b' & fs' & pending' & HG & Hrep'' & Hlen & Hp & Hcov).
      { simpl. lia. }
      { rewrite length_app. simpl. lia. }
      { rewrite length_app. simpl. lia. }
      exists b', fs', pending'. split; [exact HG|]. split; [exact Hrep''|].
      split; [exact Hlen|]. split; [simpl in Hp; lia|].
      intros o key Hc. apply Hcov. apply (covered_snoc fs pending); assumption.
    + exists b, fs, pending. split; [reflexivity|]. split; [exact Hrep|].
      split; [lia|]. split; [lia|]. auto.
Qed.

Lemma add_block_rep fuel o keys b fs pending :
  rep b fs pending ->
  Z.of_nat (length pending + length keys) < 2 ^ 31 ->
  0 <= o -> Z.of_nat (length fs) <= o / kFilterBase ->
  (Z.to_nat (o / kFilterBase) <= fuel)%nat ->
  exists b' fs' pending',
    add_block policy_CreateFilter fuel (o, keys) b = Some b'
    /\ rep b' fs' pending'
    /\ Z.of_nat (length fs') = o / kFilterBase
    /\ (length pending' <= length pending + length keys)%nat
    /\ (forall o' key, covered fs pending o' key -> covered fs' pending' o' key)
    /\ (forall key, key ∈ keys -> covered fs' pending' o key).
Proof.
  intros Hrep Hn Ho Hle Hfuel. unfold add_block, StartBlock. cbn [fst snd]. cbv zeta.
  rewrite (rep_offsets _ _ _ Hrep), length_fmap, length_starts.
  destruct (Z.ltb_spec (o / kFilterBase) (Z.of_nat (length fs))) as [Hlt|_]; [lia|].
  destruct (generate_filters_rep fuel (o / kFilterBase) b fs pending Hrep)
    as (b' & fs' & pending' & -> & Hrep' & Hlen & Hp & Hcov); [lia|exact Hle|lia|].
  exists (fold_left (fun b key => AddKey key b) keys b'), fs', (pending' ++ keys).
  split; [reflexivity|]. split; [apply AddKeys_rep; exact Hrep'|].
  split; [exact Hlen|]. split; [rewrite length_app; lia|]. split.
  - intros o' key Hc. apply covered_more, Hcov, Hc.
  - intros key Hkey. split; [exact Ho|]. right. split; [lia|].
    apply elem_of_app. right. exact Hkey.
Qed.

(** The number of keys of the blocks. *)
Definition key_count (blocks : list (Z * list Slice)) : nat :=
  length (concat (snd <$> blocks)).

(** The offsets of the blocks do not decrease. *)
Fixpoint increasing (from : Z) (blocks : list (Z * list Slice)) : Prop :=
  match blocks with
  | [] => True
  | block :: blocks => from <= block.1 /\ increasing block.1 blocks
  end.

Lemma add_blocks_rep fuel blocks : forall from b fs pending,
  rep b fs pending ->
  Z.of_nat (length pending + key_count blocks) < 2 ^ 31 ->
  0 <= from -> increasing from blocks ->
  Z.of_nat (length fs) <= from / kFilterBase ->
  Forall (fun block => (Z.to_nat (block.1 / kFilterBase) <= fuel)%nat) blocks ->
  exists b' fs' pending',
    add_blocks policy_CreateFilter fuel blocks b = Some b'
    /\ rep b' fs' pending'
    /\ (length pending' <= length pending + key_count blocks)%nat
    /\ (forall o key, covered fs pending o key -> covered fs' pending' o key)
    /\ (forall o keys key, (o, keys) ∈ blocks -> key ∈ keys -> covered fs' pending' o key).
Proof.
  induction blocks as [|[o keys] blocks IH];
    intros from b fs pending Hrep Hn Hfrom Hinc Hle Hfuel; cbn [add_blocks].
  - exists b, fs, pending. split; [reflexivity|]. split; [exact Hrep|].
    split; [lia|]. split; [auto|]. intros o keys key Hin. apply elem_of_nil in Hin. tauto.
  - destruct Hinc as [Hfo Hinc]. cbn [fst] in Hfo, Hinc.
    apply Forall_cons in Hfuel as [Hfuel1 Hfuel]. cbn [fst] in Hfuel1.
    assert (Hcount : key_count ((o, keys) :: blocks) = (length keys + key_count blocks)%nat).
    { unfold key_count. cbn [fmap list_fmap concat snd]. apply length_app. }
    rewrite Hcount in *.
    assert (Hdiv : from / kFilterBase <= o / kFilterBase).
    { apply Z.div_le_mono; [reflexivity|exact Hfo]. }
    destruct (add_block_rep fuel o keys b fs pending Hrep)
      as (b1 & fs1 & pending1 & -> & Hrep1 & Hlen1 & Hp1 & Hcov1 & Hown);
      [lia|lia|lia|exact Hfuel1|].
    destruct (IH o b1 fs1 pending1 Hrep1)
      as (b' & fs' & pending' & -> & Hrep' & Hp' & Hcov' & Hall);
      [lia|lia|exact Hinc|lia|exact Hfuel|].
    exists b', fs', pending'. split; [reflexivity|]. split; [exact Hrep'|].
    split; [lia|]. split; [intros; apply Hcov', Hcov1; assumption|].
    intros o' keys' key Hin Hkey. apply elem_of_cons in Hin as [Heq|Hin].
    + injection Heq as -> ->. apply Hcov', Hown, Hkey.
    + apply (Hall o' keys' key Hin Hkey).
Qed.

Lemma fold_PutFixed32 (ws : list Z) : forall dst,
  fold_left PutFixed32 ws dst = dst ++ concat (EncodeFixed32 <$> ws).
Proof.
  induction ws as [|w ws IH]; intros dst; cbn [fold_left fmap list_fmap concat].
  - rewrite app_nil_r. reflexivity.
  - rewrite IH, PutFixed32_appends, <- app_assoc. reflexivity.
Qed.

(** The block of a builder: the filters, the start of each, the end of
    the last, and the parameter. *)
Definition block_of (fs : list Slice) : Slice :=
  concat fs
  ++ concat (EncodeFixed32 <$> ((fun s => Z.of_nat s) <$> (starts fs ++ [length (concat fs)])))
  ++ [kFilterBaseLg].

Lemma EncodeFixed32_wrap32 v : EncodeFixed32 (wrap32 v) = EncodeFixed32 v.
Proof.
  unfold EncodeFixed32. cbv zeta.
  replace (wrap32 (wrap32 v)) with (wrap32 v); [reflexivity|].
  unfold wrap32. rewrite Z.mod_mod by lia. reflexivity.
Qed.

Lemma Finish_rep b fs pending :
  rep b fs pending -> Z.of_nat (length pending) < 2 ^ 31 ->
  exists fs',
    Finish policy_CreateFilter PutFixed32 b = block_of fs'
    /\ forall o key, covered fs pending o key -> covered fs' [] o key.
Proof.
  intros Hrep Hn.
  assert (Hout : forall b' fs', rep b' fs' [] ->
            PutFixed32 (fold_left PutFixed32 (filter_offsets_ b') (result_ b'))
                       (wrap32 (Z.of_nat (length (result_ b')))) ++ [kFilterBaseLg]
            = block_of fs').
  { intros b' fs' [Hr Ho _ _]. rewrite PutFixed32_appends, fold_PutFixed32, Ho, Hr.
    unfold block_of. rewrite <- !app_assoc. f_equal.
    rewrite !fmap_app, concat_app. cbn [fmap list_fmap concat].
    rewrite app_nil_r, EncodeFixed32_wrap32, <- app_assoc. f_equal.
    f_equal. rewrite <- !list_fmap_compose. apply list_fmap_ext.
    intros i s _. cbn. apply EncodeFixed32_wrap32. }
  unfold Finish. cbv zeta. rewrite (rep_start _ _ _ Hrep).
  destruct (bool_decide_reflect (starts pending = [])) as [Hnil|Hsome].
  - assert (Hp : pending = []).
    { apply (f_equal length) in Hnil. rewrite length_starts in Hnil.
      destruct pending; [reflexivity|discriminate]. }
    subst pending. exists fs. split; [apply Hout; exact Hrep|auto].
  - destruct (GenerateFilter_rep b fs pending Hrep Hn) as (f & Hrep' & Hmade).
    exists (fs ++ [f]). split; [apply Hout; exact Hrep'|].
    intros o key Hc. apply (covered_snoc fs pending); assumption.
Qed.

(** Reading the block of a builder. *)
Lemma length_words (ws : list Z) : length (concat (EncodeFixed32 <$> ws)) = (4 * length ws)%nat.
Proof.
  induction ws as [|w ws IH]; [reflexivity|].
  cbn [fmap list_fmap concat]. rewrite length_app, IH, EncodeFixed32_length.
  cbn [length]. lia.
Qed.

Lemma length_block_of fs :
  length (block_of fs) = (length (concat fs) + 4 * length fs + 5)%nat.
Proof.
  unfold block_of. rewrite !length_app, length_words, length_fmap, length_app, length_starts.
  simpl. lia.
Qed.

Lemma block_word fs j :
  (j <= length fs)%nat -> Z.of_nat (length (block_of fs)) < 2 ^ 32 ->
  DecodeFixed32 (drop (length (concat fs) + j * 4) (block_of fs))
  = Some (Z.of_nat (start_of fs j)).
Proof.
  intros Hj Hsize. unfold block_of. rewrite drop_app_add.
  rewrite (decode_word _ _ j (Z.of_nat (start_of fs j))).
  - f_equal. apply wrap32_small. pose proof (start_of_le fs j).
    rewrite length_block_of in Hsize. lia.
  - rewrite list_lookup_fmap.
    destruct (decide (j = length fs)) as [->|Hne].
    + rewrite lookup_app_r by (rewrite length_starts; lia).
      rewrite length_starts, Nat.sub_diag. cbn. rewrite start_of_all by lia. reflexivity.
    + rewrite lookup_app_l by (rewrite length_starts; lia).
      rewrite starts_lookup by lia. reflexivity.
Qed.

Lemma new_FilterBlockReader_block fs :
  Z.of_nat (length (block_of fs)) < 2 ^ 32 ->
  new_FilterBlockReader (block_of fs)
  = Some {| data_ := block_of fs; offset_ := length (concat fs);
            num_ := Z.of_nat (length fs); base_lg_ := kFilterBaseLg |}.
Proof.
  intros Hsize. unfold new_FilterBlockReader. cbv zeta.
  pose proof (length_block_of fs) as Hlen.
  destruct (Nat.ltb_spec (length (block_of fs)) 5) as [Hlt|_]; [lia|].
  replace (length (block_of fs) - 5)%nat with (length (concat fs) + length fs * 4)%nat by lia.
  rewrite (block_word fs (length fs)) by (lia || exact Hsize).
  rewrite start_of_all by lia.
  destruct (Z.ltb_spec (Z.of_nat (length (concat fs) + length fs * 4))
                       (Z.of_nat (length (concat fs)))) as [Hlt|_]; [lia|].
  f_equal. f_equal.
  - apply Nat2Z.id.
  - replace (Z.of_nat (length (concat fs) + length fs * 4) - Z.of_nat (length (concat fs)))
      with (Z.of_nat (length fs) * 4) by lia.
    apply Z.div_mul. lia.
  - replace (length (block_of fs) - 1)%nat
      with (length (concat fs ++ concat (EncodeFixed32 <$> ((fun s => Z.of_nat s)
              <$> (starts fs ++ [length (concat fs)])))) + 0)%nat.
    + unfold block_of. rewrite app_assoc, app_nth2_plus. reflexivity.
    + rewrite length_app, length_words, length_fmap, length_app, length_starts. simpl. lia.
Qed.

Lemma KeyMayMatch_block fs o key :
  Z.of_nat (length (block_of fs)) < 2 ^ 32 -> 0 <= o ->
  exists r,
    new_FilterBlockReader (block_of fs) = Some r
    /\ KeyMayMatch policy_KeyMayMatch r o key
       = Some (match fs !! Z.to_nat (o / kFilterBase) with
               | Some f => policy_KeyMayMatch key f
               | None => true
               end).
Proof.
  intros Hsize Ho. eexists. split; [apply new_FilterBlockReader_block; exact Hsize|].
  unfold KeyMayMatch. cbn [base_lg_ num_ offset_ data_]. cbv zeta.
  change (64 <=? kFilterBaseLg) with false. cbv iota.
  rewrite Z.shiftr_div_pow2 by (unfold kFilterBaseLg; lia).
  change (2 ^ kFilterBaseLg) with kFilterBase.
  set (index := o / kFilterBase).
  assert (Hindex : 0 <= index) by (apply Z.div_pos; [exact Ho|reflexivity]).
  destruct (Z.ltb_spec index (Z.of_nat (length fs))) as [Hlt|Hge].
  - destruct (lookup_lt_is_Some_2 fs (Z.to_nat index) ltac:(lia)) as [f Hf].
    rewrite Hf.
    rewrite (block_word fs (Z.to_nat index)) by (lia || exact Hsize).
    replace (length (concat fs) + Z.to_nat index * 4 + 4)%nat
      with (length (concat fs) + S (Z.to_nat index) * 4)%nat by lia.
    rewrite (block_word fs (S (Z.to_nat index))) by (lia || exact Hsize).
    pose proof (start_of_S fs _ f Hf) as HS.
    pose proof (start_of_le fs (S (Z.to_nat index))) as Hend.
    destruct (Z.leb_spec (Z.of_nat (start_of fs (Z.to_nat index)))
                         (Z.of_nat (start_of fs (S (Z.to_nat index))))); [|lia].
    destruct (Z.leb_spec (Z.of_nat (start_of fs (S (Z.to_nat index))))
                         (Z.of_nat (length (concat fs)))); [|lia].
    cbn [andb]. f_equal. f_equal.
    rewrite <- Nat2Z.inj_sub by lia. rewrite !Nat2Z.id.
    unfold block_of. apply slice_concat. exact Hf.
  - rewrite lookup_ge_None_2 by lia. reflexivity.
Qed.

End WithPolicy.

(** X27.  A filter block has no false negatives.  For a policy whose
    [CreateFilter] appends to [dst] a filter which [KeyMayMatch] of the
    policy tells every key it was made from to match, and [PutFixed32]
    that appends the four bytes of [EncodeFixed32]: a builder that is
    given data blocks at offsets which do not decrease, with fewer than
    2^31 keys in all, fails no assertion and ends every loop within as
    many rounds as the index of the last filter; and when the block it
    builds is shorter than 2^32 bytes, a reader of the block answers true
    for every key of every data block at the offset of that data block. *)
Theorem filter_block_no_false_negatives
        (policy_CreateFilter : list Slice -> Z -> list Z -> list Z)
        (policy_KeyMayMatch : Slice -> Slice -> bool)
        (PutFixed32 : list Z -> Z -> list Z)
        (fuel : nat) (blocks : list (Z * list Slice)) :
  (forall dst v, PutFixed32 dst v = dst ++ EncodeFixed32 v) ->
  (forall keys dst,
      exists f, policy_CreateFilter keys (Z.of_nat (length keys)) dst = dst ++ f
                /\ forall key, key ∈ keys -> policy_KeyMayMatch key f = true) ->
  increasing 0 blocks ->
  Z.of_nat (key_count blocks) < 2 ^ 31 ->
  Forall (fun block => (Z.to_nat (block.1 / kFilterBase) <= fuel)%nat) blocks ->
  exists contents,
    build policy_CreateFilter PutFixed32 fuel blocks = Some contents
    /\ (Z.of_nat (length contents) < 2 ^ 32 ->
        exists r,
          new_FilterBlockReader contents = Some r
          /\ forall o keys key,
               (o, keys) ∈ blocks -> key ∈ keys ->
               KeyMayMatch policy_KeyMayMatch r o key = Some true).
Proof.
  intros HPut Hpolicy Hinc Hcount Hfuel. unfold build.
  destruct (add_blocks_rep policy_CreateFilter policy_KeyMayMatch Hpolicy fuel blocks
              0 new_FilterBlockBuilder [] [] (new_rep))
    as (b & fs & pending & -> & Hrep & Hp & _ & Hall);
    [simpl; lia|lia|exact Hinc|vm_compute; discriminate|exact Hfuel|].
  destruct (Finish_rep policy_CreateFilter policy_KeyMayMatch PutFixed32 HPut Hpolicy
              b fs pending Hrep) as (fs' & HF & Hcov); [simpl in Hp; lia|].
  exists (block_of fs'). split; [cbn; f_equal; exact HF|].
  intros Hsize.
  eexists. split; [apply new_FilterBlockReader_block; exact Hsize|].
  intros o keys key Hin Hkey.
  destruct (Hcov o key (Hall o keys key Hin Hkey)) as [Ho [(f & Hf & Hm)|[_ Hnil]]];
    [|apply elem_of_nil in Hnil; tauto].
  destruct (KeyMayMatch_block policy_KeyMayMatch fs' o key Hsize Ho) as (r & Hr & HK).
  rewrite new_FilterBlockReader_block in Hr by exact Hsize. injection Hr as <-.
  rewrite HK, Hf, Hm. reflexivity.
Qed.

(** A policy that keeps the length of each key, [PutFixed32] as an
    append, and four data blocks, the last of them without keys. *)
Definition sample_CreateFilter (keys : list Slice) (n : Z) (dst : list Z) : list Z :=
  dst ++ ((fun key => Z.of_nat (length key) mod 256) <$> take (Z.to_nat n) keys).

Definition sample_KeyMayMatch (key filter : Slice) : bool :=
  bool_decide (Z.of_nat (length key) mod 256 ∈ filter).

Definition sample_PutFixed32 (dst : list Z) (v : Z) : list Z := dst ++ EncodeFixed32 v.

Definition sample_blocks : list (Z * list Slice) :=
  [(0, [[1]; [2; 3]]); (1000, [[4; 5; 6]]); (5000, [[7]]); (9000, [])].

Lemma filter_block_no_false_negatives_witness :
  exists contents,
    build sample_CreateFilter sample_PutFixed32 4 sample_blocks = Some contents
    /\ (Z.of_nat (length contents) < 2 ^ 32 ->
        exists r,
          new_FilterBlockReader contents = Some r
          /\ forall o keys key,
               (o, keys) ∈ sample_blocks -> key ∈ keys ->
               KeyMayMatch sample_KeyMayMatch r o key = Some true).
Proof.
  apply (filter_block_no_false_negatives sample_CreateFilter sample_KeyMayMatch
           sample_PutFixed32 4 sample_blocks).
  - reflexivity.
  - intros keys dst. eexists. split.
    + unfold sample_CreateFilter. rewrite Nat2Z.id, firstn_all. reflexivity.
    + intros key Hkey. apply bool_decide_eq_true.
      apply (list_elem_of_fmap_2 (fun key => Z.of_nat (length key) mod 256)). exact Hkey.
  - simpl. lia.
  - vm_compute. reflexivity.
  - repeat constructor.
Defined.

(** The block of [sample_blocks]: the filters of lengths [1, 2, 3] and of
    length [1], the four starts [0, 3, 3, 4], the start of the array
    and the parameter; and what a reader of it answers. *)
Example sample_blocks_block :
  build sample_CreateFilter sample_PutFixed32 4 sample_blocks
  = Some [1; 2; 3; 1;
          0; 0; 0; 0;  3; 0; 0; 0;  3; 0; 0; 0;  4; 0; 0; 0;
          4; 0; 0; 0;  11]
  /\ (r ← (build sample_CreateFilter sample_PutFixed32 4 sample_blocks
           ≫= new_FilterBlockReader);
      Some (KeyMayMatch sample_KeyMayMatch r 1000 [9; 9],
            KeyMayMatch sample_KeyMayMatch r 1000 [9; 9; 9; 9],
            KeyMayMatch sample_KeyMayMatch r 3000 [9],
            KeyMayMatch sample_KeyMayMatch r 5000 [9],
            KeyMayMatch sample_KeyMayMatch r 20000 [9; 9]))
     = Some (Some true, Some false, Some false, Some true, Some true).
Proof. split; vm_compute; reflexivity. Qed.

Lemma DecodeFixed32_defined (ptr : Slice) :
  (4 <= length ptr)%nat -> exists v, DecodeFixed32 ptr = Some v /\ 0 <= v.
Proof.
  intros Hlen. destruct ptr as [|b0 [|b1 [|b2 [|b3 rest]]]]; simpl in Hlen; try lia.
  rewrite DecodeFixed32_sum. eexists. split; [reflexivity|].
  pose proof (uint8_range b0). pose proof (uint8_range b1).
  pose proof (uint8_range b2). pose proof (uint8_range b3). lia.
Qed.

(** X28.  A reader reads no byte past the contents it is given, whatever
    they are.  The constructor reads its bytes inside the contents; and
    [KeyMayMatch] at an offset that is not negative reads the two words of
    its filter inside them and gives an answer, unless the last byte of
    the contents, which the reader shifts the offset by, is 64 or more.
    For contents of fewer than five bytes the answer is true. *)
Theorem FilterBlockReader_reads_inside
        (policy_KeyMayMatch : Slice -> Slice -> bool)
        (contents : Slice) (o : Z) (key : Slice) :
  0 <= o ->
  exists r,
    new_FilterBlockReader contents = Some r
    /\ (KeyMayMatch policy_KeyMayMatch r o key = None <-> 64 <= base_lg_ r)
    /\ ((length contents < 5)%nat ->
        KeyMayMatch policy_KeyMayMatch r o key = Some true).
Proof.
  intros Ho. unfold new_FilterBlockReader. cbv zeta.
  assert (Hshift : forall lg, 0 <= Z.shiftr o lg).
  { intros lg. apply Z.shiftr_nonneg. exact Ho. }
  assert (Hempty : forall lg,
            (KeyMayMatch policy_KeyMayMatch
               {| data_ := []; offset_ := 0; num_ := 0; base_lg_ := lg |} o key = None
             <-> 64 <= lg)
            /\ (lg = 0 ->
                KeyMayMatch policy_KeyMayMatch
                  {| data_ := []; offset_ := 0; num_ := 0; base_lg_ := lg |} o key
                = Some true)).
  { intros lg. unfold KeyMayMatch. cbn [base_lg_ num_]. cbv zeta.
    destruct (Z.ltb_spec (Z.shiftr o lg) 0) as [Hlt|_]; [specialize (Hshift lg); lia|].
    split.
    - destruct (Z.leb_spec 64 lg); split; intros; (reflexivity || lia || discriminate).
    - intros ->. reflexivity. }
  destruct (Nat.ltb_spec (length contents) 5) as [Hlt|Hge].
  - eexists. split; [reflexivity|]. split; [apply (Hempty 0)|].
    intros _. apply (Hempty 0). reflexivity.
  - set (n := length contents) in *.
    destruct (DecodeFixed32_defined (drop (n - 5) contents)) as (last_word & -> & Hlw).
    { rewrite length_drop. lia. }
    set (lg := Bloom.size_t_of_char (nth (n - 1) contents 0)).
    destruct (Z.ltb_spec (Z.of_nat (n - 5)) last_word) as [Hbad|Hgood].
    + eexists. split; [reflexivity|]. split; [apply (Hempty lg)|lia].
    + eexists. split; [reflexivity|]. split; [|lia].
      unfold KeyMayMatch. cbn [base_lg_ num_ offset_ data_]. cbv zeta.
      destruct (Z.leb_spec 64 lg) as [Hlg|Hlg]; [split; [lia|reflexivity]|].
      split; [|lia]. intros HNone. exfalso. revert HNone.
      set (index := Z.shiftr o lg). pose proof (Hshift lg) as Hindex. fold index in Hindex.
      destruct (Z.ltb_spec index ((Z.of_nat (n - 5) - last_word) / 4)) as [Hin|_];
        [|discriminate].
      assert (Hroom : 4 * index + 4 <= Z.of_nat (n - 5) - last_word).
      { pose proof (Z.mul_div_le (Z.of_nat (n - 5) - last_word) 4 ltac:(lia)). lia. }
      destruct (DecodeFixed32_defined
                  (drop (Z.to_nat last_word + Z.to_nat index * 4) contents))
        as (start & -> & _); [rewrite length_drop; fold n; lia|].
      destruct (DecodeFixed32_defined
                  (drop (Z.to_nat last_word + Z.to_nat index * 4 + 4) contents))
        as (limit & -> & _); [rewrite length_drop; fold n; lia|].
      destruct ((start <=? limit) && (limit <=? Z.of_nat (Z.to_nat last_word)));
        [discriminate|]. destruct (start =? limit); discriminate.
Qed.

(** Contents whose last word points past them, and well-formed ones that
    end with the byte 64. *)
Lemma FilterBlockReader_reads_inside_witness :
  exists r,
    new_FilterBlockReader [1; 2; 3; 255; 255; 255; 255; 11] = Some r
    /\ (KeyMayMatch (fun _ _ => false) r 4096 [7] = None <-> 64 <= base_lg_ r)
    /\ ((length [1; 2; 3; 255; 255; 255; 255; 11] < 5)%nat ->
        KeyMayMatch (fun _ _ => false) r 4096 [7] = Some true).
Proof.
  apply (FilterBlockReader_reads_inside (fun _ _ => false)
           [1; 2; 3; 255; 255; 255; 255; 11] 4096 [7]).
  lia.
Defined.

Example FilterBlockReader_shift :
  (r ← new_FilterBlockReader [1; 2; 3; 255; 255; 255; 255; 11];
   KeyMayMatch (fun _ _ => false) r 4096 [7]) = Some true
  /\ (r ← new_FilterBlockReader [5; 0; 0; 0; 0; 1; 0; 0; 0; 1; 0; 0; 0; 64];
      KeyMayMatch (fun _ _ => false) r 0 [7]) = None.
Proof. split; vm_compute; reflexivity. Qed.

End FilterBlockFacts.

(* ===================================================================== *)
(** ** db/skiplist.h *)
(* ===================================================================== *)

Module SkipList.
Import Random.

(** [enum { kMaxHeight = 12 }] *)
Definition kMaxHeight : nat := 12.

Section WithKey.

Variable Key : Type.

(** [compare_(a, b)], a three-way comparison. *)
Variable compare_ : Key -> Key -> Z.

(** [struct Node]: the key and the array [next_] of the links of the node,
    one for each level of its height.  A pointer to a node is the index of
    the node among the nodes the arena has been asked for, [None] is
    [nullptr]. *)
Record Node := {
  key : Key;
  next_ : list (option nat)
}.

(** [class SkipList]: the nodes allocated so far, [max_height_] (an
    [int], here always from 1 to 12) and the state of [rnd_]. *)
Record SkipList := {
  nodes_ : list Node;
  max_height_ : nat;
  rnd_ : Random
}.

(** [head_] is the first node allocated. *)
Definition head_ : nat := 0.

(** [x->Next(n)] and [x->NoBarrier_Next(n)]; the outer [None]: there is
    no such node or no such link. *)
Definition Node_Next (s : SkipList) (x : nat) (n : nat) : option (option nat) :=
  match nodes_ s !! x with
  | Some node => next_ node !! n
  | None => None
  end.

(** [x->SetNext(n, y)] and [x->NoBarrier_SetNext(n, y)] *)
Definition Node_SetNext (x : nat) (n : nat) (y : option nat) (s : SkipList)
  : option SkipList :=
  match nodes_ s !! x with
  | Some node =>
      if (n <? length (next_ node))%nat
      then Some {| nodes_ := <[x := {| key := key node;
                                      next_ := <[n := y]> (next_ node) |}]> (nodes_ s);
                   max_height_ := max_height_ s; rnd_ := rnd_ s |}
      else None
  | None => None
  end.

(** [Node* NewNode(const Key& key, int height)]: the new node and the
    list.  The links of the new node are not initialised by the source;
    [Insert] writes each of them before it reads it. *)
Definition NewNode (k : Key) (height : nat) (s : SkipList) : nat * SkipList :=
  (length (nodes_ s),
   {| nodes_ := nodes_ s ++ [ {| key := k; next_ := replicate height None |} ];
      max_height_ := max_height_ s; rnd_ := rnd_ s |}).

(** [SkipList(Comparator cmp, Arena* arena)]; [key0] is the key of the
    head, [0 /* any key will do */]. *)
Definition new_SkipList (key0 : Key) : SkipList :=
  {| nodes_ := [ {| key := key0; next_ := replicate kMaxHeight None |} ];
     max_height_ := 1; rnd_ := new_Random 0xdeadbeef |}.

(** [bool Equal(const Key& a, const Key& b)] *)
Definition Equal (a b : Key) : bool := compare_ a b =? 0.

(** The loop of [RandomHeight]; [None]: the fuel ran out, or [OneIn]
    is undefined. *)
Fixpoint RandomHeight_loop (fuel : nat) (height : nat) (rnd : Random)
  : option (nat * Random) :=
  if (height <? kMaxHeight)%nat then
    match OneIn 4 rnd with
    | Some (true, rnd) =>
        match fuel with
        | O => None
        | S fuel => RandomHeight_loop fuel (S height) rnd
        end
    | Some (false, rnd) => Some (height, rnd)
    | None => None
    end
  else Some (height, rnd).

(** [int RandomHeight()]: the height and the new state of [rnd_]. *)
Definition RandomHeight (rnd : Random) : option (nat * Random) :=
  match RandomHeight_loop kMaxHeight 1 rnd with
  | Some (height, rnd) =>
      if (0 <? height)%nat && (height <=? kMaxHeight)%nat
      then Some (height, rnd) else None
  | None => None
  end.

(** [bool KeyIsAfterNode(const Key& key, Node* n)] *)
Definition KeyIsAfterNode (s : SkipList) (k : Key) (n : option nat) : option bool :=
  match n with
  | None => Some false
  | Some id =>
      match nodes_ s !! id with
      | Some node => Some (compare_ (key node) k <? 0)
      | None => None
      end
  end.

(** The loop of [FindGreaterOrEqual] from the node [x] at [level].
    [prev] is [None] for [nullptr], and else the array, of which an
    element is [None] until it is written. *)
Fixpoint FindGreaterOrEqual_loop (fuel : nat) (s : SkipList) (k : Key)
         (x level : nat) (prev : option (list (option nat)))
  : option (option nat * option (list (option nat))) :=
  match fuel with
  | O => None
  | S fuel =>
      match Node_Next s x level with
      | None => None
      | Some next =>
          match KeyIsAfterNode s k next, next with
          | Some true, Some next =>
              (* Keep searching in this list *)
              FindGreaterOrEqual_loop fuel s k next level prev
          | Some false, _ =>
              let prev := (fun p => <[level := Some x]> p) <$> prev in
              match level with
              | O => Some (next, prev)
              | S level =>
                  (* Switch to next list *)
                  FindGreaterOrEqual_loop fuel s k x level prev
              end
          | _, _ => None
          end
      end
  end.

(** [Node* FindGreaterOrEqual(const Key& key, Node** prev)] *)
Definition FindGreaterOrEqual (fuel : nat) (s : SkipList) (k : Key)
           (prev : option (list (option nat)))
  : option (option nat * option (list (option nat))) :=
  match max_height_ s with
  | O => None
  | S level => FindGreaterOrEqual_loop fuel s k head_ level prev
  end.

(** The loop of [FindLessThan]; [None] also where the assertion fails. *)
Fixpoint FindLessThan_loop (fuel : nat) (s : SkipList) (k : Key) (x level : nat)
  : option nat :=
  match fuel with
  | O => None
  | S fuel =>
      match nodes_ s !! x with
      | Some node =>
          if bool_decide (x = head_) || (compare_ (key node) k <? 0) then
            match Node_Next s x level with
            | Some None =>
                match level with
                | O => Some x
                | S level => FindLessThan_loop fuel s k x level
                end
            | Some (Some next) =>
                match nodes_ s !! next with
                | Some node' =>
                    if 0 <=? compare_ (key node') k then
                      match level with
                      | O => Some x
                      | S level => FindLessThan_loop fuel s k x level
                      end
                    else FindLessThan_loop fuel s k next level
                | None => None
                end
            | None => None
            end
          else None
      | None => None
      end
  end.

(** [Node* FindLessThan(const Key& key)] *)
Definition FindLessThan (fuel : nat) (s : SkipList) (k : Key) : option nat :=
  match max_height_ s with
  | O => None
  | S level => FindLessThan_loop fuel s k head_ level
  end.

(** The loop of [FindLast]. *)
Fixpoint FindLast_loop (fuel : nat) (s : SkipList) (x level : nat) : option nat :=
  match fuel with
  | O => None
  | S fuel =>
      match Node_Next s x level with
      | Some None =>
          match level with
          | O => Some x
          | S level => FindLast_loop fuel s x level
          end
      | Some (Some next) => FindLast_loop fuel s next level
      | None => None
      end
  end.

(** [Node* FindLast()] *)
Definition FindLast (fuel : nat) (s : SkipList) : option nat :=
  match max_height_ s with
  | O => None
  | S level => FindLast_loop fuel s head_ level
  end.

(** The last loop of [Insert]: the new node [x] is linked at each of the
    levels. *)
Fixpoint link_levels (x : nat) (prev : list (option nat)) (levels : list nat)
         (s : SkipList) : option SkipList :=
  match levels with
  | [] => Some s
  | i :: levels =>
      match prev !! i with
      | Some (Some p) =>
          (* NoBarrier_SetNext() suffices since we will add a barrier when
             we publish a pointer to "x" in prev[i]. *)
          match Node_Next s p i with
          | Some next =>
              match Node_SetNext x i next s with
              | Some s =>
                  match Node_SetNext p i (Some x) s with
                  | Some s => link_levels x prev levels s
                  | None => None
                  end
              | None => None
              end
          | None => None
          end
      | _ => None
      end
  end.

(** [void Insert(const Key& key)]; [None] also where the assertion
    fails. *)
Definition Insert (fuel : nat) (k : Key) (s : SkipList) : option SkipList :=
  match FindGreaterOrEqual fuel s k (Some (replicate kMaxHeight None)) with
  | Some (x, Some prev) =>
      (* Our data structure does not allow duplicate insertion *)
      let distinct :=
        match x with
        | None => Some true
        | Some id =>
            match nodes_ s !! id with
            | Some node => Some (negb (Equal k (key node)))
            | None => None
            end
        end in
      match distinct, RandomHeight (rnd_ s) with
      | Some true, Some (height, rnd) =>
          let prev :=
            if (max_height_ s <? height)%nat
            then fold_left (fun prev i => <[i := Some head_]> prev)
                           (seq (max_height_ s) (height - max_height_ s)) prev
            else prev in
          let max_height :=
            if (max_height_ s <? height)%nat then height else max_height_ s in
          let '(x, s) :=
            NewNode k height
                    {| nodes_ := nodes_ s; max_height_ := max_height; rnd_ := rnd |} in
          link_levels x prev (seq 0 height) s
      | _, _ => None
      end
  | _ => None
  end.

(** [bool Contains(const Key& key)] *)
Definition Contains (fuel : nat) (k : Key) (s : SkipList) : option bool :=
  match FindGreaterOrEqual fuel s k None with
  | Some (Some x, _) =>
      match nodes_ s !! x with
      | Some node => Some (Equal k (key node))
      | None => None
      end
  | Some (None, _) => Some false
  | None => None
  end.

(** [class SkipList::Iterator]: [node_], over the list [s]. *)
Definition Iterator := option nat.

Definition new_Iterator : Iterator := None.

Definition Iterator_Valid (it : Iterator) : bool := bool_decide (is_Some it).

(** [key()]; [None]: the assertion fails. *)
Definition Iterator_key (s : SkipList) (it : Iterator) : option Key :=
  match it with
  | Some x => key <$> nodes_ s !! x
  | None => None
  end.

Definition Iterator_Next (s : SkipList) (it : Iterator) : option Iterator :=
  match it with
  | Some x => Node_Next s x 0
  | None => None
  end.

Definition Iterator_Prev (fuel : nat) (s : SkipList) (it : Iterator) : option Iterator :=
  match it with
  | Some x =>
      match nodes_ s !! x with
      | Some node =>
          match FindLessThan fuel s (key node) with
          | Some y => Some (if bool_decide (y = head_) then None else Some y)
          | None => None
          end
      | None => None
      end
  | None => None
  end.

Definition Iterator_Seek (fuel : nat) (s : SkipList) (target : Key) : option Iterator :=
  fst <$> FindGreaterOrEqual fuel s target None.

Definition Iterator_SeekToFirst (s : SkipList) : option Iterator :=
  Node_Next s head_ 0.

Definition Iterator_SeekToLast (fuel : nat) (s : SkipList) : option Iterator :=
  match FindLast fuel s with
  | Some y => Some (if bool_decide (y = head_) then None else Some y)
  | None => None
  end.

(** The calls on an iterator, and a sequence of them; [None] where an
    assertion fails or the fuel runs out. *)
Inductive IterCall :=
| CallSeekToFirst
| CallSeekToLast
| CallSeek (target : Key)
| CallNext
| CallPrev.

Definition Iterator_call (fuel : nat) (s : SkipList) (c : IterCall) (it : Iterator)
  : option Iterator :=
  match c with
  | CallSeekToFirst => Iterator_SeekToFirst s
  | CallSeekToLast => Iterator_SeekToLast fuel s
  | CallSeek target => Iterator_Seek fuel s target
  | CallNext => Iterator_Next s it
  | CallPrev => Iterator_Prev fuel s it
  end.

Fixpoint Iterator_calls (fuel : nat) (s : SkipList) (cs : list IterCall) (it : Iterator)
  : option Iterator :=
  match cs with
  | [] => Some it
  | c :: cs =>
      match Iterator_call fuel s c it with
      | Some it => Iterator_calls fuel s cs it
      | None => None
      end
  end.

(** The keys inserted one after the other. *)
Fixpoint insert_all (fuel : nat) (keys : list Key) (s : SkipList) : option SkipList :=
  match keys with
  | [] => Some s
  | k :: keys =>
      match Insert fuel k s with
      | Some s => insert_all fuel keys s
      | None => None
      end
  end.

End WithKey.

Arguments key {Key} _.
Arguments next_ {Key} _.
Arguments nodes_ {Key} _.
Arguments max_height_ {Key} _.
Arguments rnd_ {Key} _.
Arguments head_ : clear implicits.
Arguments Node_Next {Key} _ _ _.
Arguments Node_SetNext {Key} _ _ _ _.
Arguments NewNode {Key} _ _ _.
Arguments new_SkipList {Key} _.
Arguments Equal {Key} _ _ _.
Arguments KeyIsAfterNode {Key} _ _ _ _.
Arguments FindGreaterOrEqual_loop {Key} _ _ _ _ _ _ _.
Arguments FindGreaterOrEqual {Key} _ _ _ _ _.
Arguments FindLessThan_loop {Key} _ _ _ _ _ _.
Arguments FindLessThan {Key} _ _ _ _.
Arguments FindLast_loop {Key} _ _ _ _.
Arguments FindLast {Key} _ _.
Arguments link_levels {Key} _ _ _ _.
Arguments Insert {Key} _ _ _ _.
Arguments Contains {Key} _ _ _ _.
Arguments Iterator_key {Key} _ _.
Arguments Iterator_Next {Key} _ _.
Arguments Iterator_Prev {Key} _ _ _ _.
Arguments Iterator_Seek {Key} _ _ _ _.
Arguments Iterator_SeekToFirst {Key} _.
Arguments Iterator_SeekToLast {Key} _ _.
Arguments insert_all {Key} _ _ _ _.
Arguments CallSeekToFirst {Key}.
Arguments CallSeekToLast {Key}.
Arguments CallSeek {Key} _.
Arguments CallNext {Key}.
Arguments CallPrev {Key}.
Arguments Iterator_call {Key} _ _ _ _ _.
Arguments Iterator_calls {Key} _ _ _ _ _.

End SkipList.

Module SkipListFacts.
Import Random SkipList.

Section WithKey.

Variable Key : Type.
Variable compare_ : Key -> Key -> Z.
Variable key0 : Key.

Abbreviation SkipList := (SkipList Key).

(** The key and the height of the node [x]. *)
Definition key_of (s : SkipList) (x : nat) : Key :=
  match nodes_ s !! x with
  | Some node => key node
  | None => key0
  end.

Definition height (s : SkipList) (x : nat) : nat :=
  match nodes_ s !! x with
  | Some node => length (next_ node)
  | None => O
  end.

(** The nodes of [order] that have a link at level [l]. *)
Definition level (s : SkipList) (l : nat) (order : list nat) : list nat :=
  filter (fun x => (l < height s x)%nat) order.

(** From the node [x] the links of level [l] go through the nodes [A] one
    after the other, and from the last of them to [e]. *)
Fixpoint path (s : SkipList) (l : nat) (x : nat) (A : list nat) (e : option nat) : Prop :=
  match A with
  | [] => Node_Next s x l = Some e
  | y :: A => Node_Next s x l = Some (Some y) /\ path s l y A e
  end.

(** The last node of [x :: A]. *)
Definition last0 (x : nat) (A : list nat) : nat := List.last A x.

Lemma last0_snoc x A y : last0 x (A ++ [y]) = y.
Proof. unfold last0. apply last_last. Qed.

Lemma last0_cons x y A : last0 x (y :: A) = last0 y A.
Proof.
  unfold last0. revert x y. induction A as [|z A IH]; intros x y; [reflexivity|].
  change (List.last (y :: z :: A) x) with (List.last (z :: A) x).
  rewrite !IH. reflexivity.
Qed.

Lemma last0_elem x A : last0 x A = x /\ A = [] \/ last0 x A ∈ A.
Proof.
  destruct A as [|y A] using rev_ind; [left; auto|right].
  rewrite last0_snoc. apply elem_of_app. right. apply list_elem_of_here.
Qed.

Lemma path_app s l A : forall x B e,
  path s l x (A ++ B) e
  <-> path s l x A (match B with [] => e | b :: _ => Some b end)
      /\ match B with [] => True | b :: B' => path s l b B' e end.
Proof.
  induction A as [|y A IH]; intros x B e; cbn [app path].
  - destruct B as [|b B]; cbn [path]; tauto.
  - rewrite IH. tauto.
Qed.

Lemma path_last s l A : forall x e,
  path s l x A e -> Node_Next s (last0 x A) l = Some e.
Proof.
  induction A as [|y A IH]; intros x e H; [exact H|].
  rewrite last0_cons. apply IH. exact (proj2 H).
Qed.

Lemma path_ext s s' l A : forall x e,
  (forall y, y ∈ x :: A -> Node_Next s' y l = Node_Next s y l) ->
  path s l x A e -> path s' l x A e.
Proof.
  induction A as [|y A IH]; intros x e Hsame H; cbn [path] in *.
  - rewrite Hsame by apply list_elem_of_here. exact H.
  - destruct H as [Hx HA]. split.
    + rewrite Hsame by apply list_elem_of_here. exact Hx.
    + apply IH; [|exact HA]. intros z Hz. apply Hsame. apply elem_of_cons. auto.
Qed.

(** The last link of a path is turned to [e']. *)
Lemma path_redirect s s' l A : forall x e e',
  NoDup (x :: A) ->
  (forall y, y ∈ x :: A -> y <> last0 x A -> Node_Next s' y l = Node_Next s y l) ->
  Node_Next s' (last0 x A) l = Some e' ->
  path s l x A e -> path s' l x A e'.
Proof.
  induction A as [|y A IH]; intros x e e' Hnd Hsame Hlast H; cbn [path] in *.
  - exact Hlast.
  - destruct H as [Hx HA]. apply NoDup_cons in Hnd as [Hx_notin Hnd].
    rewrite last0_cons in Hsame, Hlast. split.
    + rewrite Hsame; [exact Hx|apply list_elem_of_here|].
      intros ->. apply Hx_notin.
      destruct (last0_elem y A) as [[-> _]|Hin];
        [apply list_elem_of_here|apply elem_of_cons; auto].
    + apply (IH y e e' Hnd); [|exact Hlast|exact HA].
      intros z Hz Hne. apply Hsame; [apply elem_of_cons; auto|exact Hne].
Qed.

(** Writing a link. *)
Lemma Node_SetNext_defined x n y (s : SkipList) :
  (n < height s x)%nat ->
  exists s', Node_SetNext x n y s = Some s'.
Proof.
  unfold height, Node_SetNext. destruct (nodes_ s !! x) as [node|]; [|lia].
  intros Hn. destruct (Nat.ltb_spec n (length (next_ node))); [eauto|lia].
Qed.

Lemma Node_SetNext_spec x n y (s s' : SkipList) :
  Node_SetNext x n y s = Some s' ->
  length (nodes_ s') = length (nodes_ s)
  /\ max_height_ s' = max_height_ s /\ rnd_ s' = rnd_ s
  /\ (forall z, key_of s' z = key_of s z)
  /\ (forall z, height s' z = height s z)
  /\ (forall z l, Node_Next s' z l
                  = if decide (z = x /\ l = n) then Some y else Node_Next s z l).
Proof.
  unfold Node_SetNext. destruct (nodes_ s !! x) as [node|] eqn:Hx; [|discriminate].
  destruct (Nat.ltb_spec n (length (next_ node))) as [Hn|]; [|discriminate].
  intros [= <-]. cbn [nodes_ max_height_ rnd_].
  pose proof (lookup_lt_Some _ _ _ Hx) as Hlt.
  split; [apply length_insert|]. split; [reflexivity|]. split; [reflexivity|].
  assert (Hlook : forall z,
            <[x := {| key := key node; next_ := <[n := y]> (next_ node) |}]> (nodes_ s) !! z
            = if decide (z = x)
              then Some {| key := key node; next_ := <[n := y]> (next_ node) |}
              else nodes_ s !! z).
  { intros z. destruct (decide (z = x)) as [->|Hne].
    - apply list_lookup_insert_eq. exact Hlt.
    - apply list_lookup_insert_ne. auto. }
  split; [|split].
  - intros z. unfold key_of. cbn [nodes_]. rewrite Hlook.
    destruct (decide (z = x)) as [->|]; [rewrite Hx|]; reflexivity.
  - intros z. unfold height. cbn [nodes_]. rewrite Hlook.
    destruct (decide (z = x)) as [->|]; [rewrite Hx; apply length_insert|reflexivity].
  - intros z l. unfold Node_Next. cbn [nodes_]. rewrite Hlook.
    destruct (decide (z = x)) as [->|Hne].
    + rewrite Hx. cbn [next_].
      destruct (decide (x = x /\ l = n)) as [[_ ->]|Hno].
      * apply list_lookup_insert_eq. exact Hn.
      * apply list_lookup_insert_ne. intros ->. apply Hno. auto.
    + destruct (decide (z = x /\ l = n)) as [[-> _]|_]; [congruence|reflexivity].
Qed.

(** The comparator is a three-way comparison of a total order. *)
Hypothesis compare_trans :
  forall a b c, compare_ a b <= 0 -> compare_ b c <= 0 -> compare_ a c <= 0.
Hypothesis compare_total :
  forall a b, 0 <= compare_ a b -> compare_ b a <= 0.
Hypothesis compare_sign :
  forall a b, compare_ a b <= 0 -> 0 <= compare_ b a.

Lemma compare_lt_le a b c : compare_ a b < 0 -> compare_ b c <= 0 -> compare_ a c < 0.
Proof.
  intros Hab Hbc. destruct (Z.lt_ge_cases (compare_ a c) 0) as [|Hge]; [assumption|].
  pose proof (compare_sign _ _ (compare_trans _ _ _ Hbc (compare_total _ _ Hge))). lia.
Qed.

Lemma compare_le_lt a b c : compare_ a b <= 0 -> compare_ b c < 0 -> compare_ a c < 0.
Proof.
  intros Hab Hbc. destruct (Z.lt_ge_cases (compare_ a c) 0) as [|Hge]; [assumption|].
  pose proof (compare_sign _ _ (compare_trans _ _ _ (compare_total _ _ Hge) Hab)). lia.
Qed.

Lemma compare_lt_flip a b : compare_ a b < 0 -> 0 < compare_ b a.
Proof.
  intros Hab. pose proof (compare_sign a b ltac:(lia)) as H1.
  destruct (Z.eq_dec (compare_ b a) 0) as [Hz|]; [|lia].
  pose proof (compare_sign b a ltac:(lia)). lia.
Qed.

Lemma compare_irrefl a : ~ compare_ a a < 0.
Proof. intros H. pose proof (compare_lt_flip a a H). lia. Qed.

(** Node [a] is before node [b]. *)
Definition lt_node (s : SkipList) (a b : nat) : Prop :=
  compare_ (key_of s a) (key_of s b) < 0.

(** The list holds the nodes [order], in this order. *)
Record wf (s : SkipList) (order : list nat) : Prop := {
  wf_head : height s head_ = kMaxHeight;
  wf_max : (1 <= max_height_ s <= kMaxHeight)%nat;
  wf_ids : Forall (fun x => (0 < x < length (nodes_ s))%nat
                            /\ (1 <= height s x <= max_height_ s)%nat) order;
  wf_sorted : StronglySorted (lt_node s) order;
  wf_linked : forall l, (l < kMaxHeight)%nat -> path s l head_ (level s l order) None
}.

Lemma sorted_nodes_NoDup s order : StronglySorted (lt_node s) order -> NoDup order.
Proof.
  induction 1 as [|x order _ IH Hx]; constructor; [|exact IH].
  intros Hin. rewrite Forall_forall in Hx. apply (compare_irrefl (key_of s x)).
  apply (Hx x). exact Hin.
Qed.

Lemma sorted_nodes_app s A B :
  StronglySorted (lt_node s) A -> StronglySorted (lt_node s) B ->
  (forall a b, a ∈ A -> b ∈ B -> lt_node s a b) ->
  StronglySorted (lt_node s) (A ++ B).
Proof.
  intros HA HB HAB. induction HA as [|a A HA IH Ha]; [exact HB|].
  cbn [app]. constructor.
  - apply IH. intros x y Hx Hy. apply HAB; [apply elem_of_cons; auto|exact Hy].
  - apply Forall_app. split; [exact Ha|].
    apply Forall_forall. intros y Hy. apply HAB; [apply list_elem_of_here|exact Hy].
Qed.

Lemma sorted_nodes_app_inv s A B :
  StronglySorted (lt_node s) (A ++ B) ->
  StronglySorted (lt_node s) A /\ StronglySorted (lt_node s) B
  /\ (forall a b, a ∈ A -> b ∈ B -> lt_node s a b).
Proof.
  induction A as [|x A IH]; cbn [app]; intros H.
  - split; [constructor|]. split; [exact H|]. intros a b Ha. apply elem_of_nil in Ha. tauto.
  - apply StronglySorted_inv in H as [HAB Hx].
    destruct (IH HAB) as (HA & HB & Hlt). apply Forall_app in Hx as [HxA HxB].
    split; [constructor; assumption|]. split; [exact HB|].
    intros a b Ha Hb. apply elem_of_cons in Ha as [->|Ha]; [|apply Hlt; assumption].
    rewrite Forall_forall in HxB. apply HxB. exact Hb.
Qed.

Lemma sorted_nodes_ext s s' order :
  (forall x, x ∈ order -> key_of s' x = key_of s x) ->
  StronglySorted (lt_node s) order -> StronglySorted (lt_node s') order.
Proof.
  intros Hsame H. induction H as [|x order _ IH Hx]; constructor.
  - apply IH. intros y Hy. apply Hsame. apply elem_of_cons. auto.
  - rewrite Forall_forall in *. intros y Hy. unfold lt_node.
    rewrite !Hsame; [apply Hx; exact Hy| |apply list_elem_of_here].
    apply elem_of_cons. right. exact Hy.
Qed.

(** The nodes before a key, and the others. *)
Lemma split_at s k order :
  StronglySorted (lt_node s) order ->
  exists lo hi,
    order = lo ++ hi
    /\ Forall (fun x => compare_ (key_of s x) k < 0) lo
    /\ Forall (fun x => 0 <= compare_ (key_of s x) k) hi.
Proof.
  induction 1 as [|x order Hs IH Hx].
  - exists [], []. auto.
  - destruct (Z.lt_ge_cases (compare_ (key_of s x) k) 0) as [Hlt|Hge].
    + destruct IH as (lo & hi & -> & Hlo & Hhi).
      exists (x :: lo), hi. auto.
    + exists [], (x :: order). split; [reflexivity|]. split; [constructor|].
      constructor; [lia|]. rewrite Forall_forall in *. intros y Hy.
      destruct (Z.lt_ge_cases (compare_ (key_of s y) k) 0) as [Hlt|]; [|lia].
      pose proof (Hx y Hy) as Hxy. unfold lt_node in Hxy.
      assert (Hle : compare_ (key_of s y) k <= 0) by lia.
      pose proof (compare_lt_le _ _ _ Hxy Hle). lia.
Qed.

Lemma level_app s l A B : level s l (A ++ B) = level s l A ++ level s l B.
Proof. apply filter_app. Qed.

Lemma elem_of_level s l A x : x ∈ level s l A <-> (l < height s x)%nat /\ x ∈ A.
Proof. unfold level. rewrite list_elem_of_filter. reflexivity. Qed.

Lemma level_all s A : Forall (fun x => (1 <= height s x)%nat) A -> level s 0 A = A.
Proof.
  induction 1 as [|x A Hx _ IH]; [reflexivity|].
  unfold level in *. rewrite filter_cons_True by lia. rewrite IH. reflexivity.
Qed.

Lemma level_none s l A : Forall (fun x => (height s x <= l)%nat) A -> level s l A = [].
Proof.
  induction 1 as [|x A Hx _ IH]; [reflexivity|].
  unfold level in *. rewrite filter_cons_False by lia. exact IH.
Qed.

Lemma length_level s l A : (length (level s l A) <= length A)%nat.
Proof. apply length_filter. Qed.

Lemma level_ext s s' l A :
  (forall x, x ∈ A -> height s' x = height s x) -> level s' l A = level s l A.
Proof.
  intros Hsame. induction A as [|x A IH]; [reflexivity|].
  unfold level in *.
  assert (Hx : height s' x = height s x) by (apply Hsame, list_elem_of_here).
  assert (HA : filter (fun x => (l < height s' x)%nat) A
               = filter (fun x => (l < height s x)%nat) A).
  { apply IH. intros y Hy. apply Hsame. apply elem_of_cons. auto. }
  destruct (decide (l < height s x)%nat).
  - rewrite !filter_cons_True by lia. rewrite HA. reflexivity.
  - rewrite !filter_cons_False by lia. exact HA.
Qed.

(** Going down one level, the search stays at its node. *)
Lemma level_down s l A :
  exists pre post,
    level s l A = pre ++ post
    /\ last0 head_ pre = last0 head_ (level s (S l) A)
    /\ (length post <= length A)%nat.
Proof.
  destruct (last0_elem head_ (level s (S l) A)) as [[Hl Hnil]|Hin].
  - exists [], (level s l A). split; [reflexivity|]. split; [symmetry; exact Hl|].
    apply length_level.
  - apply elem_of_level in Hin as [Hh Hin].
    assert (Hin' : last0 head_ (level s (S l) A) ∈ level s l A).
    { apply elem_of_level. split; [lia|exact Hin]. }
    apply list_elem_of_split in Hin' as (l1 & l2 & Heq).
    exists (l1 ++ [last0 head_ (level s (S l) A)]), l2.
    split; [rewrite Heq, <- app_assoc; reflexivity|]. split; [apply last0_snoc|].
    pose proof (length_level s l A) as Hlen. rewrite Heq, length_app in Hlen.
    simpl in Hlen. lia.
Qed.

(** What [FindGreaterOrEqual] writes to [prev]: at each level from [lev]
    down, the last node before the key. *)
Fixpoint fill_prev (s : SkipList) (lo : list nat) (lev : nat) (p : list (option nat))
  : list (option nat) :=
  let p := <[lev := Some (last0 head_ (level s lev lo))]> p in
  match lev with
  | O => p
  | S l => fill_prev s lo l p
  end.

Lemma length_fill_prev s lo lev : forall p, length (fill_prev s lo lev p) = length p.
Proof.
  induction lev as [|l IH]; intros p; cbn [fill_prev]; [apply length_insert|].
  rewrite IH. apply length_insert.
Qed.

Lemma fill_prev_lookup s lo lev : forall p i,
  (lev < length p)%nat ->
  fill_prev s lo lev p !! i
  = if decide (i <= lev)%nat then Some (Some (last0 head_ (level s i lo))) else p !! i.
Proof.
  induction lev as [|l IH]; intros p i Hlen; cbn [fill_prev].
  - destruct (decide (i <= 0)%nat) as [Hi|Hi].
    + assert (i = O) by lia. subst i. apply list_lookup_insert_eq. exact Hlen.
    + apply list_lookup_insert_ne. lia.
  - rewrite IH by (rewrite length_insert; lia).
    destruct (decide (i <= l)%nat) as [Hi|Hi].
    + destruct (decide (i <= S l)%nat); [reflexivity|lia].
    + destruct (decide (i <= S l)%nat) as [Hi'|Hi'].
      * assert (i = S l) by lia. subst i. apply list_lookup_insert_eq. exact Hlen.
      * apply list_lookup_insert_ne. lia.
Qed.

Section Seeking.

Variable s : SkipList.
Variable k : Key.
Variables order lo hi : list nat.
Hypothesis Hwf : wf s order.
Hypothesis Horder : order = lo ++ hi.
Hypothesis Hlo : Forall (fun x => compare_ (key_of s x) k < 0) lo.
Hypothesis Hhi : Forall (fun x => 0 <= compare_ (key_of s x) k) hi.

Lemma node_defined x :
  x ∈ order -> exists node, nodes_ s !! x = Some node /\ key_of s x = key node.
Proof.
  intros Hx. pose proof (wf_ids _ _ Hwf) as Hids. rewrite Forall_forall in Hids.
  destruct (Hids x Hx) as [[_ Hlt] _].
  destruct (lookup_lt_is_Some_2 _ _ Hlt) as [node Hnode].
  exists node. split; [exact Hnode|]. unfold key_of. rewrite Hnode. reflexivity.
Qed.

(** The link the search reads at the node it is at. *)
Lemma search_next lev pre post :
  (lev < kMaxHeight)%nat -> level s lev lo = pre ++ post ->
  Node_Next s (last0 head_ pre) lev = Some (head (post ++ level s lev hi)).
Proof.
  intros Hlev Hsplit. pose proof (wf_linked _ _ Hwf lev Hlev) as Hpath.
  rewrite Horder, level_app, Hsplit, <- app_assoc in Hpath.
  apply path_app in Hpath as [Hpath _]. apply path_last in Hpath.
  rewrite Hpath. destruct (post ++ level s lev hi); reflexivity.
Qed.

Lemma after_lo y : y ∈ lo -> KeyIsAfterNode compare_ s k (Some y) = Some true.
Proof.
  intros Hy. destruct (node_defined y) as (node & Hnode & Hkey).
  { rewrite Horder. apply elem_of_app. auto. }
  unfold KeyIsAfterNode. rewrite Hnode, <- Hkey.
  rewrite Forall_forall in Hlo. specialize (Hlo y Hy).
  destruct (Z.ltb_spec (compare_ (key_of s y) k) 0); [reflexivity|lia].
Qed.

Lemma after_hi lev :
  KeyIsAfterNode compare_ s k (head (level s lev hi)) = Some false.
Proof.
  destruct (level s lev hi) as [|z rest] eqn:Hl; [reflexivity|].
  assert (Hz : z ∈ hi).
  { apply (elem_of_level s lev). rewrite Hl. apply list_elem_of_here. }
  destruct (node_defined z) as (node & Hnode & Hkey).
  { rewrite Horder. apply elem_of_app. auto. }
  cbn [head]. unfold KeyIsAfterNode. rewrite Hnode, <- Hkey.
  rewrite Forall_forall in Hhi. specialize (Hhi z Hz).
  destruct (Z.ltb_spec (compare_ (key_of s z) k) 0); [lia|reflexivity].
Qed.

Lemma level_hi_0 : head (level s 0 hi) = head hi.
Proof.
  rewrite level_all; [reflexivity|]. pose proof (wf_ids _ _ Hwf) as Hids.
  rewrite Horder in Hids. apply Forall_app in Hids as [_ Hids].
  eapply Forall_impl; [exact Hids|]. intros x [_ Hx]. exact (proj1 Hx).
Qed.

Lemma FindGreaterOrEqual_loop_spec fuel : forall lev pre post prev,
  (lev < kMaxHeight)%nat -> level s lev lo = pre ++ post ->
  (length post + lev * (length lo + 1) + 1 <= fuel)%nat ->
  FindGreaterOrEqual_loop compare_ fuel s k (last0 head_ pre) lev prev
  = Some (head hi, fill_prev s lo lev <$> prev).
Proof.
  induction fuel as [|fuel IH]; intros lev pre post prev Hlev Hsplit Hfuel; [lia|].
  cbn [FindGreaterOrEqual_loop]. rewrite (search_next lev pre post Hlev Hsplit).
  destruct post as [|y post].
  - cbn [app]. rewrite after_hi. rewrite app_nil_r in Hsplit.
    destruct lev as [|l].
    + rewrite level_hi_0. f_equal. f_equal. cbn [fill_prev]. rewrite Hsplit. reflexivity.
    + destruct (level_down s l lo) as (pre' & post' & Hsplit' & Hlast & Hlen).
      rewrite <- Hsplit, <- Hlast.
      rewrite (IH l pre' post') by (lia || exact Hsplit' || nia).
      f_equal. f_equal. destruct prev as [p|]; [|reflexivity].
      cbn [fmap option_fmap option_map fill_prev]. rewrite Hlast. reflexivity.
  - cbn [app head]. rewrite after_lo.
    + rewrite <- (last0_snoc head_ pre y).
      apply (IH lev (pre ++ [y]) post); [exact Hlev| |simpl in Hfuel; lia].
      rewrite Hsplit, <- app_assoc. reflexivity.
    + apply (elem_of_level s lev). rewrite Hsplit. apply elem_of_app. right.
      apply list_elem_of_here.
Qed.

Lemma FindGreaterOrEqual_spec fuel prev :
  (kMaxHeight * (length order + 1) <= fuel)%nat ->
  FindGreaterOrEqual compare_ fuel s k prev
  = Some (head hi, fill_prev s lo (max_height_ s - 1) <$> prev).
Proof.
  intros Hfuel. unfold FindGreaterOrEqual. pose proof (wf_max _ _ Hwf) as Hmax.
  destruct (max_height_ s) as [|mh] eqn:Hmh; [lia|].
  replace (S mh - 1)%nat with mh by lia.
  apply (FindGreaterOrEqual_loop_spec fuel mh [] (level s mh lo)); [lia|reflexivity|].
  pose proof (length_level s mh lo). rewrite Horder, length_app in Hfuel.
  unfold kMaxHeight in *. nia.
Qed.

End Seeking.

Lemma RandomHeight_loop_spec fuel : forall h rnd,
  (1 <= h <= kMaxHeight)%nat -> (kMaxHeight - h <= fuel)%nat ->
  exists h' rnd',
    RandomHeight_loop fuel h rnd = Some (h', rnd') /\ (1 <= h' <= kMaxHeight)%nat.
Proof.
  induction fuel as [|fuel IH]; intros h rnd Hh Hfuel; cbn [RandomHeight_loop].
  - destruct (Nat.ltb_spec h kMaxHeight); [lia|]. eauto.
  - destruct (Nat.ltb_spec h kMaxHeight); [|eauto].
    unfold OneIn. change (wrap32 4 =? 0) with false. cbv iota.
    destruct (Next rnd mod wrap32 4 =? 0); [|eauto].
    apply IH; lia.
Qed.

Lemma RandomHeight_spec rnd :
  exists h rnd', RandomHeight rnd = Some (h, rnd') /\ (1 <= h <= kMaxHeight)%nat.
Proof.
  unfold RandomHeight.
  destruct (RandomHeight_loop_spec kMaxHeight 1 rnd) as (h & rnd' & -> & Hh);
    [unfold kMaxHeight; lia|lia|].
  exists h, rnd'.
  destruct (Nat.ltb_spec 0 h); [|lia]. destruct (Nat.leb_spec h kMaxHeight); [|lia].
  auto.
Qed.

Lemma fold_insert_lookup (v : option nat) n : forall a (p : list (option nat)) j,
  fold_left (fun p i => <[i := v]> p) (seq a n) p !! j
  = if decide ((a <= j < a + n)%nat /\ (j < length p)%nat) then Some v else p !! j.
Proof.
  induction n as [|n IH]; intros a p j; cbn [seq fold_left].
  - destruct (decide _) as [[? ?]|]; [lia|reflexivity].
  - rewrite IH, length_insert.
    destruct (decide ((S a <= j < S a + n)%nat /\ (j < length p)%nat)) as [[H1 H2]|Hno].
    + destruct (decide _) as [|Hno']; [reflexivity|]. exfalso. apply Hno'. lia.
    + destruct (decide (j = a)) as [->|Hne].
      * destruct (decide ((a <= a < a + S n)%nat /\ (a < length p)%nat)) as [[_ Hlt]|Hno'].
        -- apply list_lookup_insert_eq. exact Hlt.
        -- rewrite lookup_ge_None_2; [symmetry; apply lookup_ge_None_2; lia|].
           rewrite length_insert. lia.
      * rewrite list_lookup_insert_ne by auto.
        destruct (decide _) as [[? ?]|]; [exfalso; apply Hno; lia|reflexivity].
Qed.

(** Linking the new node [n], whose place is after [lo] and before
    [hi]. *)
Section Link.

Variable s : SkipList.
Variable k : Key.
Variables order lo hi : list nat.
Hypothesis Hwf : wf s order.
Hypothesis Horder : order = lo ++ hi.
Variable h : nat.
Hypothesis Hh : (1 <= h <= kMaxHeight)%nat.
Variable s1 : SkipList.
Hypothesis Hnodes1 :
  nodes_ s1 = nodes_ s ++ [ {| key := k; next_ := replicate h None |} ].

Let n := length (nodes_ s).
Let p (l : nat) := last0 head_ (level s l lo).

Lemma old_lookup x : (x < n)%nat -> nodes_ s1 !! x = nodes_ s !! x.
Proof. intros Hx. rewrite Hnodes1. apply lookup_app_l. exact Hx. Qed.

Lemma new_lookup : nodes_ s1 !! n = Some {| key := k; next_ := replicate h None |}.
Proof.
  rewrite Hnodes1. rewrite lookup_app_r by (unfold n; lia).
  replace (n - length (nodes_ s))%nat with O by (unfold n; lia). reflexivity.
Qed.

Lemma head_old : (0 < n)%nat.
Proof.
  pose proof (wf_head _ _ Hwf) as Hhd. unfold height in Hhd.
  destruct (nodes_ s !! head_) eqn:Hl; [|discriminate].
  apply lookup_lt_Some in Hl. unfold n. lia.
Qed.

Lemma order_old x : x ∈ order -> (0 < x < n)%nat /\ (1 <= height s x <= max_height_ s)%nat.
Proof.
  intros Hx. pose proof (wf_ids _ _ Hwf) as Hids. rewrite Forall_forall in Hids.
  exact (Hids x Hx).
Qed.

Lemma p_elem l : p l = head_ /\ level s l lo = [] \/ p l ∈ level s l lo.
Proof. apply last0_elem. Qed.

Lemma p_old l : (p l < n)%nat.
Proof.
  destruct (p_elem l) as [[-> _]|Hin]; [apply head_old|].
  apply elem_of_level in Hin as [_ Hin]. apply order_old. rewrite Horder.
  apply elem_of_app. auto.
Qed.

Lemma p_height l : (l < kMaxHeight)%nat -> (l < height s (p l))%nat.
Proof.
  intros Hl. destruct (p_elem l) as [[-> _]|Hin].
  - rewrite (wf_head _ _ Hwf). exact Hl.
  - apply elem_of_level in Hin as [Hlt _]. exact Hlt.
Qed.

Lemma p_next l :
  (l < kMaxHeight)%nat -> Node_Next s (p l) l = Some (head (level s l hi)).
Proof.
  intros Hl. pose proof (wf_linked _ _ Hwf l Hl) as Hpath.
  rewrite Horder, level_app in Hpath.
  apply path_app in Hpath as [Hpath _]. apply path_last in Hpath.
  unfold p. rewrite Hpath. destruct (level s l hi); reflexivity.
Qed.

(** The links after the levels below [a] are done. *)
Record linked_below (a : nat) (t : SkipList) : Prop := {
  lb_length : length (nodes_ t) = S n;
  lb_max : max_height_ t = max_height_ s1;
  lb_rnd : rnd_ t = rnd_ s1;
  lb_key : forall z, key_of t z = key_of s1 z;
  lb_height : forall z, height t z = height s1 z;
  lb_next : forall z l,
    Node_Next t z l
    = if decide (l < a)%nat then
        if decide (z = n) then Node_Next s (p l) l
        else if decide (z = p l) then Some (Some n)
        else Node_Next s1 z l
      else Node_Next s1 z l
}.

Lemma linked_below_0 : linked_below 0 s1.
Proof.
  split; try reflexivity.
  rewrite Hnodes1, length_app. simpl. unfold n. lia.
Qed.

Lemma height_new : height s1 n = h.
Proof. unfold height. rewrite new_lookup. cbn [next_]. apply length_replicate. Qed.

Lemma height_old x : (x < n)%nat -> height s1 x = height s x.
Proof. intros Hx. unfold height. rewrite old_lookup by exact Hx. reflexivity. Qed.

Lemma key_old x : (x < n)%nat -> key_of s1 x = key_of s x.
Proof. intros Hx. unfold key_of. rewrite old_lookup by exact Hx. reflexivity. Qed.

Lemma key_new : key_of s1 n = k.
Proof. unfold key_of. rewrite new_lookup. reflexivity. Qed.

Lemma next_old x l : (x < n)%nat -> Node_Next s1 x l = Node_Next s x l.
Proof. intros Hx. unfold Node_Next. rewrite old_lookup by exact Hx. reflexivity. Qed.

Lemma link_levels_spec (prev : list (option nat)) count : forall a t,
  (a + count = h)%nat -> linked_below a t ->
  (forall i, (i < h)%nat -> prev !! i = Some (Some (p i))) ->
  exists t', link_levels n prev (seq a count) t = Some t' /\ linked_below h t'.
Proof.
  induction count as [|count IH]; intros a t Ha Hlb Hprev; cbn [seq link_levels].
  - replace h with a by lia. eauto.
  - rewrite Hprev by lia.
    assert (Hal : (a < kMaxHeight)%nat) by lia.
    pose proof (p_old a) as Hpa.
    assert (Hnext : Node_Next t (p a) a = Some (head (level s a hi))).
    { rewrite (lb_next _ _ Hlb). destruct (decide (a < a)%nat); [lia|].
      rewrite next_old by exact Hpa. apply p_next. exact Hal. }
    rewrite Hnext.
    destruct (Node_SetNext_defined n a (head (level s a hi)) t) as [t1 Ht1].
    { rewrite (lb_height _ _ Hlb), height_new. lia. }
    rewrite Ht1.
    destruct (Node_SetNext_spec _ _ _ _ _ Ht1) as (Hlen1 & Hmax1 & Hrnd1 & Hkey1 & Hht1 & Hnx1).
    destruct (Node_SetNext_defined (p a) a (Some n) t1) as [t2 Ht2].
    { rewrite Hht1, (lb_height _ _ Hlb), height_old by exact Hpa.
      apply p_height. exact Hal. }
    rewrite Ht2.
    destruct (Node_SetNext_spec _ _ _ _ _ Ht2) as (Hlen2 & Hmax2 & Hrnd2 & Hkey2 & Hht2 & Hnx2).
    apply (IH (S a) t2); [lia| |exact Hprev].
    split.
    + rewrite Hlen2, Hlen1. apply (lb_length _ _ Hlb).
    + rewrite Hmax2, Hmax1. apply (lb_max _ _ Hlb).
    + rewrite Hrnd2, Hrnd1. apply (lb_rnd _ _ Hlb).
    + intros z. rewrite Hkey2, Hkey1. apply (lb_key _ _ Hlb).
    + intros z. rewrite Hht2, Hht1. apply (lb_height _ _ Hlb).
    + intros z l. rewrite Hnx2, Hnx1, (lb_next _ _ Hlb).
      destruct (decide (l = a)) as [->|Hne].
      * destruct (decide (a < S a)%nat); [|lia]. destruct (decide (a < a)%nat); [lia|].
        destruct (decide (z = p a /\ a = a)) as [[-> _]|Hno].
        -- destruct (decide (p a = n)); [lia|].
           destruct (decide (p a = p a)); [reflexivity|congruence].
        -- destruct (decide (z = n /\ a = a)) as [[-> _]|Hno'].
           ++ destruct (decide (n = n)); [|congruence]. symmetry. apply p_next. exact Hal.
           ++ destruct (decide (z = n)); [exfalso; apply Hno'; auto|].
              destruct (decide (z = p a)); [exfalso; apply Hno; auto|reflexivity].
      * destruct (decide (z = p a /\ l = a)) as [[_ ?]|_]; [congruence|].
        destruct (decide (z = n /\ l = a)) as [[_ ?]|_]; [congruence|].
        destruct (decide (l < a)%nat); destruct (decide (l < S a)%nat);
          try lia; reflexivity.
Qed.

Hypothesis Hmax1 :
  max_height_ s1 = if (max_height_ s <? h)%nat then h else max_height_ s.
Hypothesis Hlo : Forall (fun x => compare_ (key_of s x) k < 0) lo.
Hypothesis Hhi : Forall (fun x => compare_ k (key_of s x) < 0) hi.

Lemma level_linked t l A :
  linked_below h t -> (forall x, x ∈ A -> (x < n)%nat) -> level t l A = level s l A.
Proof.
  intros Hlb HA. apply level_ext. intros x Hx.
  rewrite (lb_height _ _ Hlb). apply height_old. apply HA. exact Hx.
Qed.

Lemma linked_wf t : linked_below h t -> wf t (lo ++ n :: hi).
Proof.
  intros Hlb.
  pose proof (wf_max _ _ Hwf) as Hmax. pose proof head_old as Hn.
  assert (Hmax' : (max_height_ s <= max_height_ s1 <= kMaxHeight)%nat
                  /\ (h <= max_height_ s1)%nat).
  { rewrite Hmax1. destruct (Nat.ltb_spec (max_height_ s) h); lia. }
  assert (Hlo_old : forall x, x ∈ lo -> (x < n)%nat).
  { intros x Hx. apply order_old. rewrite Horder. apply elem_of_app. auto. }
  assert (Hhi_old : forall x, x ∈ hi -> (x < n)%nat).
  { intros x Hx. apply order_old. rewrite Horder. apply elem_of_app. auto. }
  pose proof (wf_sorted _ _ Hwf) as Hsorted. rewrite Horder in Hsorted.
  apply sorted_nodes_app_inv in Hsorted as (Hslo & Hshi & Hlohi).
  pose proof (sorted_nodes_NoDup _ _ (wf_sorted _ _ Hwf)) as Hnd. rewrite Horder in Hnd.
  apply NoDup_app in Hnd as (Hndlo & Hdisj & Hndhi).
  split.
  - rewrite (lb_height _ _ Hlb), height_old by exact Hn. apply (wf_head _ _ Hwf).
  - rewrite (lb_max _ _ Hlb). lia.
  - assert (Hold : forall x, x ∈ order ->
              (0 < x < length (nodes_ t))%nat
              /\ (1 <= height t x <= max_height_ t)%nat).
    { intros x Hx. destruct (order_old x Hx) as [Hx1 Hx2].
      rewrite (lb_length _ _ Hlb), (lb_height _ _ Hlb), (lb_max _ _ Hlb).
      rewrite height_old by lia. lia. }
    apply Forall_app. split; [|constructor].
    + apply Forall_forall. intros x Hx. apply Hold. rewrite Horder.
      apply elem_of_app. auto.
    + rewrite (lb_length _ _ Hlb), (lb_height _ _ Hlb), (lb_max _ _ Hlb), height_new. lia.
    + apply Forall_forall. intros x Hx. apply Hold. rewrite Horder.
      apply elem_of_app. auto.
  - apply (sorted_nodes_ext s1); [intros x _; apply (lb_key _ _ Hlb)|].
    apply sorted_nodes_app.
    + apply (sorted_nodes_ext s); [|exact Hslo]. intros x Hx. apply key_old, Hlo_old, Hx.
    + constructor.
      * apply (sorted_nodes_ext s); [|exact Hshi]. intros x Hx. apply key_old, Hhi_old, Hx.
      * apply Forall_forall. intros x Hx. unfold lt_node.
        rewrite key_new, key_old by (apply Hhi_old; exact Hx).
        rewrite Forall_forall in Hhi. apply Hhi. exact Hx.
    + intros a b Ha Hb. unfold lt_node. rewrite (key_old a) by (apply Hlo_old; exact Ha).
      apply elem_of_cons in Hb as [->|Hb].
      * rewrite key_new. rewrite Forall_forall in Hlo. apply Hlo. exact Ha.
      * rewrite key_old by (apply Hhi_old; exact Hb). apply Hlohi; assumption.
  - intros l Hl. pose proof (wf_linked _ _ Hwf l Hl) as Hpath.
    rewrite Horder, level_app in Hpath.
    rewrite level_app. change (n :: hi) with ([n] ++ hi). rewrite level_app.
    rewrite (level_linked t l lo Hlb Hlo_old), (level_linked t l hi Hlb Hhi_old).
    set (A := level s l lo) in *. set (B := level s l hi) in *.
    assert (HA : forall y, y ∈ head_ :: A -> (y < n)%nat).
    { intros y Hy. apply elem_of_cons in Hy as [->|Hy]; [exact Hn|].
      apply elem_of_level in Hy as [_ Hy]. apply Hlo_old. exact Hy. }
    assert (HB : forall y, y ∈ B -> (y < n)%nat /\ y ∉ head_ :: A).
    { intros y Hy. apply elem_of_level in Hy as [_ Hy]. split; [apply Hhi_old; exact Hy|].
      intros Hin. apply elem_of_cons in Hin as [->|Hin].
      - assert (Hy' : head_ ∈ order) by (rewrite Horder; apply elem_of_app; auto).
        apply order_old in Hy'. unfold head_ in Hy'. lia.
      - apply elem_of_level in Hin as [_ Hin]. exact (Hdisj y Hin Hy). }
    assert (HpA : p l ∈ head_ :: A).
    { destruct (p_elem l) as [[-> _]|Hin]; [apply list_elem_of_here|].
      apply elem_of_cons. right. exact Hin. }
    destruct (decide (l < h)%nat) as [Hlh|Hlh].
    + assert (Hnew : level t l [n] = [n]).
      { unfold level. rewrite filter_cons_True; [reflexivity|].
        rewrite (lb_height _ _ Hlb), height_new. exact Hlh. }
      rewrite Hnew. cbn [app].
      apply path_app in Hpath as [HpathA HpathB]. apply path_app. split.
      * apply (path_redirect s t l A head_
                 (match B with [] => None | b :: _ => Some b end) (Some n));
          [| | |exact HpathA].
        -- constructor; [|apply NoDup_filter; exact Hndlo].
           intros Hin. apply elem_of_level in Hin as [_ Hin].
           assert (Hy' : head_ ∈ order) by (rewrite Horder; apply elem_of_app; auto).
           apply order_old in Hy'. unfold head_ in Hy'. lia.
        -- intros y Hy Hne. change (last0 head_ A) with (p l) in Hne.
           rewrite (lb_next _ _ Hlb).
           destruct (decide (l < h)%nat); [|lia].
           specialize (HA y Hy).
           destruct (decide (y = n)); [lia|].
           destruct (decide (y = p l)); [contradiction|]. apply next_old. exact HA.
        -- change (last0 head_ A) with (p l). rewrite (lb_next _ _ Hlb).
           destruct (decide (l < h)%nat); [|lia].
           pose proof (p_old l). destruct (decide (p l = n)); [lia|].
           destruct (decide (p l = p l)); [reflexivity|congruence].
      * assert (Hnn : Node_Next t n l = Some (head B)).
        { rewrite (lb_next _ _ Hlb). destruct (decide (l < h)%nat); [|lia].
          destruct (decide (n = n)); [|congruence]. apply p_next. exact Hl. }
        assert (Hsame : forall y, y ∈ B -> Node_Next t y l = Node_Next s y l).
        { intros y Hy. destruct (HB y Hy) as [Hy1 Hy2]. rewrite (lb_next _ _ Hlb).
          destruct (decide (l < h)%nat); [|lia].
          destruct (decide (y = n)); [lia|].
          destruct (decide (y = p l)) as [->|]; [contradiction|].
          apply next_old. exact Hy1. }
        destruct B as [|b B'] eqn:HeqB; cbn [path]; [exact Hnn|].
        split; [exact Hnn|]. apply (path_ext s); [|exact HpathB].
        intros y Hy. apply Hsame. exact Hy.
    + assert (Hnew : level t l [n] = []).
      { unfold level. rewrite filter_cons_False; [reflexivity|].
        rewrite (lb_height _ _ Hlb), height_new. exact Hlh. }
      rewrite Hnew. cbn [app]. apply (path_ext s); [|exact Hpath].
      intros y Hy. rewrite (lb_next _ _ Hlb). destruct (decide (l < h)%nat); [lia|].
      apply next_old. rewrite app_comm_cons in Hy. apply elem_of_app in Hy as [Hy|Hy].
      * apply HA. exact Hy.
      * apply HB. exact Hy.
Qed.

End Link.

(** [Insert] of a key that no node holds puts a new node at its
    place. *)
Lemma Insert_places_node s order k fuel :
  wf s order ->
  (forall x, x ∈ order -> compare_ k (key_of s x) <> 0) ->
  (kMaxHeight * (length order + 1) <= fuel)%nat ->
  exists s' lo hi,
    Insert compare_ fuel k s = Some s'
    /\ order = lo ++ hi
    /\ wf s' (lo ++ length (nodes_ s) :: hi)
    /\ key_of s' (length (nodes_ s)) = k
    /\ (forall x, x ∈ order -> key_of s' x = key_of s x)
    /\ length (nodes_ s') = S (length (nodes_ s)).
Proof.
  intros Hwf Hnew Hfuel.
  destruct (split_at s k order (wf_sorted _ _ Hwf)) as (lo & hi & Horder & Hlo & Hhi).
  pose proof (wf_max _ _ Hwf) as Hmax.
  unfold Insert.
  rewrite (FindGreaterOrEqual_spec s k order lo hi Hwf Horder Hlo Hhi fuel _ Hfuel).
  cbn [fmap option_fmap option_map].
  assert (Hdistinct :
            match head hi with
            | Some id =>
                match nodes_ s !! id with
                | Some node => Some (negb (Equal compare_ k (key node)))
                | None => None
                end
            | None => Some true
            end = Some true).
  { destruct hi as [|x hi']; [reflexivity|]. cbn [head].
    assert (Hx : x ∈ order).
    { rewrite Horder. apply elem_of_app. right. apply list_elem_of_here. }
    destruct (node_defined s order Hwf x Hx) as (node & -> & Hkey).
    f_equal. unfold Equal. rewrite <- Hkey.
    destruct (Z.eqb_spec (compare_ k (key_of s x)) 0) as [Hz|]; [|reflexivity].
    exfalso. exact (Hnew x Hx Hz). }
  rewrite Hdistinct.
  destruct (RandomHeight_spec (rnd_ s)) as (h & rnd' & -> & Hh).
  set (P := fill_prev s lo (max_height_ s - 1) (replicate kMaxHeight None)).
  set (prev := if (max_height_ s <? h)%nat
               then fold_left (fun prev i => <[i := Some head_]> prev)
                              (seq (max_height_ s) (h - max_height_ s)) P
               else P).
  set (max_height := if (max_height_ s <? h)%nat then h else max_height_ s).
  unfold NewNode. cbn [nodes_ max_height_ rnd_].
  set (s1 := {| nodes_ := nodes_ s ++ [ {| key := k; next_ := replicate h None |} ];
                max_height_ := max_height; rnd_ := rnd' |}).
  assert (HP : forall i, (i < max_height_ s)%nat ->
                         P !! i = Some (Some (last0 head_ (level s i lo)))).
  { intros i Hi. unfold P. rewrite fill_prev_lookup by (rewrite length_replicate; lia).
    destruct (decide (i <= max_height_ s - 1)%nat); [reflexivity|lia]. }
  assert (HPlen : length P = kMaxHeight).
  { unfold P. rewrite length_fill_prev. apply length_replicate. }
  assert (Hprev : forall i, (i < h)%nat ->
                            prev !! i = Some (Some (last0 head_ (level s i lo)))).
  { intros i Hi. unfold prev. destruct (Nat.ltb_spec (max_height_ s) h) as [Hgrow|Hkeep].
    - rewrite fold_insert_lookup.
      destruct (decide ((max_height_ s <= i < max_height_ s + (h - max_height_ s))%nat
                        /\ (i < length P)%nat)) as [[Hi' _]|Hno].
      + rewrite level_none; [reflexivity|].
        pose proof (wf_ids _ _ Hwf) as Hids. rewrite Horder in Hids.
        apply Forall_app in Hids as [Hids _].
        eapply Forall_impl; [exact Hids|]. cbn. intros x [_ Hx]. lia.
      + apply HP. lia.
    - apply HP. lia. }
  destruct (link_levels_spec s k order lo hi Hwf Horder h Hh s1 eq_refl prev h 0 s1)
    as (s' & Hs' & Hlb); [lia|apply (linked_below_0 s k lo h Hh s1 eq_refl)|exact Hprev|].
  exists s', lo, hi. split; [exact Hs'|]. split; [exact Horder|].
  assert (Hhi' : Forall (fun x => compare_ k (key_of s x) < 0) hi).
  { apply Forall_forall. intros x Hx.
    assert (Hx' : x ∈ order) by (rewrite Horder; apply elem_of_app; auto).
    rewrite Forall_forall in Hhi. specialize (Hhi x Hx).
    pose proof (compare_total _ _ Hhi). specialize (Hnew x Hx'). lia. }
  split; [|split; [|split]].
  - apply (linked_wf s k order lo hi Hwf Horder h Hh s1 eq_refl eq_refl Hlo Hhi' s' Hlb).
  - rewrite (lb_key _ _ _ _ _ Hlb). apply (key_new s k h Hh s1 eq_refl).
  - intros x Hx. rewrite (lb_key _ _ _ _ _ Hlb). apply (key_old s k h s1 eq_refl).
    pose proof (wf_ids _ _ Hwf) as Hids. rewrite Forall_forall in Hids.
    apply (Hids x Hx).
  - apply (lb_length _ _ _ _ _ Hlb).
Qed.

(** [Contains] tells whether a node holds the key. *)
Lemma Contains_tells s order k fuel :
  wf s order -> (kMaxHeight * (length order + 1) <= fuel)%nat ->
  exists b,
    Contains compare_ fuel k s = Some b
    /\ (b = true <-> exists x, x ∈ order /\ compare_ k (key_of s x) = 0).
Proof.
  intros Hwf Hfuel.
  destruct (split_at s k order (wf_sorted _ _ Hwf)) as (lo & hi & Horder & Hlo & Hhi).
  unfold Contains.
  rewrite (FindGreaterOrEqual_spec s k order lo hi Hwf Horder Hlo Hhi fuel _ Hfuel).
  assert (Hnot_lo : forall y, y ∈ lo -> compare_ k (key_of s y) <> 0).
  { intros y Hy. rewrite Forall_forall in Hlo. specialize (Hlo y Hy).
    pose proof (compare_lt_flip _ _ Hlo). lia. }
  destruct hi as [|x hi']; cbn [head].
  - exists false. split; [reflexivity|]. split; [discriminate|].
    intros (y & Hy & Hz). rewrite Horder, app_nil_r in Hy. exfalso.
    exact (Hnot_lo y Hy Hz).
  - assert (Hx : x ∈ order).
    { rewrite Horder. apply elem_of_app. right. apply list_elem_of_here. }
    destruct (node_defined s order Hwf x Hx) as (node & -> & Hkey).
    eexists. split; [reflexivity|]. unfold Equal. rewrite <- Hkey. split.
    + intros Hb. apply Z.eqb_eq in Hb. eauto.
    + intros (y & Hy & Hz). apply Z.eqb_eq.
      rewrite Horder in Hy. apply elem_of_app in Hy as [Hy|Hy];
        [exfalso; exact (Hnot_lo y Hy Hz)|].
      apply elem_of_cons in Hy as [->|Hy]; [exact Hz|]. exfalso.
      pose proof (wf_sorted _ _ Hwf) as Hsorted. rewrite Horder in Hsorted.
      apply sorted_nodes_app_inv in Hsorted as (_ & Hshi & _).
      apply StronglySorted_inv in Hshi as [_ Hxlt].
      rewrite Forall_forall in Hxlt. specialize (Hxlt y Hy). unfold lt_node in Hxlt.
      assert (Hyk : compare_ (key_of s y) k <= 0) by (apply compare_total; lia).
      pose proof (compare_lt_le _ _ _ Hxlt Hyk) as Hcontra.
      apply Forall_cons in Hhi as [Hxk _]. lia.
Qed.

Lemma key_ext (s' s : SkipList) (A : list nat) :
  (forall x, x ∈ A -> key_of s' x = key_of s x) -> key_of s' <$> A = key_of s <$> A.
Proof.
  intros H. apply list_fmap_ext. intros i x Hx. apply H.
  apply list_elem_of_lookup. eauto.
Qed.

Lemma new_SkipList_wf : wf (new_SkipList key0) [].
Proof.
  split.
  - reflexivity.
  - cbn. unfold kMaxHeight. lia.
  - constructor.
  - constructor.
  - intros l Hl. cbn [level filter path]. unfold Node_Next. cbn.
    unfold kMaxHeight in Hl. do 12 (destruct l as [|l]; [reflexivity|]). lia.
Qed.

(** Every key differs from the keys before it. *)
Fixpoint distinct (keys : list Key) : Prop :=
  match keys with
  | [] => True
  | k :: rest => (forall k', k' ∈ rest -> compare_ k' k <> 0) /\ distinct rest
  end.

Lemma insert_all_spec fuel keys : forall s order done,
  wf s order -> key_of s <$> order ≡ₚ done ->
  (forall k k', k ∈ keys -> k' ∈ done -> compare_ k k' <> 0) ->
  distinct keys ->
  (kMaxHeight * (length order + length keys + 1) <= fuel)%nat ->
  exists s' order',
    insert_all compare_ fuel keys s = Some s'
    /\ wf s' order'
    /\ key_of s' <$> order' ≡ₚ done ++ keys
    /\ length (nodes_ s') = (length (nodes_ s) + length keys)%nat.
Proof.
  induction keys as [|k keys IH]; intros s order done Hwf Hdone Hfresh Hdist Hfuel;
    cbn [insert_all].
  - exists s, order. rewrite app_nil_r, Nat.add_0_r. auto.
  - destruct Hdist as [Hk Hdist].
    destruct (Insert_places_node s order k fuel Hwf)
      as (s1 & lo & hi & -> & Horder & Hwf1 & Hknew & Hkold & Hlen1).
    { intros x Hx. apply Hfresh; [apply list_elem_of_here|].
      rewrite <- Hdone. apply list_elem_of_fmap_2. exact Hx. }
    { unfold kMaxHeight in *. simpl in Hfuel. lia. }
    assert (Hdone1 : key_of s1 <$> lo ++ length (nodes_ s) :: hi ≡ₚ done ++ [k]).
    { rewrite fmap_app, fmap_cons, Hknew. rewrite <- Hdone, Horder, fmap_app.
      rewrite (key_ext s1 s lo), (key_ext s1 s hi).
      - rewrite <- Permutation_middle, <- Permutation_cons_append. reflexivity.
      - intros x Hx. apply Hkold. rewrite Horder. apply elem_of_app. auto.
      - intros x Hx. apply Hkold. rewrite Horder. apply elem_of_app. auto. }
    destruct (IH s1 _ (done ++ [k]) Hwf1 Hdone1)
      as (s' & order' & -> & Hwf' & Hdone' & Hlen').
    { intros k1 k' Hk1 Hk'. apply elem_of_app in Hk' as [Hk'|Hk'].
      - apply Hfresh; [apply elem_of_cons; auto|exact Hk'].
      - apply list_elem_of_singleton in Hk'. subst k'. apply Hk. exact Hk1. }
    { exact Hdist. }
    { rewrite length_app in *. cbn [length] in *. unfold kMaxHeight in *.
      rewrite Horder, length_app in Hfuel. lia. }
    exists s', order'. split; [reflexivity|]. split; [exact Hwf'|]. split.
    + rewrite Hdone', <- app_assoc. reflexivity.
    + rewrite Hlen', Hlen1. cbn [length]. lia.
Qed.

Section SearchBack.

Variable s : SkipList.
Variable k : Key.
Variables order lo hi : list nat.
Hypothesis Hwf : wf s order.
Hypothesis Horder : order = lo ++ hi.
Hypothesis Hlo : Forall (fun x => compare_ (key_of s x) k < 0) lo.
Hypothesis Hhi : Forall (fun x => 0 <= compare_ (key_of s x) k) hi.

Lemma level_lo_0 : level s 0 lo = lo.
Proof.
  apply level_all. pose proof (wf_ids _ _ Hwf) as Hids.
  rewrite Horder in Hids. apply Forall_app in Hids as [Hids _].
  eapply Forall_impl; [exact Hids|]. intros x [_ Hx]. exact (proj1 Hx).
Qed.

(** The node the search is at passes the assertion of [FindLessThan]. *)
Lemma search_at lev pre post :
  level s lev lo = pre ++ post ->
  exists node,
    nodes_ s !! last0 head_ pre = Some node
    /\ bool_decide (last0 head_ pre = head_) || (compare_ (key node) k <? 0) = true.
Proof.
  intros Hsplit. destruct (last0_elem head_ pre) as [[-> _]|Hin].
  - pose proof (wf_head _ _ Hwf) as Hhd. unfold height in Hhd.
    destruct (nodes_ s !! head_) as [node|]; [|discriminate].
    exists node. split; [reflexivity|]. rewrite bool_decide_eq_true_2 by reflexivity.
    reflexivity.
  - assert (Hx : last0 head_ pre ∈ lo).
    { apply (elem_of_level s lev). rewrite Hsplit. apply elem_of_app. auto. }
    destruct (node_defined s order Hwf (last0 head_ pre)) as (node & Hnode & Hkey).
    { rewrite Horder. apply elem_of_app. auto. }
    exists node. split; [exact Hnode|]. rewrite <- Hkey.
    rewrite Forall_forall in Hlo. specialize (Hlo _ Hx).
    destruct (Z.ltb_spec (compare_ (key_of s (last0 head_ pre)) k) 0); [|lia].
    apply orb_true_r.
Qed.

Lemma FindLessThan_loop_spec fuel : forall lev pre post,
  (lev < kMaxHeight)%nat -> level s lev lo = pre ++ post ->
  (length post + lev * (length lo + 1) + 1 <= fuel)%nat ->
  FindLessThan_loop compare_ fuel s k (last0 head_ pre) lev = Some (last0 head_ lo).
Proof.
  induction fuel as [|fuel IH]; intros lev pre post Hlev Hsplit Hfuel; [lia|].
  cbn [FindLessThan_loop].
  destruct (search_at lev pre post Hsplit) as (node & -> & ->).
  rewrite (search_next s order lo hi Hwf Horder lev pre post Hlev Hsplit).
  assert (Hdown :
            match lev with
            | O => Some (last0 head_ pre)
            | S lev' => FindLessThan_loop compare_ fuel s k (last0 head_ pre) lev'
            end = Some (last0 head_ lo) \/ post <> []).
  { destruct post as [|y post]; [left|right; discriminate].
    rewrite app_nil_r in Hsplit. destruct lev as [|l].
    - rewrite <- Hsplit, level_lo_0. reflexivity.
    - destruct (level_down s l lo) as (pre' & post' & Hsplit' & Hlast & Hlen).
      rewrite <- Hsplit, <- Hlast.
      apply (IH l pre' post'); [lia|exact Hsplit'|]. simpl in Hfuel. nia. }
  destruct post as [|y post].
  - destruct Hdown as [Hdown|Hne]; [|congruence]. cbn [app].
    destruct (level s lev hi) as [|z rest] eqn:Hl; cbn [head]; [exact Hdown|].
    assert (Hz : z ∈ hi).
    { apply (elem_of_level s lev). rewrite Hl. apply list_elem_of_here. }
    destruct (node_defined s order Hwf z) as (node' & -> & Hkey).
    { rewrite Horder. apply elem_of_app. auto. }
    rewrite <- Hkey. rewrite Forall_forall in Hhi. specialize (Hhi z Hz).
    destruct (Z.leb_spec 0 (compare_ (key_of s z) k)); [exact Hdown|lia].
  - cbn [app head].
    assert (Hy : y ∈ lo).
    { apply (elem_of_level s lev). rewrite Hsplit. apply elem_of_app. right.
      apply list_elem_of_here. }
    destruct (node_defined s order Hwf y) as (node' & -> & Hkey).
    { rewrite Horder. apply elem_of_app. auto. }
    rewrite <- Hkey. rewrite Forall_forall in Hlo. specialize (Hlo y Hy).
    destruct (Z.leb_spec 0 (compare_ (key_of s y) k)); [lia|].
    rewrite <- (last0_snoc head_ pre y).
    apply (IH lev (pre ++ [y]) post); [exact Hlev| |simpl in Hfuel; lia].
    rewrite Hsplit, <- app_assoc. reflexivity.
Qed.

Lemma FindLessThan_spec fuel :
  (kMaxHeight * (length order + 1) <= fuel)%nat ->
  FindLessThan compare_ fuel s k = Some (last0 head_ lo).
Proof.
  intros Hfuel. unfold FindLessThan. pose proof (wf_max _ _ Hwf) as Hmax.
  destruct (max_height_ s) as [|mh] eqn:Hmh; [lia|].
  apply (FindLessThan_loop_spec fuel mh [] (level s mh lo)); [lia|reflexivity|].
  pose proof (length_level s mh lo). rewrite Horder, length_app in Hfuel.
  unfold kMaxHeight in *. nia.
Qed.

End SearchBack.

Lemma FindLast_loop_spec s order fuel :
  wf s order ->
  forall lev pre post,
    (lev < kMaxHeight)%nat -> level s lev order = pre ++ post ->
    (length post + lev * (length order + 1) + 1 <= fuel)%nat ->
    FindLast_loop fuel s (last0 head_ pre) lev = Some (last0 head_ order).
Proof.
  intros Hwf. pose proof (eq_sym (app_nil_r order)) as Horder.
  induction fuel as [|fuel IH]; intros lev pre post Hlev Hsplit Hfuel; [lia|].
  cbn [FindLast_loop].
  rewrite (search_next s order order [] Hwf Horder lev pre post Hlev Hsplit).
  cbn [level filter]. rewrite app_nil_r.
  destruct post as [|y post]; cbn [head].
  - rewrite app_nil_r in Hsplit. destruct lev as [|l].
    + rewrite <- Hsplit. f_equal. f_equal.
      apply (level_lo_0 s order order [] Hwf Horder).
    + destruct (level_down s l order) as (pre' & post' & Hsplit' & Hlast & Hlen).
      rewrite <- Hsplit, <- Hlast.
      apply (IH l pre' post'); [lia|exact Hsplit'|]. simpl in Hfuel. nia.
  - rewrite <- (last0_snoc head_ pre y).
    apply (IH lev (pre ++ [y]) post); [exact Hlev| |simpl in Hfuel; lia].
    rewrite Hsplit, <- app_assoc. reflexivity.
Qed.

Lemma FindLast_spec s order fuel :
  wf s order -> (kMaxHeight * (length order + 1) <= fuel)%nat ->
  FindLast fuel s = Some (last0 head_ order).
Proof.
  intros Hwf Hfuel. unfold FindLast. pose proof (wf_max _ _ Hwf) as Hmax.
  destruct (max_height_ s) as [|mh] eqn:Hmh; [lia|].
  apply (FindLast_loop_spec s order fuel Hwf mh [] (level s mh order)); [lia|reflexivity|].
  pose proof (length_level s mh order). unfold kMaxHeight in *. nia.
Qed.

(** An iterator over a sequence of keys in memory: a position in the
    sequence, its length where the iterator is not valid. *)
Definition cursor_call (L : list Key) (c : IterCall Key) (p : nat) : option nat :=
  match c with
  | CallSeekToFirst => Some O
  | CallSeekToLast => Some (Nat.pred (length L))
  | CallSeek target => Some (length (filter (fun k' => compare_ k' target < 0) L))
  | CallNext => if (p <? length L)%nat then Some (S p) else None
  | CallPrev =>
      if (p <? length L)%nat
      then Some (match p with O => length L | S p' => p' end)
      else None
  end.

Fixpoint cursor_calls (L : list Key) (cs : list (IterCall Key)) (p : nat) : option nat :=
  match cs with
  | [] => Some p
  | c :: cs =>
      match cursor_call L c p with
      | Some p => cursor_calls L cs p
      | None => None
      end
  end.

Lemma path_lookup s l A : forall x e i y,
  path s l x A e -> A !! i = Some y ->
  Node_Next s y l = Some (match A !! S i with Some z => Some z | None => e end).
Proof.
  induction A as [|a A IH]; intros x e i y Hpath Hy; [discriminate|].
  destruct Hpath as [_ Hpath]. destruct i as [|i].
  - injection Hy as ->. cbn [lookup list_lookup]. destruct A as [|b A]; cbn [path] in *.
    + exact Hpath.
    + exact (proj1 Hpath).
  - apply (IH a e i y Hpath Hy).
Qed.

Lemma filter_keys_before s t lo hi :
  Forall (fun x => compare_ (key_of s x) t < 0) lo ->
  Forall (fun x => 0 <= compare_ (key_of s x) t) hi ->
  length (filter (fun k' => compare_ k' t < 0) (key_of s <$> lo ++ hi)) = length lo.
Proof.
  intros Hlo Hhi. rewrite fmap_app, filter_app, length_app.
  assert (H1 : filter (fun k' => compare_ k' t < 0) (key_of s <$> lo) = key_of s <$> lo).
  { induction Hlo as [|x lo Hx _ IH]; [reflexivity|].
    cbn [fmap list_fmap]. rewrite filter_cons_True by exact Hx. f_equal. exact IH. }
  assert (H2 : filter (fun k' => compare_ k' t < 0) (key_of s <$> hi) = []).
  { induction Hhi as [|x hi Hx _ IH]; [reflexivity|].
    cbn [fmap list_fmap]. rewrite filter_cons_False by lia. exact IH. }
  rewrite H1, H2, length_fmap. simpl. lia.
Qed.

Lemma last0_lookup (A : list nat) :
  A <> [] -> A !! Nat.pred (length A) = Some (last0 head_ A).
Proof.
  destruct A as [|y A] using rev_ind; [congruence|]. intros _.
  rewrite last0_snoc, length_app. cbn [length]. rewrite Nat.add_1_r. cbn [Nat.pred].
  rewrite lookup_app_r by lia. rewrite Nat.sub_diag. reflexivity.
Qed.

Lemma not_head s order x : wf s order -> x ∈ order -> x <> head_.
Proof.
  intros Hwf Hx. pose proof (wf_ids _ _ Hwf) as Hids. rewrite Forall_forall in Hids.
  specialize (Hids x Hx). unfold head_. lia.
Qed.

(** One call on an iterator at the node of position [p]. *)
Lemma Iterator_call_sim s order fuel c p :
  wf s order -> (kMaxHeight * (length order + 1) <= fuel)%nat ->
  Iterator_call compare_ fuel s c (order !! p)
  = (fun p' => order !! p') <$> cursor_call (key_of s <$> order) c p.
Proof.
  intros Hwf Hfuel. pose proof (eq_sym (app_nil_r order)) as Hall.
  destruct c as [| |target| |]; cbn [Iterator_call cursor_call fmap option_fmap option_map];
    rewrite ?length_fmap.
  - unfold Iterator_SeekToFirst.
    pose proof (wf_linked _ _ Hwf 0%nat ltac:(unfold kMaxHeight; lia)) as Hpath.
    rewrite (level_lo_0 s order order [] Hwf Hall) in Hpath.
    destruct order as [|x order']; cbn [path] in Hpath; [exact Hpath|exact (proj1 Hpath)].
  - unfold Iterator_SeekToLast. rewrite (FindLast_spec s order fuel Hwf Hfuel). f_equal.
    destruct (decide (order = [])) as [->|Hne]; [reflexivity|].
    rewrite (last0_lookup order Hne).
    destruct (last0_elem head_ order) as [[_ ?]|Hin]; [contradiction|].
    rewrite bool_decide_eq_false_2 by exact (not_head s order _ Hwf Hin). reflexivity.
  - destruct (split_at s target order (wf_sorted _ _ Hwf)) as (lo & hi & Horder & Hlo & Hhi).
    unfold Iterator_Seek. subst order.
    rewrite (FindGreaterOrEqual_spec s target (lo ++ hi) lo hi Hwf eq_refl Hlo Hhi fuel _
               Hfuel).
    cbn [fmap option_fmap option_map fst]. f_equal.
    rewrite (filter_keys_before s target lo hi Hlo Hhi).
    rewrite lookup_app_r by lia. rewrite Nat.sub_diag. apply head_lookup.
  - destruct (order !! p) as [x|] eqn:Hx.
    + pose proof (lookup_lt_Some _ _ _ Hx) as Hp.
      destruct (Nat.ltb_spec p (length order)); [|lia].
      cbn [Iterator_Next fmap option_fmap option_map].
      pose proof (wf_linked _ _ Hwf 0%nat ltac:(unfold kMaxHeight; lia)) as Hpath.
      rewrite (level_lo_0 s order order [] Hwf Hall) in Hpath.
      rewrite (path_lookup s 0 order head_ None p x Hpath Hx).
      destruct (order !! S p); reflexivity.
    + apply lookup_ge_None in Hx.
      destruct (Nat.ltb_spec p (length order)); [lia|]. reflexivity.
  - destruct (order !! p) as [x|] eqn:Hx.
    + pose proof (lookup_lt_Some _ _ _ Hx) as Hp.
      destruct (Nat.ltb_spec p (length order)); [|lia].
      cbn [Iterator_Prev fmap option_fmap option_map].
      assert (Hin : x ∈ order) by (apply list_elem_of_lookup; eauto).
      destruct (node_defined s order Hwf x Hin) as (node & -> & Hkey). rewrite <- Hkey.
      pose proof (wf_sorted _ _ Hwf) as Hsorted.
      rewrite <- (take_drop p order) in Hsorted.
      apply sorted_nodes_app_inv in Hsorted as (_ & Hsdrop & Hlt).
      assert (Hdrop : drop p order = x :: drop (S p) order).
      { apply drop_S. exact Hx. }
      rewrite (FindLessThan_spec s (key_of s x) order (take p order) (drop p order) Hwf
                 (eq_sym (take_drop p order))); [| | |exact Hfuel].
      * f_equal. destruct p as [|p'].
        -- rewrite take_0. cbn. rewrite lookup_ge_None_2 by lia. reflexivity.
        -- destruct (lookup_lt_is_Some_2 order p' ltac:(lia)) as [y Hy].
           rewrite (take_S_r _ _ _ Hy), last0_snoc, Hy.
           rewrite bool_decide_eq_false_2; [reflexivity|].
           apply (not_head s order); [exact Hwf|]. apply list_elem_of_lookup. eauto.
      * apply Forall_forall. intros y Hy. apply (Hlt y x Hy).
        rewrite Hdrop. apply list_elem_of_here.
      * apply Forall_forall. intros y Hy. rewrite Hdrop in Hy, Hsdrop.
        apply elem_of_cons in Hy as [->|Hy].
        -- pose proof (compare_irrefl (key_of s x)). lia.
        -- apply StronglySorted_inv in Hsdrop as [_ Hall'].
           rewrite Forall_forall in Hall'. specialize (Hall' y Hy).
           pose proof (compare_lt_flip _ _ Hall'). lia.
    + apply lookup_ge_None in Hx.
      destruct (Nat.ltb_spec p (length order)); [lia|]. reflexivity.
Qed.

Lemma Iterator_key_sim s order p :
  wf s order -> Iterator_key s (order !! p) = (key_of s <$> order) !! p.
Proof.
  intros Hwf. rewrite list_lookup_fmap. destruct (order !! p) as [x|] eqn:Hx; [|reflexivity].
  cbn [Iterator_key fmap option_fmap option_map].
  destruct (node_defined s order Hwf x) as (node & -> & ->);
    [apply list_elem_of_lookup; eauto|reflexivity].
Qed.

Lemma Iterator_calls_sim s order fuel cs : forall p,
  wf s order -> (kMaxHeight * (length order + 1) <= fuel)%nat ->
  Iterator_key s <$> Iterator_calls compare_ fuel s cs (order !! p)
  = (fun p' => (key_of s <$> order) !! p') <$> cursor_calls (key_of s <$> order) cs p.
Proof.
  induction cs as [|c cs IH]; intros p Hwf Hfuel; cbn [Iterator_calls cursor_calls].
  - cbn. f_equal. apply Iterator_key_sim. exact Hwf.
  - rewrite (Iterator_call_sim s order fuel c p Hwf Hfuel).
    destruct (cursor_call (key_of s <$> order) c p) as [p'|]; [|reflexivity].
    cbn [fmap option_fmap option_map]. apply IH; assumption.
Qed.

Lemma sorted_keys s order :
  StronglySorted (lt_node s) order ->
  StronglySorted (fun a b => compare_ a b < 0) (key_of s <$> order).
Proof.
  induction 1 as [|x order _ IH Hx]; cbn [fmap list_fmap]; constructor; [exact IH|].
  apply Forall_fmap. exact Hx.
Qed.

End WithKey.

Arguments distinct {Key} _ _.
Arguments cursor_call {Key} _ _ _ _.
Arguments cursor_calls {Key} _ _ _ _.
Arguments key_of {Key} _ _ _.
Arguments height {Key} _ _.

(** X29.  A skip list holds the keys inserted.  For a comparator that is
    a three-way comparison of a total order and keys of which no two
    compare equal: [Insert] of the keys one after the other, into a new
    list, fails no assertion, and every search ends within
    [kMaxHeight * (n + 1)] rounds for [n] keys, whatever heights
    [RandomHeight] gives the nodes; after that the list has one node for
    each key besides its head, and [Contains] answers true for a key
    exactly when it compares equal to one of the keys inserted. *)
Theorem skiplist_Contains_inserted
        (Key : Type) (compare_ : Key -> Key -> Z) (key0 : Key)
        (keys : list Key) (fuel : nat) (k : Key) :
  (forall a b c, compare_ a b <= 0 -> compare_ b c <= 0 -> compare_ a c <= 0) ->
  (forall a b, 0 <= compare_ a b -> compare_ b a <= 0) ->
  (forall a b, compare_ a b <= 0 -> 0 <= compare_ b a) ->
  distinct compare_ keys ->
  (kMaxHeight * (length keys + 1) <= fuel)%nat ->
  exists s b,
    insert_all compare_ fuel keys (new_SkipList key0) = Some s
    /\ length (nodes_ s) = S (length keys)
    /\ Contains compare_ fuel k s = Some b
    /\ (b = true <-> exists k', k' ∈ keys /\ compare_ k k' = 0).
Proof.
  intros Htrans Htotal Hsign Hdist Hfuel.
  destruct (insert_all_spec Key compare_ key0 Htrans Htotal Hsign fuel keys
              (new_SkipList key0) [] [] (new_SkipList_wf Key compare_ key0))
    as (s & order & Hs & Hwf & Hperm & Hnodes);
    [reflexivity| |exact Hdist|simpl; unfold kMaxHeight in *; lia|].
  { intros k1 k' _ Hk'. apply elem_of_nil in Hk'. tauto. }
  cbn [app] in Hperm.
  assert (Hlen : length order = length keys).
  { rewrite <- (length_fmap (key_of key0 s)). apply Permutation_length. exact Hperm. }
  destruct (Contains_tells Key compare_ key0 Htrans Htotal Hsign s order k fuel Hwf)
    as (b & Hb & Hiff); [rewrite Hlen; exact Hfuel|].
  exists s, b. split; [exact Hs|]. split; [|split; [exact Hb|]].
  - exact Hnodes.
  - rewrite Hiff. split.
    + intros (x & Hx & Hz). exists (key_of key0 s x). split; [|exact Hz].
      rewrite <- Hperm. apply list_elem_of_fmap_2. exact Hx.
    + intros (k' & Hk' & Hz). rewrite <- Hperm in Hk'.
      apply list_elem_of_fmap in Hk' as (x & -> & Hx). eauto.
Qed.

(** X30.  An iterator over a skip list goes through the keys in
    increasing order.  For the list [s] of X29 there is a sequence [L] of
    the keys inserted, in increasing order, such that after any sequence
    of [SeekToFirst], [SeekToLast], [Seek], [Next] and [Prev] a new
    iterator over [s] is valid exactly when a position in [L] that is
    moved by the same calls is inside [L], and is then at the key of that
    position; the same calls fail an assertion on both.  [Seek] goes to
    the first key that is not before the target, [Prev] from the first
    key and [Next] from the last one leave the iterator not valid. *)
Theorem skiplist_iterator_in_order
        (Key : Type) (compare_ : Key -> Key -> Z) (key0 : Key)
        (keys : list Key) (fuel : nat) :
  (forall a b c, compare_ a b <= 0 -> compare_ b c <= 0 -> compare_ a c <= 0) ->
  (forall a b, 0 <= compare_ a b -> compare_ b a <= 0) ->
  (forall a b, compare_ a b <= 0 -> 0 <= compare_ b a) ->
  distinct compare_ keys ->
  (kMaxHeight * (length keys + 1) <= fuel)%nat ->
  exists s L,
    insert_all compare_ fuel keys (new_SkipList key0) = Some s
    /\ L ≡ₚ keys
    /\ StronglySorted (fun a b => compare_ a b < 0) L
    /\ forall cs,
         Iterator_key s <$> Iterator_calls compare_ fuel s cs new_Iterator
         = (fun p => L !! p) <$> cursor_calls compare_ L cs (length L).
Proof.
  intros Htrans Htotal Hsign Hdist Hfuel.
  destruct (insert_all_spec Key compare_ key0 Htrans Htotal Hsign fuel keys
              (new_SkipList key0) [] [] (new_SkipList_wf Key compare_ key0))
    as (s & order & Hs & Hwf & Hperm & _);
    [reflexivity| |exact Hdist|simpl; unfold kMaxHeight in *; lia|].
  { intros k1 k' _ Hk'. apply elem_of_nil in Hk'. tauto. }
  cbn [app] in Hperm.
  assert (Hlen : length order = length keys).
  { rewrite <- (length_fmap (key_of key0 s)). apply Permutation_length. exact Hperm. }
  exists s, (key_of key0 s <$> order). split; [exact Hs|]. split; [exact Hperm|].
  split; [apply sorted_keys, (wf_sorted _ _ _ _ _ Hwf)|].
  intros cs. rewrite length_fmap.
  rewrite <- (Iterator_calls_sim Key compare_ key0 Htrans Htotal Hsign s order fuel cs
                (length order) Hwf); [|rewrite Hlen; exact Hfuel].
  rewrite lookup_ge_None_2 by lia. reflexivity.
Qed.

(** Six keys that are integers, compared by their difference. *)
Definition sample_keys : list Z := [5; 1; 9; 3; 7; 2].

Lemma sample_keys_distinct : distinct Z.sub sample_keys.
Proof.
  cbn [distinct sample_keys].
  repeat split;
    intros k' Hk';
    repeat (apply elem_of_cons in Hk' as [->|Hk']; [lia|]);
    apply elem_of_nil in Hk'; tauto.
Qed.

Lemma skiplist_Contains_inserted_witness :
  exists s b,
    insert_all Z.sub 84 sample_keys (new_SkipList 0) = Some s
    /\ length (nodes_ s) = S (length sample_keys)
    /\ Contains Z.sub 84 3 s = Some b
    /\ (b = true <-> exists k', k' ∈ sample_keys /\ 3 - k' = 0).
Proof.
  apply (skiplist_Contains_inserted Z Z.sub 0 sample_keys 84 3).
  - intros a b c. lia.
  - intros a b. lia.
  - intros a b. lia.
  - exact sample_keys_distinct.
  - vm_compute. lia.
Defined.

Lemma skiplist_iterator_in_order_witness :
  exists s L,
    insert_all Z.sub 84 sample_keys (new_SkipList 0) = Some s
    /\ L ≡ₚ sample_keys
    /\ StronglySorted (fun a b => a - b < 0) L
    /\ forall cs,
         Iterator_key s <$> Iterator_calls Z.sub 84 s cs new_Iterator
         = (fun p => L !! p) <$> cursor_calls Z.sub L cs (length L).
Proof.
  apply (skiplist_iterator_in_order Z Z.sub 0 sample_keys 84).
  - intros a b c. lia.
  - intros a b. lia.
  - intros a b. lia.
  - exact sample_keys_distinct.
  - vm_compute. lia.
Defined.


(** The list of [sample_keys]: the height of the list and the links of
    each node, with the heights the generator of the source gives from its
    seed; two answers of [Contains]; and the key an iterator is at after
    some calls. *)
Example sample_keys_list :
  (fun s => (max_height_ s, next_ <$> nodes_ s))
    <$> insert_all Z.sub 84 sample_keys (new_SkipList 0)
  = Some (2%nat,
          [ [Some 2%nat; Some 1%nat; None; None; None; None; None; None; None; None;
             None; None];
            [Some 5%nat; None]; [Some 6%nat]; [None]; [Some 1%nat]; [Some 3%nat];
            [Some 4%nat] ])
  /\ (s ← insert_all Z.sub 84 sample_keys (new_SkipList 0);
      Some (Contains Z.sub 84 3 s, Contains Z.sub 84 4 s,
            (fun cs => Iterator_key s <$> Iterator_calls Z.sub 84 s cs new_Iterator)
              <$> [ [CallSeekToFirst]; [CallSeekToFirst; CallNext]; [CallSeek 4];
                    [CallSeek 4; CallPrev]; [CallSeekToLast];
                    [CallSeekToLast; CallNext]; [CallSeekToFirst; CallPrev];
                    [CallNext] ]))
     = Some (Some true, Some false,
             [Some (Some 1); Some (Some 2); Some (Some 5); Some (Some 3);
              Some (Some 9); Some None; Some None; None]).
Proof. split; vm_compute; reflexivity. Qed.

End SkipListFacts.
